(** * The LevelDB LRU cache (util/cache.cc)

    Shallow embedding of [LRUHandle], [HandleTable], [LRUCache] and
    [ShardedLRUCache], and the verification of the reference counting, the
    accounting of charges, the eviction order and the hash table of one
    shard, and of the routing of calls to the sixteen shards.

    Representation.
    - A pointer to a heap-allocated [LRUHandle] is an address ([addr]).  The
      records live in a finite map; [malloc] returns the next address that
      was never used and [free] removes the binding.  Reading through a
      pointer whose record has been freed has no defined result ([None]).
    - [uint32_t] and [size_t] fields are integers in [Z].  Every increment,
      decrement, addition, subtraction and doubling the code performs on them
      is followed by the wrap-around of its width ([wrap32], [wrap64]).
    - The link fields are kept as the sequences they thread.  A bucket of the
      hash table is the sequence of addresses met when following [next_hash]
      from the bucket head, and a pointer to a slot (the [LRUHandle**] of
      [FindPointer]) is a bucket index with a position in that sequence.
      Each circular doubly linked list is the sequence of addresses met when
      following [next] from its dummy head: its first element is [head.next]
      (the oldest entry), its last one is [head.prev] (the newest).  The
      dummy heads themselves carry no record, so the assertion of
      [LRUHandle::key], which only fails on a dummy head, has nothing to
      check.  The assignments the code makes to [next], [prev] and
      [next_hash] are written out separately ([LRU_Remove_links],
      [LRU_Append_links], [HT_Insert_links], [HT_Remove_links],
      [Resize_move_links], [FindPointer_links]) and shown to act on the
      linked structure as the sequence operations used here act on the
      sequence.
    - The shards of a [ShardedLRUCache] allocate from the same allocator and
      call the deleters of the same program: the sharded cache keeps the
      allocated records, the allocator's next address and the deleter log
      once, and a method of a shard runs on the shard's members and on that
      shared state.
    - A failing [assert] has no defined result ([None]).
    - Calling the deleter of [e] on [e->key()] and [e->value] appends a record
      to a log. *)

From stdpp Require Import base option list gmap strings.
From Stdlib Require Import ZArith Lia.

Local Open Scope Z_scope.

(** ** Machine integers *)

Definition wrap32 (x : Z) : Z := x mod 2 ^ 32.
Definition wrap64 (x : Z) : Z := x mod 2 ^ 64.

Definition is_uint32 (x : Z) : Prop := 0 <= x < 2 ^ 32.
Definition is_size_t (x : Z) : Prop := 0 <= x < 2 ^ 64.

Definition assert_ (b : bool) : option unit := if b then Some tt else None.

(** ** struct LRUHandle *)

Abbreviation addr := nat.

Record LRUHandle := {
  value : Z;          (* opaque pointer *)
  deleter : nat;      (* pointer to the deleter function *)
  charge : Z;         (* size_t *)
  key : string;       (* key_data[0 .. key_length) *)
  in_cache : bool;
  refs : Z;           (* uint32_t *)
  hash : Z            (* uint32_t *)
}.

Definition set_refs (r : Z) (e : LRUHandle) : LRUHandle :=
  {| value := value e; deleter := deleter e; charge := charge e; key := key e;
     in_cache := in_cache e; refs := r; hash := hash e |}.

Definition set_in_cache (b : bool) (e : LRUHandle) : LRUHandle :=
  {| value := value e; deleter := deleter e; charge := charge e; key := key e;
     in_cache := b; refs := refs e; hash := hash e |}.

(** One invocation of a deleter: the callback, its two arguments, and the
    entry on whose behalf it ran. *)
Record DeleterCall := {
  dc_entry : addr;
  dc_deleter : nat;
  dc_key : string;
  dc_value : Z
}.

(** ** class HandleTable *)

Record HandleTable := {
  length_ : Z;                 (* uint32_t: number of buckets *)
  elems_ : Z;                  (* uint32_t: number of entries *)
  list_ : list (list addr)     (* array of bucket chains *)
}.

(** [hash & (length - 1)] *)
Definition bucket (h len : Z) : nat := Z.to_nat (Z.land h (wrap32 (len - 1))).

(** The [while] loop of [FindPointer] along one chain: the position of the
    first entry whose hash and key both match, or the trailing slot. *)
Fixpoint FindPointer_walk (mem : gmap addr LRUHandle) (k : string) (h : Z)
    (chain : list addr) : option nat :=
  match chain with
  | [] => Some 0%nat
  | p :: rest =>
      e ← mem !! p;
      if negb (hash e =? h) || negb (bool_decide (k = key e))
      then S <$> FindPointer_walk mem k h rest
      else Some 0%nat
  end.

Definition FindPointer (mem : gmap addr LRUHandle) (t : HandleTable)
    (k : string) (h : Z) : option (nat * nat) :=
  let i := bucket h (length_ t) in
  chain ← list_ t !! i;
  j ← FindPointer_walk mem k h chain;
  Some (i, j).

Definition HT_Lookup (mem : gmap addr LRUHandle) (t : HandleTable)
    (k : string) (h : Z) : option (option addr) :=
  '(i, j) ← FindPointer mem t k h;
  chain ← list_ t !! i;
  Some (chain !! j).

(** The [while (new_length < elems_) new_length *= 2] loop of [Resize].
    The product wraps at 32 bits; once it has wrapped to 0 the loop never
    exits, so a bounded number of rounds decides it. *)
Fixpoint Resize_grow (fuel : nat) (new_length elems : Z) : option Z :=
  if new_length <? elems then
    match fuel with
    | O => None
    | S fuel' => Resize_grow fuel' (wrap32 (new_length * 2)) elems
    end
  else Some new_length.

(** Body of the inner loop of [Resize]: push [h] on the front of its new
    bucket and count it. *)
Definition Resize_move (mem : gmap addr LRUHandle) (new_length : Z)
    (acc : option (list (list addr) * Z)) (h : addr)
    : option (list (list addr) * Z) :=
  '(new_list, count) ← acc;
  e ← mem !! h;
  let b := bucket (hash e) new_length in
  chain ← new_list !! b;
  Some (<[b := h :: chain]> new_list, wrap32 (count + 1)).

Definition Resize (mem : gmap addr LRUHandle) (t : HandleTable)
    : option HandleTable :=
  new_length ← Resize_grow 32 4 (elems_ t);
  let new_list := replicate (Z.to_nat new_length) [] in
  '(new_list, count) ←
     foldl (Resize_move mem new_length) (Some (new_list, 0))
           (concat (list_ t));
  assert_ (elems_ t =? count);;
  Some {| length_ := new_length; elems_ := elems_ t; list_ := new_list |}.

(** [HandleTable::HandleTable()] *)
Definition HandleTable_new : option HandleTable :=
  Resize ∅ {| length_ := 0; elems_ := 0; list_ := [] |}.

(** [HandleTable::Insert].  With [ptr] at position [j] of the chain, the
    assignments [h->next_hash = old ? old->next_hash : nullptr; *ptr = h]
    keep the [j] entries before the slot, put [h] there, and continue with
    what followed [old]. *)
Definition HT_Insert (mem : gmap addr LRUHandle) (t : HandleTable) (h : addr)
    : option (HandleTable * option addr) :=
  e ← mem !! h;
  '(i, j) ← FindPointer mem t (key e) (hash e);
  chain ← list_ t !! i;
  let old := chain !! j in
  let chain' := take j chain ++ h :: drop (S j) chain in
  let list' := <[i := chain']> (list_ t) in
  match old with
  | None =>
      let elems' := wrap32 (elems_ t + 1) in
      let t' := {| length_ := length_ t; elems_ := elems'; list_ := list' |} in
      if length_ t <? elems' then
        t'' ← Resize mem t'; Some (t'', None)
      else Some (t', None)
  | Some _ =>
      Some ({| length_ := length_ t; elems_ := elems_ t; list_ := list' |}, old)
  end.

(** [HandleTable::Remove] *)
Definition HT_Remove (mem : gmap addr LRUHandle) (t : HandleTable)
    (k : string) (h : Z) : option (HandleTable * option addr) :=
  '(i, j) ← FindPointer mem t k h;
  chain ← list_ t !! i;
  match chain !! j with
  | Some result =>
      Some ({| length_ := length_ t; elems_ := wrap32 (elems_ t - 1);
               list_ := <[i := delete j chain]> (list_ t) |}, Some result)
  | None => Some (t, None)
  end.

(** ** class LRUCache

    The five data members of the class, followed by the parts of the process
    state its methods act on: the allocated handles, the allocator's next
    address, and the log of deleter invocations. *)

Record LRUCache := {
  capacity_ : Z;                    (* size_t *)
  usage_ : Z;                       (* size_t *)
  lru_ : list addr;                 (* head.next first, head.prev last *)
  in_use_ : list addr;
  table_ : HandleTable;
  heap : gmap addr LRUHandle;
  brk : addr;
  deleted : list DeleterCall
}.

Definition set_capacity (c : Z) (s : LRUCache) : LRUCache :=
  {| capacity_ := c; usage_ := usage_ s; lru_ := lru_ s; in_use_ := in_use_ s;
     table_ := table_ s; heap := heap s; brk := brk s; deleted := deleted s |}.

Definition set_usage (u : Z) (s : LRUCache) : LRUCache :=
  {| capacity_ := capacity_ s; usage_ := u; lru_ := lru_ s;
     in_use_ := in_use_ s; table_ := table_ s; heap := heap s; brk := brk s;
     deleted := deleted s |}.

Definition set_lists (l u : list addr) (s : LRUCache) : LRUCache :=
  {| capacity_ := capacity_ s; usage_ := usage_ s; lru_ := l; in_use_ := u;
     table_ := table_ s; heap := heap s; brk := brk s; deleted := deleted s |}.

Definition set_table (t : HandleTable) (s : LRUCache) : LRUCache :=
  {| capacity_ := capacity_ s; usage_ := usage_ s; lru_ := lru_ s;
     in_use_ := in_use_ s; table_ := t; heap := heap s; brk := brk s;
     deleted := deleted s |}.

Definition set_heap (m : gmap addr LRUHandle) (s : LRUCache) : LRUCache :=
  {| capacity_ := capacity_ s; usage_ := usage_ s; lru_ := lru_ s;
     in_use_ := in_use_ s; table_ := table_ s; heap := m; brk := brk s;
     deleted := deleted s |}.

Definition set_brk (b : addr) (s : LRUCache) : LRUCache :=
  {| capacity_ := capacity_ s; usage_ := usage_ s; lru_ := lru_ s;
     in_use_ := in_use_ s; table_ := table_ s; heap := heap s; brk := b;
     deleted := deleted s |}.

Definition set_deleted (d : list DeleterCall) (s : LRUCache) : LRUCache :=
  {| capacity_ := capacity_ s; usage_ := usage_ s; lru_ := lru_ s;
     in_use_ := in_use_ s; table_ := table_ s; heap := heap s; brk := brk s;
     deleted := d |}.

(** [*e = h] for an allocated handle. *)
Definition store (e : addr) (h : LRUHandle) (s : LRUCache) : LRUCache :=
  set_heap (<[e := h]> (heap s)) s.

(** The two dummy list heads. *)
Inductive head := lru_head | in_use_head.

(** [LRUCache::LRU_Remove]: unlink [e] from the list it is on. *)
Definition LRU_Remove (e : addr) (s : LRUCache) : LRUCache :=
  set_lists (filter (λ x, x ≠ e) (lru_ s)) (filter (λ x, x ≠ e) (in_use_ s)) s.

(** [LRUCache::LRU_Append]: insert [e] just before [*list], as its newest
    entry. *)
Definition LRU_Append (list : head) (e : addr) (s : LRUCache) : LRUCache :=
  match list with
  | lru_head => set_lists (lru_ s ++ [e]) (in_use_ s) s
  | in_use_head => set_lists (lru_ s) (in_use_ s ++ [e]) s
  end.

(** [LRUCache::Ref] *)
Definition Ref (e : addr) (s : LRUCache) : option LRUCache :=
  h ← heap s !! e;
  let s1 :=
    if (refs h =? 1) && in_cache h
    then LRU_Append in_use_head e (LRU_Remove e s)
    else s in
  Some (store e (set_refs (wrap32 (refs h + 1)) h) s1).

(** [LRUCache::Unref] *)
Definition Unref (e : addr) (s : LRUCache) : option LRUCache :=
  h ← heap s !! e;
  assert_ (0 <? refs h);;
  let r := wrap32 (refs h - 1) in
  if r =? 0 then
    assert_ (negb (in_cache h));;
    let call := {| dc_entry := e; dc_deleter := deleter h; dc_key := key h;
                   dc_value := value h |} in
    Some (set_heap (delete e (heap s)) (set_deleted (deleted s ++ [call]) s))
  else if in_cache h && (r =? 1) then
    Some (LRU_Append lru_head e (LRU_Remove e (store e (set_refs r h) s)))
  else
    Some (store e (set_refs r h) s).

(** [LRUCache::FinishErase] *)
Definition FinishErase (e : option addr) (s : LRUCache)
    : option (LRUCache * bool) :=
  match e with
  | Some e =>
      h ← heap s !! e;
      assert_ (in_cache h);;
      let s1 := LRU_Remove e s in
      let s2 := store e (set_in_cache false h) s1 in
      let s3 := set_usage (wrap64 (usage_ s2 - charge h)) s2 in
      s4 ← Unref e s3;
      Some (s4, true)
  | None => Some (s, false)
  end.

(** [LRUCache::Lookup] *)
Definition Lookup (k : string) (h : Z) (s : LRUCache)
    : option (LRUCache * option addr) :=
  e ← HT_Lookup (heap s) (table_ s) k h;
  match e with
  | Some a => s' ← Ref a s; Some (s', Some a)
  | None => Some (s, None)
  end.

(** [LRUCache::Release] *)
Definition Release (handle : addr) (s : LRUCache) : option LRUCache :=
  Unref handle s.

(** One round of the loop shared by [Insert] and [Prune]: take
    [old = lru_.next], remove it from the table by key and hash, finish the
    erase and check that something was erased. *)
Definition evict_oldest (old : addr) (s : LRUCache) : option LRUCache :=
  h ← heap s !! old;
  assert_ (refs h =? 1);;
  '(t, r) ← HT_Remove (heap s) (table_ s) (key h) (hash h);
  '(s', erased) ← FinishErase r (set_table t s);
  assert_ erased;;
  Some s'.

(** [while (usage_ > capacity_ && lru_.next != &lru_)] of [Insert].  Every
    round that passes its assertion takes one entry out of the table, so the
    rounds are bounded by the number of entries in the table. *)
Fixpoint Insert_evict (fuel : nat) (s : LRUCache) : option LRUCache :=
  if capacity_ s <? usage_ s then
    match lru_ s with
    | old :: _ =>
        match fuel with
        | O => None
        | S fuel' => s' ← evict_oldest old s; Insert_evict fuel' s'
        end
    | [] => Some s
    end
  else Some s.

(** [LRUCache::Insert] *)
Definition Insert (k : string) (h : Z) (v : Z) (c : Z) (d : nat)
    (s : LRUCache) : option (LRUCache * addr) :=
  let e := brk s in
  let rec := {| value := v; deleter := d; charge := c; key := k;
                in_cache := false; refs := 1; hash := h |} in
  let s0 := set_brk (S e) (store e rec s) in
  s1 ← (if 0 <? capacity_ s0 then
          let rec' := set_in_cache true (set_refs (wrap32 (refs rec + 1)) rec) in
          let s' := LRU_Append in_use_head e (store e rec' s0) in
          let s' := set_usage (wrap64 (usage_ s' + c)) s' in
          '(t, old) ← HT_Insert (heap s') (table_ s') e;
          '(s', _) ← FinishErase old (set_table t s');
          Some s'
        else Some s0);
  s2 ← Insert_evict (length (concat (list_ (table_ s1)))) s1;
  Some (s2, e).

(** [LRUCache::Erase] *)
Definition Erase (k : string) (h : Z) (s : LRUCache) : option LRUCache :=
  '(t, r) ← HT_Remove (heap s) (table_ s) k h;
  '(s', _) ← FinishErase r (set_table t s);
  Some s'.

(** [while (lru_.next != &lru_)] of [Prune]. *)
Fixpoint Prune_loop (fuel : nat) (s : LRUCache) : option LRUCache :=
  match lru_ s with
  | e :: _ =>
      match fuel with
      | O => None
      | S fuel' => s' ← evict_oldest e s; Prune_loop fuel' s'
      end
  | [] => Some s
  end.

(** [LRUCache::Prune] *)
Definition Prune (s : LRUCache) : option LRUCache :=
  Prune_loop (length (concat (list_ (table_ s)))) s.

(** [LRUCache::TotalCharge] *)
Definition TotalCharge (s : LRUCache) : Z := usage_ s.

(** [ShardedLRUCache::Value] *)
Definition Value (handle : addr) (s : LRUCache) : option Z :=
  value <$> heap s !! handle.

(** [LRUCache::LRUCache()] followed by [SetCapacity(capacity)]. *)
Definition SetCapacity (capacity : Z) (s : LRUCache) : LRUCache :=
  set_capacity capacity s.

Definition LRUCache_new : option LRUCache :=
  t ← HandleTable_new;
  Some {| capacity_ := 0; usage_ := 0; lru_ := []; in_use_ := [];
          table_ := t; heap := ∅; brk := 0%nat; deleted := [] |}.

Definition NewShard (capacity : Z) : option LRUCache :=
  SetCapacity capacity <$> LRUCache_new.

(** ** Vocabulary of the specification *)

(** The entries reachable from the table, bucket after bucket. *)
Definition entries (t : HandleTable) : list addr := concat (list_ t).

(** What the table reads through a handle pointer: key and hash. *)
Definition kh (mem : gmap addr LRUHandle) (a : addr) : option (string * Z) :=
  (λ e, (key e, hash e)) <$> mem !! a.

Definition charge_of (mem : gmap addr LRUHandle) (a : addr) : Z :=
  default 0 (charge <$> mem !! a).

(** Exact (unbounded) sum of the charges of the entries of a list. *)
Definition total_charge (mem : gmap addr LRUHandle) (l : list addr) : Z :=
  foldr (λ a acc, charge_of mem a + acc) 0 l.

(** Well-formed hash table: [length_] buckets, a power of two between 4 and
    2^31 of them; [elems_] counts the entries and does not exceed
    [length_]; every entry sits in the bucket of its hash; no two entries
    carry the same key and hash. *)
Record wf_table (mem : gmap addr LRUHandle) (t : HandleTable) : Prop := {
  wf_length : length_ t = Z.of_nat (length (list_ t));
  wf_pow2 : ∃ n : Z, 2 <= n <= 31 ∧ length_ t = 2 ^ n;
  wf_elems : elems_ t = Z.of_nat (length (entries t));
  wf_load : elems_ t <= length_ t;
  wf_bucket : ∀ (i : nat) chain a,
      list_ t !! i = Some chain → a ∈ chain →
      ∃ k h, kh mem a = Some (k, h) ∧ bucket h (length_ t) = i;
  wf_nodup : NoDup (kh mem <$> entries t)
}.

(** ** The client side

    A client owns one reference for every handle that [Insert] or a
    successful [Lookup] returned and that it has not passed to [Release] yet
    (cache.h: the caller must call [Release] when the mapping is no longer
    needed; the handle must not have been released before). *)

Definition holds (held : list addr) (a : addr) : Z :=
  Z.of_nat (length (filter (λ x, x = a) held)).

Fixpoint remove_one (a : addr) (l : list addr) : list addr :=
  match l with
  | [] => []
  | x :: r => if decide (x = a) then r else x :: remove_one a r
  end.

Inductive event :=
  | EvInsert (k : string) (h v c : Z) (d : nat) (ret : addr)
  | EvLookup (k : string) (h : Z) (ret : option addr)
  | EvRelease (handle : addr)
  | EvErase (k : string) (h : Z)
  | EvPrune.

(** One call of a public method by a well-behaved client.  The arguments are
    values of their C++ types; a handle is released only while held.  The two
    numeric side conditions keep the 32-bit counters from wrapping: a table
    below 2^31 entries, and fewer than 2^32 - 2 outstanding handles on the
    entry a lookup returns. *)
Inductive step : LRUCache → list addr → event → LRUCache → list addr → Prop :=
  | step_insert s held k h v c d s' e :
      is_uint32 h → is_size_t c →
      elems_ (table_ s) < 2 ^ 31 →
      Insert k h v c d s = Some (s', e) →
      step s held (EvInsert k h v c d e) s' (e :: held)
  | step_lookup_hit s held k h s' e :
      is_uint32 h →
      holds held e < 2 ^ 32 - 2 →
      Lookup k h s = Some (s', Some e) →
      step s held (EvLookup k h (Some e)) s' (e :: held)
  | step_lookup_miss s held k h s' :
      is_uint32 h →
      Lookup k h s = Some (s', None) →
      step s held (EvLookup k h None) s' held
  | step_release s held a s' :
      a ∈ held →
      Release a s = Some s' →
      step s held (EvRelease a) s' (remove_one a held)
  | step_erase s held k h s' :
      is_uint32 h →
      Erase k h s = Some s' →
      step s held (EvErase k h) s' held
  | step_prune s held s' :
      Prune s = Some s' →
      step s held EvPrune s' held.

(** States reachable from a fresh shard of capacity [cap]; the trace lists
    the calls made so far, the latest first. *)
Inductive reachable (cap : Z) : list event → LRUCache → list addr → Prop :=
  | reach_new s :
      is_size_t cap → NewShard cap = Some s → reachable cap [] s []
  | reach_step tr s held ev s' held' :
      reachable cap tr s held →
      step s held ev s' held' →
      reachable cap (ev :: tr) s' held'.

(** ** The shard invariant

    [pending] is an entry that has just been unlinked from the table and
    waits for [FinishErase] (or has been linked into the in-use list and waits
    for [HandleTable::Insert]): it is still in its list and flagged
    [in_cache].  Between two public calls there is none. *)
Record inv (pending : option addr) (cap : Z) (s : LRUCache)
    (held : list addr) : Prop := {
  inv_cap : capacity_ s = cap ∧ is_size_t cap;
  inv_table : wf_table (heap s) (table_ s);
  inv_pending : ∀ a, pending = Some a → a ∉ entries (table_ s);
  inv_entries : ∀ a,
      (a ∈ entries (table_ s) ∨ pending = Some a) ↔
      ∃ e, heap s !! a = Some e ∧ in_cache e = true;
  inv_lru : ∀ a,
      a ∈ lru_ s ↔ ∃ e, heap s !! a = Some e ∧ in_cache e = true ∧ refs e = 1;
  inv_in_use : ∀ a,
      a ∈ in_use_ s ↔
      ∃ e, heap s !! a = Some e ∧ in_cache e = true ∧ 2 <= refs e;
  inv_nodup_lru : NoDup (lru_ s);
  inv_nodup_in_use : NoDup (in_use_ s);
  inv_refs : ∀ a e,
      heap s !! a = Some e →
      refs e = (if in_cache e then 1 else 0) + holds held a ∧ 1 <= refs e;
  inv_held : ∀ a, a ∈ held → is_Some (heap s !! a);
  inv_held_bound : ∀ a, holds held a <= 2 ^ 32 - 2;
  inv_fields : ∀ a e,
      heap s !! a = Some e → is_uint32 (hash e) ∧ is_size_t (charge e);
  inv_usage :
      usage_ s = wrap64 (total_charge (heap s) (lru_ s ++ in_use_ s));
  inv_brk : ∀ a, is_Some (heap s !! a) → (a < brk s)%nat;
  inv_disabled : cap = 0 →
      ∀ a e, heap s !! a = Some e → in_cache e = false
}.

(** The deleter call made when entry [a], with contents [e], is freed. *)
Definition call_of (a : addr) (e : LRUHandle) : DeleterCall :=
  {| dc_entry := a; dc_deleter := deleter e; dc_key := key e;
     dc_value := value e |}.

(** The fields of a handle that no method changes after creation. *)
Definition same_entry (e e' : LRUHandle) : Prop :=
  value e' = value e ∧ deleter e' = deleter e ∧ charge e' = charge e ∧
  key e' = key e ∧ hash e' = hash e.

(** The deleter calls made on behalf of entry [a]. *)
Definition calls_for (a : addr) (log : list DeleterCall) : list DeleterCall :=
  filter (λ c, dc_entry c = a) log.

(** Link between the trace, the handles and the deleter log: every entry an
    [Insert] created is either still allocated, carrying the key, hash, value,
    charge and deleter it was created with and no deleter call, or freed after
    exactly one deleter call made with its key and value. *)
Record inv_log (tr : list event) (s : LRUCache) : Prop := {
  log_created : ∀ a,
      (a < brk s)%nat ↔ ∃ k h v c d, EvInsert k h v c d a ∈ tr;
  log_calls_brk : ∀ c, c ∈ deleted s → (dc_entry c < brk s)%nat;
  log_entry : ∀ k h v c d a,
      EvInsert k h v c d a ∈ tr →
      match heap s !! a with
      | Some e =>
          key e = k ∧ hash e = h ∧ value e = v ∧ charge e = c ∧
          deleter e = d ∧ calls_for a (deleted s) = []
      | None =>
          calls_for a (deleted s) =
          [{| dc_entry := a; dc_deleter := d; dc_key := k; dc_value := v |}]
      end
}.

(** What a sequence of method calls that allocates nothing may do to the
    handles and to the deleter log; [erased] lists the entries that may have
    been taken out of the cache. *)
Record evolves (erased : list addr) (s s' : LRUCache) : Prop := {
  ev_brk : brk s' = brk s;
  ev_cap : capacity_ s' = capacity_ s;
  ev_alloc : ∀ a, heap s !! a = None → heap s' !! a = None;
  ev_keep : ∀ a e,
      heap s !! a = Some e →
      match heap s' !! a with
      | Some e' =>
          same_entry e e' ∧
          (in_cache e' = in_cache e ∨
           (a ∈ erased ∧ in_cache e = true ∧ in_cache e' = false))
      | None => in_cache e = false ∨ a ∈ erased
      end;
  ev_calls : ∀ a,
      calls_for a (deleted s') =
      calls_for a (deleted s) ++
      match heap s !! a, heap s' !! a with
      | Some e, None => [call_of a e]
      | _, _ => []
      end;
  ev_log : ∀ c,
      c ∈ deleted s' → c ∈ deleted s ∨ is_Some (heap s !! dc_entry c)
}.

(** The state [FinishErase] leaves when given entry [a], with contents [e]:
    unlinked from its list, its charge given back, and either freed (the
    cache held the only reference) or left to the clients that pin it. *)
Definition erased_state (a : addr) (e : LRUHandle) (s : LRUCache) : LRUCache :=
  let s3 :=
    set_usage (wrap64 (usage_ s - charge e))
      (set_lists (filter (λ x, x ≠ a) (lru_ s))
                 (filter (λ x, x ≠ a) (in_use_ s)) s) in
  if refs e =? 1 then
    set_heap (delete a (heap s)) (set_deleted (deleted s ++ [call_of a e]) s3)
  else
    store a (set_refs (refs e - 1) (set_in_cache false e)) s3.

(** The deleter calls that free the entries of [l], in the order of [l]. *)
Definition calls_of (mem : gmap addr LRUHandle) (l : list addr)
    : list DeleterCall :=
  omap (λ a, call_of a <$> mem !! a) l.

(** The record [Insert] fills in: [refs] is 1 for the returned handle, plus
    1 for the cache's own reference when the entry is cached. *)
Definition new_handle (k : string) (h v c : Z) (d : nat) (cached : bool)
    : LRUHandle :=
  {| value := v; deleter := d; charge := c; key := k; in_cache := cached;
     refs := if cached then 2 else 1; hash := h |}.

(** The state of [Insert] before the table is touched: the new record is
    allocated and, when caching is on, appended to the in-use list and
    charged. *)
Definition added (k : string) (h v c : Z) (d : nat) (cached : bool)
    (s : LRUCache) : LRUCache :=
  set_usage (if cached then wrap64 (usage_ s + c) else usage_ s)
    (set_lists (lru_ s) (if cached then in_use_ s ++ [brk s] else in_use_ s)
       (set_brk (S (brk s))
          (store (brk s) (new_handle k h v c d cached) s))).

(** ** Sample runs, used to exercise the theorems on concrete inputs *)

(** A fresh shard of capacity [cap], as [NewShard] builds it. *)
Definition fresh_shard (cap : Z) : LRUCache :=
  {| capacity_ := cap; usage_ := 0; lru_ := []; in_use_ := [];
     table_ := {| length_ := 4; elems_ := 0; list_ := [[]; []; []; []] |};
     heap := ∅; brk := 0%nat; deleted := [] |}.

(** The state after a call that is expected to succeed. *)
Definition after {A} (x : option (LRUCache * A)) : LRUCache :=
  default (fresh_shard 0) (fst <$> x).

Definition after_ (x : option LRUCache) : LRUCache :=
  default (fresh_shard 0) x.

(** Capacity 10: insert "a" (charge 6), keep the handle. *)
Definition sample_a : LRUCache :=
  after (Insert "a" 7 100 6 0%nat (fresh_shard 10)).

(** ... then insert "b" (charge 6), keep that handle too. *)
Definition sample_ab : LRUCache :=
  after (Insert "b" 9 200 6 0%nat sample_a).

(** Capacity 10: insert "a", release its handle: "a" is on the LRU list. *)
Definition sample_a_released : LRUCache :=
  after_ (Release 0%nat sample_a).

(** ... then insert "b" and keep its handle: "b" is pinned. *)
Definition sample_a_b_pinned : LRUCache :=
  after (Insert "b" 9 200 1 0%nat sample_a_released).

(** Capacity 2^64 - 1: two pinned entries of charge 2^63 each. *)
Definition sample_huge_1 : LRUCache :=
  after (Insert "a" 7 100 (2 ^ 63) 0%nat (fresh_shard (2 ^ 64 - 1))).

Definition sample_huge_2 : LRUCache :=
  after (Insert "b" 9 200 (2 ^ 63) 0%nat sample_huge_1).

(** Capacity 0 (caching off): one insert. *)
Definition sample_off : LRUCache :=
  after (Insert "a" 7 100 1 0%nat (fresh_shard 0)).

(** Capacity 10: insert "a", then erase it while the handle is held. *)
Definition sample_a_erased : LRUCache :=
  after_ (Erase "a" 7 sample_a).

(** Capacity 0: the handle of the one insert is released. *)
Definition sample_off_released : LRUCache :=
  after_ (Release 0%nat sample_off).

(** A table holding one entry for key "a", and a second, unlinked handle for
    the same key and hash. *)
Definition sample_mem : gmap addr LRUHandle :=
  <[1%nat := new_handle "a" 7 101 1 0%nat true]>
    (<[0%nat := new_handle "a" 7 100 1 0%nat true]> ∅).

Definition sample_table : HandleTable :=
  {| length_ := 4; elems_ := 1; list_ := [[]; []; []; [0%nat]] |}.

(** ** Calls that leave a cached entry alone

    [quiet k h ev]: the call [ev] is no insert, no prune, and no erase of the
    key [k] with hash [h]. *)
Definition quiet (k : string) (h : Z) (ev : event) : Prop :=
  match ev with
  | EvInsert _ _ _ _ _ _ => False
  | EvLookup _ _ _ => True
  | EvRelease _ => True
  | EvErase k' h' => (k', h') ≠ (k, h)
  | EvPrune => False
  end.

(** A sequence of calls, the first call first. *)
Inductive steps : LRUCache → list addr → list event →
                  LRUCache → list addr → Prop :=
  | steps_nil s held : steps s held [] s held
  | steps_cons s held ev s1 held1 evs s2 held2 :
      step s held ev s1 held1 →
      steps s1 held1 evs s2 held2 →
      steps s held (ev :: evs) s2 held2.

(** Entry [e] is in the cache and carries key [k], hash [h] and value [v]. *)
Definition resident (s : LRUCache) (e : addr) (k : string) (h v : Z) : Prop :=
  ∃ r, heap s !! e = Some r ∧ in_cache r = true ∧
       key r = k ∧ hash r = h ∧ value r = v.

(** ** The fixture of cache_test.cc, on one shard

    [CacheTest::Insert] inserts with charge 1 and releases the handle at
    once; [CacheTest::Lookup] returns the value found, or -1, and releases the
    handle.  The deleter of the fixture records the key and the value it is
    given, which is what [deleted] logs. *)

Definition CacheTest_Insert (k : string) (h v : Z) (s : LRUCache)
    : option LRUCache :=
  '(s', hd) ← Insert k h v 1 0%nat s;
  Release hd s'.

Definition CacheTest_Lookup (k : string) (h : Z) (s : LRUCache)
    : option (LRUCache * Z) :=
  '(s', r) ← Lookup k h s;
  match r with
  | Some hd => v ← Value hd s'; s'' ← Release hd s'; Some (s'', v)
  | None => Some (s', -1)
  end.

Definition deleted_keys_values (s : LRUCache) : list (string * Z) :=
  (λ c, (dc_key c, dc_value c)) <$> deleted s.

(** The table just after [*ptr = h], before the element count is touched. *)
Definition link_at (t : HandleTable) (i j : nat) (chain : list addr)
    (h : addr) : list (list addr) :=
  <[i := take j chain ++ h :: drop (S j) chain]> (list_ t).


(** ** The link fields

    The assignments the code makes to [next], [prev] and [next_hash], written
    on the link fields themselves.  They are related below to the sequence
    operations of [LRU_Remove], [LRU_Append], [HT_Insert], [HT_Remove] and
    [Resize_move]. *)

(** What a [next] or [prev] pointer points at: a dummy head or an entry. *)
Inductive node := at_head (h : head) | at_entry (a : addr).

Global Instance head_eq_dec : EqDecision head.
Proof. solve_decision. Defined.

Global Instance node_eq_dec : EqDecision node.
Proof. solve_decision. Defined.

(** The [next] and [prev] fields of the two dummy heads and of all entries. *)
Record links := { next : node → node; prev : node → node }.

(** [x->field = v] *)
Definition assign {A} (f : node → A) (x : node) (v : A) : node → A :=
  λ y, if decide (y = x) then v else f y.

(** [e->next->prev = e->prev; e->prev->next = e->next;] *)
Definition LRU_Remove_links (e : node) (L : links) : links :=
  let L1 := {| next := next L;
               prev := assign (prev L) (next L e) (prev L e) |} in
  {| next := assign (next L1) (prev L1 e) (next L1 e); prev := prev L1 |}.

(** [e->next = list; e->prev = list->prev; e->prev->next = e;
    e->next->prev = e;] *)
Definition LRU_Append_links (list e : node) (L : links) : links :=
  let L1 := {| next := assign (next L) e list; prev := prev L |} in
  let L2 := {| next := next L1; prev := assign (prev L1) e (prev L1 list) |} in
  let L3 := {| next := assign (next L2) (prev L2 e) e; prev := prev L2 |} in
  {| next := next L3; prev := assign (prev L3) (next L3 e) e |}.

(** Following [next] from [x] goes through the nodes of [l] and then reaches
    [z]; [prev] leads back. *)
Fixpoint path (L : links) (x : node) (l : list node) (z : node) : Prop :=
  match l with
  | [] => next L x = z ∧ prev L z = x
  | y :: l' => next L x = y ∧ prev L y = x ∧ path L y l' z
  end.

(** The circular list of dummy head [h] threads the entries of [l], oldest
    first. *)
Definition threads (h : head) (L : links) (l : list addr) : Prop :=
  NoDup l ∧ path L (at_head h) (at_entry <$> l) (at_head h).

(** One bucket: its head pointer in [list_] and the [next_hash] fields. *)
Record bucket_links := {
  bucket_head : option addr;
  next_hash : addr → option addr
}.

(** A pointer to a slot: to the bucket head or to the [next_hash] field of an
    entry. *)
Inductive slot := slot_head | slot_next (a : addr).

(** [*ptr] *)
Definition deref (p : slot) (B : bucket_links) : option addr :=
  match p with
  | slot_head => bucket_head B
  | slot_next a => next_hash B a
  end.

(** [*ptr = v] *)
Definition store_slot (p : slot) (v : option addr) (B : bucket_links)
    : bucket_links :=
  match p with
  | slot_head => {| bucket_head := v; next_hash := next_hash B |}
  | slot_next a =>
      {| bucket_head := bucket_head B;
         next_hash := λ b, if decide (b = a) then v else next_hash B b |}
  end.

(** [h->next_hash = (old == nullptr ? nullptr : old->next_hash); *ptr = h;] *)
Definition HT_Insert_links (p : slot) (h : addr) (B : bucket_links)
    : bucket_links :=
  let old := deref p B in
  let nh := match old with Some o => next_hash B o | None => None end in
  store_slot p (Some h)
    {| bucket_head := bucket_head B;
       next_hash := λ b, if decide (b = h) then nh else next_hash B b |}.

(** [if (result != nullptr) *ptr = result->next_hash;] *)
Definition HT_Remove_links (p : slot) (B : bucket_links) : bucket_links :=
  match deref p B with
  | Some result => store_slot p (next_hash B result) B
  | None => B
  end.

(** [h->next_hash = *ptr; *ptr = h;] with [ptr] at the bucket head. *)
Definition Resize_move_links (h : addr) (B : bucket_links) : bucket_links :=
  store_slot slot_head (Some h)
    {| bucket_head := bucket_head B;
       next_hash := λ b, if decide (b = h) then bucket_head B
                         else next_hash B b |}.

(** Following [next_hash] from [start] goes through [l] and ends at
    [nullptr]. *)
Fixpoint hash_chain (B : bucket_links) (start : option addr) (l : list addr)
    : Prop :=
  match l with
  | [] => start = None
  | a :: l' => start = Some a ∧ hash_chain B (next_hash B a) l'
  end.

(** The slot at position [j] of the chain [l]. *)
Definition slot_at (l : list addr) (j : nat) : slot :=
  match j with
  | O => slot_head
  | S j' => match l !! j' with Some a => slot_next a | None => slot_head end
  end.

(** The [while] loop of [FindPointer] on the link fields; [mismatch a] is
    the test [a->hash != hash || key != a->key()]. *)
Fixpoint FindPointer_links (fuel : nat) (mismatch : addr → bool) (p : slot)
    (B : bucket_links) : option slot :=
  match deref p B with
  | Some a =>
      if mismatch a then
        match fuel with
        | O => None
        | S fuel' => FindPointer_links fuel' mismatch (slot_next a) B
        end
      else Some p
  | None => Some p
  end.

(** The chain from an arbitrary slot [p0]; [p0] is the bucket head or the
    [next_hash] field of an entry outside the chain. *)
Definition slot_from (p0 : slot) (l : list addr) (j : nat) : slot :=
  match j with
  | O => p0
  | S j' => match l !! j' with Some a => slot_next a | None => p0 end
  end.

Definition slot_outside (p0 : slot) (l : list addr) (h : addr) : Prop :=
  match p0 with slot_head => True | slot_next a => (a ∉ l) ∧ a ≠ h end.

Definition slot_apart (p0 : slot) (l : list addr) : Prop :=
  match p0 with slot_head => True | slot_next a => a ∉ l end.


(** The test of the [while] loop of [FindPointer], read through the handle
    pointer. *)
Definition mismatch_of (mem : gmap addr LRUHandle) (k : string) (h : Z)
    (a : addr) : bool :=
  match mem !! a with
  | Some e => negb (hash e =? h) || negb (bool_decide (k = key e))
  | None => false
  end.


(** ** [LRUCache::~LRUCache]

    The [for] loop reads [e->next] before it calls [Unref(e)], and [Unref]
    frees a record whose count drops to 0 without touching any link, so the
    loop visits the LRU list as it stood on entry.  The object is gone when
    the destructor returns; what is left of the state is the process state:
    the allocated handles and the deleter log. *)
Fixpoint destroy_loop (l : list addr) (s : LRUCache) : option LRUCache :=
  match l with
  | [] => Some s
  | e :: rest =>
      h ← heap s !! e;
      assert_ (in_cache h);;
      let s1 := store e (set_in_cache false h) s in
      assert_ (refs h =? 1);;
      s2 ← Unref e s1;
      destroy_loop rest s2
  end.

Definition LRUCache_destroy (s : LRUCache) : option LRUCache :=
  assert_ (bool_decide (in_use_ s = []));;
  destroy_loop (lru_ s) s.

(** ** class ShardedLRUCache *)

Definition kNumShardBits : Z := 4.
Definition kNumShards : Z := Z.shiftl 1 kNumShardBits.

(** [hash >> (32 - kNumShardBits)] *)
Definition Shard (hash : Z) : nat :=
  Z.to_nat (Z.shiftr hash (32 - kNumShardBits)).

(** [(capacity + (kNumShards - 1)) / kNumShards], in [size_t]. *)
Definition per_shard (capacity : Z) : Z :=
  wrap64 (capacity + (kNumShards - 1)) / kNumShards.

(** The array of shards and the id counter, followed by the process state
    the shards share: every shard allocates its handles from the same
    allocator and calls deleters of the same program.  The process-state
    fields of the records kept in [shard_] are not used. *)
Record ShardedLRUCache := {
  shard_ : list LRUCache;
  last_id_ : Z;                      (* uint64_t *)
  proc_heap : gmap addr LRUHandle;
  proc_brk : addr;
  proc_deleted : list DeleterCall
}.

(** Shard [s] of cache [c], seen with the process state. *)
Definition attach (c : ShardedLRUCache) (s : LRUCache) : LRUCache :=
  set_deleted (proc_deleted c)
    (set_brk (proc_brk c) (set_heap (proc_heap c) s)).

Definition detach (s : LRUCache) : LRUCache :=
  set_deleted [] (set_brk 0%nat (set_heap ∅ s)).

(** [shard_[i].f(...)]: the method runs on shard [i] and on the process
    state. *)
Definition on_shard {A} (i : nat) (f : LRUCache → option (LRUCache * A))
    (c : ShardedLRUCache) : option (ShardedLRUCache * A) :=
  s ← shard_ c !! i;
  '(s', r) ← f (attach c s);
  Some ({| shard_ := <[i := detach s']> (shard_ c); last_id_ := last_id_ c;
           proc_heap := heap s'; proc_brk := brk s';
           proc_deleted := deleted s' |}, r).

Definition on_shard_ (i : nat) (f : LRUCache → option LRUCache)
    (c : ShardedLRUCache) : option ShardedLRUCache :=
  fst <$> on_shard i (λ s, (λ s', (s', tt)) <$> f s) c.

(** [ShardedLRUCache::ShardedLRUCache(capacity)].  [HashSlice] hashes a key
    with [Hash] of util/hash.h; the hash function is a parameter of the
    methods that use it. *)
Definition ShardedLRUCache_new (capacity : Z) : option ShardedLRUCache :=
  s ← LRUCache_new;
  Some {| shard_ := SetCapacity (per_shard capacity) <$>
                      replicate (Z.to_nat kNumShards) s;
          last_id_ := 0; proc_heap := ∅; proc_brk := 0%nat;
          proc_deleted := [] |}.

Definition NewLRUCache (capacity : Z) : option ShardedLRUCache :=
  ShardedLRUCache_new capacity.

Definition Sharded_Insert (HashSlice : string → Z) (key : string)
    (value charge : Z) (deleter : nat) (c : ShardedLRUCache)
    : option (ShardedLRUCache * addr) :=
  let hash := HashSlice key in
  on_shard (Shard hash) (Insert key hash value charge deleter) c.

Definition Sharded_Lookup (HashSlice : string → Z) (key : string)
    (c : ShardedLRUCache) : option (ShardedLRUCache * option addr) :=
  let hash := HashSlice key in
  on_shard (Shard hash) (Lookup key hash) c.

(** The shard is chosen by the hash read through the handle. *)
Definition Sharded_Release (handle : addr) (c : ShardedLRUCache)
    : option ShardedLRUCache :=
  h ← proc_heap c !! handle;
  on_shard_ (Shard (hash h)) (Release handle) c.

Definition Sharded_Erase (HashSlice : string → Z) (key : string)
    (c : ShardedLRUCache) : option ShardedLRUCache :=
  let hash := HashSlice key in
  on_shard_ (Shard hash) (Erase key hash) c.

Definition Sharded_Value (handle : addr) (c : ShardedLRUCache) : option Z :=
  value <$> proc_heap c !! handle.

(** [return ++(last_id_)] *)
Definition NewId (c : ShardedLRUCache) : ShardedLRUCache * Z :=
  let id := wrap64 (last_id_ c + 1) in
  ({| shard_ := shard_ c; last_id_ := id; proc_heap := proc_heap c;
      proc_brk := proc_brk c; proc_deleted := proc_deleted c |}, id).

(** [for (int s = 0; s < kNumShards; s++) shard_[s].Prune()] *)
Definition Sharded_Prune (c : ShardedLRUCache) : option ShardedLRUCache :=
  foldl (λ acc s, c' ← acc; on_shard_ s Prune c') (Some c)
        (seq 0 (Z.to_nat kNumShards)).

(** [for (int s = 0; s < kNumShards; s++) total += shard_[s].TotalCharge()] *)
Definition Sharded_TotalCharge (c : ShardedLRUCache) : option Z :=
  foldl (λ acc s, total ← acc; sh ← shard_ c !! s;
                  Some (wrap64 (total + TotalCharge (attach c sh))))
        (Some 0) (seq 0 (Z.to_nat kNumShards)).

(** [ShardedLRUCache::~ShardedLRUCache]: the shards are destroyed, the last
    one first. *)
Definition ShardedLRUCache_destroy (c : ShardedLRUCache)
    : option ShardedLRUCache :=
  foldl (λ acc s, c' ← acc; on_shard_ s LRUCache_destroy c') (Some c)
        (reverse (seq 0 (Z.to_nat kNumShards))).

(** ** Calls that leave a pinned entry alone

    [calm k h b ev]: the call [ev] neither inserts nor erases the key [k]
    with hash [h], and does not release the handle [b]. *)
Definition calm (k : string) (h : Z) (b : addr) (ev : event) : Prop :=
  match ev with
  | EvInsert k' h' _ _ _ _ => (k', h') ≠ (k, h)
  | EvLookup _ _ _ => True
  | EvRelease a => a ≠ b
  | EvErase k' h' => (k', h') ≠ (k, h)
  | EvPrune => True
  end.

(** [n] calls of [NewId] in a row, with the ids they return, the first call
    first. *)
Fixpoint NewId_times (n : nat) (c : ShardedLRUCache)
    : ShardedLRUCache * list Z :=
  match n with
  | O => (c, [])
  | S n' => let '(c1, id) := NewId c in
            let '(c2, ids) := NewId_times n' c1 in
            (c2, id :: ids)
  end.

(** ** Shards and the shared process state *)

(** The state [s] with the records [F] of other owners added to its heap. *)
Definition graft (F : gmap addr LRUHandle) (s : LRUCache) : LRUCache :=
  set_heap (heap s ∪ F) s.

(** The records of the process heap that shard [i] works with: a handle is
    used with the shard its hash selects. *)
Definition own (i : nat) (H : gmap addr LRUHandle) : gmap addr LRUHandle :=
  filter (λ ae, Shard (hash ae.2) = i) H.

Definition others (i : nat) (H : gmap addr LRUHandle)
    : gmap addr LRUHandle :=
  filter (λ ae, ¬ Shard (hash ae.2) = i) H.

(** Shard [i] of cache [c] together with the records that belong to it. *)
Definition view (i : nat) (c : ShardedLRUCache) (s : LRUCache) : LRUCache :=
  set_heap (own i (proc_heap c)) (attach c s).

(** Every record of the heap of [s] is one that shard [i] works with. *)
Definition pure (i : nat) (s : LRUCache) : Prop :=
  ∀ a e, heap s !! a = Some e → Shard (hash e) = i.

(** ** Clients of the sharded cache

    As for one shard: a client releases only handles it holds, passes
    arguments of their C++ types, and keeps the 32-bit counters of the shard
    it addresses from wrapping. *)
Inductive sevent :=
  | SvInsert (key : string) (v c : Z) (d : nat) (ret : addr)
  | SvLookup (key : string) (ret : option addr)
  | SvRelease (handle : addr)
  | SvErase (key : string)
  | SvPrune.

Inductive sharded_step (HashSlice : string → Z)
    : ShardedLRUCache → list addr → sevent →
      ShardedLRUCache → list addr → Prop :=
  | sstep_insert c held key v ch d c' e :
      is_size_t ch →
      (∀ s, shard_ c !! Shard (HashSlice key) = Some s →
            elems_ (table_ s) < 2 ^ 31) →
      Sharded_Insert HashSlice key v ch d c = Some (c', e) →
      sharded_step HashSlice c held (SvInsert key v ch d e) c' (e :: held)
  | sstep_lookup_hit c held key c' e :
      holds held e < 2 ^ 32 - 2 →
      Sharded_Lookup HashSlice key c = Some (c', Some e) →
      sharded_step HashSlice c held (SvLookup key (Some e)) c' (e :: held)
  | sstep_lookup_miss c held key c' :
      Sharded_Lookup HashSlice key c = Some (c', None) →
      sharded_step HashSlice c held (SvLookup key None) c' held
  | sstep_release c held a c' :
      a ∈ held →
      Sharded_Release a c = Some c' →
      sharded_step HashSlice c held (SvRelease a) c' (remove_one a held)
  | sstep_erase c held key c' :
      Sharded_Erase HashSlice key c = Some c' →
      sharded_step HashSlice c held (SvErase key) c' held
  | sstep_prune c held c' :
      Sharded_Prune c = Some c' →
      sharded_step HashSlice c held SvPrune c' held.

(** States reachable from [NewLRUCache(capacity)]. *)
Inductive sharded_reachable (HashSlice : string → Z) (capacity : Z)
    : ShardedLRUCache → list addr → Prop :=
  | sreach_new c :
      is_size_t capacity → NewLRUCache capacity = Some c →
      sharded_reachable HashSlice capacity c []
  | sreach_step c held ev c' held' :
      sharded_reachable HashSlice capacity c held →
      sharded_step HashSlice c held ev c' held' →
      sharded_reachable HashSlice capacity c' held'.

(** The invariant of the sharded cache: the handles held by clients split
    into one bag per shard such that every shard, seen with its own records
    and its bag, satisfies the shard invariant. *)
Definition shard_ok (cap : Z) (c : ShardedLRUCache)
    (bags : list (list addr)) (i : nat) : Prop :=
  ∃ s bag, shard_ c !! i = Some s ∧ bags !! i = Some bag ∧
           inv None cap (view i c s) bag.

Record sinv (cap : Z) (c : ShardedLRUCache) (bags : list (list addr))
    : Prop := {
  sinv_len : length (shard_ c) = 16%nat;
  sinv_bags : length bags = 16%nat;
  sinv_ok : ∀ i, (i < 16)%nat → shard_ok cap c bags i;
  sinv_hash : ∀ a e, proc_heap c !! a = Some e → is_uint32 (hash e);
  sinv_brk : ∀ a, is_Some (proc_heap c !! a) → (a < proc_brk c)%nat
}.

(** The call a shard sees for a call on the sharded cache. *)
Definition local_event (HashSlice : string → Z) (ev : sevent) : event :=
  match ev with
  | SvInsert key v c d e => EvInsert key (HashSlice key) v c d e
  | SvLookup key r => EvLookup key (HashSlice key) r
  | SvRelease a => EvRelease a
  | SvErase key => EvErase key (HashSlice key)
  | SvPrune => EvPrune
  end.

Definition event_key (ev : sevent) : option string :=
  match ev with
  | SvInsert key _ _ _ _ => Some key
  | SvLookup key _ => Some key
  | SvErase key => Some key
  | SvRelease _ | SvPrune => None
  end.

(** The shard a call on the sharded cache goes to. *)
Definition target (HashSlice : string → Z) (c : ShardedLRUCache)
    (ev : sevent) : option nat :=
  match ev with
  | SvInsert key _ _ _ _ | SvLookup key _ | SvErase key =>
      Some (Shard (HashSlice key))
  | SvRelease a => (λ e, Shard (hash e)) <$> proc_heap c !! a
  | SvPrune => None
  end.

(** Calls that neither insert, nor prune, nor erase [key]. *)
Definition squiet (key : string) (ev : sevent) : Prop :=
  match ev with
  | SvInsert _ _ _ _ _ => False
  | SvLookup _ _ => True
  | SvRelease _ => True
  | SvErase key' => key' ≠ key
  | SvPrune => False
  end.

(** A sequence of calls on the sharded cache, the first call first. *)
Inductive sharded_steps (HashSlice : string → Z)
    : ShardedLRUCache → list addr → list sevent →
      ShardedLRUCache → list addr → Prop :=
  | ssteps_nil c held : sharded_steps HashSlice c held [] c held
  | ssteps_cons c held ev c1 held1 evs c2 held2 :
      sharded_step HashSlice c held ev c1 held1 →
      sharded_steps HashSlice c1 held1 evs c2 held2 →
      sharded_steps HashSlice c held (ev :: evs) c2 held2.

(** The entries in the cache, shard after shard. *)
Definition all_cached (c : ShardedLRUCache) : list addr :=
  concat ((λ s, lru_ s ++ in_use_ s) <$> shard_ c).

(** A stand-in for [Hash] of util/hash.h, to run the sharded cache on
    sample keys: the length of the key selects the shard. *)
Definition sample_hash (key : string) : Z :=
  2 ^ 28 * (Z.of_nat (String.length key) mod 16) + 7.

(** The state after a call on the sharded cache that is expected to
    succeed. *)
Definition empty_cache : ShardedLRUCache :=
  {| shard_ := []; last_id_ := 0; proc_heap := ∅; proc_brk := 0%nat;
     proc_deleted := [] |}.

Definition safter {A} (x : option (ShardedLRUCache * A)) : ShardedLRUCache :=
  default empty_cache (fst <$> x).

Definition safter_ (x : option ShardedLRUCache) : ShardedLRUCache :=
  default empty_cache x.

(** [NewLRUCache(160)], then inserts of "a" (charge 6) and "bb" (charge 6),
    which go to different shards; both handles are kept. *)
Definition sharded_fresh : ShardedLRUCache := safter_ (NewLRUCache 160).

Definition sharded_a : ShardedLRUCache :=
  safter (Sharded_Insert sample_hash "a" 100 6 0%nat sharded_fresh).

Definition sharded_a_bb : ShardedLRUCache :=
  safter (Sharded_Insert sample_hash "bb" 200 6 0%nat sharded_a).

(** Exact sum of the usage counters of a list of shards. *)
Definition sum_usage (l : list LRUCache) : Z :=
  foldr (λ s acc, usage_ s + acc) 0 l.

(** After [sharded_a_bb], the handle on "a" is released: "a" is on the LRU
    list of its shard and "bb" is pinned in another shard.  Then the handle
    on "bb" is released as well. *)
Definition sharded_one_pinned : ShardedLRUCache :=
  safter_ (Sharded_Release 0%nat sharded_a_bb).

Definition sharded_unpinned : ShardedLRUCache :=
  safter_ (Sharded_Release 1%nat sharded_one_pinned).

(** The link fields after the constructor of a shard: both circular lists
    are empty. *)
Definition links_new : links := {| next := λ x, x; prev := λ x, x |}.

(** The link fields of [sample_a_b_pinned]: entry 0 is on the LRU list and
    entry 1 on the in-use list. *)
Definition sample_links : links :=
  LRU_Append_links (at_head in_use_head) (at_entry 1%nat)
    (LRU_Append_links (at_head lru_head) (at_entry 0%nat) links_new).

(** The bucket of [sample_table] that holds entry 0. *)
Definition sample_bucket : bucket_links :=
  {| bucket_head := Some 0%nat; next_hash := λ _, None |}.

(** ** Calls without the bound on outstanding handles

    [refs] is a [uint32_t] that [Ref] increments without checking for
    overflow.  [step] keeps the count from wrapping by letting a lookup
    return an entry only while fewer than 2^32 - 2 handles are outstanding on
    it.  [call] drops that bound: a call is a step, or a lookup that hits
    whatever the number of handles outstanding. *)
Inductive call : LRUCache → list addr → event → LRUCache → list addr → Prop :=
  | call_step s held ev s' held' :
      step s held ev s' held' → call s held ev s' held'
  | call_lookup_hit s held k h s' e :
      is_uint32 h →
      Lookup k h s = Some (s', Some e) →
      call s held (EvLookup k h (Some e)) s' (e :: held).

(** States that calls reach from a fresh shard of capacity [cap]; the trace
    lists the calls made so far, the latest first. *)
Inductive run (cap : Z) : list event → LRUCache → list addr → Prop :=
  | run_new s :
      is_size_t cap → NewShard cap = Some s → run cap [] s []
  | run_call tr s held ev s' held' :
      run cap tr s held →
      call s held ev s' held' →
      run cap (ev :: tr) s' held'.

(** The handles the clients hold after the calls of a trace. *)
Fixpoint handles (tr : list event) : list addr :=
  match tr with
  | [] => []
  | EvInsert _ _ _ _ _ e :: tr' => e :: handles tr'
  | EvLookup _ _ (Some e) :: tr' => e :: handles tr'
  | EvRelease a :: tr' => remove_one a (handles tr')
  | _ :: tr' => handles tr'
  end.

(** At no point of the trace did the clients hold more than 2^32 - 2 handles
    on one entry: together with the reference of the cache itself, the
    references to an entry have always been fewer than 2^32, so that [refs]
    has not wrapped. *)
Definition refs_fit (tr : list event) : Prop :=
  ∀ tr', tr' `suffix_of` tr → ∀ a, holds (handles tr') a <= 2 ^ 32 - 2.

(** The same for the sharded cache. *)
Inductive sharded_call (HashSlice : string → Z)
    : ShardedLRUCache → list addr → sevent →
      ShardedLRUCache → list addr → Prop :=
  | scall_step c held ev c' held' :
      sharded_step HashSlice c held ev c' held' →
      sharded_call HashSlice c held ev c' held'
  | scall_lookup_hit c held key c' e :
      Sharded_Lookup HashSlice key c = Some (c', Some e) →
      sharded_call HashSlice c held (SvLookup key (Some e)) c' (e :: held).

Inductive sharded_run (HashSlice : string → Z) (capacity : Z)
    : list sevent → ShardedLRUCache → list addr → Prop :=
  | srun_new c :
      is_size_t capacity → NewLRUCache capacity = Some c →
      sharded_run HashSlice capacity [] c []
  | srun_call tr c held ev c' held' :
      sharded_run HashSlice capacity tr c held →
      sharded_call HashSlice c held ev c' held' →
      sharded_run HashSlice capacity (ev :: tr) c' held'.

Fixpoint shandles (tr : list sevent) : list addr :=
  match tr with
  | [] => []
  | SvInsert _ _ _ _ e :: tr' => e :: shandles tr'
  | SvLookup _ (Some e) :: tr' => e :: shandles tr'
  | SvRelease a :: tr' => remove_one a (shandles tr')
  | _ :: tr' => shandles tr'
  end.

Definition srefs_fit (tr : list sevent) : Prop :=
  ∀ tr', tr' `suffix_of` tr → ∀ a, holds (shandles tr') a <= 2 ^ 32 - 2.

(** ** A run that wraps the reference count

    [sample_a] (capacity 10, "a" inserted and its handle kept) with the
    count of "a" set to [r].  After the insert the count is 2; each further
    lookup of "a" returns one more handle and adds one to the count, so
    after 2^32 - 2 lookups, with 2^32 - 1 handles outstanding, the count is
    2^32 in [uint32_t], which is 0. *)
Definition sample_a_refs (r : Z) : LRUCache :=
  store 0%nat (set_refs r (new_handle "a" 7 100 6 0%nat true)) sample_a.

Definition wrap_hits : nat := Z.to_nat (2 ^ 32 - 2).

Definition wrap_trace : list event :=
  replicate wrap_hits (EvLookup "a" 7 (Some 0%nat)) ++
  [EvInsert "a" 7 100 6 0%nat 0%nat].

Definition wrap_held : list addr := replicate wrap_hits 0%nat ++ [0%nat].

Definition sample_a_wrapped : LRUCache := sample_a_refs 0.

(** Capacity 0: after the insert of "a" a second insert, of "b"; both
    handles are kept. *)
Definition sample_off_b : LRUCache :=
  after (Insert "b" 9 200 1 0%nat sample_off).

(** * Machine arithmetic *)

Lemma wrap32_small x : 0 <= x < 2 ^ 32 → wrap32 x = x.
Proof. intros H. unfold wrap32. by apply Z.mod_small. Qed.

Lemma wrap64_small x : 0 <= x < 2 ^ 64 → wrap64 x = x.
Proof. intros H. unfold wrap64. by apply Z.mod_small. Qed.

Lemma wrap64_range x : is_size_t (wrap64 x).
Proof. unfold wrap64, is_size_t. apply Z.mod_pos_bound. lia. Qed.

Lemma wrap64_add_l x y : wrap64 (wrap64 x + y) = wrap64 (x + y).
Proof. unfold wrap64. by rewrite Zplus_mod_idemp_l. Qed.

Lemma wrap64_sub_l x y : wrap64 (wrap64 x - y) = wrap64 (x - y).
Proof. unfold wrap64. by rewrite Zminus_mod_idemp_l. Qed.

Lemma pow2_le_31 n : 0 <= n <= 31 → 0 < 2 ^ n <= 2 ^ 31.
Proof.
  intros H. split; [apply Z.pow_pos_nonneg; lia|].
  apply Z.pow_le_mono_r; lia.
Qed.

Lemma bucket_pow2 h n :
  0 <= n <= 31 → bucket h (2 ^ n) = Z.to_nat (h mod 2 ^ n).
Proof.
  intros Hn. unfold bucket. pose proof (pow2_le_31 n Hn) as Hp.
  rewrite wrap32_small by lia.
  replace (2 ^ n - 1) with (Z.ones n) by (rewrite Z.ones_equiv; lia).
  rewrite Z.land_ones by lia. done.
Qed.

Lemma bucket_lt h n :
  0 <= n <= 31 → (bucket h (2 ^ n) < Z.to_nat (2 ^ n))%nat.
Proof.
  intros Hn. rewrite bucket_pow2 by done.
  pose proof (pow2_le_31 n Hn).
  pose proof (Z.mod_pos_bound h (2 ^ n)). lia.
Qed.

(** * Bucket chains *)

Lemma kh_Some mem a k h :
  kh mem a = Some (k, h) ↔ ∃ e, mem !! a = Some e ∧ key e = k ∧ hash e = h.
Proof.
  unfold kh. destruct (mem !! a) as [e|]; simpl; split.
  - intros [= <- <-]. eauto.
  - intros (e' & [= <-] & <- & <-). done.
  - done.
  - intros (e' & ? & _). done.
Qed.

Lemma kh_None mem a : kh mem a = None ↔ mem !! a = None.
Proof. unfold kh. destruct (mem !! a); simpl; split; done. Qed.

Lemma FindPointer_walk_ext mem mem' k h chain :
  (∀ a, a ∈ chain → kh mem a = kh mem' a) →
  FindPointer_walk mem k h chain = FindPointer_walk mem' k h chain.
Proof.
  induction chain as [|p rest IH]; intros Hkh; [done|]. simpl.
  pose proof (Hkh p ltac:(left)) as Hp. unfold kh in Hp.
  rewrite IH by (intros; apply Hkh; by right).
  destruct (mem !! p) as [e|], (mem' !! p) as [e'|]; simplify_eq/=; try done.
  by rewrite H, H0.
Qed.

(** The walk stops at the first entry carrying the key and hash looked for,
    or at the end of the chain. *)
Lemma FindPointer_walk_spec mem k h chain :
  (∀ a, a ∈ chain → is_Some (mem !! a)) →
  ∃ j, FindPointer_walk mem k h chain = Some j ∧
       (j <= length chain)%nat ∧
       (∀ i a, (i < j)%nat → chain !! i = Some a → kh mem a ≠ Some (k, h)) ∧
       (∀ a, chain !! j = Some a → kh mem a = Some (k, h)).
Proof.
  induction chain as [|p rest IH]; intros Hin; simpl.
  - exists 0%nat. split_and!; [done|lia| |]; intros; simplify_eq/=; lia.
  - destruct (Hin p ltac:(left)) as [e He]. rewrite He. simpl.
    destruct IH as (j & Hj & Hle & Hbefore & Hat).
    { intros; apply Hin; by right. }
    destruct (negb (hash e =? h) || negb (bool_decide (k = key e))) eqn:Hm.
    + rewrite Hj. simpl. exists (S j). split_and!; [done|lia| |].
      * intros [|i] a Hi Ha; simplify_eq/=.
        -- unfold kh. rewrite He. simpl. intros [= Hk Hh].
           apply orb_true_iff in Hm as [Hm|Hm]; apply negb_true_iff in Hm.
           ++ apply Z.eqb_neq in Hm. done.
           ++ apply bool_decide_eq_false in Hm. done.
        -- apply (Hbefore i); [lia|done].
      * intros a Ha. simpl in Ha. by apply Hat.
    + exists 0%nat. split_and!; [done|lia| |].
      * intros; lia.
      * intros a [= <-]. apply orb_false_iff in Hm as [Hm1 Hm2].
        apply negb_false_iff in Hm1, Hm2. apply Z.eqb_eq in Hm1.
        apply bool_decide_eq_true in Hm2. unfold kh. rewrite He. simpl.
        by subst.
Qed.

(** * The table as a whole *)

Lemma elem_of_concat {A} (x : A) (ls : list (list A)) :
  x ∈ concat ls ↔ ∃ l, x ∈ l ∧ l ∈ ls.
Proof.
  rewrite list_elem_of_In, in_concat. split.
  - intros (l & Hl & Hx). exists l. by rewrite !list_elem_of_In.
  - intros (l & Hx & Hl). exists l. by rewrite <-!list_elem_of_In.
Qed.

Lemma entries_lookup t (i : nat) chain a :
  list_ t !! i = Some chain → a ∈ chain → a ∈ entries t.
Proof.
  intros Hi Ha. unfold entries. apply elem_of_concat.
  exists chain. split; [done|]. by eapply list_elem_of_lookup_2.
Qed.

Lemma entries_elem t a :
  a ∈ entries t → ∃ (i : nat) chain, list_ t !! i = Some chain ∧ a ∈ chain.
Proof.
  unfold entries. intros (chain & Ha & Hc)%elem_of_concat.
  apply list_elem_of_lookup_1 in Hc as [i Hi]. eauto.
Qed.

Lemma concat_split {A} (l : list (list A)) (i : nat) c :
  l !! i = Some c →
  concat l = concat (take i l) ++ c ++ concat (drop (S i) l).
Proof.
  intros Hi. rewrite <-(take_drop_middle l i c) at 1 by done.
  by rewrite concat_app, concat_cons.
Qed.

Lemma concat_insert {A} (l : list (list A)) (i : nat) c c' :
  l !! i = Some c →
  concat (<[i := c']> l) = concat (take i l) ++ c' ++ concat (drop (S i) l).
Proof.
  intros Hi. rewrite insert_take_drop by (by eapply lookup_lt_Some).
  by rewrite concat_app, concat_cons.
Qed.

Lemma wf_table_entry mem t a :
  wf_table mem t → a ∈ entries t →
  ∃ e, mem !! a = Some e ∧
       list_ t !! bucket (hash e) (length_ t) ≠ None ∧
       ∃ chain, list_ t !! bucket (hash e) (length_ t) = Some chain ∧ a ∈ chain.
Proof.
  intros Hwf (i & chain & Hi & Ha)%entries_elem.
  destruct (wf_bucket _ _ Hwf i chain a Hi Ha) as (k & h & Hkh & Hb).
  apply kh_Some in Hkh as (e & He & <- & <-). exists e. rewrite Hb, Hi. eauto.
Qed.

Lemma wf_table_bucket_lt mem t h :
  wf_table mem t → (bucket h (length_ t) < length (list_ t))%nat.
Proof.
  intros Hwf. destruct (wf_pow2 _ _ Hwf) as (n & Hn & Hlen).
  pose proof (wf_length _ _ Hwf) as Hl. rewrite Hlen in *.
  pose proof (bucket_lt h n ltac:(lia)). lia.
Qed.

Lemma wf_table_ext mem mem' t :
  (∀ a, a ∈ entries t → kh mem a = kh mem' a) →
  wf_table mem t → wf_table mem' t.
Proof.
  intros Hkh [H1 H2 H3 H4 H5 H6]. split; try done.
  - intros i chain a Hi Ha. rewrite <-Hkh by (by eapply entries_lookup).
    by eapply H5.
  - erewrite <-(list_fmap_ext (kh mem) (kh mem')); [done|].
    intros i a Hi. apply Hkh. by eapply list_elem_of_lookup_2.
Qed.

(** [FindPointer] on a well-formed table: the slot is in the bucket of the
    hash; it holds the one entry with that key and hash, or it is the trailing
    slot and the table has no such entry. *)
Lemma FindPointer_spec mem t k h :
  wf_table mem t →
  ∃ (j : nat) chain,
    FindPointer mem t k h = Some (bucket h (length_ t), j) ∧
    list_ t !! bucket h (length_ t) = Some chain ∧
    match chain !! j with
    | Some a => kh mem a = Some (k, h)
    | None => j = length chain ∧
              ∀ a, a ∈ entries t → kh mem a ≠ Some (k, h)
    end.
Proof.
  intros Hwf. unfold FindPointer.
  destruct (lookup_lt_is_Some_2 (list_ t) (bucket h (length_ t)))
    as [chain Hc]; [by eapply wf_table_bucket_lt|].
  rewrite Hc. simpl.
  destruct (FindPointer_walk_spec mem k h chain)
    as (j & Hj & Hle & Hbefore & Hat).
  { intros a Ha. destruct (wf_bucket _ _ Hwf _ _ _ Hc Ha) as (?&?&Hk&_).
    apply kh_Some in Hk as (e & -> & _). eauto. }
  rewrite Hj. simpl. exists j, chain. split_and!; [done..|].
  destruct (chain !! j) as [a|] eqn:Hja; [by apply Hat|].
  apply lookup_ge_None in Hja. split; [lia|].
  intros a Ha Hkh.
  destruct (entries_elem _ _ Ha) as (i & chain' & Hi & Hac).
  destruct (wf_bucket _ _ Hwf _ _ _ Hi Hac) as (k' & h' & Hk' & Hb).
  rewrite Hkh in Hk'. injection Hk' as <- <-. subst i.
  rewrite Hc in Hi. injection Hi as <-.
  apply list_elem_of_lookup_1 in Hac as [p Hp].
  apply (Hbefore p a); [|done|done].
  apply lookup_lt_Some in Hp. lia.
Qed.

Lemma HT_Lookup_spec mem t k h :
  wf_table mem t →
  ∃ r, HT_Lookup mem t k h = Some r ∧
       match r with
       | Some a => a ∈ entries t ∧ kh mem a = Some (k, h)
       | None => ∀ a, a ∈ entries t → kh mem a ≠ Some (k, h)
       end.
Proof.
  intros Hwf. destruct (FindPointer_spec mem t k h Hwf) as (j & chain & Hf & Hc & Hs).
  unfold HT_Lookup. rewrite Hf. simpl. rewrite Hc. simpl.
  exists (chain !! j). split; [done|].
  destruct (chain !! j) as [a|] eqn:Ha; [|by destruct Hs].
  split; [|done]. eapply entries_lookup; [done|].
  by eapply list_elem_of_lookup_2.
Qed.

Lemma entries_remove_perm t (i j : nat) chain a :
  list_ t !! i = Some chain → chain !! j = Some a →
  entries t ≡ₚ a :: concat (<[i := delete j chain]> (list_ t)).
Proof.
  intros Hi Hj. unfold entries.
  rewrite (concat_split _ _ _ Hi), (concat_insert _ _ _ (delete j chain) Hi).
  rewrite <-(take_drop_middle chain j a) at 1 by done.
  rewrite delete_take_drop.
  rewrite <-!app_assoc. simpl.
  rewrite <-Permutation_middle.
  rewrite (app_assoc (concat _) (take j chain)).
  rewrite <-Permutation_middle.
  by rewrite <-!app_assoc.
Qed.

Lemma wf_table_nonempty mem t a :
  wf_table mem t → a ∈ entries t → 1 <= elems_ t.
Proof.
  intros Hwf Ha. rewrite (wf_elems _ _ Hwf).
  destruct (entries t); [by apply elem_of_nil in Ha|]. simpl. lia.
Qed.

Lemma wf_table_elems_bound mem t : wf_table mem t → 0 <= elems_ t <= 2 ^ 31.
Proof.
  intros Hwf. destruct (wf_pow2 _ _ Hwf) as (n & Hn & Hlen).
  pose proof (wf_load _ _ Hwf). pose proof (wf_elems _ _ Hwf).
  pose proof (pow2_le_31 n ltac:(lia)). lia.
Qed.

(** [HandleTable::Remove] on a well-formed table. *)
Lemma HT_Remove_spec mem t k h :
  wf_table mem t →
  ∃ t' r, HT_Remove mem t k h = Some (t', r) ∧
    match r with
    | Some a =>
        kh mem a = Some (k, h) ∧ entries t ≡ₚ a :: entries t' ∧
        wf_table mem t' ∧ length_ t' = length_ t ∧
        elems_ t' = elems_ t - 1
    | None => t' = t ∧ ∀ a, a ∈ entries t → kh mem a ≠ Some (k, h)
    end.
Proof.
  intros Hwf.
  destruct (FindPointer_spec mem t k h Hwf) as (j & chain & Hf & Hc & Hs).
  unfold HT_Remove. rewrite Hf. simpl. rewrite Hc. simpl.
  destruct (chain !! j) as [a|] eqn:Ha.
  2:{ exists t, None. destruct Hs. done. }
  eexists _, (Some a). split; [done|].
  pose proof (entries_remove_perm t _ j chain a Hc Ha) as Hperm.
  assert (a ∈ entries t) as Hin.
  { eapply entries_lookup; [done|]. by eapply list_elem_of_lookup_2. }
  pose proof (wf_table_nonempty _ _ _ Hwf Hin) as Hne.
  pose proof (wf_table_elems_bound _ _ Hwf) as Hb.
  assert (wrap32 (elems_ t - 1) = elems_ t - 1) as Hw
    by (apply wrap32_small; lia).
  split_and!; [done|done| |done|done].
  destruct Hwf as [H1 H2 H3 H4 H5 H6]. split; simpl.
  - by rewrite length_insert.
  - done.
  - rewrite Hw, H3. unfold entries at 2. simpl.
    apply Permutation_length in Hperm. simpl in Hperm. lia.
  - lia.
  - intros i chain' a' Hi Ha'.
    destruct (decide (i = bucket h (length_ t))) as [->|Hne'].
    + rewrite list_lookup_insert_eq in Hi by (by eapply lookup_lt_Some).
      injection Hi as <-. apply (H5 _ chain); [done|].
      by eapply list_elem_of_delete_inv.
    + rewrite list_lookup_insert_ne in Hi by done. by eapply H5.
  - rewrite Hperm in H6. simpl in H6. by apply NoDup_cons in H6 as [_ ?].
Qed.

(** * Resize *)

Lemma concat_replicate_nil {A} (n : nat) :
  concat (replicate n ([] : list A)) = [].
Proof. induction n; [done|]. simpl. done. Qed.

Lemma Resize_grow_spec elems fuel m :
  2 <= m <= 31 → elems <= 2 ^ 31 → 32 - m <= Z.of_nat fuel →
  ∃ n, Resize_grow fuel (2 ^ m) elems = Some (2 ^ n) ∧ m <= n <= 31 ∧
       elems <= 2 ^ n ∧ (n = m ∨ 2 ^ (n - 1) < elems).
Proof.
  revert m. induction fuel as [|fuel IH]; intros m Hm He Hf; [lia|].
  simpl. destruct (2 ^ m <? elems) eqn:Hlt.
  - apply Z.ltb_lt in Hlt.
    assert (m < 31).
    { destruct (decide (m = 31)) as [->|]; [lia|lia]. }
    assert (wrap32 (2 ^ m * 2) = 2 ^ (m + 1)) as ->.
    { rewrite Z.pow_add_r by lia. apply wrap32_small.
      pose proof (pow2_le_31 m ltac:(lia)). lia. }
    destruct (IH (m + 1)) as (n & Hn & Hr & Hle & Hmin); [lia..|].
    exists n. split_and!; [done|lia|lia|done|].
    right. destruct Hmin as [->|]; [|done].
    by replace (m + 1 - 1) with m by lia.
  - apply Z.ltb_ge in Hlt. exists m. split_and!; [done|lia|lia|done|by left].
Qed.

Lemma Resize_move_fold mem n l :
  0 <= n <= 31 →
  (∀ a, a ∈ l → is_Some (mem !! a)) →
  ∀ nl cnt,
    length nl = Z.to_nat (2 ^ n) →
    0 <= cnt → cnt + Z.of_nat (length l) < 2 ^ 32 →
    ∃ nl',
      foldl (Resize_move mem (2 ^ n)) (Some (nl, cnt)) l =
        Some (nl', cnt + Z.of_nat (length l)) ∧
      length nl' = length nl ∧
      concat nl' ≡ₚ l ++ concat nl ∧
      (∀ (i : nat) chain a, nl' !! i = Some chain → a ∈ chain →
         (∃ chain0, nl !! i = Some chain0 ∧ a ∈ chain0) ∨
         (∃ e, mem !! a = Some e ∧ bucket (hash e) (2 ^ n) = i)).
Proof.
  intros Hn. induction l as [|h l IH]; intros Hin nl cnt Hlen Hc Hb.
  - exists nl. simpl. rewrite Z.add_0_r. split_and!; [done..|]. eauto.
  - simpl. destruct (Hin h ltac:(left)) as [e He]. rewrite He. simpl.
    pose proof (bucket_lt (hash e) n Hn) as Hlt. rewrite <-Hlen in Hlt.
    destruct (lookup_lt_is_Some_2 _ _ Hlt) as [chain Hch].
    rewrite Hch. simpl. simpl in Hb.
    rewrite wrap32_small by lia.
    destruct (IH ltac:(intros; apply Hin; by right)
                 (<[bucket (hash e) (2 ^ n) := h :: chain]> nl) (cnt + 1))
      as (nl' & Hf & Hl & Hp & Hbk).
    { by rewrite length_insert. }
    { lia. }
    { lia. }
    exists nl'. split_and!.
    + rewrite Hf. f_equal. f_equal. lia.
    + by rewrite Hl, length_insert.
    + rewrite Hp, (concat_insert _ _ _ _ Hch), (concat_split _ _ _ Hch).
      simpl. rewrite <-(Permutation_middle (concat _)).
      by rewrite <-Permutation_middle.
    + intros i c a Hi Ha. destruct (Hbk i c a Hi Ha) as [(c0 & Hc0 & Ha0)|?];
        [|by right].
      destruct (decide (i = bucket (hash e) (2 ^ n))) as [->|Hne].
      * rewrite list_lookup_insert_eq in Hc0 by done. injection Hc0 as <-.
        apply elem_of_cons in Ha0 as [->|Ha0]; [right; eauto|left; eauto].
      * rewrite list_lookup_insert_ne in Hc0 by done. left; eauto.
Qed.

(** [Resize] rehashes every entry into the smallest power of two, at least 4,
    that is no less than the element count (for counts up to 2^31). *)
Lemma Resize_spec mem t :
  (∀ a, a ∈ entries t → is_Some (mem !! a)) →
  elems_ t = Z.of_nat (length (entries t)) →
  elems_ t <= 2 ^ 31 →
  ∃ t' n,
    Resize mem t = Some t' ∧
    2 <= n <= 31 ∧ length_ t' = 2 ^ n ∧ elems_ t <= 2 ^ n ∧
    (n = 2 ∨ 2 ^ (n - 1) < elems_ t) ∧
    length (list_ t') = Z.to_nat (2 ^ n) ∧
    elems_ t' = elems_ t ∧
    entries t' ≡ₚ entries t ∧
    (∀ (i : nat) chain a, list_ t' !! i = Some chain → a ∈ chain →
       ∃ e, mem !! a = Some e ∧ bucket (hash e) (2 ^ n) = i).
Proof.
  intros Hin He Hb. unfold Resize.
  destruct (Resize_grow_spec (elems_ t) 32 2) as (n & Hg & Hn & Hle & Hmin);
    [lia..|].
  change (2 ^ 2) with 4 in Hg. rewrite Hg. simpl.
  destruct (Resize_move_fold mem n (entries t) ltac:(lia) Hin
              (replicate (Z.to_nat (2 ^ n)) []) 0)
    as (nl' & Hf & Hl & Hp & Hbk).
  { by rewrite length_replicate. }
  { lia. }
  { lia. }
  unfold entries in Hf |- *. rewrite Hf. simpl.
  unfold entries in He. rewrite <-He, Z.eqb_refl. simpl.
  eexists _, n. split; [done|]. simpl.
  rewrite length_replicate in Hl.
  rewrite concat_replicate_nil, app_nil_r in Hp.
  split_and!; [lia|lia|done|done|done|done|done|done|].
  intros i chain a Hi Ha.
  destruct (Hbk i chain a Hi Ha) as [(c0 & Hc0 & Ha0)|?]; [|done].
  apply lookup_replicate in Hc0 as [-> _]. by apply elem_of_nil in Ha0.
Qed.

(** * Insert *)

Lemma link_at_replace_perm t (i j : nat) chain o h :
  list_ t !! i = Some chain → chain !! j = Some o →
  ∃ rest, entries t ≡ₚ o :: rest ∧ concat (link_at t i j chain h) ≡ₚ h :: rest.
Proof.
  intros Hi Hj.
  exists (concat (take i (list_ t)) ++ (take j chain ++ drop (S j) chain) ++
          concat (drop (S i) (list_ t))).
  unfold entries, link_at.
  rewrite (concat_split _ _ _ Hi), (concat_insert _ _ _ _ Hi).
  rewrite <-(take_drop_middle chain j o) at 1 by done.
  split.
  - rewrite <-!app_assoc. simpl. rewrite <-Permutation_middle.
    rewrite (app_assoc (concat _) (take j chain)).
    rewrite <-Permutation_middle. by rewrite <-!app_assoc.
  - rewrite <-!app_assoc. simpl. rewrite <-Permutation_middle.
    rewrite (app_assoc (concat _) (take j chain)).
    rewrite <-Permutation_middle. by rewrite <-!app_assoc.
Qed.

Lemma link_at_append_perm t (i j : nat) chain h :
  list_ t !! i = Some chain → j = length chain →
  concat (link_at t i j chain h) ≡ₚ h :: entries t.
Proof.
  intros Hi ->. unfold entries, link_at.
  rewrite (concat_split _ _ _ Hi), (concat_insert _ _ _ _ Hi).
  rewrite firstn_all, drop_ge by lia.
  rewrite <-!app_assoc. simpl. rewrite <-Permutation_middle.
  rewrite (app_assoc (concat _) chain).
  rewrite <-Permutation_middle. by rewrite <-!app_assoc.
Qed.

Lemma link_at_bucket mem t (i j : nat) chain h k hs :
  wf_table mem t → list_ t !! i = Some chain →
  kh mem h = Some (k, hs) → bucket hs (length_ t) = i →
  ∀ (i' : nat) chain' a,
    link_at t i j chain h !! i' = Some chain' → a ∈ chain' →
    ∃ k' h', kh mem a = Some (k', h') ∧ bucket h' (length_ t) = i'.
Proof.
  intros Hwf Hi Hkh Hb i' chain' a Hi' Ha. unfold link_at in Hi'.
  destruct (decide (i' = i)) as [->|Hne].
  - rewrite list_lookup_insert_eq in Hi' by (by eapply lookup_lt_Some).
    injection Hi' as <-.
    apply elem_of_app in Ha as [Ha|Ha].
    + eapply (wf_bucket _ _ Hwf); [done|]. by eapply elem_of_sublist, sublist_take.
    + apply elem_of_cons in Ha as [->|Ha]; [eauto|].
      eapply (wf_bucket _ _ Hwf); [done|]. by eapply elem_of_sublist, sublist_drop.
  - rewrite list_lookup_insert_ne in Hi' by done.
    by eapply (wf_bucket _ _ Hwf).
Qed.

(** [HandleTable::Insert] on a well-formed table below 2^31 entries, for an
    allocated handle that is not linked yet: the slot, what the slot held,
    and the table that results. *)
Lemma HT_Insert_full mem t e r :
  wf_table mem t → mem !! e = Some r → e ∉ entries t →
  elems_ t < 2 ^ 31 →
  ∃ (j : nat) chain t',
    FindPointer mem t (key r) (hash r) =
      Some (bucket (hash r) (length_ t), j) ∧
    list_ t !! bucket (hash r) (length_ t) = Some chain ∧
    HT_Insert mem t e = Some (t', chain !! j) ∧ wf_table mem t' ∧
    match chain !! j with
    | Some o =>
        kh mem o = kh mem e ∧ length_ t' = length_ t ∧
        elems_ t' = elems_ t ∧
        list_ t' = link_at t (bucket (hash r) (length_ t)) j chain e ∧
        ∃ rest, entries t ≡ₚ o :: rest ∧ entries t' ≡ₚ e :: rest
    | None =>
        (∀ a, a ∈ entries t → kh mem a ≠ kh mem e) ∧
        elems_ t' = elems_ t + 1 ∧
        entries t' ≡ₚ e :: entries t ∧
        if length_ t <? elems_ t + 1 then
          ∃ n, 2 <= n <= 31 ∧ length_ t' = 2 ^ n ∧ elems_ t' <= 2 ^ n ∧
               (n = 2 ∨ 2 ^ (n - 1) < elems_ t')
        else
          length_ t' = length_ t ∧
          list_ t' = link_at t (bucket (hash r) (length_ t)) j chain e
    end.
Proof.
  intros Hwf He Hnin Hlt.
  destruct (FindPointer_spec mem t (key r) (hash r) Hwf)
    as (j & chain & Hf & Hc & Hs).
  assert (kh mem e = Some (key r, hash r)) as Hkhe
    by (unfold kh; by rewrite He).
  pose proof (wf_table_elems_bound _ _ Hwf) as Hb.
  exists j, chain.
  unfold HT_Insert. rewrite He. simpl. rewrite Hf. simpl. rewrite Hc. simpl.
  fold (link_at t (bucket (hash r) (length_ t)) j chain e).
  destruct (chain !! j) as [o|] eqn:Ho.
  - (* an entry with this key and hash is displaced *)
    destruct (link_at_replace_perm t _ j chain o e Hc Ho)
      as (rest & Hp1 & Hp2).
    eexists. do 3 (split; [done|]). split.
    2:{ rewrite Hkhe. split_and!; [done..|by exists rest]. }
    split; simpl.
    + unfold link_at. rewrite length_insert. apply (wf_length _ _ Hwf).
    + apply (wf_pow2 _ _ Hwf).
    + unfold entries. simpl. rewrite (wf_elems _ _ Hwf).
      apply Permutation_length in Hp1, Hp2. simpl in *. lia.
    + apply (wf_load _ _ Hwf).
    + by eapply link_at_bucket.
    + unfold entries. simpl. rewrite Hp2.
      replace (kh mem <$> e :: rest) with (kh mem <$> o :: rest)
        by (simpl; by rewrite Hkhe, Hs).
      rewrite <-Hp1. apply (wf_nodup _ _ Hwf).
  - (* a new key: the entry goes to the trailing slot *)
    destruct Hs as [Hj Hno].
    pose proof (link_at_append_perm t _ j chain e Hc Hj) as Hp.
    rewrite (wrap32_small (elems_ t + 1)) by lia.
    set (t1 := {| length_ := length_ t; elems_ := elems_ t + 1;
                  list_ := link_at t (bucket (hash r) (length_ t)) j chain e |}).
    assert (entries t1 ≡ₚ e :: entries t) as Hp1 by done.
    assert (NoDup (kh mem <$> entries t1)) as Hnd.
    { rewrite Hp1. simpl. apply NoDup_cons. split; [|apply (wf_nodup _ _ Hwf)].
      intros (a & Ha1 & Ha2)%list_elem_of_fmap.
      apply (Hno a Ha2). by rewrite <-Ha1. }
    assert (elems_ t1 = Z.of_nat (length (entries t1))) as Hel.
    { apply Permutation_length in Hp1. rewrite Hp1. simpl.
      rewrite (wf_elems _ _ Hwf). lia. }
    destruct (length_ t <? elems_ t + 1) eqn:Hgrow.
    + destruct (Resize_spec mem t1) as
        (t' & n & Hr & Hn & Hlen & Hle & Hmin & Hll & Hel' & Hp' & Hbk);
        [|done|simpl; lia|].
      { intros a Ha. rewrite Hp1 in Ha. apply elem_of_cons in Ha as [->|Ha].
        - by rewrite He.
        - destruct (wf_table_entry _ _ _ Hwf Ha) as (x & -> & _). eauto. }
      rewrite Hr. simpl. exists t'. do 3 (split; [done|]). split.
      * split.
        -- rewrite Hlen, Hll. pose proof (pow2_le_31 n ltac:(lia)). lia.
        -- eauto.
        -- rewrite Hel', Hel. apply Permutation_length in Hp'. by rewrite Hp'.
        -- rewrite Hel', Hlen. done.
        -- intros i c a Hi Ha. rewrite Hlen.
           destruct (Hbk i c a Hi Ha) as (x & Hx & Hbx).
           exists (key x), (hash x). split; [|done]. unfold kh. by rewrite Hx.
        -- by rewrite Hp'.
      * split_and!.
        -- intros a Ha. rewrite Hkhe. by apply Hno.
        -- by rewrite Hel'.
        -- by rewrite Hp'.
        -- exists n. rewrite Hel'. simpl in *. done.
    + apply Z.ltb_ge in Hgrow. exists t1. do 3 (split; [done|]). split.
      * split; simpl; try done.
        -- unfold link_at. rewrite length_insert. apply (wf_length _ _ Hwf).
        -- apply (wf_pow2 _ _ Hwf).
        -- by eapply link_at_bucket.
      * split_and!; [|done..].
        intros a Ha. rewrite Hkhe. by apply Hno.
Qed.

Lemma HT_Insert_spec mem t e r :
  wf_table mem t → mem !! e = Some r → e ∉ entries t →
  elems_ t < 2 ^ 31 →
  ∃ t' old,
    HT_Insert mem t e = Some (t', old) ∧ wf_table mem t' ∧
    match old with
    | Some o =>
        kh mem o = kh mem e ∧ length_ t' = length_ t ∧
        elems_ t' = elems_ t ∧
        ∃ rest, entries t ≡ₚ o :: rest ∧ entries t' ≡ₚ e :: rest
    | None =>
        (∀ a, a ∈ entries t → kh mem a ≠ kh mem e) ∧
        elems_ t' = elems_ t + 1 ∧
        entries t' ≡ₚ e :: entries t
    end.
Proof.
  intros Hwf He Hnin Hlt.
  destruct (HT_Insert_full mem t e r Hwf He Hnin Hlt)
    as (j & chain & t' & _ & _ & Heq & Hwf' & Hspec).
  exists t', (chain !! j). split_and!; [done..|].
  destruct (chain !! j).
  - destruct Hspec as (? & ? & ? & _ & ?). done.
  - destruct Hspec as (? & ? & ? & _). done.
Qed.

(** * Handles held by the client *)

Lemma holds_nil a : holds [] a = 0.
Proof. done. Qed.

Lemma holds_cons_eq l a : holds (a :: l) a = holds l a + 1.
Proof.
  unfold holds. rewrite filter_cons_True by done. simpl length. lia.
Qed.

Lemma holds_cons_ne l a b : b ≠ a → holds (b :: l) a = holds l a.
Proof. intros H. unfold holds. by rewrite filter_cons_False. Qed.

Lemma holds_nonneg l a : 0 <= holds l a.
Proof. unfold holds. lia. Qed.

Lemma holds_pos l a : a ∈ l ↔ 1 <= holds l a.
Proof.
  induction l as [|b l IH].
  - rewrite holds_nil. split; [by intros ?%elem_of_nil|lia].
  - destruct (decide (b = a)) as [->|Hne].
    + rewrite holds_cons_eq. pose proof (holds_nonneg l a).
      split; [lia|]. intros _. by left.
    + rewrite holds_cons_ne by done. rewrite <-IH.
      rewrite elem_of_cons. intuition congruence.
Qed.

Lemma holds_zero l a : a ∉ l ↔ holds l a = 0.
Proof. rewrite holds_pos. pose proof (holds_nonneg l a). lia. Qed.

Lemma holds_remove_one_eq l a :
  a ∈ l → holds (remove_one a l) a = holds l a - 1.
Proof.
  induction l as [|b l IH]; [by intros ?%elem_of_nil|].
  intros Hin. simpl. destruct (decide (b = a)) as [->|Hne].
  - rewrite holds_cons_eq. lia.
  - rewrite !holds_cons_ne by done. apply IH.
    apply elem_of_cons in Hin as [->|]; done.
Qed.

Lemma holds_remove_one_ne l a b :
  b ≠ a → holds (remove_one a l) b = holds l b.
Proof.
  intros Hne. induction l as [|c l IH]; [done|]. simpl.
  destruct (decide (c = a)) as [->|Hca].
  - by rewrite holds_cons_ne.
  - destruct (decide (c = b)) as [->|Hcb].
    + by rewrite !holds_cons_eq, IH.
    + by rewrite !holds_cons_ne.
Qed.

Lemma elem_of_remove_one l a b : b ∈ remove_one a l → b ∈ l.
Proof.
  induction l as [|c l IH]; [done|]. simpl. destruct (decide (c = a)).
  - by right.
  - rewrite !elem_of_cons. intuition.
Qed.

(** * Unlinking from a list *)

Lemma filter_ne_id (l : list addr) a :
  a ∉ l → filter (λ x, x ≠ a) l = l.
Proof.
  induction l as [|b l IH]; [done|]. intros Hn.
  apply not_elem_of_cons in Hn as [? ?].
  rewrite filter_cons_True by done. by rewrite IH.
Qed.

Lemma filter_ne_perm (l : list addr) a :
  NoDup l → a ∈ l → l ≡ₚ a :: filter (λ x, x ≠ a) l.
Proof.
  induction l as [|b l IH]; [by intros _ ?%elem_of_nil|].
  intros [Hb Hnd]%NoDup_cons Hin. destruct (decide (b = a)) as [->|Hne].
  - rewrite filter_cons_False by (intros H; by apply H). by rewrite filter_ne_id.
  - rewrite filter_cons_True by done.
    apply elem_of_cons in Hin as [->|Hin]; [done|].
    rewrite (IH Hnd Hin) at 1. apply perm_swap.
Qed.

Lemma filter_ne_head (l : list addr) a :
  NoDup (a :: l) → filter (λ x, x ≠ a) (a :: l) = l.
Proof.
  intros [Ha _]%NoDup_cons.
  rewrite filter_cons_False by (intros H; by apply H).
  by apply filter_ne_id.
Qed.

Lemma elem_of_filter_ne (l : list addr) a b :
  b ∈ filter (λ x, x ≠ a) l ↔ b ≠ a ∧ b ∈ l.
Proof. by rewrite list_elem_of_filter. Qed.

Lemma NoDup_filter_ne (l : list addr) a :
  NoDup l → NoDup (filter (λ x, x ≠ a) l).
Proof. apply NoDup_filter. Qed.

Lemma NoDup_snoc (l : list addr) a : NoDup l → a ∉ l → NoDup (l ++ [a]).
Proof.
  intros Hnd Ha. apply NoDup_app. split_and!; [done| |apply NoDup_singleton].
  intros x Hx ->%list_elem_of_singleton. done.
Qed.

(** * Charges *)

Lemma total_charge_app mem l l' :
  total_charge mem (l ++ l') = total_charge mem l + total_charge mem l'.
Proof. induction l as [|a l IH]; simpl; [done|]. rewrite IH. lia. Qed.

Lemma total_charge_perm mem l l' :
  l ≡ₚ l' → total_charge mem l = total_charge mem l'.
Proof. induction 1; simpl; lia. Qed.

Lemma total_charge_ext mem mem' l :
  (∀ a, a ∈ l → charge_of mem a = charge_of mem' a) →
  total_charge mem l = total_charge mem' l.
Proof.
  induction l as [|a l IH]; intros H; simpl; [done|].
  rewrite (H a) by left. rewrite IH; [done|]. intros; apply H. by right.
Qed.

Lemma total_charge_snoc mem l a :
  total_charge mem (l ++ [a]) = total_charge mem l + charge_of mem a.
Proof. rewrite total_charge_app. simpl. lia. Qed.

Lemma charge_of_Some mem a e : mem !! a = Some e → charge_of mem a = charge e.
Proof. unfold charge_of. by intros ->. Qed.

(** * Handles and the heap *)

Lemma same_entry_refl e : same_entry e e.
Proof. by repeat split. Qed.

Lemma same_entry_trans e1 e2 e3 :
  same_entry e1 e2 → same_entry e2 e3 → same_entry e1 e3.
Proof. unfold same_entry. intuition congruence. Qed.

Lemma kh_insert_same mem a e e' b :
  mem !! a = Some e → key e' = key e → hash e' = hash e →
  kh (<[a := e']> mem) b = kh mem b.
Proof.
  intros He Hk Hh. unfold kh. destruct (decide (a = b)) as [->|Hne].
  - rewrite lookup_insert_eq, He. simpl. by rewrite Hk, Hh.
  - by rewrite lookup_insert_ne.
Qed.

Lemma charge_of_insert_same mem a e e' b :
  mem !! a = Some e → charge e' = charge e →
  charge_of (<[a := e']> mem) b = charge_of mem b.
Proof.
  intros He Hc. unfold charge_of. destruct (decide (a = b)) as [->|Hne].
  - rewrite lookup_insert_eq, He. simpl. by rewrite Hc.
  - by rewrite lookup_insert_ne.
Qed.

(** * Preservation of the shard invariant *)

(** Name the fields of the invariant after its projections. *)
Ltac destruct_inv H :=
  destruct H as
    [inv_cap inv_table inv_pending inv_entries inv_lru inv_in_use
     inv_nodup_lru inv_nodup_in_use inv_refs inv_held inv_held_bound
     inv_fields inv_usage inv_brk inv_disabled].


(** Changing the reference count of one handle, with the two lists adjusted
    to where the new count puts it. *)
Lemma inv_relink p cap s held held' a e r lru' in_use' :
  inv p cap s held →
  heap s !! a = Some e →
  r = (if in_cache e then 1 else 0) + holds held' a → 1 <= r →
  (∀ b, b ≠ a → holds held' b = holds held b) →
  (∀ b, b ∈ held' → b ∈ held ∨ b = a) →
  holds held' a <= 2 ^ 32 - 2 →
  NoDup lru' → NoDup in_use' →
  (∀ b, b ≠ a → (b ∈ lru' ↔ b ∈ lru_ s) ∧ (b ∈ in_use' ↔ b ∈ in_use_ s)) →
  (a ∈ lru' ↔ in_cache e = true ∧ r = 1) →
  (a ∈ in_use' ↔ in_cache e = true ∧ 2 <= r) →
  lru' ++ in_use' ≡ₚ lru_ s ++ in_use_ s →
  inv p cap (set_lists lru' in_use' (store a (set_refs r e) s)) held'.
Proof.
  intros Hinv He Hr Hr1 Hh Hsub Hbound Hnd1 Hnd2 Hother Hlru Hinuse Hperm.
  destruct_inv Hinv.
  split; simpl.
  - done.
  - eapply wf_table_ext; [|done]. intros b _. symmetry.
    by eapply kh_insert_same.
  - done.
  - intros b. rewrite inv_entries. destruct (decide (b = a)) as [->|Hne].
    + rewrite lookup_insert_eq, He. split; intros (x & [= <-] & Hx); eauto.
    + by rewrite lookup_insert_ne.
  - intros b. destruct (decide (b = a)) as [->|Hne].
    + rewrite lookup_insert_eq, Hlru. split.
      * intros [? ?]. eauto.
      * intros (x & [= <-] & ? & ?). done.
    + rewrite lookup_insert_ne by done. rewrite <-inv_lru. by apply Hother.
  - intros b. destruct (decide (b = a)) as [->|Hne].
    + rewrite lookup_insert_eq, Hinuse. split.
      * intros [? ?]. eauto.
      * intros (x & [= <-] & ? & ?). done.
    + rewrite lookup_insert_ne by done. rewrite <-inv_in_use. by apply Hother.
  - done.
  - done.
  - intros b x. destruct (decide (b = a)) as [->|Hne].
    + rewrite lookup_insert_eq. intros [= <-]. simpl. by split.
    + rewrite lookup_insert_ne by done. rewrite Hh by done. apply inv_refs.
  - intros b Hb. destruct (decide (b = a)) as [->|Hne].
    + rewrite lookup_insert_eq. eauto.
    + rewrite lookup_insert_ne by done. apply inv_held.
      destruct (Hsub b Hb); done.
  - intros b. destruct (decide (b = a)) as [->|Hne]; [done|].
    rewrite Hh by done. apply inv_held_bound.
  - intros b x. destruct (decide (b = a)) as [->|Hne].
    + rewrite lookup_insert_eq. intros [= <-]. simpl. by eapply inv_fields.
    + rewrite lookup_insert_ne by done. apply inv_fields.
  - rewrite inv_usage. f_equal. rewrite (total_charge_perm _ _ _ Hperm).
    apply total_charge_ext. intros b _. symmetry.
    by eapply charge_of_insert_same.
  - intros b. destruct (decide (b = a)) as [->|Hne].
    + intros _. apply inv_brk. eauto.
    + rewrite lookup_insert_ne by done. apply inv_brk.
  - intros Hc b x. destruct (decide (b = a)) as [->|Hne].
    + rewrite lookup_insert_eq. intros [= <-]. simpl. by eapply inv_disabled.
    + rewrite lookup_insert_ne by done. by apply inv_disabled.
Qed.

(** Freeing a handle that is out of the cache and held once. *)
Lemma inv_free p cap s held a e log :
  inv p cap s held →
  heap s !! a = Some e → in_cache e = false → holds held a = 1 →
  inv p cap (set_heap (delete a (heap s)) (set_deleted log s))
      (remove_one a held).
Proof.
  intros Hinv He Hic Hh. destruct_inv Hinv.
  assert (a ∈ held) as Hin by (apply holds_pos; lia).
  assert (∀ b x, heap s !! b = Some x → in_cache x = true → b ≠ a) as Hne.
  { intros b x Hb Hx ->. congruence. }
  split; simpl.
  - done.
  - eapply wf_table_ext; [|done]. intros b Hb. unfold kh.
    rewrite lookup_delete_ne; [done|].
    destruct (proj1 (inv_entries b) (or_introl Hb)) as (x & Hx & Hxc).
    intros ->. by eapply Hne.
  - done.
  - intros b. rewrite inv_entries. split; intros (x & Hx & Hxc).
    + exists x. rewrite lookup_delete_ne; [done|]. intros ->. by eapply Hne.
    + apply lookup_delete_Some in Hx as [? ?]. eauto.
  - intros b. rewrite inv_lru. split; intros (x & Hx & Hxc & ?).
    + exists x. rewrite lookup_delete_ne; [done|]. intros ->. by eapply Hne.
    + apply lookup_delete_Some in Hx as [? ?]. eauto.
  - intros b. rewrite inv_in_use. split; intros (x & Hx & Hxc & ?).
    + exists x. rewrite lookup_delete_ne; [done|]. intros ->. by eapply Hne.
    + apply lookup_delete_Some in Hx as [? ?]. eauto.
  - done.
  - done.
  - intros b x [Hba Hx]%lookup_delete_Some.
    rewrite holds_remove_one_ne by done. by apply inv_refs.
  - intros b Hb. assert (b ≠ a) as Hba.
    { intros ->. apply holds_pos in Hb.
      rewrite holds_remove_one_eq in Hb by done. lia. }
    rewrite lookup_delete_ne by done. apply inv_held.
    by eapply elem_of_remove_one.
  - intros b. destruct (decide (b = a)) as [->|Hba].
    + rewrite holds_remove_one_eq by done. lia.
    + rewrite holds_remove_one_ne by done. apply inv_held_bound.
  - intros b x [Hba Hx]%lookup_delete_Some. by eapply inv_fields.
  - rewrite inv_usage. f_equal. apply total_charge_ext.
    intros b Hb. unfold charge_of. rewrite lookup_delete_ne; [done|].
    apply elem_of_app in Hb as [Hb|Hb].
    + apply inv_lru in Hb as (x & Hx & Hxc & _). intros ->. by eapply Hne.
    + apply inv_in_use in Hb as (x & Hx & Hxc & _). intros ->. by eapply Hne.
  - intros b [x [Hba Hx]%lookup_delete_Some]. apply inv_brk. eauto.
  - intros Hc b x [Hba Hx]%lookup_delete_Some. by eapply inv_disabled.
Qed.

(** * How the handles and the log evolve *)

Lemma calls_for_snoc a log c :
  calls_for a (log ++ [c]) =
  calls_for a log ++ (if decide (dc_entry c = a) then [c] else []).
Proof.
  unfold calls_for. by rewrite filter_app.
Qed.

Lemma evolves_same s s' :
  brk s' = brk s → capacity_ s' = capacity_ s → heap s' = heap s →
  deleted s' = deleted s → evolves [] s s'.
Proof.
  intros Hb Hc Hh Hd. split.
  - done.
  - done.
  - by rewrite Hh.
  - rewrite Hh. intros a e ->. split; [apply same_entry_refl|by left].
  - rewrite Hh, Hd. intros a. destruct (heap s !! a); by rewrite app_nil_r.
  - rewrite Hd. intros c ?. by left.
Qed.

Lemma evolves_refl s : evolves [] s s.
Proof. by apply evolves_same. Qed.

Lemma evolves_trans X Y s1 s2 s3 :
  evolves X s1 s2 → evolves Y s2 s3 → evolves (X ++ Y) s1 s3.
Proof.
  intros [B1 C1 A1 K1 L1 G1] [B2 C2 A2 K2 L2 G2]. split.
  - congruence.
  - congruence.
  - intros a Ha. by apply A2, A1.
  - intros a e He. specialize (K1 a e He).
    destruct (heap s2 !! a) as [e2|] eqn:He2.
    + specialize (K2 a e2 He2). destruct K1 as [S1 I1].
      destruct (heap s3 !! a) as [e3|].
      * destruct K2 as [S2 I2]. split; [by eapply same_entry_trans|].
        rewrite elem_of_app.
        destruct I1 as [I1|(?&?&I1)], I2 as [I2|(?&?&I2)];
          try (rewrite I1 in *); try (rewrite I2 in *); intuition congruence.
      * rewrite elem_of_app.
        destruct I1 as [I1|(?&?&I1)], K2 as [I2|?]; intuition congruence.
    + rewrite (A2 a He2). rewrite elem_of_app. intuition.
  - intros a. rewrite L2, L1, <-app_assoc. f_equal.
    destruct (heap s1 !! a) as [e1|] eqn:He1.
    + specialize (K1 a e1 He1).
      destruct (heap s2 !! a) as [e2|] eqn:He2.
      * destruct (heap s3 !! a); [done|]. simpl.
        destruct K1 as [(Hv & Hd & _ & Hk & _) _].
        unfold call_of. by rewrite Hv, Hd, Hk.
      * by rewrite (A2 a He2).
    + by rewrite (A1 a He1).
  - intros c Hc. destruct (G2 c Hc) as [Hc2|[e2 He2]].
    + by apply G1.
    + right. destruct (heap s1 !! dc_entry c) eqn:He1; [eauto|].
      rewrite (A1 _ He1) in He2. done.
Qed.

Lemma evolves_weaken X Y s s' : X ⊆ Y → evolves X s s' → evolves Y s s'.
Proof.
  intros Hsub [B C A K L G]. split; [done|done|done| |done|done].
  intros a e He. specialize (K a e He).
  destruct (heap s' !! a); [|destruct K as [?|?]; [by left|right; by apply Hsub]].
  destruct K as [? [?|(? & ? & ?)]]; split; [done|by left|done|].
  right. split_and!; [by apply Hsub|done..].
Qed.

Lemma evolves_set_table t s : evolves [] s (set_table t s).
Proof. by apply evolves_same. Qed.

(** Storing an updated reference count and relinking. *)
Lemma evolves_relink s a e r l u :
  heap s !! a = Some e →
  evolves [] s (set_lists l u (store a (set_refs r e) s)).
Proof.
  intros He. split; simpl.
  - done.
  - done.
  - intros b Hb. rewrite lookup_insert_ne; [done|]. intros ->. congruence.
  - intros b x Hb. destruct (decide (b = a)) as [->|Hne].
    + rewrite lookup_insert_eq. simplify_eq. split; [by repeat split|by left].
    + rewrite lookup_insert_ne by done. rewrite Hb.
      split; [by repeat split|by left].
  - intros b. destruct (decide (b = a)) as [->|Hne].
    + rewrite lookup_insert_eq, He. by rewrite app_nil_r.
    + rewrite lookup_insert_ne by done.
      destruct (heap s !! b); by rewrite app_nil_r.
  - intros c ?. by left.
Qed.

(** Freeing a handle that is out of the cache. *)
Lemma evolves_free s a e :
  heap s !! a = Some e → in_cache e = false →
  evolves [] s (set_heap (delete a (heap s))
                  (set_deleted (deleted s ++ [call_of a e]) s)).
Proof.
  intros He Hic. split; simpl.
  - done.
  - done.
  - intros b Hb. rewrite lookup_delete_ne; [done|]. intros ->. congruence.
  - intros b x Hb. destruct (decide (b = a)) as [->|Hne].
    + rewrite lookup_delete_eq. simplify_eq. by left.
    + rewrite lookup_delete_ne by done. rewrite Hb.
      split; [by repeat split|by left].
  - intros b. rewrite calls_for_snoc. f_equal. simpl.
    destruct (decide (a = b)) as [->|Hne].
    + by rewrite lookup_delete_eq, He.
    + rewrite lookup_delete_ne by done. by destruct (heap s !! b).
  - intros c [Hc|Hc]%elem_of_app; [by left|].
    apply list_elem_of_singleton in Hc as ->. right. simpl. eauto.
Qed.

(** * Moving a handle between the two lists *)

Lemma relink_facts (src dst : list addr) a :
  NoDup src → NoDup dst → a ∈ src → a ∉ dst →
  NoDup (filter (λ x, x ≠ a) src) ∧
  NoDup (filter (λ x, x ≠ a) dst ++ [a]) ∧
  (∀ b, b ≠ a →
     (b ∈ filter (λ x, x ≠ a) src ↔ b ∈ src) ∧
     (b ∈ filter (λ x, x ≠ a) dst ++ [a] ↔ b ∈ dst)) ∧
  (a ∉ filter (λ x, x ≠ a) src) ∧
  a ∈ filter (λ x, x ≠ a) dst ++ [a] ∧
  filter (λ x, x ≠ a) src ≡ₚ filter (λ x, x ≠ a) src ∧
  src ≡ₚ a :: filter (λ x, x ≠ a) src ∧
  filter (λ x, x ≠ a) dst = dst.
Proof.
  intros Hnf Hnt Hin Hnin.
  pose proof (filter_ne_id dst a Hnin) as Hid.
  split_and!.
  - by apply NoDup_filter_ne.
  - rewrite Hid. by apply NoDup_snoc.
  - intros b Hne. rewrite elem_of_app, !elem_of_filter_ne, list_elem_of_singleton.
    intuition congruence.
  - rewrite elem_of_filter_ne. intuition.
  - rewrite elem_of_app, list_elem_of_singleton. by right.
  - done.
  - by apply filter_ne_perm.
  - done.
Qed.

(** [Release] of a held handle. *)
Lemma Release_inv cap s held a :
  inv None cap s held → a ∈ held →
  ∃ s', Release a s = Some s' ∧
        inv None cap s' (remove_one a held) ∧
        evolves [] s s' ∧
        table_ s' = table_ s ∧
        (∀ b, b ≠ a → heap s' !! b = heap s !! b).
Proof.
  intros Hinv Hin.
  destruct (inv_held _ _ _ _ Hinv a Hin) as [e He].
  destruct (inv_refs _ _ _ _ Hinv a e He) as [Hr Hr1].
  pose proof (inv_held_bound _ _ _ _ Hinv a) as Hb.
  pose proof (proj1 (holds_pos held a) Hin) as Hpos.
  pose proof (holds_remove_one_eq held a Hin) as Hrem.
  unfold Release, Unref. rewrite He. simpl.
  assert ((0 <? refs e) = true) as -> by (apply Z.ltb_lt; lia). simpl.
  rewrite wrap32_small by (destruct (in_cache e); lia).
  destruct (refs e - 1 =? 0) eqn:Hz.
  - (* last reference: the deleter runs and the record is freed *)
    apply Z.eqb_eq in Hz.
    destruct (in_cache e) eqn:Hic; [lia|]. simpl.
    eexists. split; [done|]. split_and!.
    + eapply inv_free; [done..|lia].
    + by apply evolves_free.
    + done.
    + intros b Hne. simpl. by rewrite lookup_delete_ne.
  - apply Z.eqb_neq in Hz.
    destruct (in_cache e && (refs e - 1 =? 1)) eqn:Hmove.
    + (* back to the LRU list, as its newest entry *)
      apply andb_true_iff in Hmove as [Hic Hone]. apply Z.eqb_eq in Hone.
      assert (a ∈ in_use_ s) as Hiu.
      { apply (inv_in_use _ _ _ _ Hinv). exists e. split_and!; [done..|lia]. }
      assert (a ∉ lru_ s) as Hnl.
      { intros (x & Hx & _ & Hx1)%(inv_lru _ _ _ _ Hinv). simplify_eq; lia. }
      destruct (relink_facts (in_use_ s) (lru_ s) a)
        as (N1 & N2 & Hoth & Hn1 & Hi2 & _ & Hp & Hid);
        [apply (inv_nodup_in_use _ _ _ _ Hinv)
        |apply (inv_nodup_lru _ _ _ _ Hinv)|done..|].
      eexists. split; [done|]. split_and!.
      * apply (inv_relink None cap s held (remove_one a held) a e
                 (refs e - 1)
                 (filter (λ x, x ≠ a) (lru_ s) ++ [a])
                 (filter (λ x, x ≠ a) (in_use_ s))).
        -- done.
        -- done.
        -- rewrite Hic, Hrem. rewrite Hic in Hr. lia.
        -- lia.
        -- intros b Hne. by apply holds_remove_one_ne.
        -- intros b Hb'. left. by eapply elem_of_remove_one.
        -- lia.
        -- done.
        -- done.
        -- intros b Hne. destruct (Hoth b Hne). done.
        -- split; [by intros _|done].
        -- split; [done|]. intros [_ ?]. lia.
        -- rewrite Hid, <-app_assoc. simpl. by rewrite <-Hp.
      * apply (evolves_relink s a e _ _ _ He).
      * done.
      * intros b Hne. simpl. by rewrite lookup_insert_ne.
    + (* still referenced by other clients, or out of the cache *)
      eexists. split; [done|]. split_and!.
      * apply (inv_relink None cap s held (remove_one a held) a e
                 (refs e - 1) (lru_ s) (in_use_ s)).
        -- done.
        -- done.
        -- rewrite Hrem. lia.
        -- lia.
        -- intros b Hne. by apply holds_remove_one_ne.
        -- intros b Hb'. left. by eapply elem_of_remove_one.
        -- lia.
        -- apply (inv_nodup_lru _ _ _ _ Hinv).
        -- apply (inv_nodup_in_use _ _ _ _ Hinv).
        -- done.
        -- rewrite (inv_lru _ _ _ _ Hinv). split.
           ++ intros (x & Hx & Hxc & Hx1). simplify_eq; lia.
           ++ intros [Hic Hone]. rewrite Hic in Hmove. simpl in Hmove.
              apply Z.eqb_neq in Hmove. lia.
        -- rewrite (inv_in_use _ _ _ _ Hinv). split.
           ++ intros (x & Hx & Hxc & Hx1). simplify_eq. split; [done|].
              rewrite Hxc in Hmove. simpl in Hmove.
              apply Z.eqb_neq in Hmove. lia.
           ++ intros [Hic ?]. exists e. split_and!; [done..|lia].
        -- done.
      * apply (evolves_relink s a e _ (lru_ s) (in_use_ s) He).
      * done.
      * intros b Hne. simpl. by rewrite lookup_insert_ne.
Qed.

(** * Lookup *)

(** A miss returns the state it was given. *)
Lemma Lookup_miss_same k h s s' :
  Lookup k h s = Some (s', None) → s' = s.
Proof.
  unfold Lookup. destruct (HT_Lookup (heap s) (table_ s) k h) as [[a|]|];
    simpl; [|by intros [= ->]|done].
  destruct (Ref a s); simpl; done.
Qed.

(** In an invariant state [Lookup] has a result, decided by the table. *)
Lemma Lookup_result p cap s held k h :
  inv p cap s held →
  ∃ s' r, Lookup k h s = Some (s', r) ∧
    match r with
    | Some a => a ∈ entries (table_ s) ∧ kh (heap s) a = Some (k, h)
    | None => ∀ a, a ∈ entries (table_ s) → kh (heap s) a ≠ Some (k, h)
    end.
Proof.
  intros Hinv.
  destruct (HT_Lookup_spec (heap s) (table_ s) k h (inv_table _ _ _ _ Hinv))
    as (r & Hr & Hs).
  unfold Lookup. rewrite Hr. simpl. destruct r as [a|].
  - destruct Hs as [Ha Hkh]. pose proof Hkh as Hkh'.
    apply kh_Some in Hkh' as (e & He & _).
    unfold Ref. rewrite He. simpl. eexists _, (Some a). done.
  - eexists _, None. done.
Qed.

Lemma Lookup_hit_inv cap s held k h s' a :
  inv None cap s held →
  Lookup k h s = Some (s', Some a) →
  holds held a < 2 ^ 32 - 2 →
  inv None cap s' (a :: held) ∧ evolves [] s s' ∧ table_ s' = table_ s ∧
  (∀ b, b ≠ a → heap s' !! b = heap s !! b) ∧
  ∃ e, heap s !! a = Some e ∧ in_cache e = true ∧ key e = k ∧ hash e = h ∧
       heap s' !! a = Some (set_refs (refs e + 1) e).
Proof.
  intros Hinv Hl Hb.
  destruct (HT_Lookup_spec (heap s) (table_ s) k h (inv_table _ _ _ _ Hinv))
    as (r & Hr & Hs).
  unfold Lookup in Hl. rewrite Hr in Hl. simpl in Hl.
  destruct r as [a'|]; [|done]. destruct Hs as [Ha Hkh].
  destruct (Ref a' s) as [s1|] eqn:HRef; simpl in Hl; [|done].
  injection Hl as <- <-.
  apply kh_Some in Hkh as (e & He & Hk & Hh).
  destruct (proj1 (inv_entries _ _ _ _ Hinv a') (or_introl Ha))
    as (e' & He' & Hic). simplify_eq.
  destruct (inv_refs _ _ _ _ Hinv a' e He) as [Hr' Hr1]. rewrite Hic in Hr'.
  pose proof (holds_nonneg held a') as Hnn.
  unfold Ref in HRef. rewrite He in HRef. simpl in HRef.
  rewrite wrap32_small in HRef by lia. rewrite Hic, andb_true_r in HRef.
  injection HRef as <-.
  destruct (refs e =? 1) eqn:Hone.
  - (* on the LRU list: moved to the in-use list *)
    apply Z.eqb_eq in Hone.
    assert (a' ∈ lru_ s) as Hl.
    { apply (inv_lru _ _ _ _ Hinv). eauto. }
    assert (a' ∉ in_use_ s) as Hnu.
    { intros (x & Hx & _ & Hx1)%(inv_in_use _ _ _ _ Hinv). simplify_eq; lia. }
    destruct (relink_facts (lru_ s) (in_use_ s) a')
      as (N1 & N2 & Hoth & Hn1 & Hi2 & _ & Hp & Hid);
      [apply (inv_nodup_lru _ _ _ _ Hinv)
      |apply (inv_nodup_in_use _ _ _ _ Hinv)|done..|].
    split_and!.
    + apply (inv_relink None cap s held (a' :: held) a' e (refs e + 1)
               (filter (λ x, x ≠ a') (lru_ s))
               (filter (λ x, x ≠ a') (in_use_ s) ++ [a'])).
      * done.
      * done.
      * rewrite Hic, holds_cons_eq. lia.
      * lia.
      * intros b Hne. by apply holds_cons_ne.
      * intros b [->|?]%elem_of_cons; [by right|by left].
      * rewrite holds_cons_eq. lia.
      * done.
      * done.
      * intros b Hne. destruct (Hoth b Hne). done.
      * split; [done|]. intros [_ ?]. lia.
      * split; [intros _; split; [done|lia]|done].
      * rewrite Hid.
        transitivity ((a' :: filter (λ x, x ≠ a') (lru_ s)) ++ in_use_ s).
        -- simpl. rewrite (Permutation_app_comm (in_use_ s) [a']). simpl.
           by rewrite Permutation_middle.
        -- apply Permutation_app_tail. by symmetry.
    + apply (evolves_relink s a' e _ _ _ He).
    + done.
    + intros b Hne. simpl. by rewrite lookup_insert_ne.
    + exists e. simpl. by rewrite lookup_insert_eq.
  - (* already in use *)
    apply Z.eqb_neq in Hone. split_and!.
    + apply (inv_relink None cap s held (a' :: held) a' e (refs e + 1)
               (lru_ s) (in_use_ s)).
      * done.
      * done.
      * rewrite Hic, holds_cons_eq. lia.
      * lia.
      * intros b Hne. by apply holds_cons_ne.
      * intros b [->|?]%elem_of_cons; [by right|by left].
      * rewrite holds_cons_eq. lia.
      * apply (inv_nodup_lru _ _ _ _ Hinv).
      * apply (inv_nodup_in_use _ _ _ _ Hinv).
      * done.
      * rewrite (inv_lru _ _ _ _ Hinv). split.
        -- intros (x & Hx & Hxc & Hx1). simplify_eq; lia.
        -- intros [_ ?]. lia.
      * rewrite (inv_in_use _ _ _ _ Hinv). split.
        -- intros _. split; [done|lia].
        -- intros _. exists e. split_and!; [done..|lia].
      * done.
    + apply (evolves_relink s a' e _ (lru_ s) (in_use_ s) He).
    + done.
    + intros b Hne. simpl. by rewrite lookup_insert_ne.
    + exists e. simpl. by rewrite lookup_insert_eq.
Qed.

(** * FinishErase *)

Lemma FinishErase_eq s a e :
  heap s !! a = Some e → in_cache e = true → 1 <= refs e < 2 ^ 32 →
  FinishErase (Some a) s = Some (erased_state a e s, true).
Proof.
  intros He Hic Hr. unfold FinishErase, erased_state. rewrite He. simpl.
  rewrite Hic. simpl. unfold Unref. simpl. rewrite lookup_insert_eq. simpl.
  assert ((0 <? refs e) = true) as -> by (apply Z.ltb_lt; lia). simpl.
  rewrite wrap32_small by lia.
  destruct (refs e =? 1) eqn:Hone.
  - apply Z.eqb_eq in Hone. rewrite Hone. simpl.
    unfold set_heap, set_deleted, store, set_usage, LRU_Remove, set_lists.
    simpl. rewrite delete_insert_eq. done.
  - apply Z.eqb_neq in Hone.
    assert ((refs e - 1 =? 0) = false) as -> by (apply Z.eqb_neq; lia).
    unfold set_heap, set_deleted, store, set_usage, LRU_Remove, set_lists.
    simpl. rewrite insert_insert_eq. done.
Qed.

Lemma lists_remove_perm (l u : list addr) a :
  NoDup l → NoDup u → (a ∈ l ∧ a ∉ u) ∨ ((a ∉ l) ∧ a ∈ u) →
  l ++ u ≡ₚ a :: filter (λ x, x ≠ a) l ++ filter (λ x, x ≠ a) u.
Proof.
  intros Hl Hu [[Hin Hnin]|[Hnin Hin]].
  - rewrite (filter_ne_id u) by done.
    by rewrite (filter_ne_perm l a Hl Hin) at 1.
  - rewrite (filter_ne_id l) by done.
    rewrite (filter_ne_perm u a Hu Hin) at 1.
    by rewrite <-Permutation_middle.
Qed.

Lemma inv_erased cap s held a e :
  inv (Some a) cap s held → heap s !! a = Some e →
  inv None cap (erased_state a e s) held.
Proof.
  intros Hinv He.
  assert (in_cache e = true) as Hic.
  { destruct (proj1 (inv_entries _ _ _ _ Hinv a) (or_intror eq_refl))
      as (x & Hx & Hxc). by simplify_eq. }
  assert (a ∉ entries (table_ s)) as Hnt
    by (by apply (inv_pending _ _ _ _ Hinv)).
  destruct (inv_refs _ _ _ _ Hinv a e He) as [Hr Hr1]. rewrite Hic in Hr.
  pose proof (holds_nonneg held a) as Hnn.
  assert ((a ∈ lru_ s ∧ a ∉ in_use_ s) ∨ ((a ∉ lru_ s) ∧ a ∈ in_use_ s))
    as Hwhere.
  { rewrite (inv_lru _ _ _ _ Hinv), (inv_in_use _ _ _ _ Hinv).
    destruct (decide (refs e = 1)) as [H1|H1].
    - left. split; [eauto|]. intros (x & Hx & _ & ?). simplify_eq; lia.
    - right. split.
      + intros (x & Hx & _ & ?). simplify_eq; lia.
      + exists e. split_and!; [done..|lia]. }
  pose proof (lists_remove_perm _ _ a (inv_nodup_lru _ _ _ _ Hinv)
                (inv_nodup_in_use _ _ _ _ Hinv) Hwhere) as Hperm.
  assert (∀ b, b ∈ filter (λ x, x ≠ a) (lru_ s) ++
                   filter (λ x, x ≠ a) (in_use_ s) → b ≠ a) as Hnea.
  { intros b [Hb|Hb]%elem_of_app; apply elem_of_filter_ne in Hb; tauto. }
  assert (usage_ (erased_state a e s) =
          wrap64 (total_charge (heap s)
                    (filter (λ x, x ≠ a) (lru_ s) ++
                     filter (λ x, x ≠ a) (in_use_ s)))) as Husage.
  { unfold erased_state. destruct (refs e =? 1); simpl;
      rewrite (inv_usage _ _ _ _ Hinv), wrap64_sub_l,
        (total_charge_perm _ _ _ Hperm); simpl;
      rewrite (charge_of_Some _ _ _ He); f_equal; lia. }
  destruct_inv Hinv. unfold erased_state in *.
  destruct (refs e =? 1) eqn:Hone.
  - (* freed *)
    apply Z.eqb_eq in Hone.
    assert (a ∉ held) as Hnh by (apply holds_zero; lia).
    split; simpl.
    + done.
    + eapply wf_table_ext; [|done]. intros b Hb. unfold kh.
      rewrite lookup_delete_ne; [done|]. by intros ->.
    + done.
    + intros b. split.
      * intros [Hb|?]; [|done].
        destruct (proj1 (inv_entries b) (or_introl Hb)) as (x & Hx & Hxc).
        exists x. rewrite lookup_delete_ne; [done|]. by intros ->.
      * intros (x & [Hne Hx]%lookup_delete_Some & Hxc).
        destruct (proj2 (inv_entries b)) as [?|?]; [eauto|by left|].
        by simplify_eq.
    + intros b. rewrite elem_of_filter_ne, inv_lru. split.
      * intros (Hne & x & Hx & ?). exists x. by rewrite lookup_delete_ne.
      * intros (x & [Hne Hx]%lookup_delete_Some & ?). eauto.
    + intros b. rewrite elem_of_filter_ne, inv_in_use. split.
      * intros (Hne & x & Hx & ?). exists x. by rewrite lookup_delete_ne.
      * intros (x & [Hne Hx]%lookup_delete_Some & ?). eauto.
    + by apply NoDup_filter_ne.
    + by apply NoDup_filter_ne.
    + intros b x [Hne Hx]%lookup_delete_Some. by apply inv_refs.
    + intros b Hb. rewrite lookup_delete_ne; [by apply inv_held|].
      by intros ->.
    + done.
    + intros b x [Hne Hx]%lookup_delete_Some. by eapply inv_fields.
    + simpl in Husage. rewrite Husage. f_equal. apply total_charge_ext.
      intros b Hb. unfold charge_of. rewrite lookup_delete_ne; [done|].
      intros ->. by eapply Hnea.
    + intros b [x [Hne Hx]%lookup_delete_Some]. apply inv_brk. eauto.
    + intros Hc b x [Hne Hx]%lookup_delete_Some. by eapply inv_disabled.
  - (* still pinned by clients *)
    apply Z.eqb_neq in Hone.
    split; simpl.
    + done.
    + eapply wf_table_ext; [|done]. intros b Hb. symmetry.
      by eapply kh_insert_same.
    + done.
    + intros b. destruct (decide (b = a)) as [->|Hne].
      * rewrite lookup_insert_eq. split; [by intros [?|?]|].
        intros (x & [= <-] & ?). done.
      * rewrite lookup_insert_ne by done. rewrite <-inv_entries.
        split.
        -- intros [?|?]; [by left|done].
        -- intros [?|?]; [by left|]. by simplify_eq.
    + intros b. rewrite elem_of_filter_ne, inv_lru.
      destruct (decide (b = a)) as [->|Hne].
      * rewrite lookup_insert_eq. split; [by intros [? _]|].
        intros (x & [= <-] & ? & _). done.
      * rewrite lookup_insert_ne by done. intuition.
    + intros b. rewrite elem_of_filter_ne, inv_in_use.
      destruct (decide (b = a)) as [->|Hne].
      * rewrite lookup_insert_eq. split; [by intros [? _]|].
        intros (x & [= <-] & ? & _). done.
      * rewrite lookup_insert_ne by done. intuition.
    + by apply NoDup_filter_ne.
    + by apply NoDup_filter_ne.
    + intros b x. destruct (decide (b = a)) as [->|Hne].
      * rewrite lookup_insert_eq. intros [= <-]. simpl. lia.
      * rewrite lookup_insert_ne by done. apply inv_refs.
    + intros b Hb. destruct (decide (b = a)) as [->|Hne].
      * rewrite lookup_insert_eq. eauto.
      * rewrite lookup_insert_ne by done. by apply inv_held.
    + done.
    + intros b x. destruct (decide (b = a)) as [->|Hne].
      * rewrite lookup_insert_eq. intros [= <-]. simpl. by eapply inv_fields.
      * rewrite lookup_insert_ne by done. apply inv_fields.
    + simpl in Husage. rewrite Husage. f_equal. apply total_charge_ext.
      intros b Hb. unfold charge_of. rewrite lookup_insert_ne; [done|].
      intros ->. by eapply Hnea.
    + intros b. destruct (decide (b = a)) as [->|Hne].
      * intros _. apply inv_brk. eauto.
      * rewrite lookup_insert_ne by done. apply inv_brk.
    + intros Hc b x. destruct (decide (b = a)) as [->|Hne].
      * rewrite lookup_insert_eq. by intros [= <-].
      * rewrite lookup_insert_ne by done. by apply inv_disabled.
Qed.

Lemma evolves_erased s a e :
  heap s !! a = Some e → in_cache e = true →
  evolves [a] s (erased_state a e s).
Proof.
  intros He Hic. unfold erased_state. destruct (refs e =? 1); split; simpl.
  - done.
  - done.
  - intros b Hb. rewrite lookup_delete_ne; [done|]. intros ->. congruence.
  - intros b x Hb. destruct (decide (b = a)) as [->|Hne].
    + rewrite lookup_delete_eq. right. by left.
    + rewrite lookup_delete_ne by done. rewrite Hb.
      split; [by repeat split|by left].
  - intros b. rewrite calls_for_snoc. f_equal. simpl.
    destruct (decide (a = b)) as [->|Hne].
    + by rewrite lookup_delete_eq, He.
    + rewrite lookup_delete_ne by done. by destruct (heap s !! b).
  - intros c [Hc|Hc]%elem_of_app; [by left|].
    apply list_elem_of_singleton in Hc as ->. right. simpl. eauto.
  - done.
  - done.
  - intros b Hb. rewrite lookup_insert_ne; [done|]. intros ->. congruence.
  - intros b x Hb. destruct (decide (b = a)) as [->|Hne].
    + rewrite lookup_insert_eq. simplify_eq. split; [by repeat split|].
      right. split_and!; [by left|done..].
    + rewrite lookup_insert_ne by done. rewrite Hb.
      split; [by repeat split|by left].
  - intros b. destruct (decide (b = a)) as [->|Hne].
    + rewrite lookup_insert_eq, He. by rewrite app_nil_r.
    + rewrite lookup_insert_ne by done.
      destruct (heap s !! b); by rewrite app_nil_r.
  - intros c ?. by left.
Qed.

Lemma erased_state_frame s a e b :
  b ≠ a → heap (erased_state a e s) !! b = heap s !! b.
Proof.
  intros Hne. unfold erased_state. destruct (refs e =? 1); simpl.
  - by rewrite lookup_delete_ne.
  - by rewrite lookup_insert_ne.
Qed.

Lemma erased_state_table s a e : table_ (erased_state a e s) = table_ s.
Proof. unfold erased_state. by destruct (refs e =? 1). Qed.

Lemma erased_state_lru s a e :
  lru_ (erased_state a e s) = filter (λ x, x ≠ a) (lru_ s).
Proof. unfold erased_state. by destruct (refs e =? 1). Qed.

Lemma erased_state_in_use s a e :
  in_use_ (erased_state a e s) = filter (λ x, x ≠ a) (in_use_ s).
Proof. unfold erased_state. by destruct (refs e =? 1). Qed.

Lemma erased_state_usage s a e :
  usage_ (erased_state a e s) = wrap64 (usage_ s - charge e).
Proof. unfold erased_state. by destruct (refs e =? 1). Qed.

Lemma erased_state_capacity s a e :
  capacity_ (erased_state a e s) = capacity_ s.
Proof. unfold erased_state. by destruct (refs e =? 1). Qed.

(** * Unlinking an entry from the table *)

Lemma NoDup_fmap_elem {A B} (f : A → B) (l : list A) x y :
  NoDup (f <$> l) → x ∈ l → y ∈ l → f x = f y → x = y.
Proof.
  induction l as [|z l IH]; [by intros _ ?%elem_of_nil|].
  simpl. intros [Hz Hnd]%NoDup_cons Hx Hy Hf.
  apply elem_of_cons in Hx as [->|Hx], Hy as [->|Hy].
  - done.
  - exfalso. apply Hz. rewrite Hf. by apply list_elem_of_fmap_2.
  - exfalso. apply Hz. rewrite <-Hf. by apply list_elem_of_fmap_2.
  - by apply IH.
Qed.

Lemma wf_table_unique mem t a b :
  wf_table mem t → a ∈ entries t → b ∈ entries t →
  kh mem a = kh mem b → a = b.
Proof. intros Hwf. apply NoDup_fmap_elem, (wf_nodup _ _ Hwf). Qed.

Lemma wf_table_NoDup mem t : wf_table mem t → NoDup (entries t).
Proof. intros Hwf. eapply NoDup_fmap_1, (wf_nodup _ _ Hwf). Qed.

Lemma inv_unlink cap s held k h t a :
  inv None cap s held →
  HT_Remove (heap s) (table_ s) k h = Some (t, Some a) →
  inv (Some a) cap (set_table t s) held ∧
  kh (heap s) a = Some (k, h) ∧
  entries (table_ s) ≡ₚ a :: entries t ∧
  elems_ t = elems_ (table_ s) - 1 ∧ length_ t = length_ (table_ s).
Proof.
  intros Hinv Hrm.
  destruct (HT_Remove_spec (heap s) (table_ s) k h (inv_table _ _ _ _ Hinv))
    as (t' & r & Heq & Hspec).
  rewrite Hrm in Heq. injection Heq as <- <-.
  destruct Hspec as (Hkh & Hperm & Hwf & Hlen & Hel).
  pose proof (wf_table_NoDup _ _ (inv_table _ _ _ _ Hinv)) as Hnd.
  rewrite Hperm in Hnd. apply NoDup_cons in Hnd as [Hna _].
  split_and!; [|done..].
  destruct_inv Hinv. split; simpl; try done.
  - by intros b [= <-].
  - intros b. rewrite <-inv_entries, Hperm, elem_of_cons.
    split.
    + intros [?|[= ->]]; left; [by right|by left].
    + intros [[->|?]|?]; [by right|by left|done].
Qed.

(** [Erase]: the table decides; a hit is finished by [FinishErase]. *)
Lemma Erase_inv cap s held k h :
  inv None cap s held →
  ∃ s', Erase k h s = Some s' ∧ inv None cap s' held ∧
    ((s' = s ∧ ∀ a, a ∈ entries (table_ s) → kh (heap s) a ≠ Some (k, h)) ∨
     (∃ a e t, heap s !! a = Some e ∧ in_cache e = true ∧
               key e = k ∧ hash e = h ∧
               HT_Remove (heap s) (table_ s) k h = Some (t, Some a) ∧
               s' = erased_state a e (set_table t s))).
Proof.
  intros Hinv.
  destruct (HT_Remove_spec (heap s) (table_ s) k h (inv_table _ _ _ _ Hinv))
    as (t & r & Heq & Hspec).
  unfold Erase. rewrite Heq. simpl. destruct r as [a|].
  - destruct (inv_unlink _ _ _ _ _ _ _ Hinv Heq) as (Hinv' & Hkh & _).
    apply kh_Some in Hkh as (e & He & Hk & Hh).
    destruct (proj1 (inv_entries _ _ _ _ Hinv' a) (or_intror eq_refl))
      as (x & Hx & Hic). simpl in Hx. rewrite He in Hx. injection Hx as <-.
    destruct (inv_refs _ _ _ _ Hinv a e He) as [Hr Hr1].
    pose proof (inv_held_bound _ _ _ _ Hinv a).
    rewrite (FinishErase_eq _ a e) by (try done; destruct (in_cache e); lia).
    simpl. eexists. split; [done|]. split.
    + by apply inv_erased.
    + right. exists a, e, t. done.
  - destruct Hspec as [-> Hno]. simpl. exists s. split.
    + by destruct s.
    + split; [done|]. by left.
Qed.

(** * One round of eviction *)

Arguments FinishErase : simpl never.

Lemma evict_oldest_inv cap s held old rest :
  inv None cap s held → lru_ s = old :: rest →
  ∃ e t,
    heap s !! old = Some e ∧ in_cache e = true ∧ refs e = 1 ∧
    HT_Remove (heap s) (table_ s) (key e) (hash e) = Some (t, Some old) ∧
    entries (table_ s) ≡ₚ old :: entries t ∧
    evict_oldest old s = Some (erased_state old e (set_table t s)) ∧
    inv None cap (erased_state old e (set_table t s)) held.
Proof.
  intros Hinv Hlru.
  assert (old ∈ lru_ s) as Hin by (rewrite Hlru; by left).
  apply (inv_lru _ _ _ _ Hinv) in Hin as (e & He & Hic & Hone).
  assert (old ∈ entries (table_ s)) as Hent.
  { destruct (proj2 (inv_entries _ _ _ _ Hinv old)) as [?|?]; eauto; done. }
  destruct (HT_Remove_spec (heap s) (table_ s) (key e) (hash e)
              (inv_table _ _ _ _ Hinv)) as (t & r & Heq & Hspec).
  destruct r as [a|].
  2:{ destruct Hspec as [_ Hno]. exfalso. apply (Hno old Hent).
      unfold kh. by rewrite He. }
  destruct Hspec as (Hkh & Hperm & _).
  assert (a = old) as ->.
  { eapply wf_table_unique; [apply (inv_table _ _ _ _ Hinv)| |done|].
    - rewrite Hperm. by left.
    - rewrite Hkh. unfold kh. by rewrite He. }
  destruct (inv_unlink _ _ _ _ _ _ _ Hinv Heq) as (Hinv' & _).
  exists e, t. split_and!; try done.
  - unfold evict_oldest. rewrite He. simpl. rewrite Hone. simpl.
    rewrite Heq. simpl.
    rewrite (FinishErase_eq _ old e) by (try done; lia). done.
  - by apply inv_erased.
Qed.

Lemma erased_state_evicted s old e rest :
  refs e = 1 → lru_ s = old :: rest → NoDup (lru_ s) → old ∉ in_use_ s →
  lru_ (erased_state old e s) = rest ∧
  in_use_ (erased_state old e s) = in_use_ s ∧
  heap (erased_state old e s) = delete old (heap s) ∧
  deleted (erased_state old e s) = deleted s ++ [call_of old e].
Proof.
  intros Hone Hlru Hnd Hnu. unfold erased_state. rewrite Hone. simpl.
  rewrite Hlru in *. rewrite filter_ne_head by done.
  by rewrite filter_ne_id.
Qed.

Lemma inv_lru_not_in_use p cap s held a :
  inv p cap s held → a ∈ lru_ s → a ∉ in_use_ s.
Proof.
  intros Hinv (e & He & _ & H1)%(inv_lru _ _ _ _ Hinv)
    (e' & He' & _ & H2)%(inv_in_use _ _ _ _ Hinv).
  simplify_eq; lia.
Qed.

Lemma inv_lru_length p cap s held :
  inv p cap s held →
  (length (lru_ s) <=
     length (entries (table_ s)) + match p with Some _ => 1 | None => 0 end)%nat.
Proof.
  intros Hinv.
  assert (lru_ s ⊆+ entries (table_ s) ++ (if p is Some a then [a] else []))
    as Hsub.
  { apply NoDup_submseteq; [apply (inv_nodup_lru _ _ _ _ Hinv)|].
    intros a (e & He & Hic & _)%(inv_lru _ _ _ _ Hinv).
    destruct (proj2 (inv_entries _ _ _ _ Hinv a)) as [?|?]; [eauto| |].
    - apply elem_of_app. by left.
    - subst p. apply elem_of_app. right. by left. }
  apply submseteq_length in Hsub. rewrite length_app in Hsub.
  destruct p; simpl in *; lia.
Qed.

(** * The eviction loops *)

Lemma calls_of_unfold mem a l :
  calls_of mem (a :: l) =
  match mem !! a with
  | Some e => call_of a e :: calls_of mem l
  | None => calls_of mem l
  end.
Proof. unfold calls_of. simpl. by destruct (mem !! a). Qed.

Lemma calls_of_cons mem a e l :
  mem !! a = Some e → calls_of mem (a :: l) = call_of a e :: calls_of mem l.
Proof. intros He. by rewrite calls_of_unfold, He. Qed.

Lemma calls_of_ext mem mem' l :
  (∀ a, a ∈ l → mem !! a = mem' !! a) → calls_of mem l = calls_of mem' l.
Proof.
  induction l as [|a l IH]; [done|]. intros H. rewrite !calls_of_unfold.
  rewrite (H a) by left. rewrite IH; [done|]. intros; apply H. by right.
Qed.

(** [Prune]'s loop frees the whole LRU list, oldest entry first, and touches
    nothing else. *)
Lemma Prune_loop_inv cap held fuel : ∀ s,
  inv None cap s held → (length (lru_ s) <= fuel)%nat →
  ∃ s', Prune_loop fuel s = Some s' ∧
        inv None cap s' held ∧
        lru_ s' = [] ∧ in_use_ s' = in_use_ s ∧
        evolves (lru_ s) s s' ∧
        (∀ b, b ∉ lru_ s → heap s' !! b = heap s !! b) ∧
        (∀ b, b ∈ lru_ s → heap s' !! b = None) ∧
        deleted s' = deleted s ++ calls_of (heap s) (lru_ s).
Proof.
  induction fuel as [|fuel IH]; intros s Hinv Hlen.
  - destruct (lru_ s) as [|old rest] eqn:Hlru; [|simpl in Hlen; lia].
    exists s. simpl. rewrite Hlru. split_and!; try done.
    + apply evolves_refl.
    + intros b ?%elem_of_nil. done.
    + by rewrite app_nil_r.
  - simpl. destruct (lru_ s) as [|old rest] eqn:Hlru.
    + exists s. split_and!; try done.
      * apply evolves_refl.
      * intros b ?%elem_of_nil. done.
      * by rewrite app_nil_r.
    + destruct (evict_oldest_inv _ _ _ _ _ Hinv Hlru)
        as (e & t & He & Hic & Hone & Hrm & Hperm & Hev & Hinv1).
      rewrite Hev. simpl.
      pose proof (inv_nodup_lru _ _ _ _ Hinv) as Hnd.
      assert (old ∉ in_use_ s) as Hnu.
      { eapply inv_lru_not_in_use; [done|]. rewrite Hlru. by left. }
      destruct (erased_state_evicted (set_table t s) old e rest Hone Hlru
                  Hnd Hnu) as (Hl1 & Hu1 & Hh1 & Hd1).
      simpl in Hu1, Hh1, Hd1.
      destruct (IH _ Hinv1) as (s' & Hloop & Hinv' & Hl' & Hu' & Hevo & Hfr
                                & Hgone & Hdel).
      { rewrite Hl1. simpl in Hlen. lia. }
      rewrite Hl1 in Hevo, Hfr, Hgone, Hdel.
      rewrite Hlru in Hnd. apply NoDup_cons in Hnd as [Hnr Hndr].
      exists s'. split_and!; try done.
      * congruence.
      * change (old :: rest) with (([] ++ [old]) ++ rest).
        eapply evolves_trans; [|done].
        eapply evolves_trans; [apply (evolves_set_table t)|].
        by apply evolves_erased.
      * intros b [Hbo Hbr]%not_elem_of_cons.
        rewrite Hfr, Hh1 by done. by rewrite lookup_delete_ne.
      * intros b [->|Hb]%elem_of_cons; [|by apply Hgone].
        rewrite Hfr, Hh1 by done. by rewrite lookup_delete_eq.
      * rewrite Hdel, Hd1, Hh1, <-app_assoc. f_equal.
        rewrite He. simpl. f_equal.
        apply calls_of_ext. intros b Hb. rewrite lookup_delete_ne; [done|].
        by intros ->.
Qed.

(** [Insert]'s loop frees a prefix of the LRU list and stops as soon as the
    usage fits the capacity or the list is empty. *)
Lemma Insert_evict_inv cap held fuel : ∀ s,
  inv None cap s held → (length (lru_ s) <= fuel)%nat →
  ∃ s' evicted,
    Insert_evict fuel s = Some s' ∧
    inv None cap s' held ∧
    lru_ s = evicted ++ lru_ s' ∧ in_use_ s' = in_use_ s ∧
    (usage_ s' <= capacity_ s' ∨ lru_ s' = []) ∧
    evolves evicted s s' ∧
    (∀ b, b ∉ evicted → heap s' !! b = heap s !! b).
Proof.
  induction fuel as [|fuel IH]; intros s Hinv Hlen.
  - destruct (lru_ s) as [|old rest] eqn:Hlru; [|simpl in Hlen; lia].
    exists s, []. simpl. rewrite Hlru.
    split_and!; try done.
    + by destruct (capacity_ s <? usage_ s).
    + by right.
    + apply evolves_refl.
  - simpl. destruct (capacity_ s <? usage_ s) eqn:Hover.
    2:{ apply Z.ltb_ge in Hover. exists s, []. split_and!; try done.
        - by left.
        - apply evolves_refl. }
    destruct (lru_ s) as [|old rest] eqn:Hlru.
    + exists s, []. split_and!; try done.
      * by right.
      * apply evolves_refl.
    + destruct (evict_oldest_inv _ _ _ _ _ Hinv Hlru)
        as (e & t & He & Hic & Hone & Hrm & Hperm & Hev & Hinv1).
      rewrite Hev. simpl.
      pose proof (inv_nodup_lru _ _ _ _ Hinv) as Hnd.
      assert (old ∉ in_use_ s) as Hnu.
      { eapply inv_lru_not_in_use; [done|]. rewrite Hlru. by left. }
      destruct (erased_state_evicted (set_table t s) old e rest Hone Hlru
                  Hnd Hnu) as (Hl1 & Hu1 & Hh1 & Hd1).
      simpl in Hu1, Hh1, Hd1.
      destruct (IH _ Hinv1) as (s' & ev & Hloop & Hinv' & Hl' & Hu' & Hfit
                                & Hevo & Hfr).
      { rewrite Hl1. simpl in Hlen. lia. }
      exists s', (old :: ev). split_and!; try done.
      * rewrite Hl1 in Hl'. rewrite Hl'. done.
      * congruence.
      * change (old :: ev) with (([] ++ [old]) ++ ev).
        eapply evolves_trans; [|done].
        eapply evolves_trans; [apply (evolves_set_table t)|].
        by apply evolves_erased.
      * intros b [Hbo Hbr]%not_elem_of_cons.
        rewrite Hfr, Hh1 by done. by rewrite lookup_delete_ne.
Qed.

(** * Insert *)

Lemma Prune_inv cap s held :
  inv None cap s held →
  ∃ s', Prune s = Some s' ∧
        inv None cap s' held ∧
        lru_ s' = [] ∧ in_use_ s' = in_use_ s ∧
        evolves (lru_ s) s s' ∧
        (∀ b, b ∉ lru_ s → heap s' !! b = heap s !! b) ∧
        (∀ b, b ∈ lru_ s → heap s' !! b = None) ∧
        deleted s' = deleted s ++ calls_of (heap s) (lru_ s).
Proof.
  intros Hinv. apply Prune_loop_inv; [done|].
  pose proof (inv_lru_length _ _ _ _ Hinv). unfold entries in *. lia.
Qed.

Lemma inv_fresh p cap s held :
  inv p cap s held →
  heap s !! brk s = None ∧ (brk s ∉ held) ∧ (brk s ∉ entries (table_ s)) ∧
  (brk s ∉ lru_ s) ∧ (brk s ∉ in_use_ s) ∧ p ≠ Some (brk s).
Proof.
  intros Hinv.
  assert (heap s !! brk s = None) as Hnone.
  { destruct (heap s !! brk s) eqn:Hb; [|done].
    pose proof (inv_brk _ _ _ _ Hinv (brk s) ltac:(eauto)). lia. }
  split_and!; [done|..].
  - intros [x Hx]%(inv_held _ _ _ _ Hinv). congruence.
  - intros Hb. destruct (proj1 (inv_entries _ _ _ _ Hinv _) (or_introl Hb))
      as (x & Hx & _). congruence.
  - intros (x & Hx & _)%(inv_lru _ _ _ _ Hinv). congruence.
  - intros (x & Hx & _)%(inv_in_use _ _ _ _ Hinv). congruence.
  - intros Hp. destruct (proj1 (inv_entries _ _ _ _ Hinv _) (or_intror Hp))
      as (x & Hx & _). congruence.
Qed.

Lemma inv_added cap s held k h v c d cached :
  inv None cap s held → is_uint32 h → is_size_t c →
  (cached = true → 0 < cap) →
  inv (if cached then Some (brk s) else None) cap
      (added k h v c d cached s) (brk s :: held).
Proof.
  intros Hinv Hh Hc Hcap.
  destruct (inv_fresh _ _ _ _ Hinv) as (Hnone & Hnh & Hne & Hnl & Hnu & _).
  apply holds_zero in Hnh.
  assert (∀ b x, heap s !! b = Some x → b ≠ brk s) as Hold.
  { intros b x Hb ->. congruence. }
  destruct_inv Hinv. unfold added. split; simpl.
  - done.
  - eapply wf_table_ext; [|done]. intros b Hb. unfold kh.
    rewrite lookup_insert_ne; [done|]. by intros <-.
  - destruct cached; [|done]. by intros b [= <-].
  - intros b. destruct (decide (b = brk s)) as [->|Hb].
    + rewrite lookup_insert_eq. destruct cached; simpl.
      * split; [eauto|by right].
      * split; [by intros [?|?]|]. by intros (x & [= <-] & ?).
    + rewrite lookup_insert_ne by done. rewrite <-inv_entries.
      destruct cached; [|done]. split.
      * intros [?|?]; [by left|by simplify_eq].
      * intros [?|?]; [by left|done].
  - intros b. destruct (decide (b = brk s)) as [->|Hb].
    + rewrite lookup_insert_eq. split; [done|].
      intros (x & [= <-] & Hx1 & Hx2). simpl in *. destruct cached; done.
    + by rewrite lookup_insert_ne.
  - intros b. destruct (decide (b = brk s)) as [->|Hb].
    + rewrite lookup_insert_eq. destruct cached; simpl.
      * split; [|intros _; apply elem_of_app; right; by left].
        intros _. eexists. split_and!; [done..|]. simpl. lia.
      * split; [done|]. by intros (x & [= <-] & ? & _).
    + rewrite lookup_insert_ne by done. rewrite <-inv_in_use.
      destruct cached; [|done].
      rewrite elem_of_app, list_elem_of_singleton. intuition congruence.
  - done.
  - destruct cached; [by apply NoDup_snoc|done].
  - intros b x. destruct (decide (b = brk s)) as [->|Hb].
    + rewrite lookup_insert_eq. intros [= <-]. simpl.
      rewrite holds_cons_eq, Hnh. destruct cached; lia.
    + rewrite lookup_insert_ne by done. rewrite holds_cons_ne by done.
      apply inv_refs.
  - intros b [->|Hb]%elem_of_cons.
    + rewrite lookup_insert_eq. eauto.
    + rewrite lookup_insert_ne; [by apply inv_held|].
      intros <-. apply inv_held in Hb as [x Hx]. congruence.
  - intros b. destruct (decide (b = brk s)) as [->|Hb].
    + rewrite holds_cons_eq, Hnh. lia.
    + rewrite holds_cons_ne by done. apply inv_held_bound.
  - intros b x. destruct (decide (b = brk s)) as [->|Hb].
    + rewrite lookup_insert_eq. by intros [= <-].
    + rewrite lookup_insert_ne by done. apply inv_fields.
  - assert (∀ l, brk s ∉ l →
              total_charge (<[brk s := new_handle k h v c d cached]> (heap s))
                l = total_charge (heap s) l) as Htc.
    { intros l Hl. apply total_charge_ext. intros b Hb. unfold charge_of.
      rewrite lookup_insert_ne; [done|]. by intros <-. }
    destruct cached.
    + rewrite app_assoc, total_charge_snoc, Htc.
      * unfold charge_of. rewrite lookup_insert_eq. simpl.
        by rewrite inv_usage, wrap64_add_l.
      * rewrite elem_of_app. tauto.
    + rewrite Htc; [done|]. rewrite elem_of_app. tauto.
  - intros b. destruct (decide (b = brk s)) as [->|Hb]; [lia|].
    rewrite lookup_insert_ne by done. intros Hx%inv_brk. lia.
  - intros Hz b x. destruct (decide (b = brk s)) as [->|Hb].
    + rewrite lookup_insert_eq. intros [= <-]. simpl.
      destruct cached; [|done]. specialize (Hcap eq_refl). lia.
    + rewrite lookup_insert_ne by done. by apply inv_disabled.
Qed.

Lemma Insert_unfold k h v c d s :
  Insert k h v c d s =
  s1 ← (if 0 <? capacity_ s then
          '(t, old) ← HT_Insert (heap (added k h v c d true s)) (table_ s)
                                (brk s);
          '(s', _) ← FinishErase old (set_table t (added k h v c d true s));
          Some s'
        else Some (added k h v c d false s));
  s2 ← Insert_evict (length (concat (list_ (table_ s1)))) s1;
  Some (s2, brk s).
Proof.
  unfold Insert, added. simpl. destruct (0 <? capacity_ s); [|done].
  unfold store, set_heap, set_brk, set_usage, set_lists, LRU_Append,
    set_table, new_handle, set_in_cache, set_refs. simpl.
  change (wrap32 (1 + 1)) with 2.
  by rewrite insert_insert_eq.
Qed.

Lemma inv_link cap s held e t old :
  inv (Some e) cap s held → elems_ (table_ s) < 2 ^ 31 →
  HT_Insert (heap s) (table_ s) e = Some (t, old) →
  inv old cap (set_table t s) held ∧ e ∈ entries t ∧
  match old with
  | Some o => o ≠ e ∧ kh (heap s) o = kh (heap s) e
  | None => True
  end.
Proof.
  intros Hinv Hlt Hins.
  destruct (proj1 (inv_entries _ _ _ _ Hinv e) (or_intror eq_refl))
    as (r & Hr & Hic).
  pose proof (inv_pending _ _ _ _ Hinv e eq_refl) as Hne.
  destruct (HT_Insert_spec (heap s) (table_ s) e r
              (inv_table _ _ _ _ Hinv) Hr Hne Hlt)
    as (t' & old' & Heq & Hwf & Hspec).
  rewrite Hins in Heq. injection Heq as <- <-.
  pose proof (wf_table_NoDup _ _ (inv_table _ _ _ _ Hinv)) as Hnd.
  destruct old as [o|].
  - destruct Hspec as (Hkh & _ & _ & rest & Hp1 & Hp2).
    rewrite Hp1 in Hnd. apply NoDup_cons in Hnd as [Hor _].
    assert (o ≠ e) as Hoe.
    { intros ->. apply Hne. rewrite Hp1. by left. }
    split_and!; [|rewrite Hp2; by left|done..].
    destruct_inv Hinv. split; simpl; try done.
    + intros b [= <-]. rewrite Hp2. by intros [?|?]%elem_of_cons.
    + intros b. rewrite <-inv_entries, Hp2, Hp1, !elem_of_cons. split.
      * intros [[->|?]|[= ->]]; [by right|left; by right|left; by left].
      * intros [[->|?]|[= ->]]; [by right|left; by right|left; by left].
  - destruct Hspec as (_ & _ & Hp).
    split_and!; [|rewrite Hp; by left|done].
    destruct_inv Hinv. split; simpl; try done.
    intros b. rewrite <-inv_entries, Hp, elem_of_cons. split.
    + intros [[->|?]|?]; [by right|by left|done].
    + intros [?|[= ->]]; left; [by right|by left].
Qed.

Lemma Insert_evict_nil fuel s : lru_ s = [] → Insert_evict fuel s = Some s.
Proof.
  intros Hl. destruct fuel; simpl; rewrite Hl;
    by destruct (capacity_ s <? usage_ s).
Qed.

(** First half of [Insert] when caching is on: link the new entry into the
    table and finish the erase of the entry it displaced, if any. *)
Lemma Insert_link_inv cap s held k h v c d :
  inv None cap s held → is_uint32 h → is_size_t c →
  elems_ (table_ s) < 2 ^ 31 → 0 < cap →
  ∃ s1 t old X,
    HT_Insert (heap (added k h v c d true s)) (table_ s) (brk s) =
      Some (t, old) ∧
    FinishErase old (set_table t (added k h v c d true s)) =
      Some (s1, bool_decide (old ≠ None)) ∧
    inv None cap s1 (brk s :: held) ∧
    evolves X (added k h v c d true s) s1 ∧
    (brk s ∉ X) ∧
    (∀ b, b ∉ X → heap s1 !! b = heap (added k h v c d true s) !! b).
Proof.
  intros Hinv Hh Hc Hlt Hcap.
  pose proof (inv_added cap s held k h v c d true Hinv Hh Hc
                ltac:(done)) as Hinv1. simpl in Hinv1.
  set (sl := added k h v c d true s) in *.
  assert (table_ sl = table_ s) as Htab by done.
  destruct (proj1 (inv_entries _ _ _ _ Hinv1 (brk s)) (or_intror eq_refl))
    as (r & Hr & Hic).
  destruct (HT_Insert_spec (heap sl) (table_ sl) (brk s) r
              (inv_table _ _ _ _ Hinv1) Hr
              (inv_pending _ _ _ _ Hinv1 _ eq_refl)
              ltac:(by rewrite Htab))
    as (t & old & Heq & _).
  destruct (inv_link _ _ _ _ _ _ Hinv1 ltac:(by rewrite Htab) Heq)
    as (Hinv2 & Hent & Hold).
  rewrite Htab in Heq.
  destruct old as [o|].
  - destruct Hold as [Hoe Hkh].
    destruct (proj1 (inv_entries _ _ _ _ Hinv2 o) (or_intror eq_refl))
      as (eo & Heo & Hico). simpl in Heo.
    destruct (inv_refs _ _ _ _ Hinv1 o eo Heo) as [Hro Hro1].
    pose proof (inv_held_bound _ _ _ _ Hinv1 o).
    exists (erased_state o eo (set_table t sl)), t, (Some o), [o].
    split_and!.
    + done.
    + rewrite (FinishErase_eq _ o eo) by (try done; rewrite Hico in Hro; lia).
      done.
    + by apply inv_erased.
    + change [o] with ([] ++ [o]).
      eapply evolves_trans; [apply (evolves_set_table t)|].
      by apply evolves_erased.
    + by intros ?%list_elem_of_singleton.
    + intros b Hb. rewrite erased_state_frame; [done|].
      intros ->. apply Hb. by left.
  - exists (set_table t sl), t, None, []. split_and!.
    + done.
    + done.
    + done.
    + apply evolves_set_table.
    + by intros ?%elem_of_nil.
    + done.
Qed.

(** [Insert] in an invariant state, with arguments of their C++ types and a
    table below 2^31 entries. *)
Lemma Insert_inv cap s held k h v c d :
  inv None cap s held → is_uint32 h → is_size_t c →
  elems_ (table_ s) < 2 ^ 31 →
  ∃ s2 X,
    Insert k h v c d s = Some (s2, brk s) ∧
    inv None cap s2 (brk s :: held) ∧
    (usage_ s2 <= capacity_ s2 ∨ lru_ s2 = []) ∧
    evolves X (added k h v c d (bool_decide (0 < cap)) s) s2 ∧
    (brk s ∉ X) ∧
    heap s2 !! brk s = Some (new_handle k h v c d (bool_decide (0 < cap))) ∧
    (cap = 0 → s2 = added k h v c d false s).
Proof.
  intros Hinv Hh Hc Hlt.
  destruct (inv_cap _ _ _ _ Hinv) as [Hcap Hrange].
  rewrite Insert_unfold, Hcap.
  destruct (0 <? cap) eqn:Hpos.
  - apply Z.ltb_lt in Hpos. rewrite bool_decide_eq_true_2 by done.
    destruct (Insert_link_inv cap s held k h v c d Hinv Hh Hc Hlt Hpos)
      as (s1 & t & old & X & Hins & Hfin & Hinv1 & Hevo & HX & Hfr).
    rewrite Hins. simpl. rewrite Hfin. simpl.
    destruct (Insert_evict_inv cap (brk s :: held)
                (length (concat (list_ (table_ s1)))) s1 Hinv1)
      as (s2 & ev & Hloop & Hinv2 & Hl & Hu & Hfit & Hevo2 & Hfr2).
    { pose proof (inv_lru_length _ _ _ _ Hinv1). unfold entries in *. lia. }
    rewrite Hloop. simpl. exists s2, (X ++ ev).
    assert (heap s1 !! brk s = Some (new_handle k h v c d true)) as He1.
    { rewrite Hfr by done. simpl. by rewrite lookup_insert_eq. }
    assert (brk s ∉ ev) as Hev.
    { intros Hin.
      assert (brk s ∈ lru_ s1) as Hin1
        by (rewrite Hl; apply elem_of_app; by left).
      apply (inv_lru _ _ _ _ Hinv1) in Hin1 as (x & Hx & _ & Hx1).
      rewrite He1 in Hx. by injection Hx as <-. }
    split_and!; try done.
    + by eapply evolves_trans.
    + rewrite elem_of_app. tauto.
    + by rewrite Hfr2.
    + intros ->. lia.
  - apply Z.ltb_ge in Hpos. destruct Hrange as [Hr0 _].
    assert (cap = 0) as -> by lia.
    rewrite bool_decide_eq_false_2 by lia. simpl.
    pose proof (inv_added 0 s held k h v c d false Hinv Hh Hc
                  ltac:(done)) as Hinv1. simpl in Hinv1.
    assert (lru_ (added k h v c d false s) = []) as Hnil.
    { destruct (lru_ (added k h v c d false s)) as [|a l] eqn:Hl; [done|].
      assert (a ∈ lru_ (added k h v c d false s)) as Ha
        by (rewrite Hl; by left).
      apply (inv_lru _ _ _ _ Hinv1) in Ha as (x & Hx & Hxc & _).
      rewrite (inv_disabled _ _ _ _ Hinv1 eq_refl a x Hx) in Hxc. done. }
    rewrite Insert_evict_nil by done. simpl.
    exists (added k h v c d false s), [].
    split_and!; try done.
    + by right.
    + apply evolves_refl.
    + by intros ?%elem_of_nil.
    + simpl. by rewrite lookup_insert_eq.
Qed.

(** * Reachable states satisfy the invariants *)

Lemma NewShard_eq cap :
  NewShard cap =
  Some {| capacity_ := cap; usage_ := 0; lru_ := []; in_use_ := [];
          table_ := {| length_ := 4; elems_ := 0;
                       list_ := [[]; []; []; []] |};
          heap := ∅; brk := 0%nat; deleted := [] |}.
Proof. reflexivity. Qed.

Lemma inv_new cap s :
  is_size_t cap → NewShard cap = Some s → inv None cap s [].
Proof.
  intros Hcap Hs. rewrite NewShard_eq in Hs. injection Hs as <-.
  split; simpl.
  - done.
  - split; simpl.
    + done.
    + exists 2. split; [lia|done].
    + done.
    + lia.
    + intros i chain a Hi Ha.
      assert (chain = []) as ->.
      { destruct i as [|[|[|[|i]]]]; simpl in Hi; by simplify_eq. }
      by apply elem_of_nil in Ha.
    + apply NoDup_nil_2.
  - done.
  - intros a. split; [intros [?%elem_of_nil|?]; done|].
    by intros (e & ?%lookup_empty_Some & _).
  - intros a. split; [by intros ?%elem_of_nil|].
    by intros (e & ?%lookup_empty_Some & _).
  - intros a. split; [by intros ?%elem_of_nil|].
    by intros (e & ?%lookup_empty_Some & _).
  - apply NoDup_nil_2.
  - apply NoDup_nil_2.
  - by intros a e ?%lookup_empty_Some.
  - by intros a ?%elem_of_nil.
  - intros a. rewrite holds_nil. lia.
  - by intros a e ?%lookup_empty_Some.
  - done.
  - by intros a [e ?%lookup_empty_Some].
  - by intros _ a e ?%lookup_empty_Some.
Qed.

Lemma inv_log_new cap s : NewShard cap = Some s → inv_log [] s.
Proof.
  intros Hs. rewrite NewShard_eq in Hs. injection Hs as <-.
  split; simpl.
  - intros a. split; [lia|]. by intros (?&?&?&?&?&?%elem_of_nil).
  - by intros c ?%elem_of_nil.
  - by intros ?????? ?%elem_of_nil.
Qed.

Lemma inv_log_evolves tr X s s' :
  (∀ a, is_Some (heap s !! a) → (a < brk s)%nat) →
  inv_log tr s → evolves X s s' → inv_log tr s'.
Proof.
  intros Hbrk [Hc Hb He] [B C A K L G]. split.
  - intros a. by rewrite B.
  - intros c Hin. rewrite B. destruct (G c Hin) as [?|?]; [by apply Hb|].
    by apply Hbrk.
  - intros k h v c d a Hin. specialize (He k h v c d a Hin).
    rewrite L. destruct (heap s !! a) as [e|] eqn:Hea.
    + specialize (K a e Hea). destruct He as (<- & <- & <- & <- & <- & ->).
      destruct (heap s' !! a) as [e'|].
      * destruct K as [(?&?&?&?&?) _]. done.
      * done.
    + rewrite (A a Hea). by rewrite app_nil_r.
Qed.

Lemma inv_log_other tr s ev :
  (∀ k h v c d a, ev ≠ EvInsert k h v c d a) →
  inv_log tr s → inv_log (ev :: tr) s.
Proof.
  intros Hev [Hc Hb He].
  assert (∀ k h v c d a,
            EvInsert k h v c d a ∈ ev :: tr ↔ EvInsert k h v c d a ∈ tr)
    as Hiff.
  { intros. rewrite elem_of_cons. split; [|by right].
    intros [Heq|?]; [|done]. symmetry in Heq. by apply Hev in Heq. }
  split; [|done|].
  - intros a. rewrite Hc. by setoid_rewrite Hiff.
  - intros k h v c d a Hin%Hiff. by apply He.
Qed.

Lemma calls_for_none a log :
  (∀ c, c ∈ log → dc_entry c ≠ a) → calls_for a log = [].
Proof.
  induction log as [|c log IH]; intros H; [done|]. unfold calls_for.
  rewrite filter_cons_False by (apply H; by left).
  apply IH. intros c' Hc'. apply H. by right.
Qed.

Lemma inv_log_insert tr s k h v c d cached :
  (∀ a, is_Some (heap s !! a) → (a < brk s)%nat) →
  inv_log tr s →
  inv_log (EvInsert k h v c d (brk s) :: tr) (added k h v c d cached s).
Proof.
  intros Hbrk [Hc Hb He].
  assert (calls_for (brk s) (deleted s) = []) as Hnone.
  { apply calls_for_none. intros x Hx%Hb. lia. }
  split; simpl.
  - intros a. split.
    + intros Ha. destruct (decide (a = brk s)) as [->|Hne].
      * exists k, h, v, c, d. by left.
      * destruct (proj1 (Hc a) ltac:(lia)) as (k'&h'&v'&c'&d'&Hin).
        exists k', h', v', c', d'. by right.
    + intros (k'&h'&v'&c'&d'&[Heq|Hin]%elem_of_cons).
      * injection Heq as -> -> -> -> -> ->. lia.
      * assert (a < brk s)%nat by (apply Hc; eauto 10). lia.
  - intros x Hx%Hb. lia.
  - intros k' h' v' c' d' a [Heq|Hin]%elem_of_cons.
    + injection Heq as -> -> -> -> -> ->.
      by rewrite lookup_insert_eq.
    + assert (a < brk s)%nat by (apply Hc; eauto 10).
      rewrite lookup_insert_ne by lia. by apply He.
Qed.

(** One call by a well-behaved client keeps both invariants. *)
Lemma step_preserves cap tr s held ev s' held' :
  inv None cap s held → inv_log tr s →
  step s held ev s' held' →
  inv None cap s' held' ∧ inv_log (ev :: tr) s'.
Proof.
  intros Hinv Hlog Hstep.
  pose proof (inv_brk _ _ _ _ Hinv) as Hbrk.
  destruct Hstep as
    [s held k h v c d s' e Hh Hc Hlt Hop
    |s held k h s' e Hh Hb Hop
    |s held k h s' Hh Hop
    |s held a s' Hin Hop
    |s held k h s' Hh Hop
    |s held s' Hop].
  - destruct (Insert_inv cap s held k h v c d Hinv Hh Hc Hlt)
      as (s2 & X & Heq & Hinv2 & _ & Hevo & _).
    rewrite Hop in Heq. injection Heq as <- ->. split; [done|].
    eapply inv_log_evolves; [|by apply inv_log_insert|done].
    destruct (inv_cap _ _ _ _ Hinv) as [_ [? _]].
    apply (inv_brk _ _ _ _
             (inv_added cap s held k h v c d (bool_decide (0 < cap)) Hinv
                Hh Hc ltac:(by intros ?%bool_decide_eq_true))).
  - destruct (Lookup_hit_inv _ _ _ _ _ _ _ Hinv Hop Hb)
      as (Hinv' & Hevo & _).
    split; [done|]. apply inv_log_other; [done|].
    by eapply inv_log_evolves.
  - apply Lookup_miss_same in Hop as ->. split; [done|].
    by apply inv_log_other.
  - destruct (Release_inv _ _ _ _ Hinv Hin) as (s2 & Heq & Hinv' & Hevo & _).
    rewrite Hop in Heq. injection Heq as <-. split; [done|].
    apply inv_log_other; [done|]. by eapply inv_log_evolves.
  - destruct (Erase_inv _ _ _ k h Hinv) as (s2 & Heq & Hinv' & Hcase).
    rewrite Hop in Heq. injection Heq as <-. split; [done|].
    apply inv_log_other; [done|].
    destruct Hcase as [[-> _]|(a & e & t & He & Hic & _ & _ & _ & ->)];
      [done|].
    eapply inv_log_evolves; [done|done|].
    eapply evolves_trans; [apply (evolves_set_table t)|].
    by apply evolves_erased.
  - destruct (Prune_inv _ _ _ Hinv) as (s2 & Heq & Hinv' & _ & _ & Hevo & _).
    rewrite Hop in Heq. injection Heq as <-. split; [done|].
    apply inv_log_other; [done|]. by eapply inv_log_evolves.
Qed.

Lemma reachable_inv cap tr s held :
  reachable cap tr s held → inv None cap s held ∧ inv_log tr s.
Proof.
  induction 1 as [s Hcap Hs|tr s held ev s' held' _ [IH1 IH2] Hstep].
  - split; [by apply inv_new|by eapply inv_log_new].
  - by eapply step_preserves.
Qed.

(** * Runs in which the reference counts do not wrap *)

Lemma step_handles s held ev s' held' tr :
  step s held ev s' held' → held = handles tr → held' = handles (ev :: tr).
Proof. intros Hstep Hh. destruct Hstep; by rewrite Hh. Qed.

Lemma run_handles cap tr s held : run cap tr s held → held = handles tr.
Proof.
  induction 1 as [s Hcap Hs|tr s held ev s' held' _ IH Hcall]; [done|].
  destruct Hcall as [s held ev s' held' Hstep|s held k h s' e Hh Hl].
  - by eapply step_handles.
  - by rewrite IH.
Qed.

Lemma refs_fit_tail ev tr : refs_fit (ev :: tr) → refs_fit tr.
Proof. intros Hfit tr' Hsuf. apply Hfit. by apply suffix_cons_r. Qed.

Lemma refs_fit_here tr a : refs_fit tr → holds (handles tr) a <= 2 ^ 32 - 2.
Proof. intros Hfit. by apply Hfit. Qed.

Lemma refs_fit_cons ev tr :
  refs_fit tr → (∀ a, holds (handles (ev :: tr)) a <= 2 ^ 32 - 2) →
  refs_fit (ev :: tr).
Proof.
  intros Hfit Hnow tr' [pre Hpre].
  destruct pre as [|x pre]; simplify_eq/=; [done|].
  apply Hfit. by exists pre.
Qed.

(** A run in which the counts never wrap is a run of bounded steps. *)
Lemma run_fit_reachable cap tr s held :
  run cap tr s held → refs_fit tr → reachable cap tr s held.
Proof.
  induction 1 as [s Hcap Hs|tr s held ev s' held' Hrun IH Hcall]; intros Hfit.
  - by apply reach_new.
  - pose proof (IH (refs_fit_tail _ _ Hfit)) as Hreach.
    destruct Hcall as [s held ev s' held' Hstep|s held k h s' e Hh Hl].
    + by eapply reach_step.
    + eapply reach_step; [done|]. apply step_lookup_hit; [done| |done].
      pose proof (refs_fit_here _ e Hfit) as Hb.
      rewrite (run_handles _ _ _ _ Hrun).
      change (handles (EvLookup k h (Some e) :: tr)) with (e :: handles tr)
        in Hb.
      rewrite holds_cons_eq in Hb. lia.
Qed.

Lemma reachable_run cap tr s held : reachable cap tr s held → run cap tr s held.
Proof.
  induction 1 as [s Hcap Hs|tr s held ev s' held' _ IH Hstep].
  - by apply run_new.
  - eapply run_call; [done|]. by apply call_step.
Qed.

Lemma reachable_fit cap tr s held : reachable cap tr s held → refs_fit tr.
Proof.
  induction 1 as [s Hcap Hs|tr s held ev s' held' Hreach IH Hstep].
  - intros tr' Hsuf a. apply suffix_nil_inv in Hsuf as ->.
    change (handles []) with (@nil addr). rewrite holds_nil. lia.
  - apply refs_fit_cons; [done|]. intros a.
    assert (reachable cap (ev :: tr) s' held') as Hreach'
      by (by eapply reach_step).
    rewrite <-(run_handles _ _ _ _ (reachable_run _ _ _ _ Hreach')).
    destruct (reachable_inv _ _ _ _ Hreach') as [Hinv _].
    apply (inv_held_bound _ _ _ _ Hinv).
Qed.

(** * Sample runs are reachable *)

Lemma reachable_fresh cap :
  is_size_t cap → reachable cap [] (fresh_shard cap) [].
Proof. intros H. by apply reach_new. Qed.

Lemma size_t_10 : is_size_t 10.
Proof. unfold is_size_t. lia. Qed.

Lemma reachable_sample_a :
  reachable 10 [EvInsert "a" 7 100 6 0%nat 0%nat] sample_a [0%nat].
Proof.
  eapply reach_step; [apply reachable_fresh, size_t_10|].
  apply step_insert; [unfold is_uint32; lia|unfold is_size_t; lia
                     |by vm_compute|vm_compute; reflexivity].
Qed.

Lemma reachable_sample_ab :
  reachable 10 [EvInsert "b" 9 200 6 0%nat 1%nat;
                EvInsert "a" 7 100 6 0%nat 0%nat] sample_ab [1%nat; 0%nat].
Proof.
  eapply reach_step; [apply reachable_sample_a|].
  apply step_insert; [unfold is_uint32; lia|unfold is_size_t; lia
                     |by vm_compute|vm_compute; reflexivity].
Qed.

Lemma size_t_max : is_size_t (2 ^ 64 - 1).
Proof. unfold is_size_t. lia. Qed.

Lemma reachable_sample_huge_2 :
  reachable (2 ^ 64 - 1)
    [EvInsert "b" 9 200 (2 ^ 63) 0%nat 1%nat;
     EvInsert "a" 7 100 (2 ^ 63) 0%nat 0%nat] sample_huge_2 [1%nat; 0%nat].
Proof.
  eapply reach_step.
  - eapply reach_step; [apply reachable_fresh, size_t_max|].
    apply (step_insert _ _ _ _ _ _ _ sample_huge_1);
      [unfold is_uint32; lia|unfold is_size_t; lia
      |by vm_compute|vm_compute; reflexivity].
  - apply step_insert; [unfold is_uint32; lia|unfold is_size_t; lia
                       |by vm_compute|vm_compute; reflexivity].
Qed.

(** * Accounting of charges (C1, C2) *)

Lemma total_charge_nonneg p cap s held l :
  inv p cap s held → 0 <= total_charge (heap s) l.
Proof.
  intros Hinv. induction l as [|a l IH]; simpl; [lia|].
  unfold charge_of at 1. destruct (heap s !! a) as [e|] eqn:He; simpl; [|lia].
  destruct (inv_fields _ _ _ _ Hinv a e He) as [_ [? _]]. lia.
Qed.

Lemma inv_cached_lists p cap s held :
  inv p cap s held →
  NoDup (lru_ s ++ in_use_ s) ∧
  ∀ a, a ∈ lru_ s ++ in_use_ s ↔
       ∃ e, heap s !! a = Some e ∧ in_cache e = true.
Proof.
  intros Hinv. split.
  - apply NoDup_app. split_and!.
    + apply (inv_nodup_lru _ _ _ _ Hinv).
    + intros a. by eapply inv_lru_not_in_use.
    + apply (inv_nodup_in_use _ _ _ _ Hinv).
  - intros a.
    rewrite elem_of_app, (inv_lru _ _ _ _ Hinv), (inv_in_use _ _ _ _ Hinv).
    split.
    + intros [(e & ? & ? & _)|(e & ? & ? & _)]; eauto.
    + intros (e & He & Hic).
      destruct (inv_refs _ _ _ _ Hinv a e He) as [_ Hr].
      destruct (decide (refs e = 1)); [left|right]; exists e;
        split_and!; try done; lia.
Qed.

(** C1 (as amended).  In every state reachable by insert, lookup, release,
    erase and prune calls, the usage counter equals the sum of the charges of
    the entries on the LRU and in-use lists taken modulo 2^64, the width of
    [size_t]; it equals the exact sum whenever that sum is below 2^64.  The
    two lists together enumerate, without repetition, exactly the entries
    whose [in_cache] flag is set. *)
Theorem usage_is_charge_sum_mod cap tr s held :
  reachable cap tr s held →
  usage_ s = wrap64 (total_charge (heap s) (lru_ s ++ in_use_ s)) ∧
  (total_charge (heap s) (lru_ s ++ in_use_ s) < 2 ^ 64 →
   usage_ s = total_charge (heap s) (lru_ s ++ in_use_ s)) ∧
  NoDup (lru_ s ++ in_use_ s) ∧
  (∀ a, a ∈ lru_ s ++ in_use_ s ↔
        ∃ e, heap s !! a = Some e ∧ in_cache e = true).
Proof.
  intros [Hinv _]%reachable_inv.
  pose proof (inv_usage _ _ _ _ Hinv) as Hu.
  pose proof (total_charge_nonneg _ _ _ _ (lru_ s ++ in_use_ s) Hinv) as Hnn.
  destruct (inv_cached_lists _ _ _ _ Hinv) as [Hnd Hiff].
  split_and!; [done| |done|done].
  intros Hlt. rewrite Hu. apply wrap64_small. lia.
Qed.

Lemma usage_is_charge_sum_mod_witness :
  reachable 10 [EvInsert "b" 9 200 6 0%nat 1%nat;
                EvInsert "a" 7 100 6 0%nat 0%nat] sample_ab [1%nat; 0%nat] ∧
  usage_ sample_ab =
    wrap64 (total_charge (heap sample_ab)
              (lru_ sample_ab ++ in_use_ sample_ab)) ∧
  (total_charge (heap sample_ab) (lru_ sample_ab ++ in_use_ sample_ab)
     < 2 ^ 64 →
   usage_ sample_ab =
     total_charge (heap sample_ab) (lru_ sample_ab ++ in_use_ sample_ab)) ∧
  NoDup (lru_ sample_ab ++ in_use_ sample_ab) ∧
  (∀ a, a ∈ lru_ sample_ab ++ in_use_ sample_ab ↔
        ∃ e, heap sample_ab !! a = Some e ∧ in_cache e = true).
Proof.
  split; [apply reachable_sample_ab|].
  apply (usage_is_charge_sum_mod 10 _ _ _ reachable_sample_ab).
Defined.

(** C1 as stated fails: with two pinned entries of charge 2^63 the counter
    has wrapped to 0 while the charges sum to 2^64. *)
Lemma usage_is_charge_sum_counterexample :
  reachable (2 ^ 64 - 1)
    [EvInsert "b" 9 200 (2 ^ 63) 0%nat 1%nat;
     EvInsert "a" 7 100 (2 ^ 63) 0%nat 0%nat] sample_huge_2 [1%nat; 0%nat] ∧
  usage_ sample_huge_2 = 0 ∧
  total_charge (heap sample_huge_2)
    (lru_ sample_huge_2 ++ in_use_ sample_huge_2) = 2 ^ 64 ∧
  usage_ sample_huge_2 ≠
  total_charge (heap sample_huge_2)
    (lru_ sample_huge_2 ++ in_use_ sample_huge_2).
Proof.
  split; [apply reachable_sample_huge_2|].
  split_and!; [by vm_compute|by vm_compute|]. by vm_compute.
Qed.

(** C2 (as amended).  In every reachable state, an insert with arguments of
    their C++ types returns, and when it has returned either the usage does
    not exceed the capacity or the LRU list is empty: whatever is still
    cached is pinned by a client. *)
Theorem insert_fits_or_lru_empty cap tr s held k h v c d :
  reachable cap tr s held →
  is_uint32 h → is_size_t c → elems_ (table_ s) < 2 ^ 31 →
  ∃ s', Insert k h v c d s = Some (s', brk s) ∧
        (usage_ s' <= capacity_ s' ∨ lru_ s' = []).
Proof.
  intros [Hinv _]%reachable_inv Hh Hc Hlt.
  destruct (Insert_inv cap s held k h v c d Hinv Hh Hc Hlt)
    as (s2 & X & Heq & _ & Hfit & _).
  by exists s2.
Qed.

Lemma uint32_9 : is_uint32 9.
Proof. unfold is_uint32. lia. Qed.

Lemma size_t_6 : is_size_t 6.
Proof. unfold is_size_t. lia. Qed.

Lemma insert_fits_or_lru_empty_witness :
  reachable 10 [EvInsert "a" 7 100 6 0%nat 0%nat] sample_a [0%nat] ∧
  is_uint32 9 ∧ is_size_t 6 ∧ elems_ (table_ sample_a) < 2 ^ 31 ∧
  ∃ s', Insert "b" 9 200 6 0%nat sample_a = Some (s', brk sample_a) ∧
        (usage_ s' <= capacity_ s' ∨ lru_ s' = []).
Proof.
  split_and!; [apply reachable_sample_a|apply uint32_9|apply size_t_6
              |vm_compute; reflexivity|].
  apply (insert_fits_or_lru_empty 10 _ _ _ "b" 9 200 6 0%nat
           reachable_sample_a uint32_9 size_t_6).
  vm_compute. reflexivity.
Defined.

(** C2 as stated fails: with "a" (charge 6) pinned in a shard of capacity
    10, inserting "b" (charge 6) leaves a usage of 12, although the new entry
    alone does not exceed the capacity. *)
Lemma insert_fits_counterexample :
  reachable 10 [EvInsert "a" 7 100 6 0%nat 0%nat] sample_a [0%nat] ∧
  Insert "b" 9 200 6 0%nat sample_a = Some (sample_ab, 1%nat) ∧
  usage_ sample_ab = 12 ∧ capacity_ sample_ab = 10 ∧
  ¬ (usage_ sample_ab <= capacity_ sample_ab ∨
     (capacity_ sample_ab < 6 ∧ lru_ sample_ab = [])).
Proof.
  split_and!; [apply reachable_sample_a|by vm_compute..|].
  intros [H|[H _]]; vm_compute in H; [by apply H|discriminate].
Qed.

(** * Lookup misses (C10) *)

(** C10.  A lookup that returns no handle returns the shard state it was
    given: reference counts, both lists, the hash table, the usage counter,
    the allocated handles and the deleter log are all as before the call. *)
Theorem lookup_miss_unchanged k h s s' :
  Lookup k h s = Some (s', None) → s' = s.
Proof. apply Lookup_miss_same. Qed.

Lemma lookup_miss_unchanged_witness :
  Lookup "zz" 3 sample_a = Some (sample_a, None) ∧ sample_a = sample_a.
Proof.
  assert (Lookup "zz" 3 sample_a = Some (sample_a, None)) as H
    by (vm_compute; reflexivity).
  split; [exact H|]. apply (lookup_miss_unchanged "zz" 3 sample_a sample_a H).
Defined.

(** ** The run of [wrap_trace] *)

Lemma sample_a_refs_2 : sample_a_refs 2 = sample_a.
Proof. vm_compute. reflexivity. Qed.

Lemma wrap32_succ x : wrap32 (wrap32 x + 1) = wrap32 (x + 1).
Proof. unfold wrap32. by rewrite Zplus_mod_idemp_l. Qed.

(** One more lookup of "a": one more reference, whatever the count. *)
Lemma Lookup_sample_a_refs r :
  Lookup "a" 7 (sample_a_refs r) =
  Some (sample_a_refs (wrap32 (r + 1)), Some 0%nat).
Proof.
  unfold Lookup.
  assert (HT_Lookup (heap (sample_a_refs r)) (table_ (sample_a_refs r))
            "a" 7 = Some (Some 0%nat)) as -> by (vm_compute; reflexivity).
  cbn [mbind option_bind]. unfold Ref.
  assert (heap (sample_a_refs r) !! 0%nat =
          Some (set_refs r (new_handle "a" 7 100 6 0%nat true))) as ->
    by (vm_compute; reflexivity).
  cbn [mbind option_bind].
  change (refs (set_refs r (new_handle "a" 7 100 6 0%nat true))) with r.
  assert ((if (r =? 1) &&
              in_cache (set_refs r (new_handle "a" 7 100 6 0%nat true))
           then LRU_Append in_use_head 0%nat
                  (LRU_Remove 0%nat (sample_a_refs r))
           else sample_a_refs r) = sample_a_refs r) as ->.
  { destruct (r =? 1); [|done]. vm_compute. reflexivity. }
  unfold sample_a_refs, store. simpl. by rewrite insert_insert_eq.
Qed.

Lemma run_hits (n : nat) :
  run 10
    (replicate n (EvLookup "a" 7 (Some 0%nat)) ++
     [EvInsert "a" 7 100 6 0%nat 0%nat])
    (sample_a_refs (wrap32 (2 + Z.of_nat n)))
    (replicate n 0%nat ++ [0%nat]).
Proof.
  induction n as [|n IH].
  - change (wrap32 (2 + Z.of_nat 0)) with 2. rewrite sample_a_refs_2.
    apply reachable_run, reachable_sample_a.
  - change (replicate (S n) (EvLookup "a" 7 (Some 0%nat)) ++
            [EvInsert "a" 7 100 6 0%nat 0%nat])
      with (EvLookup "a" 7 (Some 0%nat) ::
            (replicate n (EvLookup "a" 7 (Some 0%nat)) ++
             [EvInsert "a" 7 100 6 0%nat 0%nat])).
    change (replicate (S n) 0%nat ++ [0%nat])
      with (0%nat :: (replicate n 0%nat ++ [0%nat])).
    eapply run_call; [exact IH|].
    apply call_lookup_hit; [unfold is_uint32; lia|].
    rewrite Lookup_sample_a_refs, wrap32_succ.
    replace (2 + Z.of_nat (S n)) with (2 + Z.of_nat n + 1) by lia. done.
Qed.

Lemma run_wrapped : run 10 wrap_trace sample_a_wrapped wrap_held.
Proof.
  pose proof (run_hits wrap_hits) as Hrun.
  assert (wrap32 (2 + Z.of_nat wrap_hits) = 0) as Hz.
  { unfold wrap_hits. rewrite Z2Nat.id by lia. reflexivity. }
  rewrite Hz in Hrun. exact Hrun.
Qed.

Lemma wrap_held_holds : holds wrap_held 0%nat = 2 ^ 32 - 1.
Proof.
  assert (∀ n : nat, holds (replicate n 0%nat ++ [0%nat]) 0%nat =
                     Z.of_nat n + 1) as Hgen.
  { induction n as [|n IH]; [done|].
    change (replicate (S n) 0%nat ++ [0%nat])
      with (0%nat :: (replicate n 0%nat ++ [0%nat])).
    rewrite holds_cons_eq, IH. lia. }
  unfold wrap_held. rewrite Hgen. unfold wrap_hits.
  rewrite Z2Nat.id by lia. lia.
Qed.

(** * Release (C3) *)

(** C3 (as amended).  In a run in which the clients have never held more
    than 2^32 - 2 handles on one entry at a time, releasing a held handle
    decrements the reference count of its entry.  If the count was 1 (it
    becomes 0), the deleter is called on the entry's key and value and the
    record is freed; the lists are untouched.  Otherwise, if the entry is in
    the cache and the count becomes exactly 1, the entry, which was on the
    in-use list, leaves it and becomes the newest entry of the LRU list.  In
    every other case only the count changes. *)
Theorem release_unref cap tr s held a :
  run cap tr s held → refs_fit tr → a ∈ held →
  ∃ e, heap s !! a = Some e ∧ 1 <= refs e ∧
    if decide (refs e = 1) then
      Release a s =
      Some (set_heap (delete a (heap s))
              (set_deleted (deleted s ++ [call_of a e]) s))
    else if decide (in_cache e = true ∧ refs e = 2) then
      a ∈ in_use_ s ∧ (a ∉ lru_ s) ∧
      Release a s =
      Some (set_lists (lru_ s ++ [a]) (filter (λ x, x ≠ a) (in_use_ s))
              (store a (set_refs (refs e - 1) e) s))
    else
      Release a s = Some (store a (set_refs (refs e - 1) e) s).
Proof.
  intros Hrun Hfit Hin.
  destruct (reachable_inv _ _ _ _ (run_fit_reachable _ _ _ _ Hrun Hfit))
    as [Hinv _].
  destruct (inv_held _ _ _ _ Hinv a Hin) as [e He].
  destruct (inv_refs _ _ _ _ Hinv a e He) as [Hr Hr1].
  pose proof (inv_held_bound _ _ _ _ Hinv a) as Hb.
  pose proof (proj1 (holds_pos held a) Hin) as Hpos.
  exists e. split_and!; [done..|].
  unfold Release, Unref. rewrite He. simpl.
  assert ((0 <? refs e) = true) as -> by (apply Z.ltb_lt; lia). simpl.
  rewrite wrap32_small by (destruct (in_cache e); lia).
  destruct (decide (refs e = 1)) as [H1|H1].
  - rewrite H1. simpl. destruct (in_cache e); [lia|]. done.
  - assert ((refs e - 1 =? 0) = false) as -> by (apply Z.eqb_neq; lia).
    destruct (decide (in_cache e = true ∧ refs e = 2)) as [[Hic H2]|Hn].
    + rewrite Hic, H2. simpl.
      assert (a ∉ lru_ s) as Hnl.
      { intros (x & Hx & _ & Hx1)%(inv_lru _ _ _ _ Hinv). simplify_eq; lia. }
      split_and!; [|done|].
      * apply (inv_in_use _ _ _ _ Hinv). exists e. split_and!; [done..|lia].
      * unfold LRU_Append, LRU_Remove. simpl.
        by rewrite (filter_ne_id (lru_ s)).
    + assert ((in_cache e && (refs e - 1 =? 1)) = false) as ->; [|done].
      apply andb_false_iff. destruct (in_cache e); [right|by left].
      apply Z.eqb_neq. intros ?. apply Hn. split; [done|lia].
Qed.

Lemma release_unref_witness :
  run 10 [EvInsert "a" 7 100 6 0%nat 0%nat] sample_a [0%nat] ∧
  refs_fit [EvInsert "a" 7 100 6 0%nat 0%nat] ∧
  0%nat ∈ [0%nat] ∧
  ∃ e, heap sample_a !! 0%nat = Some e ∧ 1 <= refs e ∧
    if decide (refs e = 1) then
      Release 0%nat sample_a =
      Some (set_heap (delete 0%nat (heap sample_a))
              (set_deleted (deleted sample_a ++ [call_of 0%nat e]) sample_a))
    else if decide (in_cache e = true ∧ refs e = 2) then
      0%nat ∈ in_use_ sample_a ∧ (0%nat ∉ lru_ sample_a) ∧
      Release 0%nat sample_a =
      Some (set_lists (lru_ sample_a ++ [0%nat])
              (filter (λ x, x ≠ 0%nat) (in_use_ sample_a))
              (store 0%nat (set_refs (refs e - 1) e) sample_a))
    else
      Release 0%nat sample_a =
      Some (store 0%nat (set_refs (refs e - 1) e) sample_a).
Proof.
  assert (0%nat ∈ [0%nat]) as Hin by (by left).
  split; [exact (reachable_run _ _ _ _ reachable_sample_a)|].
  split; [exact (reachable_fit _ _ _ _ reachable_sample_a)|].
  split; [exact Hin|].
  apply (release_unref 10 _ _ _ 0%nat
           (reachable_run _ _ _ _ reachable_sample_a)
           (reachable_fit _ _ _ _ reachable_sample_a) Hin).
Defined.

(** C3 as stated fails: [Ref] increments the [uint32_t] count without a
    check.  After the insert of "a" and 2^32 - 2 lookups of "a", none of
    them released, the clients hold 2^32 - 1 handles on the entry and its
    count has wrapped to 0; releasing one of these handles fails the
    assertion [e->refs > 0] of [Unref] instead of decrementing the count. *)
Lemma release_unref_counterexample :
  run 10 wrap_trace sample_a_wrapped wrap_held ∧
  0%nat ∈ wrap_held ∧
  holds wrap_held 0%nat = 2 ^ 32 - 1 ∧
  heap sample_a_wrapped !! 0%nat =
    Some (set_refs 0 (new_handle "a" 7 100 6 0%nat true)) ∧
  Release 0%nat sample_a_wrapped = None.
Proof.
  split; [exact run_wrapped|]. split.
  { apply elem_of_app. right. by left. }
  split; [exact wrap_held_holds|].
  split; by vm_compute.
Qed.

(** * Deleters run exactly once (C5) *)

(** C5 (as amended).  For every entry an insert created, at any later point
    of any sequence of calls in which the clients have never held more than
    2^32 - 2 handles on one entry at a time: while the record is allocated
    its reference count is at least 1 and its deleter has not been called;
    once the count has reached zero (the record is freed) the log holds
    exactly one deleter call for the entry, made with the deleter, key and
    value given to the insert. *)
Theorem deleter_exactly_once cap tr s held k h v c d a :
  run cap tr s held → refs_fit tr →
  EvInsert k h v c d a ∈ tr →
  match heap s !! a with
  | Some e => 1 <= refs e ∧ calls_for a (deleted s) = []
  | None =>
      calls_for a (deleted s) =
      [{| dc_entry := a; dc_deleter := d; dc_key := k; dc_value := v |}]
  end.
Proof.
  intros Hrun Hfit Hin.
  destruct (reachable_inv _ _ _ _ (run_fit_reachable _ _ _ _ Hrun Hfit))
    as [Hinv Hlog].
  pose proof (log_entry _ _ Hlog k h v c d a Hin) as He.
  destruct (heap s !! a) as [e|] eqn:Hea; [|done].
  destruct He as (_ & _ & _ & _ & _ & Hnone).
  destruct (inv_refs _ _ _ _ Hinv a e Hea) as [_ ?]. done.
Qed.

Lemma size_t_0 : is_size_t 0.
Proof. unfold is_size_t. lia. Qed.

Lemma uint32_7 : is_uint32 7.
Proof. unfold is_uint32. lia. Qed.

Lemma size_t_1 : is_size_t 1.
Proof. unfold is_size_t. lia. Qed.

Lemma reachable_sample_off :
  reachable 0 [EvInsert "a" 7 100 1 0%nat 0%nat] sample_off [0%nat].
Proof.
  eapply reach_step; [apply reachable_fresh, size_t_0|].
  apply step_insert; [apply uint32_7|apply size_t_1
                     |by vm_compute|vm_compute; reflexivity].
Qed.

Lemma reachable_sample_off_released :
  reachable 0 [EvRelease 0%nat; EvInsert "a" 7 100 1 0%nat 0%nat]
    sample_off_released [].
Proof.
  eapply reach_step; [apply reachable_sample_off|].
  apply (step_release sample_off [0%nat] 0%nat sample_off_released);
    [by left|vm_compute; reflexivity].
Qed.

Lemma deleter_exactly_once_witness :
  run 0 [EvRelease 0%nat; EvInsert "a" 7 100 1 0%nat 0%nat]
    sample_off_released [] ∧
  refs_fit [EvRelease 0%nat; EvInsert "a" 7 100 1 0%nat 0%nat] ∧
  EvInsert "a" 7 100 1 0%nat 0%nat ∈
    [EvRelease 0%nat; EvInsert "a" 7 100 1 0%nat 0%nat] ∧
  match heap sample_off_released !! 0%nat with
  | Some e => 1 <= refs e ∧ calls_for 0%nat (deleted sample_off_released) = []
  | None =>
      calls_for 0%nat (deleted sample_off_released) =
      [{| dc_entry := 0%nat; dc_deleter := 0%nat; dc_key := "a";
          dc_value := 100 |}]
  end.
Proof.
  assert (EvInsert "a" 7 100 1 0%nat 0%nat ∈
          [EvRelease 0%nat; EvInsert "a" 7 100 1 0%nat 0%nat]) as Hin
    by (right; left).
  split; [exact (reachable_run _ _ _ _ reachable_sample_off_released)|].
  split; [exact (reachable_fit _ _ _ _ reachable_sample_off_released)|].
  split; [exact Hin|].
  apply (deleter_exactly_once 0 _ _ _ _ _ _ _ _ _
           (reachable_run _ _ _ _ reachable_sample_off_released)
           (reachable_fit _ _ _ _ reachable_sample_off_released) Hin).
Defined.

(** C5 as stated fails: the count can reach zero by wrapping around.  After
    the insert of "a" and 2^32 - 2 lookups of "a", none of them released,
    the count of the entry is 0 while its record is allocated and in the
    cache, and its deleter has not been called. *)
Lemma deleter_exactly_once_counterexample :
  run 10 wrap_trace sample_a_wrapped wrap_held ∧
  EvInsert "a" 7 100 6 0%nat 0%nat ∈ wrap_trace ∧
  ∃ e, heap sample_a_wrapped !! 0%nat = Some e ∧ refs e = 0 ∧
       in_cache e = true ∧
       calls_for 0%nat (deleted sample_a_wrapped) = [].
Proof.
  split; [exact run_wrapped|]. split.
  { apply elem_of_app. right. by left. }
  exists (set_refs 0 (new_handle "a" 7 100 6 0%nat true)).
  split; [by vm_compute|]. split; [done|]. split; [done|]. by vm_compute.
Qed.

(** * Caching disabled (C4) *)

Lemma disabled_empty p s held :
  inv p 0 s held →
  entries (table_ s) = [] ∧ lru_ s = [] ∧ in_use_ s = [] ∧
  elems_ (table_ s) = 0.
Proof.
  intros Hinv.
  assert (∀ a e, heap s !! a = Some e → in_cache e = true → False) as Hno.
  { intros a e He Hic.
    rewrite (inv_disabled _ _ _ _ Hinv eq_refl a e He) in Hic. done. }
  assert (entries (table_ s) = []) as Hent.
  { destruct (entries (table_ s)) as [|a l] eqn:Hl; [done|]. exfalso.
    destruct (proj1 (inv_entries _ _ _ _ Hinv a)) as (e & He & Hic).
    - left. rewrite Hl. by left.
    - by eapply Hno. }
  split_and!.
  - done.
  - destruct (lru_ s) as [|a l] eqn:Hl; [done|]. exfalso.
    destruct (proj1 (inv_lru _ _ _ _ Hinv a)) as (e & He & Hic & _).
    + rewrite Hl. by left.
    + by eapply Hno.
  - destruct (in_use_ s) as [|a l] eqn:Hl; [done|]. exfalso.
    destruct (proj1 (inv_in_use _ _ _ _ Hinv a)) as (e & He & Hic & _).
    + rewrite Hl. by left.
    + by eapply Hno.
  - rewrite (wf_elems _ _ (inv_table _ _ _ _ Hinv)), Hent. done.
Qed.

Lemma disabled_lookup_misses p s held k h :
  inv p 0 s held → Lookup k h s = Some (s, None).
Proof.
  intros Hinv. destruct (disabled_empty _ _ _ Hinv) as (Hent & _).
  destruct (Lookup_result _ _ _ _ k h Hinv) as (s' & r & Heq & Hr).
  destruct r as [a|].
  - destruct Hr as [Ha _]. rewrite Hent in Ha. by apply elem_of_nil in Ha.
  - by rewrite (Lookup_miss_same _ _ _ _ Heq) in Heq.
Qed.

Lemma steps_reachable cap tr s held evs s' held' :
  reachable cap tr s held → steps s held evs s' held' →
  reachable cap (reverse evs ++ tr) s' held'.
Proof.
  intros Hreach Hsteps. revert tr Hreach.
  induction Hsteps as [s held|s held ev s1 held1 evs s2 held2 Hstep _ IH];
    intros tr Hreach; [done|].
  rewrite reverse_cons, <-app_assoc. apply IH. by eapply reach_step.
Qed.

(** With caching off no lookup returns a handle, so that a handle that is
    not released stays the only one on its record. *)
Lemma steps_off_holds a evs : ∀ tr s held s' held',
  reachable 0 tr s held → steps s held evs s' held' →
  (EvRelease a ∉ evs) → a ∈ held →
  holds held' a = holds held a.
Proof.
  induction evs as [|ev evs IH]; intros tr s held s' held' Hreach Hsteps Hnr Ha.
  - by inversion Hsteps; subst.
  - inversion Hsteps as [|? ? ? s1 held1 ? ? ? Hstep Hrest]; subst.
    apply not_elem_of_cons in Hnr as [Hne Hnr].
    assert (reachable 0 (ev :: tr) s1 held1) as Hreach1
      by (by eapply reach_step).
    destruct (reachable_inv _ _ _ _ Hreach) as [Hinv _].
    assert (holds held1 a = holds held a ∧ a ∈ held1) as [Hsame Ha1].
    { inversion Hstep as [? ? k0 h0 v0 c0 d0 ? e0 Hh0 Hc0 Hlt0 HI
                         |? ? k0 h0 ? e0 Hh0 Hb0 Hl
                         |? ? k0 h0 ? Hh0 Hl
                         |? ? a0 ? Ha0 Hr
                         |? ? k0 h0 ? Hh0 He
                         |? ? ? Hp]; subst.
      - destruct (Insert_inv 0 s held k0 h0 v0 c0 d0 Hinv Hh0 Hc0 Hlt0)
          as (s2 & X & Heq & _).
        rewrite HI in Heq. injection Heq as _ Heq0. subst e0.
        destruct (inv_fresh _ _ _ _ Hinv) as (_ & Hnh & _).
        assert (brk s ≠ a) as Hne'.
        { intros Hba. apply Hnh. by rewrite Hba. }
        split; [by apply holds_cons_ne|by right].
      - rewrite (disabled_lookup_misses _ _ _ k0 h0 Hinv) in Hl. done.
      - done.
      - assert (a0 ≠ a) as Hne' by (intros Hba; apply Hne; by rewrite Hba).
        split; [by apply holds_remove_one_ne|].
        apply holds_pos. rewrite holds_remove_one_ne by done.
        by apply holds_pos.
      - done.
      - done. }
    rewrite <-Hsame. by eapply IH.
Qed.

(** C4.  In a shard of capacity 0 the table and both lists are always empty
    and every lookup misses.  An insert returns a handle on a record that
    holds the inserted value, with [refs = 1] and [in_cache = false]; the
    table and the lists stay empty, so every later lookup misses as well.
    Whatever calls follow, as long as that handle has not been released, the
    record is as the insert made it, [Value] returns the inserted value, and
    releasing the handle takes the count from 1 to 0, calls the deleter on
    the inserted key and value, and frees the record. *)
Theorem capacity_zero_disables_caching tr s held k h v c d :
  reachable 0 tr s held → is_uint32 h → is_size_t c →
  entries (table_ s) = [] ∧ lru_ s = [] ∧ in_use_ s = [] ∧
  (∀ k' h', Lookup k' h' s = Some (s, None)) ∧
  ∃ s',
    Insert k h v c d s = Some (s', brk s) ∧
    Value (brk s) s' = Some v ∧
    heap s' !! brk s = Some (new_handle k h v c d false) ∧
    table_ s' = table_ s ∧ entries (table_ s') = [] ∧
    lru_ s' = [] ∧ in_use_ s' = [] ∧
    (∀ k' h', Lookup k' h' s' = Some (s', None)) ∧
    ∀ evs s2 held2,
      steps s' (brk s :: held) evs s2 held2 →
      (EvRelease (brk s) ∉ evs) →
      entries (table_ s2) = [] ∧ lru_ s2 = [] ∧ in_use_ s2 = [] ∧
      (∀ k' h', Lookup k' h' s2 = Some (s2, None)) ∧
      heap s2 !! brk s = Some (new_handle k h v c d false) ∧
      Value (brk s) s2 = Some v ∧
      ∃ s'',
        Release (brk s) s2 = Some s'' ∧
        heap s'' !! brk s = None ∧
        (∀ b, b ≠ brk s → heap s'' !! b = heap s2 !! b) ∧
        deleted s'' =
        deleted s2 ++ [{| dc_entry := brk s; dc_deleter := d; dc_key := k;
                          dc_value := v |}].
Proof.
  intros Hreach Hh Hc.
  destruct (reachable_inv _ _ _ _ Hreach) as [Hinv _].
  destruct (disabled_empty _ _ _ Hinv) as (Hent & Hlru & Hiu & Hel).
  split_and!; [done..|intros; by eapply disabled_lookup_misses|].
  destruct (Insert_inv 0 s held k h v c d Hinv Hh Hc ltac:(lia))
    as (s' & X & Heq & Hinv' & _ & _ & _ & Hnew & Hs').
  specialize (Hs' eq_refl).
  rewrite bool_decide_eq_false_2 in Hnew by lia.
  destruct (disabled_empty _ _ _ Hinv') as (Hent' & Hlru' & Hiu' & _).
  exists s'. split_and!; try done.
  - unfold Value. by rewrite Hnew.
  - by rewrite Hs'.
  - intros. by eapply disabled_lookup_misses.
  - intros evs s2 held2 Hsteps Hnr.
    assert (reachable 0 (EvInsert k h v c d (brk s) :: tr) s'
              (brk s :: held)) as Hreach'.
    { eapply reach_step; [done|]. apply step_insert; [done|done|lia|done]. }
    pose proof (steps_reachable _ _ _ _ _ _ _ Hreach' Hsteps) as Hreach2.
    destruct (reachable_inv _ _ _ _ Hreach2) as [Hinv2 Hlog2].
    destruct (disabled_empty _ _ _ Hinv2) as (Hent2 & Hlru2 & Hiu2 & _).
    destruct (inv_fresh _ _ _ _ Hinv) as (_ & Hnh & _).
    assert (holds held2 (brk s) = 1) as Hone.
    { rewrite (steps_off_holds (brk s) evs _ _ _ _ _ Hreach' Hsteps Hnr)
        by (by left).
      rewrite holds_cons_eq. apply holds_zero in Hnh. lia. }
    assert (brk s ∈ held2) as Hin2 by (apply holds_pos; lia).
    destruct (inv_held _ _ _ _ Hinv2 _ Hin2) as [e He].
    assert (EvInsert k h v c d (brk s) ∈
            reverse evs ++ EvInsert k h v c d (brk s) :: tr) as Hev.
    { apply elem_of_app. right. by left. }
    pose proof (log_entry _ _ Hlog2 k h v c d (brk s) Hev) as Hrec.
    rewrite He in Hrec. destruct Hrec as (Hk & Hha & Hv & Hch & Hd & _).
    destruct (inv_refs _ _ _ _ Hinv2 _ e He) as [Hr _].
    pose proof (inv_disabled _ _ _ _ Hinv2 eq_refl _ e He) as Hic.
    rewrite Hic, Hone in Hr.
    assert (e = new_handle k h v c d false) as ->.
    { destruct e. simpl in *. by subst. }
    split_and!; [done..|intros; by eapply disabled_lookup_misses|done| |].
    + unfold Value. by rewrite He.
    + unfold Release, Unref. rewrite He. simpl.
      eexists. split; [done|]. simpl. split_and!; [|intros b Hb|done].
      * by rewrite lookup_delete_eq.
      * by rewrite lookup_delete_ne.
Qed.

Lemma capacity_zero_disables_caching_witness :
  reachable 0 [] (fresh_shard 0) [] ∧ is_uint32 7 ∧ is_size_t 1 ∧
  Insert "a" 7 100 1 0%nat (fresh_shard 0) = Some (sample_off, 0%nat) ∧
  steps sample_off [0%nat]
    [EvLookup "a" 7 None; EvInsert "b" 9 200 1 0%nat 1%nat; EvErase "a" 7;
     EvPrune]
    sample_off_b [1%nat; 0%nat] ∧
  entries (table_ sample_off_b) = [] ∧
  (∀ k' h', Lookup k' h' sample_off_b = Some (sample_off_b, None)) ∧
  heap sample_off_b !! 0%nat = Some (new_handle "a" 7 100 1 0%nat false) ∧
  Value 0%nat sample_off_b = Some 100 ∧
  ∃ s'',
    Release 0%nat sample_off_b = Some s'' ∧
    heap s'' !! 0%nat = None ∧
    heap s'' !! 1%nat = Some (new_handle "b" 9 200 1 0%nat false) ∧
    deleted s'' =
    [{| dc_entry := 0%nat; dc_deleter := 0%nat; dc_key := "a";
        dc_value := 100 |}].
Proof.
  assert (Insert "a" 7 100 1 0%nat (fresh_shard 0) = Some (sample_off, 0%nat))
    as HI by (vm_compute; reflexivity).
  assert (steps sample_off [0%nat]
            [EvLookup "a" 7 None; EvInsert "b" 9 200 1 0%nat 1%nat;
             EvErase "a" 7; EvPrune]
            sample_off_b [1%nat; 0%nat]) as Hsteps.
  { eapply steps_cons.
    { apply step_lookup_miss; [apply uint32_7|vm_compute; reflexivity]. }
    eapply steps_cons.
    { apply (step_insert sample_off [0%nat] "b" 9 200 1 0%nat sample_off_b
               1%nat);
        [unfold is_uint32; lia|apply size_t_1|by vm_compute
        |vm_compute; reflexivity]. }
    eapply steps_cons.
    { apply step_erase; [apply uint32_7|vm_compute; reflexivity]. }
    eapply steps_cons; [|apply steps_nil].
    apply step_prune. vm_compute. reflexivity. }
  assert (EvRelease 0%nat ∉
          [EvLookup "a" 7 None; EvInsert "b" 9 200 1 0%nat 1%nat;
           EvErase "a" 7; EvPrune]) as Hnr.
  { intros Hin. repeat (apply elem_of_cons in Hin as [Hin|Hin]; [done|]).
    by apply elem_of_nil in Hin. }
  split; [exact (reachable_fresh 0 size_t_0)|].
  split; [exact uint32_7|]. split; [exact size_t_1|].
  split; [exact HI|]. split; [exact Hsteps|].
  destruct (capacity_zero_disables_caching [] (fresh_shard 0) [] "a" 7 100 1
              0%nat (reachable_fresh 0 size_t_0) uint32_7 size_t_1)
    as (_ & _ & _ & _ & s' & HI' & _ & _ & _ & _ & _ & _ & _ & Hafter).
  rewrite HI in HI'. injection HI' as <-.
  destruct (Hafter _ _ _ Hsteps Hnr)
    as (Hent & _ & _ & Hmiss & Hrec & Hval & s'' & Hrel & Hgone & Hfr & Hdel).
  split; [exact Hent|]. split; [exact Hmiss|]. split; [exact Hrec|].
  split; [exact Hval|]. exists s''. split; [exact Hrel|].
  split; [exact Hgone|]. split; [|exact Hdel].
  rewrite (Hfr 1%nat) by done. vm_compute. reflexivity.
Defined.

(** * Lookups that hit *)

Lemma Lookup_value k h s s' a e :
  Lookup k h s = Some (s', Some a) → heap s !! a = Some e →
  Value a s' = Some (value e).
Proof.
  unfold Lookup. destruct (HT_Lookup (heap s) (table_ s) k h) as [[b|]|];
    simpl; [|done..].
  unfold Ref. destruct (heap s !! b) as [x|] eqn:Hb; simpl; [|done].
  intros [= <- <-] He. rewrite Hb in He. injection He as <-.
  unfold Value. simpl. by rewrite lookup_insert_eq.
Qed.

(** A cached entry is found under its own key and hash. *)
Lemma Lookup_finds cap s held b e :
  inv None cap s held → heap s !! b = Some e → in_cache e = true →
  ∃ s', Lookup (key e) (hash e) s = Some (s', Some b) ∧
        Value b s' = Some (value e).
Proof.
  intros Hinv He Hic.
  assert (b ∈ entries (table_ s)) as Hb.
  { destruct (proj2 (inv_entries _ _ _ _ Hinv b)) as [?|?]; eauto; done. }
  destruct (Lookup_result _ _ _ _ (key e) (hash e) Hinv)
    as (s' & r & Heq & Hr).
  destruct r as [a|].
  - destruct Hr as [Ha Hkh].
    assert (a = b) as ->.
    { eapply wf_table_unique; [apply (inv_table _ _ _ _ Hinv)|done..|].
      rewrite Hkh. unfold kh. by rewrite He. }
    exists s'. split; [done|]. by eapply Lookup_value.
  - exfalso. apply (Hr b Hb). unfold kh. by rewrite He.
Qed.

(** * Erase (C8) *)

(** C8.  In every reachable state an erase returns.  If the shard holds no
    entry for the key (a lookup of it would miss), the erase returns the state
    it was given, so no deleter runs; and in any case the shard holds no entry
    for the key afterwards, so that erasing the same key again returns the
    state unchanged. *)
Theorem erase_idempotent cap tr s held k h :
  reachable cap tr s held →
  ∃ s1, Erase k h s = Some s1 ∧
        (Lookup k h s = Some (s, None) → s1 = s) ∧
        Lookup k h s1 = Some (s1, None) ∧
        Erase k h s1 = Some s1.
Proof.
  intros [Hinv _]%reachable_inv.
  destruct (Erase_inv _ _ _ k h Hinv) as (s1 & Heq & Hinv1 & Hcase).
  exists s1. split; [done|].
  assert (∀ a, a ∈ entries (table_ s1) → kh (heap s1) a ≠ Some (k, h))
    as Hno.
  { destruct Hcase as [[-> Hno]|(a & e & t & He & Hic & Hk & Hh & Hrm & ->)];
      [done|].
    destruct (inv_unlink _ _ _ _ _ _ _ Hinv Hrm) as (_ & Hkh & Hperm & _).
    rewrite erased_state_table. simpl. intros b Hb Hkb.
    pose proof (wf_table_NoDup _ _ (inv_table _ _ _ _ Hinv)) as Hnd.
    rewrite Hperm in Hnd. apply NoDup_cons in Hnd as [Hna _].
    assert (b ≠ a) as Hne by (by intros ->).
    unfold kh in Hkb. rewrite erased_state_frame in Hkb by done.
    simpl in Hkb. apply Hne.
    eapply wf_table_unique; [apply (inv_table _ _ _ _ Hinv)| | |].
    - rewrite Hperm. by right.
    - rewrite Hperm. by left.
    - unfold kh at 1. by rewrite Hkb. }
  assert (Lookup k h s1 = Some (s1, None)) as Hmiss.
  { destruct (Lookup_result _ _ _ _ k h Hinv1) as (s' & r & Hl & Hr).
    destruct r as [a|]; [destruct Hr as [Ha Hkh]; by apply Hno in Ha|].
    by rewrite (Lookup_miss_same _ _ _ _ Hl) in Hl. }
  split_and!; [|done|].
  - intros Hl.
    destruct Hcase as [[-> _]|(a & e & t & He & Hic & Hk & Hh & Hrm & _)];
      [done|]. exfalso.
    destruct (Lookup_result _ _ _ _ k h Hinv) as (s' & r & Hl' & Hr).
    rewrite Hl in Hl'. injection Hl' as <- <-.
    destruct (inv_unlink _ _ _ _ _ _ _ Hinv Hrm) as (_ & Hkh & Hperm & _).
    apply (Hr a); [rewrite Hperm; by left|done].
  - destruct (Erase_inv _ _ _ k h Hinv1) as (s2 & Heq2 & _ & Hcase2).
    destruct Hcase2 as [[-> _]|(a & e & t & He & Hic & Hk & Hh & Hrm & _)];
      [done|]. exfalso.
    destruct (inv_unlink _ _ _ _ _ _ _ Hinv1 Hrm) as (_ & Hkh & Hperm & _).
    apply (Hno a); [rewrite Hperm; by left|done].
Qed.

Lemma erase_idempotent_witness :
  reachable 10 [EvInsert "a" 7 100 6 0%nat 0%nat] sample_a [0%nat] ∧
  ∃ s1, Erase "a" 7 sample_a = Some s1 ∧
        (Lookup "a" 7 sample_a = Some (sample_a, None) → s1 = sample_a) ∧
        Lookup "a" 7 s1 = Some (s1, None) ∧
        Erase "a" 7 s1 = Some s1.
Proof.
  split; [apply reachable_sample_a|].
  apply (erase_idempotent 10 _ _ _ "a" 7 reachable_sample_a).
Defined.

(** * Prune (C9) *)

Lemma calls_of_Forall2 mem l :
  (∀ a, a ∈ l → is_Some (mem !! a)) →
  Forall2 (λ a c, ∃ e, mem !! a = Some e ∧ c = call_of a e) l
          (calls_of mem l).
Proof.
  induction l as [|a l IH]; intros H; [constructor|].
  destruct (H a ltac:(left)) as [e He].
  rewrite (calls_of_cons _ _ _ _ He). constructor; [eauto|].
  apply IH. intros b Hb. apply H. by right.
Qed.


Lemma reachable_sample_a_b_pinned :
  reachable 10 [EvInsert "b" 9 200 1 0%nat 1%nat; EvRelease 0%nat;
                EvInsert "a" 7 100 6 0%nat 0%nat]
    sample_a_b_pinned [1%nat].
Proof.
  eapply reach_step.
  - eapply reach_step; [apply reachable_sample_a|].
    apply (step_release sample_a [0%nat] 0%nat sample_a_released);
      [by left|vm_compute; reflexivity].
  - apply (step_insert sample_a_released [] "b" 9 200 1 0%nat
             sample_a_b_pinned 1%nat);
      [apply uint32_9|apply size_t_1|by vm_compute|vm_compute; reflexivity].
Qed.


(** * Hash-table insert (C7) *)

(** C7 (as amended).  On a well-formed table of fewer than 2^31 entries,
    inserting an allocated handle [h] that is not linked yet returns the entry
    [old] that a lookup of the key and hash of [h] finds, if any.  [h] is put
    in the slot [FindPointer] returns for its key and hash, in place of [old]
    or at the end of the chain; [old] is unlinked, every other entry stays,
    and a lookup of the key and hash now finds [h].  The element count is
    incremented only when nothing was displaced.  The table is resized exactly
    when the incremented count exceeds the table length, and its new length is
    then the smallest power of two, not below 4, that is no less than the
    count; otherwise the length is unchanged. *)
Theorem table_insert_spec mem t h r :
  wf_table mem t → mem !! h = Some r → h ∉ entries t → elems_ t < 2 ^ 31 →
  ∃ t' old (j : nat) chain,
    HT_Insert mem t h = Some (t', old) ∧
    HT_Lookup mem t (key r) (hash r) = Some old ∧
    FindPointer mem t (key r) (hash r) =
      Some (bucket (hash r) (length_ t), j) ∧
    list_ t !! bucket (hash r) (length_ t) = Some chain ∧
    old = chain !! j ∧
    wf_table mem t' ∧
    HT_Lookup mem t' (key r) (hash r) = Some (Some h) ∧
    (∀ a, a ∈ entries t' ↔ a = h ∨ (a ∈ entries t ∧ old ≠ Some a)) ∧
    elems_ t' = match old with Some _ => elems_ t | None => elems_ t + 1 end ∧
    if bool_decide (old = None ∧ length_ t < elems_ t + 1) then
      ∃ n, 2 <= n <= 31 ∧ length_ t' = 2 ^ n ∧ elems_ t' <= 2 ^ n ∧
           (n = 2 ∨ 2 ^ (n - 1) < elems_ t')
    else
      length_ t' = length_ t ∧
      list_ t' =
        <[bucket (hash r) (length_ t) :=
            take j chain ++ h :: drop (S j) chain]> (list_ t).
Proof.
  intros Hwf Hr Hnin Hlt.
  destruct (HT_Insert_full mem t h r Hwf Hr Hnin Hlt)
    as (j & chain & t' & Hf & Hc & Heq & Hwf' & Hspec).
  assert (kh mem h = Some (key r, hash r)) as Hkh
    by (unfold kh; by rewrite Hr).
  pose proof (wf_table_NoDup _ _ Hwf) as Hnd.
  exists t', (chain !! j), j, chain.
  assert (h ∈ entries t' ∧
          ∀ a, a ∈ entries t' ↔ a = h ∨ (a ∈ entries t ∧ chain !! j ≠ Some a))
    as [Hin Hiff].
  { destruct (chain !! j) as [o|].
    - destruct Hspec as (_ & _ & _ & _ & rest & Hp1 & Hp2).
      rewrite Hp1 in Hnd. apply NoDup_cons in Hnd as [Hor _].
      split; [rewrite Hp2; by left|].
      intros a. rewrite Hp2, Hp1, !elem_of_cons. split.
      + intros [->|Ha]; [by left|]. right. split; [by right|].
        intros [= ->]. done.
      + intros [->|[[->|Ha] Hne]]; [by left|done|by right].
    - destruct Hspec as (_ & _ & Hp & _).
      split; [rewrite Hp; by left|].
      intros a. rewrite Hp, elem_of_cons. intuition congruence. }
  split_and!; try done.
  - unfold HT_Lookup. rewrite Hf. simpl. by rewrite Hc.
  - destruct (HT_Lookup_spec mem t' (key r) (hash r) Hwf') as (x & Hx & Hs).
    rewrite Hx. destruct x as [a|].
    + destruct Hs as [Ha Hka]. do 2 f_equal.
      eapply wf_table_unique; [done..|]. by rewrite Hka.
    + exfalso. by apply (Hs h Hin).
  - destruct (chain !! j); by destruct Hspec as (_ & ? & ? & _).
  - destruct (chain !! j) as [o|].
    + rewrite bool_decide_eq_false_2 by (by intros [? _]).
      by destruct Hspec as (_ & ? & _ & ? & _).
    + destruct Hspec as (_ & _ & _ & Hsz).
      destruct (length_ t <? elems_ t + 1) eqn:Hgrow.
      * apply Z.ltb_lt in Hgrow. by rewrite bool_decide_eq_true_2.
      * apply Z.ltb_ge in Hgrow.
        rewrite bool_decide_eq_false_2 by (intros [_ ?]; lia). done.
Qed.

Lemma wf_sample_table : wf_table sample_mem sample_table.
Proof.
  split; simpl.
  - done.
  - exists 2. split; [lia|done].
  - done.
  - by vm_compute.
  - intros i chain a Hi Ha.
    destruct i as [|[|[|[|i]]]]; simpl in Hi; simplify_eq;
      try (by apply elem_of_nil in Ha).
    apply list_elem_of_singleton in Ha as ->.
    exists "a", 7. by vm_compute.
  - vm_compute. apply NoDup_singleton.
Qed.

Lemma table_insert_spec_witness :
  wf_table sample_mem sample_table ∧
  sample_mem !! 1%nat = Some (new_handle "a" 7 101 1 0%nat true) ∧
  (1%nat ∉ entries sample_table) ∧ elems_ sample_table < 2 ^ 31 ∧
  ∃ t' old (j : nat) chain,
    HT_Insert sample_mem sample_table 1%nat = Some (t', old) ∧
    HT_Lookup sample_mem sample_table "a" 7 = Some old ∧
    FindPointer sample_mem sample_table "a" 7 =
      Some (bucket 7 (length_ sample_table), j) ∧
    list_ sample_table !! bucket 7 (length_ sample_table) = Some chain ∧
    old = chain !! j ∧
    wf_table sample_mem t' ∧
    HT_Lookup sample_mem t' "a" 7 = Some (Some 1%nat) ∧
    (∀ a, a ∈ entries t' ↔
          a = 1%nat ∨ (a ∈ entries sample_table ∧ old ≠ Some a)) ∧
    elems_ t' = match old with
                | Some _ => elems_ sample_table
                | None => elems_ sample_table + 1
                end ∧
    if bool_decide (old = None ∧
                    length_ sample_table < elems_ sample_table + 1) then
      ∃ n, 2 <= n <= 31 ∧ length_ t' = 2 ^ n ∧ elems_ t' <= 2 ^ n ∧
           (n = 2 ∨ 2 ^ (n - 1) < elems_ t')
    else
      length_ t' = length_ sample_table ∧
      list_ t' =
        <[bucket 7 (length_ sample_table) :=
            take j chain ++ 1%nat :: drop (S j) chain]> (list_ sample_table).
Proof.
  assert (sample_mem !! 1%nat = Some (new_handle "a" 7 101 1 0%nat true))
    as Hm by (by vm_compute).
  assert (1%nat ∉ entries sample_table) as Hn.
  { intros H. vm_compute in H. apply list_elem_of_singleton in H. done. }
  assert (elems_ sample_table < 2 ^ 31) as Hl by (by vm_compute).
  refine (conj wf_sample_table (conj Hm (conj Hn (conj Hl _)))).
  apply (table_insert_spec sample_mem sample_table 1%nat _ wf_sample_table
           Hm Hn Hl).
Defined.

(** C7 as stated fails: an insert that displaces an entry with the same key
    and hash leaves the element count as it was. *)
Lemma table_insert_count_counterexample :
  wf_table sample_mem sample_table ∧
  HT_Insert sample_mem sample_table 1%nat =
    Some ({| length_ := 4; elems_ := 1; list_ := [[]; []; []; [1%nat]] |},
          Some 0%nat) ∧
  elems_ sample_table = 1 ∧
  ¬ (∃ t' old, HT_Insert sample_mem sample_table 1%nat = Some (t', old) ∧
               elems_ t' = elems_ sample_table + 1).
Proof.
  split_and!; [apply wf_sample_table|by vm_compute|done|].
  intros (t' & old & Heq & Hel). vm_compute in Heq.
  injection Heq as <- <-. vm_compute in Hel. discriminate.
Qed.

(** The bound on the element count is needed: from 2^31 + 1 elements on, the
    doubling loop of [Resize] wraps to 0 and never exits. *)
Lemma Resize_grow_diverges elems fuel :
  2 ^ 31 < elems → Resize_grow fuel 4 elems = None.
Proof.
  intros He.
  assert (∀ nl, (nl = 0 ∨ ∃ m, 2 <= m <= 31 ∧ nl = 2 ^ m) →
                Resize_grow fuel nl elems = None) as Hgen.
  { induction fuel as [|fuel IH]; intros nl Hnl.
    - simpl. assert ((nl <? elems) = true) as ->; [|done].
      apply Z.ltb_lt. destruct Hnl as [->|(m & Hm & ->)]; [lia|].
      pose proof (pow2_le_31 m ltac:(lia)). lia.
    - simpl. assert ((nl <? elems) = true) as ->.
      { apply Z.ltb_lt. destruct Hnl as [->|(m & Hm & ->)]; [lia|].
        pose proof (pow2_le_31 m ltac:(lia)). lia. }
      apply IH. destruct Hnl as [->|(m & Hm & ->)]; [by left|].
      destruct (decide (m = 31)) as [->|Hne].
      + left. by vm_compute.
      + right. exists (m + 1). split; [lia|].
        rewrite Z.pow_add_r by lia. apply wrap32_small.
        pose proof (pow2_le_31 (m + 1) ltac:(lia)) as Hp.
        rewrite Z.pow_add_r in Hp by lia. lia. }
  apply Hgen. right. exists 2. split; [lia|done].
Qed.

(** * Insert, then lookup (C6) *)

Lemma resident_evolves X s s' e k h v :
  evolves X s s' → e ∉ X → resident s e k h v → resident s' e k h v.
Proof.
  intros Hevo HX (r & Hr & Hic & Hk & Hh & Hv).
  pose proof (ev_keep _ _ _ Hevo e r Hr) as Hkeep.
  destruct (heap s' !! e) as [r'|] eqn:Hr'.
  - destruct Hkeep as [(Hv' & _ & _ & Hk' & Hh') Hc].
    exists r'. split_and!; try congruence.
    destruct Hc as [?|(? & _)]; [congruence|done].
  - destruct Hkeep as [?|?]; [congruence|done].
Qed.

Lemma step_quiet_resident cap s held ev s' held' e k h v :
  inv None cap s held → step s held ev s' held' → quiet k h ev →
  resident s e k h v → resident s' e k h v.
Proof.
  intros Hinv Hstep Hq Hres.
  destruct Hstep as
    [s held k' h' v' c' d' s' e' Hh Hc Hlt Hop
    |s held k' h' s' e' Hh Hb Hop
    |s held k' h' s' Hh Hop
    |s held a s' Hin Hop
    |s held k' h' s' Hh Hop
    |s held s' Hop]; simpl in Hq; try done.
  - destruct (Lookup_hit_inv _ _ _ _ _ _ _ Hinv Hop Hb) as (_ & Hevo & _).
    eapply resident_evolves; [done| |done]. by intros ?%elem_of_nil.
  - by apply Lookup_miss_same in Hop as ->.
  - destruct (Release_inv _ _ _ _ Hinv Hin) as (s2 & Heq & _ & Hevo & _).
    rewrite Hop in Heq. injection Heq as <-.
    eapply resident_evolves; [done| |done]. by intros ?%elem_of_nil.
  - destruct (Erase_inv _ _ _ k' h' Hinv) as (s2 & Heq & _ & Hcase).
    rewrite Hop in Heq. injection Heq as <-.
    destruct Hcase as [[-> _]|(a & x & t & Hx & Hic & Hk & Hh' & _ & ->)];
      [done|].
    eapply resident_evolves; [|  |done].
    + eapply evolves_trans; [apply (evolves_set_table t)|].
      by apply evolves_erased.
    + simpl. intros Hea%list_elem_of_singleton. subst a.
      destruct Hres as (r & Hr & _ & Hkr & Hhr & _).
      rewrite Hx in Hr. injection Hr as <-. apply Hq. congruence.
Qed.

Lemma steps_quiet_resident cap s held evs s' held' e k h v :
  steps s held evs s' held' →
  ∀ tr, reachable cap tr s held → Forall (quiet k h) evs →
  resident s e k h v →
  resident s' e k h v ∧ ∃ tr', reachable cap tr' s' held'.
Proof.
  induction 1 as [s held|s held ev s1 held1 evs s2 held2 Hstep _ IH];
    intros tr Hreach Hq Hres.
  - eauto.
  - apply Forall_cons in Hq as [Hq1 Hq2].
    pose proof (reachable_inv _ _ _ _ Hreach) as [Hinv _].
    apply (IH (ev :: tr)); [by eapply reach_step|done|].
    by eapply step_quiet_resident.
Qed.

(** C6 (as amended).  Take an insert of key [k] (hash [h]) and value [v],
    made in a reachable state with arguments of their C++ types, after which
    the new entry is in the cache.  After any further calls that are lookups,
    releases, or erases of other keys (no insert, no erase of [k], no prune),
    a lookup of [k] returns the handle of that entry, and its value is [v]. *)
Theorem insert_then_lookup cap tr s held k h v c d s1 e evs s2 held2 :
  reachable cap tr s held →
  is_uint32 h → is_size_t c → elems_ (table_ s) < 2 ^ 31 →
  Insert k h v c d s = Some (s1, e) →
  (∃ r, heap s1 !! e = Some r ∧ in_cache r = true) →
  steps s1 (e :: held) evs s2 held2 →
  Forall (quiet k h) evs →
  ∃ s3, Lookup k h s2 = Some (s3, Some e) ∧ Value e s3 = Some v.
Proof.
  intros Hreach Hh Hc Hlt Hins (r & Hr & Hic) Hsteps Hq.
  pose proof (reachable_inv _ _ _ _ Hreach) as [Hinv _].
  destruct (Insert_inv cap s held k h v c d Hinv Hh Hc Hlt)
    as (s1' & X & Heq & _ & _ & _ & _ & Hnew & _).
  rewrite Hins in Heq. injection Heq as <- ->.
  rewrite Hr in Hnew. injection Hnew as ->.
  assert (resident s1 (brk s) k h v) as Hres.
  { eexists. split; [done|]. by split_and!. }
  assert (reachable cap (EvInsert k h v c d (brk s) :: tr) s1 (brk s :: held))
    as Hreach1.
  { eapply reach_step; [done|]. by apply step_insert. }
  destruct (steps_quiet_resident _ _ _ _ _ _ _ _ _ _ Hsteps _ Hreach1 Hq Hres)
    as [(r2 & Hr2 & Hic2 & Hk2 & Hh2 & Hv2) (tr2 & Hreach2)].
  pose proof (reachable_inv _ _ _ _ Hreach2) as [Hinv2 _].
  destruct (Lookup_finds _ _ _ _ _ Hinv2 Hr2 Hic2) as (s3 & Hl & Hval).
  exists s3. by rewrite <-Hk2, <-Hh2, <-Hv2.
Qed.

(** The entry is in the cache after the insert exactly when caching is on. *)
Lemma insert_resident_iff cap tr s held k h v c d s1 e :
  reachable cap tr s held →
  is_uint32 h → is_size_t c → elems_ (table_ s) < 2 ^ 31 →
  Insert k h v c d s = Some (s1, e) →
  (∃ r, heap s1 !! e = Some r ∧ in_cache r = true) ↔ 0 < cap.
Proof.
  intros [Hinv _]%reachable_inv Hh Hc Hlt Hins.
  destruct (Insert_inv cap s held k h v c d Hinv Hh Hc Hlt)
    as (s1' & X & Heq & _ & _ & _ & _ & Hnew & _).
  rewrite Hins in Heq. injection Heq as <- ->. split.
  - intros (r & Hr & Hic). rewrite Hr in Hnew. injection Hnew as ->.
    simpl in Hic. by apply bool_decide_eq_true in Hic.
  - intros Hpos. eexists. split; [done|]. simpl.
    by apply bool_decide_eq_true.
Qed.

Lemma insert_then_lookup_witness :
  reachable 10 [] (fresh_shard 10) [] ∧
  is_uint32 7 ∧ is_size_t 6 ∧ elems_ (table_ (fresh_shard 10)) < 2 ^ 31 ∧
  Insert "a" 7 100 6 0%nat (fresh_shard 10) = Some (sample_a, 0%nat) ∧
  (∃ r, heap sample_a !! 0%nat = Some r ∧ in_cache r = true) ∧
  steps sample_a [0%nat] [EvRelease 0%nat] sample_a_released [] ∧
  Forall (quiet "a" 7) [EvRelease 0%nat] ∧
  ∃ s3, Lookup "a" 7 sample_a_released = Some (s3, Some 0%nat) ∧
        Value 0%nat s3 = Some 100.
Proof.
  assert (elems_ (table_ (fresh_shard 10)) < 2 ^ 31) as Hl by (by vm_compute).
  assert (Insert "a" 7 100 6 0%nat (fresh_shard 10) = Some (sample_a, 0%nat))
    as Hins by (vm_compute; reflexivity).
  assert (∃ r, heap sample_a !! 0%nat = Some r ∧ in_cache r = true) as Hres
    by (eexists; by vm_compute).
  assert (steps sample_a [0%nat] [EvRelease 0%nat] sample_a_released [])
    as Hsteps.
  { eapply steps_cons; [|apply steps_nil].
    apply (step_release sample_a [0%nat] 0%nat sample_a_released);
      [by left|vm_compute; reflexivity]. }
  assert (Forall (quiet "a" 7) [EvRelease 0%nat]) as Hq
    by (by repeat constructor).
  refine (conj (reachable_fresh 10 size_t_10)
            (conj uint32_7 (conj size_t_6 (conj Hl (conj Hins
               (conj Hres (conj Hsteps (conj Hq _)))))))).
  apply (insert_then_lookup 10 [] (fresh_shard 10) [] "a" 7 100 6 0%nat
           sample_a 0%nat [EvRelease 0%nat] sample_a_released []
           (reachable_fresh 10 size_t_10) uint32_7 size_t_6 Hl Hins Hres
           Hsteps Hq).
Defined.

(** C6 as stated fails: no insert intervenes between the insert of "a" and
    the lookup, yet the lookup misses, because "a" was erased in between. *)
Lemma insert_then_lookup_counterexample :
  reachable 10 [] (fresh_shard 10) [] ∧
  Insert "a" 7 100 6 0%nat (fresh_shard 10) = Some (sample_a, 0%nat) ∧
  resident sample_a 0%nat "a" 7 100 ∧
  step sample_a [0%nat] (EvErase "a" 7) sample_a_erased [0%nat] ∧
  Lookup "a" 7 sample_a_erased = Some (sample_a_erased, None).
Proof.
  split_and!.
  - apply reachable_fresh, size_t_10.
  - vm_compute; reflexivity.
  - eexists. by vm_compute.
  - apply step_erase; [apply uint32_7|vm_compute; reflexivity].
  - vm_compute; reflexivity.
Qed.

(** * The scenarios of cache_test.cc, run on the model *)

Example test_HitAndMiss :
  (s ← NewShard 63;
   '(s, r1) ← CacheTest_Lookup "100" 1 s;
   s ← CacheTest_Insert "100" 1 101 s;
   '(s, r2) ← CacheTest_Lookup "100" 1 s;
   '(s, r3) ← CacheTest_Lookup "200" 2 s;
   s ← CacheTest_Insert "200" 2 201 s;
   s ← CacheTest_Insert "100" 1 102 s;
   '(s, r4) ← CacheTest_Lookup "100" 1 s;
   '(s, r5) ← CacheTest_Lookup "200" 2 s;
   '(s, r6) ← CacheTest_Lookup "300" 3 s;
   Some ([r1; r2; r3; r4; r5; r6], deleted_keys_values s))
  = Some ([-1; 101; -1; 102; 201; -1], [("100", 101)]).
Proof. vm_compute. reflexivity. Qed.

Example test_Erase :
  (s ← NewShard 63;
   s ← Erase "200" 2 s;
   let d0 := deleted_keys_values s in
   s ← CacheTest_Insert "100" 1 101 s;
   s ← CacheTest_Insert "200" 2 201 s;
   s ← Erase "100" 1 s;
   '(s, r1) ← CacheTest_Lookup "100" 1 s;
   '(s, r2) ← CacheTest_Lookup "200" 2 s;
   let d1 := deleted_keys_values s in
   s ← Erase "100" 1 s;
   '(s, r3) ← CacheTest_Lookup "100" 1 s;
   '(s, r4) ← CacheTest_Lookup "200" 2 s;
   Some (d0, [r1; r2], d1, [r3; r4], deleted_keys_values s))
  = Some ([], [-1; 201], [("100", 101)], [-1; 201], [("100", 101)]).
Proof. vm_compute. reflexivity. Qed.

Example test_EntriesArePinned :
  (s ← NewShard 63;
   s ← CacheTest_Insert "100" 1 101 s;
   '(s, h1) ← Lookup "100" 1 s; h1 ← h1; v1 ← Value h1 s;
   s ← CacheTest_Insert "100" 1 102 s;
   '(s, h2) ← Lookup "100" 1 s; h2 ← h2; v2 ← Value h2 s;
   let d0 := deleted_keys_values s in
   s ← Release h1 s;
   let d1 := deleted_keys_values s in
   s ← Erase "100" 1 s;
   '(s, r) ← CacheTest_Lookup "100" 1 s;
   let d2 := deleted_keys_values s in
   s ← Release h2 s;
   Some ([v1; v2; r], d0, d1, d2, deleted_keys_values s))
  = Some ([101; 102; -1], [], [("100", 101)], [("100", 101)],
          [("100", 101); ("100", 102)]).
Proof. vm_compute. reflexivity. Qed.

(** Capacity 3: key "200" is evicted, key "100" is kept warm by lookups and
    key "300" is pinned. *)
Example test_EvictionPolicy :
  (s ← NewShard 3;
   s ← CacheTest_Insert "100" 1 101 s;
   s ← CacheTest_Insert "200" 2 201 s;
   s ← CacheTest_Insert "300" 3 301 s;
   '(s, h) ← Lookup "300" 3 s; h ← h;
   '(s, r0) ← CacheTest_Lookup "100" 1 s;
   s ← CacheTest_Insert "1000" 4 2000 s;
   '(s, r1) ← CacheTest_Lookup "100" 1 s;
   s ← CacheTest_Insert "1001" 5 2001 s;
   '(s, r2) ← CacheTest_Lookup "100" 1 s;
   '(s, r3) ← CacheTest_Lookup "200" 2 s;
   '(s, r4) ← CacheTest_Lookup "300" 3 s;
   s ← Release h s;
   Some ([r0; r1; r2; r3; r4], TotalCharge s))
  = Some ([101; 101; 101; -1; 301], 3).
Proof. vm_compute. reflexivity. Qed.

Example test_Prune :
  (s ← NewShard 63;
   s ← CacheTest_Insert "1" 1 100 s;
   s ← CacheTest_Insert "2" 2 200 s;
   '(s, h) ← Lookup "1" 1 s; h ← h;
   s ← Prune s;
   s ← Release h s;
   '(s, r1) ← CacheTest_Lookup "1" 1 s;
   '(s, r2) ← CacheTest_Lookup "2" 2 s;
   Some ([r1; r2], deleted_keys_values s))
  = Some ([100; -1], [("2", 200)]).
Proof. vm_compute. reflexivity. Qed.

Example test_ZeroSizeCache :
  (s ← NewShard 0;
   s ← CacheTest_Insert "1" 1 100 s;
   '(s, r) ← CacheTest_Lookup "1" 1 s;
   Some (r, deleted_keys_values s))
  = Some (-1, [("1", 100)]).
Proof. vm_compute. reflexivity. Qed.

(** Five inserts into the four initial buckets: the fifth resizes the table
    to eight buckets and rehashes the chains front to back. *)
Example test_Resize :
  (s ← NewShard 63;
   s ← CacheTest_Insert "a" 7 1 s;
   s ← CacheTest_Insert "b" 7 2 s;
   s ← CacheTest_Insert "c" 7 3 s;
   s ← CacheTest_Insert "d" 7 4 s;
   let t4 := table_ s in
   s ← CacheTest_Insert "e" 7 5 s;
   Some (t4, table_ s))
  = Some ({| length_ := 4; elems_ := 4;
             list_ := [[]; []; []; [0; 1; 2; 3]%nat] |},
          {| length_ := 8; elems_ := 5;
             list_ := [[]; []; []; []; []; []; []; [4; 3; 2; 1; 0]%nat] |}).
Proof. vm_compute. reflexivity. Qed.

(** * The link fields implement the sequences

    The pointer assignments of [LRU_Remove] and [LRU_Append] act on a
    circular list as [filter] and [++] act on the sequence it threads, and
    leave the other circular list alone. *)

Section Lists.
Variable L : links.

Lemma path_app x l1 y l2 z :
  path L x (l1 ++ y :: l2) z ↔ path L x l1 y ∧ path L y l2 z.
Proof.
  revert x. induction l1 as [|w l1 IH]; intros x; simpl.
  - tauto.
  - rewrite IH. tauto.
Qed.

Lemma path_snoc x l y z :
  path L x (l ++ [y]) z ↔ path L x l y ∧ next L y = z ∧ prev L z = y.
Proof. by rewrite path_app. Qed.

Lemma path_prev_in x l z : path L x l z → prev L z ∈ x :: l.
Proof.
  revert x. induction l as [|w l IH]; intros x; simpl.
  - intros [_ ->]. by left.
  - intros (_ & _ & H). right. by apply IH.
Qed.

Lemma path_next_in x l z : path L x l z → next L x ∈ l ++ [z].
Proof. destruct l; simpl; [intros [-> _]|intros (-> & _)]; by left. Qed.

Lemma path_ext L' x l z :
  (∀ u, u ∈ x :: l → next L' u = next L u) →
  (∀ u, u ∈ l ++ [z] → prev L' u = prev L u) →
  path L x l z → path L' x l z.
Proof.
  revert x. induction l as [|w l IH]; intros x Hn Hp; simpl.
  - intros [H1 H2]. rewrite Hn by left. rewrite Hp by left. done.
  - intros (H1 & H2 & H3). rewrite Hn by left. rewrite Hp by left.
    split_and!; [done..|]. apply IH; [| |done].
    + intros u Hu. apply Hn. by right.
    + intros u Hu. apply Hp. by right.
Qed.
End Lists.

Lemma assign_eq {A} (f : node → A) x v : assign f x v x = v.
Proof. unfold assign. by rewrite decide_True. Qed.

Lemma assign_ne {A} (f : node → A) x v y : y ≠ x → assign f x v y = f y.
Proof. intros H. unfold assign. by rewrite decide_False. Qed.

(** [LRU_Remove] on the link fields, once the two updates are sorted out. *)
Lemma LRU_Remove_links_eq L e :
  next L e ≠ e →
  LRU_Remove_links e L =
  {| next := assign (next L) (prev L e) (next L e);
     prev := assign (prev L) (next L e) (prev L e) |}.
Proof.
  intros Hne. unfold LRU_Remove_links. simpl. f_equal.
  by rewrite assign_ne.
Qed.

Lemma path_unlink L x l1 e l2 z :
  NoDup (x :: l1 ++ e :: l2) → z ∉ l1 ++ e :: l2 →
  path L x l1 e → path L e l2 z →
  path (LRU_Remove_links e L) x (l1 ++ l2) z.
Proof.
  intros Hnd Hz H1 H2.
  assert (next L e ∈ l2 ++ [z]) as Hn by (by eapply path_next_in).
  assert (e ∉ l2 ++ [z]) as He.
  { apply NoDup_cons in Hnd as [_ Hnd]. apply NoDup_app in Hnd as (_ & _ & Hnd).
    apply NoDup_cons in Hnd as [? _].
    rewrite elem_of_app, list_elem_of_singleton. intros [?| ->]; [done|].
    apply Hz. apply elem_of_app. right. by left. }
  rewrite LRU_Remove_links_eq by (by intros Heq; rewrite Heq in Hn).
  clear He. revert x Hnd H1.
  induction l1 as [|w l1 IH]; intros x Hnd H1; simpl in *.
  - destruct H1 as [Hxe Hex]. rewrite Hex.
    apply NoDup_cons in Hnd as [Hx Hnd]. apply NoDup_cons in Hnd as [Hel Hnd].
    destruct l2 as [|y l2]; simpl in *.
    + destruct H2 as [-> _]. by rewrite !assign_eq.
    + destruct H2 as (-> & _ & H2). rewrite !assign_eq.
      split_and!; [done..|]. apply NoDup_cons in Hnd as [Hy Hnd].
      eapply path_ext; [| |done]; simpl.
      * intros u Hu. apply assign_ne. intros ->. apply Hx. by right.
      * intros u Hu. apply assign_ne. intros ->.
        apply elem_of_app in Hu as [?|Hu]; [done|].
        apply list_elem_of_singleton in Hu as <-.
        apply Hz. right. by left.
  - destruct H1 as (Hxw & Hwx & H1).
    apply NoDup_cons in Hnd as [Hx Hnd].
    assert (prev L e ∈ w :: l1) as Hp by (by eapply path_prev_in).
    split_and!.
    + rewrite assign_ne; [done|]. intros ->. apply Hx.
      rewrite app_comm_cons. apply elem_of_app. by left.
    + rewrite assign_ne; [done|]. intros ->.
      apply elem_of_app in Hn as [Hn|Hn].
      * apply NoDup_cons in Hnd as [Hw _]. apply Hw.
        apply elem_of_app. right. by right.
      * apply list_elem_of_singleton in Hn. apply Hz. rewrite <-Hn. by left.
    + apply IH; [|done..]. intros Hz'. apply Hz. by right.
Qed.

Lemma fmap_entry_NoDup h (l : list addr) :
  NoDup l → NoDup (at_head h :: (at_entry <$> l)).
Proof.
  intros Hnd. apply NoDup_cons. split.
  - intros (a & Ha & _)%list_elem_of_fmap. done.
  - apply NoDup_fmap_2; [|done]. by intros a b [= ->].
Qed.

Lemma head_not_entry h (l : list addr) : at_head h ∉ at_entry <$> l.
Proof. intros (a & Ha & _)%list_elem_of_fmap. done. Qed.

Lemma elem_of_fmap_entry a (l : list addr) :
  at_entry a ∈ at_entry <$> l ↔ a ∈ l.
Proof.
  rewrite list_elem_of_fmap. split.
  - intros (b & [= ->] & ?). done.
  - intros ?. by exists a.
Qed.

(** Unlinking an entry that is on the list. *)
Theorem threads_LRU_Remove h L l e :
  threads h L l → e ∈ l →
  threads h (LRU_Remove_links (at_entry e) L) (filter (λ x, x ≠ e) l).
Proof.
  intros [Hnd Hp] Hin. split; [by apply NoDup_filter_ne|].
  apply list_elem_of_split in Hin as (l1 & l2 & ->).
  pose proof Hnd as Hnd'.
  apply NoDup_app in Hnd' as (_ & H1 & [H2 _]%NoDup_cons).
  rewrite filter_app, filter_cons_False by (intros H; by apply H).
  rewrite !filter_ne_id; [|done|intros ?; by eapply H1; [|left]].
  rewrite fmap_app in *. rewrite fmap_cons in Hp.
  apply path_app in Hp as [Hp1 Hp2].
  apply path_unlink; [| |done..].
  - rewrite <-fmap_cons, <-fmap_app. by apply fmap_entry_NoDup.
  - rewrite <-fmap_cons, <-fmap_app. apply head_not_entry.
Qed.

(** [LRU_Append] on the link fields, once the four updates are sorted out. *)
Lemma LRU_Append_links_eq L h e :
  e ≠ h → prev L h ≠ e →
  LRU_Append_links h e L =
  {| next := assign (assign (next L) e h) (prev L h) e;
     prev := assign (assign (prev L) e (prev L h)) h e |}.
Proof.
  intros Heh Hq. unfold LRU_Append_links. cbn [next prev].
  rewrite (assign_eq (prev L)).
  rewrite (assign_ne _ (prev L h) e e) by done.
  by rewrite (assign_eq (next L)).
Qed.

Lemma path_link L x l h e :
  NoDup (x :: l) → e ∉ x :: l → h ∉ l → e ≠ h →
  path L x l h →
  path (LRU_Append_links h e L) x (l ++ [e]) h.
Proof.
  intros Hnd He Hh Heh Hp.
  assert (prev L h ∈ x :: l) as Hq by (by eapply path_prev_in).
  rewrite LRU_Append_links_eq; [|done|by intros Heq; rewrite Heq in Hq].
  revert x Hnd He Hp Hq. induction l as [|w l IH]; intros x Hnd He Hp Hq.
  - simpl in *. destruct Hp as [Hxh Hhx]. rewrite Hhx.
    apply not_elem_of_cons in He as [Hex _].
    rewrite !assign_eq. rewrite (assign_ne _ h e e) by done.
    rewrite assign_eq. rewrite (assign_ne _ x e e) by done.
    by rewrite assign_eq.
  - simpl in *. destruct Hp as (Hxw & Hwx & Hp).
    apply NoDup_cons in Hnd as [Hx Hnd].
    apply not_elem_of_cons in He as [Hex He].
    apply not_elem_of_cons in Hh as [Hhw Hh].
    assert (prev L h ∈ w :: l) as Hq' by (by eapply path_prev_in).
    split_and!.
    + rewrite assign_ne by (intros ->; done).
      rewrite assign_ne by (intros ->; done). done.
    + rewrite assign_ne by (intros ->; done).
      rewrite assign_ne; [done|]. intros ->. apply He. by left.
    + by apply IH.
Qed.

(** Appending an entry that is on no list. *)
Theorem threads_LRU_Append h L l e :
  threads h L l → e ∉ l →
  threads h (LRU_Append_links (at_head h) (at_entry e) L) (l ++ [e]).
Proof.
  intros [Hnd Hp] Hin. split; [by apply NoDup_snoc|].
  rewrite fmap_app. apply path_link; [| | |done|done].
  - by apply fmap_entry_NoDup.
  - apply not_elem_of_cons. split; [done|]. by rewrite elem_of_fmap_entry.
  - apply head_not_entry.
Qed.

(** [lru_.next] is the oldest entry and [lru_.prev] the newest; the list is
    empty exactly when [lru_.next == &lru_]. *)
Theorem threads_oldest h L l :
  threads h L l →
  next L (at_head h) =
    match l with a :: _ => at_entry a | [] => at_head h end ∧
  prev L (at_head h) =
    match last l with Some a => at_entry a | None => at_head h end.
Proof.
  intros [_ Hp]. split.
  - destruct l; simpl in Hp; by destruct Hp as [? ?].
  - destruct l as [|a l] using rev_ind; [by destruct Hp|].
    rewrite fmap_app in Hp. apply path_snoc in Hp as (_ & _ & ->).
    by rewrite last_snoc.
Qed.

(** The list of the other dummy head is not affected. *)
Theorem threads_LRU_Remove_frame h h' L l l' e :
  threads h L l → threads h' L l' → h ≠ h' →
  (∀ a, a ∈ l → a ∉ l') → e ∈ l' →
  threads h (LRU_Remove_links (at_entry e) L) l.
Proof.
  intros [Hnd Hp] [Hnd' Hp'] Hh Hdisj Hin. split; [done|].
  apply list_elem_of_split in Hin as (l1 & l2 & ->).
  rewrite fmap_app, fmap_cons in Hp'. apply path_app in Hp' as [Hp1 Hp2].
  pose proof (path_next_in _ _ _ _ Hp2) as Hn.
  pose proof (path_prev_in _ _ _ _ Hp1) as Hq.
  assert (∀ u, u ∈ at_head h :: (at_entry <$> l) →
               u ∉ at_head h' :: (at_entry <$> l1 ++ e :: l2)) as Hsep.
  { intros u [->|Hu]%elem_of_cons [Heq|Hu']%elem_of_cons.
    - by injection Heq.
    - by apply head_not_entry in Hu'.
    - subst u. by apply head_not_entry in Hu.
    - apply list_elem_of_fmap in Hu as (a & -> & Ha).
      apply elem_of_fmap_entry in Hu'. by apply (Hdisj a). }
  assert (next L (at_entry e) ≠ at_entry e) as Hne.
  { intros Heq. rewrite Heq in Hn.
    apply elem_of_app in Hn as [Hn|Hn].
    - apply elem_of_fmap_entry in Hn.
      apply NoDup_app in Hnd' as (_ & _ & [? _]%NoDup_cons). done.
    - by apply list_elem_of_singleton in Hn. }
  rewrite LRU_Remove_links_eq by done.
  eapply path_ext; [| |done]; simpl.
  - intros u Hu. apply assign_ne. intros ->. apply (Hsep _ Hu).
    apply elem_of_cons in Hq as [->|Hq]; [by left|right].
    rewrite fmap_app. apply elem_of_app. by left.
  - intros u Hu. apply assign_ne. intros ->.
    assert (next L (at_entry e) ∈ at_head h :: (at_entry <$> l)) as Hu'.
    { apply elem_of_app in Hu as [?|Hu]; [by right|].
      apply list_elem_of_singleton in Hu as ->. by left. }
    apply (Hsep _ Hu').
    apply elem_of_app in Hn as [Hn|Hn].
    + right. rewrite fmap_app, fmap_cons. apply elem_of_app. right. by right.
    + apply list_elem_of_singleton in Hn as ->. by left.
Qed.

Theorem threads_LRU_Append_frame h h' L l l' e :
  threads h L l → threads h' L l' → h ≠ h' →
  (∀ a, a ∈ l → a ∉ l') → e ∉ l → e ∉ l' →
  threads h (LRU_Append_links (at_head h') (at_entry e) L) l.
Proof.
  intros [Hnd Hp] [Hnd' Hp'] Hh Hdisj Hin Hin'. split; [done|].
  pose proof (path_prev_in _ _ _ _ Hp') as Hq.
  assert (prev L (at_head h') ≠ at_entry e) as Hqe.
  { intros Heq. rewrite Heq in Hq. apply elem_of_cons in Hq as [?|Hq]; [done|].
    by apply elem_of_fmap_entry in Hq. }
  rewrite LRU_Append_links_eq by done.
  assert (∀ u, u ∈ at_head h :: (at_entry <$> l) →
               u ≠ at_entry e ∧ u ≠ at_head h' ∧ u ≠ prev L (at_head h'))
    as Hsep.
  { intros u Hu. split_and!.
    - intros ->. apply elem_of_cons in Hu as [?|Hu]; [done|].
      by apply elem_of_fmap_entry in Hu.
    - intros ->. apply elem_of_cons in Hu as [Heq|Hu].
      + by injection Heq.
      + by apply head_not_entry in Hu.
    - intros ->. apply elem_of_cons in Hq as [Heq|Hq].
      + rewrite Heq in Hu. apply elem_of_cons in Hu as [Heq'|Hu].
        * by injection Heq'.
        * by apply head_not_entry in Hu.
      + apply list_elem_of_fmap in Hq as (a & Heq & Ha). rewrite Heq in Hu.
        apply elem_of_cons in Hu as [?|Hu]; [done|].
        apply elem_of_fmap_entry in Hu. by apply (Hdisj a). }
  eapply path_ext; [| |done]; simpl.
  - intros u Hu. destruct (Hsep u Hu) as (? & ? & ?).
    by rewrite !assign_ne.
  - intros u Hu.
    assert (u ∈ at_head h :: (at_entry <$> l)) as Hu'.
    { apply elem_of_app in Hu as [?|Hu]; [by right|].
      apply list_elem_of_singleton in Hu as ->. by left. }
    destruct (Hsep u Hu') as (? & ? & ?). by rewrite !assign_ne.
Qed.

(** The constructor makes both lists empty. *)
Lemma threads_new h L :
  next L (at_head h) = at_head h → prev L (at_head h) = at_head h →
  threads h L [].
Proof. intros H1 H2. split; [apply NoDup_nil_2|done]. Qed.

(** The assignments to [next_hash] and to the bucket heads act on a bucket
    as the sequence operations of [HT_Insert], [HT_Remove] and [Resize_move]
    act on its chain. *)

Lemma hash_chain_ext B B' start l :
  (∀ a, a ∈ l → next_hash B' a = next_hash B a) →
  hash_chain B start l → hash_chain B' start l.
Proof.
  revert start. induction l as [|a l IH]; intros start Hext; simpl; [done|].
  intros [-> Hc]. split; [done|]. rewrite Hext by left.
  apply IH; [|done]. intros b Hb. apply Hext. by right.
Qed.

Lemma hash_chain_next B start l (i : nat) a :
  hash_chain B start l → l !! i = Some a → hash_chain B (next_hash B a) (drop (S i) l).
Proof.
  revert start i. induction l as [|b l IH]; intros start i; [done|].
  simpl. intros [-> Hc] Hi. destruct i as [|i]; simpl in *.
  - injection Hi as ->. by rewrite drop_0.
  - by eapply IH.
Qed.

Lemma hash_chain_start B start l :
  hash_chain B start l → start = l !! 0%nat.
Proof. destruct l; simpl; [done|by intros [-> _]]. Qed.

(** What the slot at position [j] holds. *)
Lemma deref_slot_at B l (j : nat) :
  hash_chain B (bucket_head B) l → (j <= length l)%nat →
  deref (slot_at l j) B = l !! j.
Proof.
  intros Hc Hj. destruct j as [|j]; simpl.
  - by rewrite (hash_chain_start _ _ _ Hc).
  - destruct (lookup_lt_is_Some_2 l j ltac:(lia)) as [a Ha]. rewrite Ha. simpl.
    rewrite (hash_chain_start _ _ _ (hash_chain_next _ _ _ _ _ Hc Ha)).
    rewrite lookup_drop. f_equal. lia.
Qed.

Lemma HT_Insert_links_from B h : ∀ (j : nat) l p0,
  hash_chain B (deref p0 B) l → NoDup l → h ∉ l → slot_outside p0 l h →
  (j <= length l)%nat →
  hash_chain (HT_Insert_links (slot_from p0 l j) h B)
    (deref p0 (HT_Insert_links (slot_from p0 l j) h B))
    (take j l ++ h :: drop (S j) l).
Proof.
  induction j as [|j IH]; intros l p0 Hc Hnd Hh Hout Hj.
  - simpl. pose proof (hash_chain_start _ _ _ Hc) as Hstart.
    assert (deref p0 (HT_Insert_links p0 h B) = Some h) as Hd.
    { unfold HT_Insert_links. destruct p0; simpl; [done|].
      by rewrite decide_True. }
    rewrite Hd. split; [done|].
    assert (next_hash (HT_Insert_links p0 h B) h =
            match deref p0 B with
            | Some o => next_hash B o
            | None => None
            end) as ->.
    { unfold HT_Insert_links. destruct p0 as [|a0]; simpl.
      - by rewrite decide_True.
      - destruct Hout as [_ Hne]. rewrite decide_False by done.
        by rewrite decide_True. }
    destruct l as [|o l]; simpl in *.
    + by rewrite Hc.
    + destruct Hc as [-> Hc]. rewrite drop_0.
      apply NoDup_cons in Hnd as [Ho Hnd].
      apply not_elem_of_cons in Hh as [Hho Hh].
      eapply hash_chain_ext; [|done]. intros a Ha.
      unfold HT_Insert_links. destruct p0 as [|a0]; simpl.
      * rewrite decide_False; [done|]. by intros ->.
      * destruct Hout as [Hout _]. apply not_elem_of_cons in Hout as [_ Hout].
        rewrite decide_False by (by intros ->).
        rewrite decide_False; [done|]. by intros ->.
  - destruct l as [|a l]; [simpl in Hj; lia|].
    simpl in Hc. destruct Hc as [Hd Hc].
    apply NoDup_cons in Hnd as [Ha Hnd].
    apply not_elem_of_cons in Hh as [Hha Hh].
    assert (slot_from p0 (a :: l) (S j) = slot_from (slot_next a) l j) as Hs.
    { destruct j as [|j]; simpl; [done|].
      destruct (lookup_lt_is_Some_2 l j ltac:(simpl in Hj; lia)) as [b Hb].
      by rewrite Hb. }
    rewrite Hs.
    specialize (IH l (slot_next a) Hc Hnd Hh ltac:(done)
                  ltac:(simpl in Hj; lia)).
    simpl in IH |- *. split; [|done].
    assert (∃ b, slot_from (slot_next a) l j = slot_next b ∧ b ∈ a :: l)
      as (b & Hb & Hbin).
    { destruct j as [|j]; simpl; [exists a; split; [done|by left]|].
      destruct (lookup_lt_is_Some_2 l j ltac:(simpl in Hj; lia)) as [b Hb].
      rewrite Hb. exists b. split; [done|]. right.
      by eapply list_elem_of_lookup_2. }
    rewrite Hb. unfold HT_Insert_links. destruct p0 as [|a0]; simpl; [done|].
    destruct Hout as [Hout Hne]. simpl in Hd.
    rewrite decide_False by (intros ->; done).
    by rewrite decide_False.
Qed.

(** [HandleTable::Insert] on the link fields of a bucket. *)
Theorem hash_chain_HT_Insert B l h (j : nat) :
  hash_chain B (bucket_head B) l → NoDup l → h ∉ l → (j <= length l)%nat →
  hash_chain (HT_Insert_links (slot_at l j) h B)
    (bucket_head (HT_Insert_links (slot_at l j) h B))
    (take j l ++ h :: drop (S j) l).
Proof.
  intros Hc Hnd Hh Hj.
  apply (HT_Insert_links_from B h j l slot_head); done.
Qed.

Lemma HT_Remove_links_from B : ∀ (j : nat) l p0,
  hash_chain B (deref p0 B) l → NoDup l → slot_apart p0 l →
  (j < length l)%nat →
  hash_chain (HT_Remove_links (slot_from p0 l j) B)
    (deref p0 (HT_Remove_links (slot_from p0 l j) B))
    (delete j l).
Proof.
  induction j as [|j IH]; intros l p0 Hc Hnd Hout Hj.
  - destruct l as [|r l]; [simpl in Hj; lia|]. simpl in *.
    destruct Hc as [Hd Hc]. apply NoDup_cons in Hnd as [Hr Hnd].
    unfold HT_Remove_links. rewrite Hd.
    assert (deref p0 (store_slot p0 (next_hash B r) B) = next_hash B r) as ->.
    { destruct p0; simpl; [done|]. by rewrite decide_True. }
    eapply hash_chain_ext; [|done]. intros a Ha.
    destruct p0 as [|a0]; simpl; [done|].
    simpl in Hout. apply not_elem_of_cons in Hout as [_ Hout].
    rewrite decide_False; [done|]. by intros ->.
  - destruct l as [|a l]; [simpl in Hj; lia|].
    simpl in Hc. destruct Hc as [Hd Hc].
    apply NoDup_cons in Hnd as [Ha Hnd].
    assert (slot_from p0 (a :: l) (S j) = slot_from (slot_next a) l j) as Hs.
    { destruct j as [|j]; simpl; [done|].
      destruct (lookup_lt_is_Some_2 l j ltac:(simpl in Hj; lia)) as [b Hb].
      by rewrite Hb. }
    rewrite Hs.
    specialize (IH l (slot_next a) Hc Hnd Ha ltac:(simpl in Hj; lia)).
    simpl in IH |- *. split; [|done].
    assert (∃ b, slot_from (slot_next a) l j = slot_next b ∧ b ∈ a :: l)
      as (b & Hb & Hbin).
    { destruct j as [|j]; simpl; [exists a; split; [done|by left]|].
      destruct (lookup_lt_is_Some_2 l j ltac:(simpl in Hj; lia)) as [b Hb].
      rewrite Hb. exists b. split; [done|]. right.
      by eapply list_elem_of_lookup_2. }
    rewrite Hb. unfold HT_Remove_links.
    destruct (deref (slot_next b) B); [|done].
    destruct p0 as [|a0]; simpl; [done|].
    simpl in Hout, Hd.
    rewrite decide_False; [done|]. intros ->. done.
Qed.

(** [HandleTable::Remove] on the link fields of a bucket. *)
Theorem hash_chain_HT_Remove B l (j : nat) :
  hash_chain B (bucket_head B) l → NoDup l → (j < length l)%nat →
  hash_chain (HT_Remove_links (slot_at l j) B)
    (bucket_head (HT_Remove_links (slot_at l j) B))
    (delete j l).
Proof.
  intros Hc Hnd Hj. apply (HT_Remove_links_from B j l slot_head); done.
Qed.

(** The rehash step of [Resize] on the link fields of the new bucket. *)
Theorem hash_chain_Resize_move B l h :
  hash_chain B (bucket_head B) l → h ∉ l →
  hash_chain (Resize_move_links h B)
    (bucket_head (Resize_move_links h B)) (h :: l).
Proof.
  intros Hc Hh. simpl. split; [done|]. rewrite decide_True by done.
  eapply hash_chain_ext; [|done]. intros a Ha. simpl.
  rewrite decide_False; [done|]. by intros ->.
Qed.

Lemma FindPointer_walk_le mem k h : ∀ l (j : nat),
  FindPointer_walk mem k h l = Some j → (j <= length l)%nat.
Proof.
  induction l as [|a l IH]; intros j Hw; simpl in *.
  - injection Hw as <-. lia.
  - destruct (mem !! a) as [e|]; simpl in Hw; [|done].
    destruct (negb (hash e =? h) || negb (bool_decide (k = key e))).
    + destruct (FindPointer_walk mem k h l) as [j'|]; [|done].
      simpl in Hw. injection Hw as <-. specialize (IH j' eq_refl). lia.
    + injection Hw as <-. lia.
Qed.

(** The walk of [FindPointer] on the link fields stops at the slot whose
    position the walk along the sequence computes. *)
Lemma FindPointer_links_from mem k h B : ∀ l p0 (j fuel : nat),
  hash_chain B (deref p0 B) l →
  FindPointer_walk mem k h l = Some j → (length l <= fuel)%nat →
  FindPointer_links fuel (mismatch_of mem k h) p0 B =
  Some (slot_from p0 l j).
Proof.
  induction l as [|a l IH]; intros p0 j fuel Hc Hw Hf.
  - simpl in *. injection Hw as <-. destruct fuel; simpl; by rewrite Hc.
  - simpl in *. destruct Hc as [Hd Hc].
    destruct (mem !! a) as [e|] eqn:He; simpl in Hw; [|done].
    destruct fuel as [|fuel]; [lia|]. simpl. rewrite Hd.
    unfold mismatch_of at 1. rewrite He.
    destruct (negb (hash e =? h) || negb (bool_decide (k = key e))).
    + destruct (FindPointer_walk mem k h l) as [j'|] eqn:Hj'; [|done].
      simpl in Hw. injection Hw as <-.
      rewrite (IH (slot_next a) j' fuel Hc eq_refl ltac:(lia)).
      f_equal. destruct j' as [|j']; simpl; [done|].
      pose proof (FindPointer_walk_le _ _ _ _ _ Hj') as Hle.
      destruct (lookup_lt_is_Some_2 l j' ltac:(lia)) as [b Hb].
      by rewrite Hb.
    + injection Hw as <-. done.
Qed.

Theorem FindPointer_links_walk mem k h B l (j : nat) :
  hash_chain B (bucket_head B) l →
  FindPointer_walk mem k h l = Some j →
  FindPointer_links (length l) (mismatch_of mem k h) slot_head B =
  Some (slot_at l j).
Proof.
  intros Hc Hw.
  by rewrite (FindPointer_links_from mem k h B l slot_head j (length l)).
Qed.

(** * The hash table as a finite map

    What [HandleTable::Lookup], [Remove], [Insert] and [Resize] do to the
    mapping from (key, hash) to handles that a well-formed table stands
    for. *)

(** In a well-formed table a lookup returns, and what it returns is decided
    by the entries alone. *)
Lemma HT_Lookup_iff mem t k h :
  wf_table mem t →
  ∃ r, HT_Lookup mem t k h = Some r ∧
       ∀ a, r = Some a ↔ a ∈ entries t ∧ kh mem a = Some (k, h).
Proof.
  intros Hwf. destruct (HT_Lookup_spec mem t k h Hwf) as (r & Hr & Hspec).
  exists r. split; [done|]. intros a. destruct r as [a0|].
  - destruct Hspec as [Hin Hkh]. split.
    + intros [= <-]. done.
    + intros [Hin' Hkh']. f_equal.
      apply (wf_table_unique mem t a0 a Hwf Hin Hin'). congruence.
  - split; [done|]. intros [Hin Hkh]. by destruct (Hspec a Hin).
Qed.

(** Two well-formed tables with the same entries for a key and hash answer
    a lookup of them alike. *)
Lemma HT_Lookup_same mem t t' k h :
  wf_table mem t → wf_table mem t' →
  (∀ a, kh mem a = Some (k, h) → (a ∈ entries t ↔ a ∈ entries t')) →
  HT_Lookup mem t' k h = HT_Lookup mem t k h.
Proof.
  intros Hwf Hwf' Hsame.
  destruct (HT_Lookup_iff mem t k h Hwf) as (r & Hr & Hiff).
  destruct (HT_Lookup_iff mem t' k h Hwf') as (r' & Hr' & Hiff').
  rewrite Hr, Hr'. f_equal. destruct r' as [a'|].
  - destruct (proj1 (Hiff' a') eq_refl) as [Hin Hkh].
    symmetry. apply Hiff. split; [|done]. by apply Hsame.
  - destruct r as [a|]; [|done].
    destruct (proj1 (Hiff a) eq_refl) as [Hin Hkh].
    apply Hiff'. split; [|done]. by apply Hsame.
Qed.

(** X1.  On a well-formed table [HandleTable::Lookup] returns, and it returns
    handle [a] exactly when [a] is linked in the table and carries the key
    and the hash asked for; it returns the null pointer exactly when no
    linked entry carries them. *)
Theorem table_lookup_finds mem t k h :
  wf_table mem t →
  ∃ r, HT_Lookup mem t k h = Some r ∧
       (∀ a, r = Some a ↔ a ∈ entries t ∧ kh mem a = Some (k, h)) ∧
       (r = None ↔ ∀ a, a ∈ entries t → kh mem a ≠ Some (k, h)).
Proof.
  intros Hwf. destruct (HT_Lookup_iff mem t k h Hwf) as (r & Hr & Hiff).
  exists r. split; [done|]. split; [done|]. split.
  - intros -> a Hin Hkh. discriminate (proj2 (Hiff a) (conj Hin Hkh)).
  - intros Hno. destruct r as [a|]; [|done].
    destruct (proj1 (Hiff a) eq_refl) as [Hin Hkh]. by destruct (Hno a Hin).
Qed.

Lemma table_lookup_finds_witness :
  wf_table sample_mem sample_table ∧
  ∃ r, HT_Lookup sample_mem sample_table "a" 7 = Some r ∧
       (∀ a, r = Some a ↔
             a ∈ entries sample_table ∧ kh sample_mem a = Some ("a", 7)) ∧
       (r = None ↔
        ∀ a, a ∈ entries sample_table → kh sample_mem a ≠ Some ("a", 7)).
Proof.
  split; [apply wf_sample_table|].
  apply (table_lookup_finds sample_mem sample_table "a" 7 wf_sample_table).
Defined.

(** X2.  On a well-formed table [HandleTable::Remove] returns what a lookup
    of the key and hash returns.  The entry found is unlinked and the element
    count decremented; all other entries stay; the table remains well formed
    with the same number of buckets; a lookup of the key and hash misses
    afterwards, and lookups of every other key or hash are answered as
    before.  When nothing is found the table is returned as it was. *)
Theorem table_remove_spec mem t k h :
  wf_table mem t →
  ∃ t' r,
    HT_Remove mem t k h = Some (t', r) ∧
    HT_Lookup mem t k h = Some r ∧
    wf_table mem t' ∧
    (∀ a, a ∈ entries t' ↔ a ∈ entries t ∧ r ≠ Some a) ∧
    HT_Lookup mem t' k h = Some None ∧
    (∀ k' h', (k', h') ≠ (k, h) →
       HT_Lookup mem t' k' h' = HT_Lookup mem t k' h') ∧
    length_ t' = length_ t ∧
    elems_ t' = match r with Some _ => elems_ t - 1 | None => elems_ t end ∧
    (r = None → t' = t).
Proof.
  intros Hwf.
  destruct (HT_Remove_spec mem t k h Hwf) as (t' & r & Hrm & Hspec).
  destruct (HT_Lookup_iff mem t k h Hwf) as (r0 & Hl & Hiff).
  exists t', r. split; [done|].
  destruct r as [a|].
  - destruct Hspec as (Hkh & Hperm & Hwf' & Hlen & Hel).
    pose proof (wf_table_NoDup mem t Hwf) as Hnd.
    rewrite Hperm in Hnd. apply NoDup_cons in Hnd as [Ha Hnd].
    assert (a ∈ entries t) as Hain by (rewrite Hperm; left).
    assert (r0 = Some a) as -> by (apply Hiff; done).
    assert (∀ b, b ∈ entries t' ↔ b ∈ entries t ∧ Some a ≠ Some b) as Hent.
    { intros b. rewrite Hperm, elem_of_cons. split.
      - intros Hb. split; [by right|]. intros [= ->]. done.
      - intros [[->|Hb] Hne]; [done|done]. }
    split; [done|]. split; [done|]. split; [done|]. split.
    { destruct (HT_Lookup_iff mem t' k h Hwf') as (r' & Hl' & Hiff').
      rewrite Hl'. f_equal. destruct r' as [b|]; [|done].
      destruct (proj1 (Hiff' b) eq_refl) as [Hb Hkb].
      apply Hent in Hb as [Hb Hne].
      destruct Hne. f_equal.
      apply (wf_table_unique mem t a b Hwf Hain Hb). congruence. }
    split; [|done].
    intros k' h' Hne. apply HT_Lookup_same; [done..|].
    intros b Hkb. rewrite Hent. split; [|tauto].
    intros Hb. split; [done|]. intros [= ->]. congruence.
  - destruct Hspec as [-> Hno].
    assert (r0 = None) as ->.
    { destruct r0 as [b|]; [|done].
      destruct (proj1 (Hiff b) eq_refl) as [Hb Hkb]. by destruct (Hno b Hb). }
    split; [done|]. split; [done|]. split.
    { intros a. split; [intros ?; by split|tauto]. }
    done.
Qed.

Lemma table_remove_spec_witness :
  wf_table sample_mem sample_table ∧
  ∃ t' r,
    HT_Remove sample_mem sample_table "a" 7 = Some (t', r) ∧
    HT_Lookup sample_mem sample_table "a" 7 = Some r ∧
    wf_table sample_mem t' ∧
    (∀ a, a ∈ entries t' ↔ a ∈ entries sample_table ∧ r ≠ Some a) ∧
    HT_Lookup sample_mem t' "a" 7 = Some None ∧
    (∀ k' h', (k', h') ≠ ("a", 7) →
       HT_Lookup sample_mem t' k' h' = HT_Lookup sample_mem sample_table k' h') ∧
    length_ t' = length_ sample_table ∧
    elems_ t' = match r with
                | Some _ => elems_ sample_table - 1
                | None => elems_ sample_table
                end ∧
    (r = None → t' = sample_table).
Proof.
  split; [apply wf_sample_table|].
  apply (table_remove_spec sample_mem sample_table "a" 7 wf_sample_table).
Defined.

(** X3.  [HandleTable::Insert] changes the answer for the key and hash of the
    inserted handle only: on a well-formed table of fewer than 2^31 entries,
    a lookup of any other key or hash returns after the insert what it
    returned before, whether or not the insert resized the table. *)
Theorem table_insert_frame mem t e r t' old k' h' :
  wf_table mem t → mem !! e = Some r → e ∉ entries t → elems_ t < 2 ^ 31 →
  HT_Insert mem t e = Some (t', old) →
  (k', h') ≠ (key r, hash r) →
  HT_Lookup mem t' k' h' = HT_Lookup mem t k' h'.
Proof.
  intros Hwf He Hnew Hlt Hins Hne.
  destruct (HT_Insert_spec mem t e r Hwf He Hnew Hlt)
    as (t1 & old1 & Hins1 & Hwf1 & Hspec).
  rewrite Hins in Hins1. injection Hins1 as <- <-.
  assert (kh mem e = Some (key r, hash r)) as Hke.
  { unfold kh. by rewrite He. }
  apply HT_Lookup_same; [done..|].
  intros b Hkb. destruct old as [o|].
  - destruct Hspec as (Hko & _ & _ & rest & Hp & Hp').
    rewrite Hp, Hp', !elem_of_cons. split.
    + intros [->|Hb]; [congruence|by right].
    + intros [->|Hb]; [congruence|by right].
  - destruct Hspec as (_ & _ & Hp). rewrite Hp, elem_of_cons. split.
    + intros Hb. by right.
    + intros [->|Hb]; [congruence|done].
Qed.

Lemma table_insert_frame_witness :
  HT_Lookup sample_mem
    {| length_ := 4; elems_ := 1; list_ := [[]; []; []; [1%nat]] |} "b" 9 =
  HT_Lookup sample_mem sample_table "b" 9.
Proof.
  apply (table_insert_frame sample_mem sample_table 1%nat
           (new_handle "a" 7 101 1 0%nat true) _ (Some 0%nat) "b" 9).
  - apply wf_sample_table.
  - reflexivity.
  - vm_compute. intros H. repeat (apply elem_of_cons in H as [H|H];
      [discriminate|]). by apply elem_of_nil in H.
  - vm_compute. reflexivity.
  - vm_compute. reflexivity.
  - intros H. discriminate H.
Defined.

(** X4.  [HandleTable::Resize] keeps the entries and repairs the layout.
    Given a table whose linked entries are allocated, carry pairwise
    different (key, hash) and are counted by [elems_], at most 2^31 of them,
    it returns a well-formed table with the same entries and the same count;
    its length is the smallest power of two, not below 4, that is no less
    than the count; and every lookup finds exactly the entry of the old table
    that carries the key and hash asked for. *)
Theorem resize_keeps_entries mem t :
  (∀ a, a ∈ entries t → is_Some (mem !! a)) →
  NoDup (kh mem <$> entries t) →
  elems_ t = Z.of_nat (length (entries t)) → elems_ t <= 2 ^ 31 →
  ∃ t' n,
    Resize mem t = Some t' ∧ wf_table mem t' ∧
    entries t' ≡ₚ entries t ∧ elems_ t' = elems_ t ∧
    2 <= n <= 31 ∧ length_ t' = 2 ^ n ∧ elems_ t <= 2 ^ n ∧
    (n = 2 ∨ 2 ^ (n - 1) < elems_ t) ∧
    ∀ k h, ∃ r, HT_Lookup mem t' k h = Some r ∧
                ∀ a, r = Some a ↔ a ∈ entries t ∧ kh mem a = Some (k, h).
Proof.
  intros Halloc Hnd Hel Hle.
  destruct (Resize_spec mem t Halloc Hel Hle)
    as (t' & n & Hrs & Hn & Hlen & Hfit & Hmin & Hll & Hel' & Hperm & Hb).
  assert (wf_table mem t') as Hwf.
  { split.
    - rewrite Hlen, Hll. rewrite Z2Nat.id; [done|].
      pose proof (pow2_le_31 n ltac:(lia)). lia.
    - exists n. done.
    - rewrite Hel', Hel. by rewrite Hperm.
    - rewrite Hel', Hlen. done.
    - intros i chain a Hi Ha. destruct (Hb i chain a Hi Ha) as (e & He & Hbk).
      exists (key e), (hash e). split; [|by rewrite Hlen].
      unfold kh. by rewrite He.
    - by rewrite Hperm. }
  exists t', n. split; [done|]. split; [done|].
  do 6 (split; [done|]).
  intros k h. destruct (HT_Lookup_iff mem t' k h Hwf) as (r & Hr & Hiff).
  exists r. split; [done|]. intros a. rewrite Hiff. by rewrite Hperm.
Qed.

Lemma resize_keeps_entries_witness :
  ∃ t' n,
    Resize sample_mem sample_table = Some t' ∧ wf_table sample_mem t' ∧
    entries t' ≡ₚ entries sample_table ∧ elems_ t' = elems_ sample_table ∧
    2 <= n <= 31 ∧ length_ t' = 2 ^ n ∧ elems_ sample_table <= 2 ^ n ∧
    (n = 2 ∨ 2 ^ (n - 1) < elems_ sample_table) ∧
    ∀ k h, ∃ r, HT_Lookup sample_mem t' k h = Some r ∧
                ∀ a, r = Some a ↔
                     a ∈ entries sample_table ∧ kh sample_mem a = Some (k, h).
Proof.
  apply (resize_keeps_entries sample_mem sample_table).
  - intros a Ha. vm_compute in Ha. apply elem_of_cons in Ha as [->|Ha].
    + by eexists.
    + by apply elem_of_nil in Ha.
  - vm_compute. apply NoDup_singleton.
  - reflexivity.
  - vm_compute. discriminate.
Defined.

(** X5.  The doubling loop of [Resize] cannot reach a length above 2^31:
    [new_length] is a [uint32_t], and doubling 2^31 gives 0.  For an element
    count above 2^31 the loop condition [new_length < elems_] therefore holds
    in every round, however many rounds are run, and [Resize] does not
    return. *)
Theorem resize_never_returns mem t :
  2 ^ 31 < elems_ t →
  (∀ fuel, Resize_grow fuel 4 (elems_ t) = None) ∧ Resize mem t = None.
Proof.
  intros Hbig. split.
  - intros fuel. by apply Resize_grow_diverges.
  - unfold Resize. by rewrite (Resize_grow_diverges (elems_ t) 32 Hbig).
Qed.

Lemma resize_never_returns_witness :
  (∀ fuel, Resize_grow fuel 4 (2 ^ 31 + 1) = None) ∧
  Resize ∅ {| length_ := 2 ^ 31; elems_ := 2 ^ 31 + 1; list_ := [] |} = None.
Proof.
  apply (resize_never_returns ∅
           {| length_ := 2 ^ 31; elems_ := 2 ^ 31 + 1; list_ := [] |}).
  simpl. lia.
Defined.

(** * The two lists, the table and the reference counts *)

Lemma reachable_sample_a_erased :
  reachable 10 [EvErase "a" 7; EvInsert "a" 7 100 6 0%nat 0%nat]
    sample_a_erased [0%nat].
Proof.
  eapply reach_step; [apply reachable_sample_a|].
  apply step_erase; [apply uint32_7|vm_compute; reflexivity].
Qed.

Lemma reachable_sample_a_released :
  reachable 10 [EvRelease 0%nat; EvInsert "a" 7 100 6 0%nat 0%nat]
    sample_a_released [].
Proof.
  eapply reach_step; [apply reachable_sample_a|].
  apply (step_release sample_a [0%nat] 0%nat sample_a_released);
    [by left|vm_compute; reflexivity].
Qed.

(** X6.  In every state reached by a run in which the clients have never
    held more than 2^32 - 2 handles on one entry at a time, the LRU list
    holds exactly the cached entries with [refs == 1] and the in-use list
    exactly the cached entries with [refs >= 2], as the comments on [lru_]
    and [in_use_] say.  No entry is on both lists; no client holds a handle
    on an entry of the LRU list and some client holds one on every entry of
    the in-use list; the table links exactly the entries of the two lists,
    [elems_] counts them, and no two of them carry the same key and hash. *)
Theorem lists_partition_cached cap tr s held :
  run cap tr s held → refs_fit tr →
  (∀ a, a ∈ lru_ s ↔
        ∃ e, heap s !! a = Some e ∧ in_cache e = true ∧ refs e = 1) ∧
  (∀ a, a ∈ in_use_ s ↔
        ∃ e, heap s !! a = Some e ∧ in_cache e = true ∧ 2 <= refs e) ∧
  (∀ a, a ∈ lru_ s → (a ∉ in_use_ s) ∧ a ∉ held) ∧
  (∀ a, a ∈ in_use_ s → a ∈ held) ∧
  entries (table_ s) ≡ₚ lru_ s ++ in_use_ s ∧
  elems_ (table_ s) = Z.of_nat (length (lru_ s) + length (in_use_ s)) ∧
  (∀ a b, a ∈ entries (table_ s) → b ∈ entries (table_ s) →
          kh (heap s) a = kh (heap s) b → a = b).
Proof.
  intros Hrun Hfit.
  destruct (reachable_inv _ _ _ _ (run_fit_reachable _ _ _ _ Hrun Hfit))
    as [Hinv _].
  destruct (inv_cached_lists _ _ _ _ Hinv) as [Hnd Hiff].
  pose proof (inv_table _ _ _ _ Hinv) as Hwf.
  assert (entries (table_ s) ≡ₚ lru_ s ++ in_use_ s) as Hperm.
  { apply NoDup_Permutation; [by eapply wf_table_NoDup|done|].
    intros a. rewrite Hiff, <-(inv_entries _ _ _ _ Hinv a).
    split; [by left|]. by intros [?|?]. }
  split; [apply (inv_lru _ _ _ _ Hinv)|].
  split; [apply (inv_in_use _ _ _ _ Hinv)|].
  split.
  { intros a Ha. split; [by eapply inv_lru_not_in_use|].
    apply (inv_lru _ _ _ _ Hinv) in Ha as (e & He & Hic & Hone).
    destruct (inv_refs _ _ _ _ Hinv a e He) as [Hr _].
    rewrite Hic in Hr. apply holds_zero. lia. }
  split.
  { intros a Ha.
    apply (inv_in_use _ _ _ _ Hinv) in Ha as (e & He & Hic & Htwo).
    destruct (inv_refs _ _ _ _ Hinv a e He) as [Hr _].
    rewrite Hic in Hr. apply holds_pos. lia. }
  split; [done|]. split.
  { rewrite (wf_elems _ _ Hwf), Hperm, length_app. done. }
  intros a b. by apply wf_table_unique.
Qed.

Lemma lists_partition_cached_witness :
  run 10 [EvInsert "b" 9 200 1 0%nat 1%nat; EvRelease 0%nat;
          EvInsert "a" 7 100 6 0%nat 0%nat] sample_a_b_pinned [1%nat] ∧
  refs_fit [EvInsert "b" 9 200 1 0%nat 1%nat; EvRelease 0%nat;
            EvInsert "a" 7 100 6 0%nat 0%nat] ∧
  (∀ a, a ∈ lru_ sample_a_b_pinned ↔
        ∃ e, heap sample_a_b_pinned !! a = Some e ∧ in_cache e = true ∧
             refs e = 1) ∧
  (∀ a, a ∈ in_use_ sample_a_b_pinned ↔
        ∃ e, heap sample_a_b_pinned !! a = Some e ∧ in_cache e = true ∧
             2 <= refs e) ∧
  (∀ a, a ∈ lru_ sample_a_b_pinned →
        (a ∉ in_use_ sample_a_b_pinned) ∧ a ∉ [1%nat]) ∧
  (∀ a, a ∈ in_use_ sample_a_b_pinned → a ∈ [1%nat]) ∧
  entries (table_ sample_a_b_pinned) ≡ₚ
    lru_ sample_a_b_pinned ++ in_use_ sample_a_b_pinned ∧
  elems_ (table_ sample_a_b_pinned) =
    Z.of_nat (length (lru_ sample_a_b_pinned) +
              length (in_use_ sample_a_b_pinned)) ∧
  (∀ a b, a ∈ entries (table_ sample_a_b_pinned) →
          b ∈ entries (table_ sample_a_b_pinned) →
          kh (heap sample_a_b_pinned) a = kh (heap sample_a_b_pinned) b →
          a = b).
Proof.
  split; [exact (reachable_run _ _ _ _ reachable_sample_a_b_pinned)|].
  split; [exact (reachable_fit _ _ _ _ reachable_sample_a_b_pinned)|].
  apply (lists_partition_cached 10 _ _ _
           (reachable_run _ _ _ _ reachable_sample_a_b_pinned)
           (reachable_fit _ _ _ _ reachable_sample_a_b_pinned)).
Defined.

(** X7.  [Ref] increments the [uint32_t] count without a check, so the
    count is right only while it fits: in every state reached by a run in
    which the clients have never held more than 2^32 - 2 handles on one
    entry at a time, the reference count of an allocated record is the
    number of handles that clients hold on it, plus one when the entry is in
    the cache; it is at least 1 and below 2^32.  So a record that is neither
    cached nor held is not allocated: nothing leaks, and every handle a
    client holds points to an allocated record. *)
Theorem refs_count_handles cap tr s held :
  run cap tr s held → refs_fit tr →
  (∀ a e, heap s !! a = Some e →
     refs e = (if in_cache e then 1 else 0) + holds held a ∧
     1 <= refs e < 2 ^ 32 ∧
     (in_cache e = true ∨ a ∈ held)) ∧
  (∀ a, a ∈ held → is_Some (heap s !! a)).
Proof.
  intros Hrun Hfit.
  destruct (reachable_inv _ _ _ _ (run_fit_reachable _ _ _ _ Hrun Hfit))
    as [Hinv _].
  split; [|apply (inv_held _ _ _ _ Hinv)].
  intros a e He.
  destruct (inv_refs _ _ _ _ Hinv a e He) as [Hr H1].
  pose proof (inv_held_bound _ _ _ _ Hinv a) as Hb.
  split; [done|]. split.
  - split; [done|]. destruct (in_cache e); lia.
  - destruct (in_cache e); [by left|]. right. apply holds_pos. lia.
Qed.

Lemma refs_count_handles_witness :
  run 10 [EvErase "a" 7; EvInsert "a" 7 100 6 0%nat 0%nat]
    sample_a_erased [0%nat] ∧
  refs_fit [EvErase "a" 7; EvInsert "a" 7 100 6 0%nat 0%nat] ∧
  (∀ a e, heap sample_a_erased !! a = Some e →
     refs e = (if in_cache e then 1 else 0) + holds [0%nat] a ∧
     1 <= refs e < 2 ^ 32 ∧
     (in_cache e = true ∨ a ∈ [0%nat])) ∧
  (∀ a, a ∈ [0%nat] → is_Some (heap sample_a_erased !! a)).
Proof.
  split; [exact (reachable_run _ _ _ _ reachable_sample_a_erased)|].
  split; [exact (reachable_fit _ _ _ _ reachable_sample_a_erased)|].
  apply (refs_count_handles 10 _ _ _
           (reachable_run _ _ _ _ reachable_sample_a_erased)
           (reachable_fit _ _ _ _ reachable_sample_a_erased)).
Defined.

(** X8.  A handle stays valid until it is released, in a run in which the
    clients have never held more than 2^32 - 2 handles on one entry at a
    time.  Every handle a client holds was returned for an entry that some
    insert created, and as long as it is held, whatever has happened to the
    entry since (it may have been erased, displaced by an insert of the same
    key, or pruned), its record is allocated, [Value] returns the value
    given to that insert, the key, hash and charge are those given to it,
    and its deleter has not been called. *)
Theorem held_handle_valid cap tr s held a :
  run cap tr s held → refs_fit tr → a ∈ held →
  ∃ k h v c d e,
    EvInsert k h v c d a ∈ tr ∧
    heap s !! a = Some e ∧ Value a s = Some v ∧
    key e = k ∧ hash e = h ∧ value e = v ∧ charge e = c ∧ deleter e = d ∧
    calls_for a (deleted s) = [].
Proof.
  intros Hrun Hfit Ha.
  destruct (reachable_inv _ _ _ _ (run_fit_reachable _ _ _ _ Hrun Hfit))
    as [Hinv Hlog].
  destruct (inv_held _ _ _ _ Hinv a Ha) as [e He].
  assert (a < brk s)%nat as Hlt by (apply (inv_brk _ _ _ _ Hinv); by eexists).
  apply (log_created _ _ Hlog) in Hlt as (k & h & v & c & d & Hin).
  pose proof (log_entry _ _ Hlog k h v c d a Hin) as Hent.
  rewrite He in Hent. destruct Hent as (Hk & Hh & Hv & Hc & Hd & Hcalls).
  exists k, h, v, c, d, e. unfold Value. rewrite He. simpl.
  split; [done|]. split; [done|]. split; [by rewrite Hv|]. done.
Qed.

Lemma held_handle_valid_witness :
  run 10 [EvErase "a" 7; EvInsert "a" 7 100 6 0%nat 0%nat]
    sample_a_erased [0%nat] ∧
  refs_fit [EvErase "a" 7; EvInsert "a" 7 100 6 0%nat 0%nat] ∧
  0%nat ∈ [0%nat] ∧
  ∃ k h v c d e,
    EvInsert k h v c d 0%nat ∈
      [EvErase "a" 7; EvInsert "a" 7 100 6 0%nat 0%nat] ∧
    heap sample_a_erased !! 0%nat = Some e ∧
    Value 0%nat sample_a_erased = Some v ∧
    key e = k ∧ hash e = h ∧ value e = v ∧ charge e = c ∧ deleter e = d ∧
    calls_for 0%nat (deleted sample_a_erased) = [].
Proof.
  assert (0%nat ∈ [0%nat]) as Hin by left.
  split; [exact (reachable_run _ _ _ _ reachable_sample_a_erased)|].
  split; [exact (reachable_fit _ _ _ _ reachable_sample_a_erased)|].
  split; [exact Hin|].
  apply (held_handle_valid 10 _ sample_a_erased [0%nat] 0%nat
           (reachable_run _ _ _ _ reachable_sample_a_erased)
           (reachable_fit _ _ _ _ reachable_sample_a_erased) Hin).
Defined.

(** * Lookup *)

(** X9.  A lookup that hits pins the entry it returns, in a run in which
    the clients have never held, and with the handle the lookup returns
    still do not hold, more than 2^32 - 2 handles on one entry.  The entry
    is one in the cache with the key and hash asked for; its reference
    count goes up by one; if it was on the LRU list it leaves it, the other
    entries keeping their order, and becomes the newest entry of the in-use
    list, otherwise both lists are as before.  Nothing else changes: the
    other records, the table, the usage, the capacity and the deleter log
    are untouched. *)
Theorem lookup_hit_pins cap tr s held k h s' a :
  run cap tr s held →
  refs_fit (EvLookup k h (Some a) :: tr) →
  Lookup k h s = Some (s', Some a) →
  ∃ e, heap s !! a = Some e ∧ in_cache e = true ∧ key e = k ∧ hash e = h ∧
       heap s' !! a = Some (set_refs (refs e + 1) e) ∧
       (∀ b, b ≠ a → heap s' !! b = heap s !! b) ∧
       lru_ s' = filter (λ x, x ≠ a) (lru_ s) ∧
       in_use_ s' = (if refs e =? 1 then in_use_ s ++ [a] else in_use_ s) ∧
       a ∈ in_use_ s' ∧ (a ∉ lru_ s') ∧
       table_ s' = table_ s ∧ usage_ s' = usage_ s ∧
       capacity_ s' = capacity_ s ∧ deleted s' = deleted s ∧
       brk s' = brk s.
Proof.
  intros Hrun Hfit' Hl.
  pose proof (refs_fit_tail _ _ Hfit') as Hfit.
  destruct (reachable_inv _ _ _ _ (run_fit_reachable _ _ _ _ Hrun Hfit))
    as [Hinv _].
  assert (holds held a < 2 ^ 32 - 2) as Hb.
  { pose proof (refs_fit_here _ a Hfit') as Hle.
    change (handles (EvLookup k h (Some a) :: tr)) with (a :: handles tr)
      in Hle.
    rewrite holds_cons_eq, <-(run_handles _ _ _ _ Hrun) in Hle. lia. }
  destruct (Lookup_hit_inv _ _ _ _ _ _ _ Hinv Hl Hb)
    as (Hinv' & _ & Htab & Hfr & e & He & Hic & Hk & Hh & He').
  exists e. split; [exact He|]. split; [exact Hic|]. split; [exact Hk|].
  split; [exact Hh|]. split; [exact He'|]. split; [exact Hfr|].
  assert (a ∈ in_use_ s') as Hin'.
  { apply (inv_in_use _ _ _ _ Hinv'). eexists. split; [done|].
    destruct (inv_refs _ _ _ _ Hinv a e He) as [_ H1]. simpl.
    split; [done|lia]. }
  assert (a ∉ lru_ s') as Hnl'.
  { intros Hx. by apply (inv_lru_not_in_use _ _ _ _ _ Hinv' Hx). }
  unfold Lookup in Hl.
  destruct (HT_Lookup (heap s) (table_ s) k h) as [[a0|]|]; simpl in Hl;
    [|done|done].
  destruct (Ref a0 s) as [s1|] eqn:Href; simpl in Hl; [|done].
  injection Hl as <- <-. unfold Ref in Href. rewrite He in Href.
  simpl in Href. rewrite Hic, andb_true_r in Href.
  injection Href as <-.
  destruct (refs e =? 1) eqn:Hone; simpl.
  - apply Z.eqb_eq in Hone.
    assert (a0 ∈ lru_ s) as Hal.
    { apply (inv_lru _ _ _ _ Hinv). by exists e. }
    pose proof (inv_lru_not_in_use _ _ _ _ _ Hinv Hal) as Hnu.
    rewrite (filter_ne_id _ _ Hnu).
    split; [done|]. split; [done|]. split.
    { apply elem_of_app. right. by left. }
    split; [|done]. intros [Hx _]%list_elem_of_filter. done.
  - apply Z.eqb_neq in Hone.
    assert (a0 ∈ in_use_ s) as Hau.
    { apply (inv_in_use _ _ _ _ Hinv). exists e.
      destruct (inv_refs _ _ _ _ Hinv a0 e He) as [_ H1].
      split; [done|]. split; [done|lia]. }
    assert (a0 ∉ lru_ s) as Hnl.
    { intros Hx. by apply (inv_lru_not_in_use _ _ _ _ _ Hinv Hx). }
    rewrite (filter_ne_id _ _ Hnl). done.
Qed.

Lemma lookup_hit_pins_witness :
  run 10 [EvRelease 0%nat; EvInsert "a" 7 100 6 0%nat 0%nat]
    sample_a_released [] ∧
  refs_fit [EvLookup "a" 7 (Some 0%nat); EvRelease 0%nat;
            EvInsert "a" 7 100 6 0%nat 0%nat] ∧
  Lookup "a" 7 sample_a_released =
    Some (after (Lookup "a" 7 sample_a_released), Some 0%nat) ∧
  ∃ e, heap sample_a_released !! 0%nat = Some e ∧ in_cache e = true ∧
       key e = "a" ∧ hash e = 7 ∧
       heap (after (Lookup "a" 7 sample_a_released)) !! 0%nat =
         Some (set_refs (refs e + 1) e) ∧
       (∀ b, b ≠ 0%nat →
          heap (after (Lookup "a" 7 sample_a_released)) !! b =
          heap sample_a_released !! b) ∧
       lru_ (after (Lookup "a" 7 sample_a_released)) =
         filter (λ x, x ≠ 0%nat) (lru_ sample_a_released) ∧
       in_use_ (after (Lookup "a" 7 sample_a_released)) =
         (if refs e =? 1 then in_use_ sample_a_released ++ [0%nat]
          else in_use_ sample_a_released) ∧
       0%nat ∈ in_use_ (after (Lookup "a" 7 sample_a_released)) ∧
       (0%nat ∉ lru_ (after (Lookup "a" 7 sample_a_released))) ∧
       table_ (after (Lookup "a" 7 sample_a_released)) =
         table_ sample_a_released ∧
       usage_ (after (Lookup "a" 7 sample_a_released)) =
         usage_ sample_a_released ∧
       capacity_ (after (Lookup "a" 7 sample_a_released)) =
         capacity_ sample_a_released ∧
       deleted (after (Lookup "a" 7 sample_a_released)) =
         deleted sample_a_released ∧
       brk (after (Lookup "a" 7 sample_a_released)) = brk sample_a_released.
Proof.
  assert (holds [] 0%nat < 2 ^ 32 - 2) as Hb by (by vm_compute).
  assert (Lookup "a" 7 sample_a_released =
          Some (after (Lookup "a" 7 sample_a_released), Some 0%nat)) as Hl
    by (vm_compute; reflexivity).
  assert (refs_fit [EvLookup "a" 7 (Some 0%nat); EvRelease 0%nat;
                    EvInsert "a" 7 100 6 0%nat 0%nat]) as Hfit.
  { apply (reachable_fit 10 _ (after (Lookup "a" 7 sample_a_released))
             [0%nat]).
    eapply reach_step; [apply reachable_sample_a_released|].
    apply step_lookup_hit; [apply uint32_7|exact Hb|exact Hl]. }
  split; [exact (reachable_run _ _ _ _ reachable_sample_a_released)|].
  split; [exact Hfit|]. split; [exact Hl|].
  apply (lookup_hit_pins 10 _ sample_a_released [] "a" 7 _ 0%nat
           (reachable_run _ _ _ _ reachable_sample_a_released) Hfit Hl).
Defined.

(** * Insert: displacement and eviction in LRU order *)

Lemma inv_usage_range p cap s held : inv p cap s held → is_size_t (usage_ s).
Proof. intros Hinv. rewrite (inv_usage _ _ _ _ Hinv). apply wrap64_range. Qed.

Lemma charge_of_lookup mem a e : mem !! a = Some e → charge_of mem a = charge e.
Proof. intros He. unfold charge_of. by rewrite He. Qed.

(** The eviction loop of [Insert], one entry at a time: what it evicts is an
    initial segment of the LRU list, each eviction was called for, and the
    usage and the log record every one of them. *)
Lemma Insert_evict_order cap held fuel : ∀ s,
  inv None cap s held → (length (lru_ s) <= fuel)%nat →
  ∃ s' evicted,
    Insert_evict fuel s = Some s' ∧
    lru_ s = evicted ++ lru_ s' ∧
    deleted s' = deleted s ++ calls_of (heap s) evicted ∧
    (∀ b, b ∈ evicted → heap s' !! b = None) ∧
    usage_ s' = wrap64 (usage_ s - total_charge (heap s) evicted) ∧
    (∀ p x q, evicted = p ++ x :: q →
       capacity_ s < wrap64 (usage_ s - total_charge (heap s) p)).
Proof.
  induction fuel as [|fuel IH]; intros s Hinv Hlen.
  - destruct (lru_ s) as [|old rest] eqn:Hlru; [|simpl in Hlen; lia].
    exists s, []. simpl. rewrite Hlru.
    split; [by destruct (capacity_ s <? usage_ s)|].
    split; [done|]. split; [by rewrite app_nil_r|].
    split; [by intros b ?%elem_of_nil|]. split.
    + rewrite Z.sub_0_r. symmetry. apply wrap64_small.
      apply (inv_usage_range _ _ _ _ Hinv).
    + intros p x q Hp. by destruct p.
  - simpl. destruct (capacity_ s <? usage_ s) eqn:Hover.
    2:{ exists s, []. split; [done|]. split; [done|].
        split; [by rewrite app_nil_r|].
        split; [by intros b ?%elem_of_nil|]. split.
        + simpl. rewrite Z.sub_0_r. symmetry. apply wrap64_small.
          apply (inv_usage_range _ _ _ _ Hinv).
        + intros p x q Hp. by destruct p. }
    apply Z.ltb_lt in Hover.
    destruct (lru_ s) as [|old rest] eqn:Hlru.
    + exists s, []. split; [done|]. split; [done|].
      split; [by rewrite app_nil_r|].
      split; [by intros b ?%elem_of_nil|]. split.
      * simpl. rewrite Z.sub_0_r. symmetry. apply wrap64_small.
        apply (inv_usage_range _ _ _ _ Hinv).
      * intros p x q Hp. by destruct p.
    + destruct (evict_oldest_inv _ _ _ _ _ Hinv Hlru)
        as (e & t & He & Hic & Hone & Hrm & Hperm & Hev & Hinv1).
      rewrite Hev. simpl.
      pose proof (inv_nodup_lru _ _ _ _ Hinv) as Hnd.
      assert (old ∉ in_use_ s) as Hnu.
      { eapply inv_lru_not_in_use; [done|]. rewrite Hlru. by left. }
      destruct (erased_state_evicted (set_table t s) old e rest Hone Hlru
                  Hnd Hnu) as (Hl1 & Hu1 & Hh1 & Hd1).
      simpl in Hu1, Hh1, Hd1.
      pose proof (erased_state_usage (set_table t s) old e) as Hus1.
      pose proof (erased_state_capacity (set_table t s) old e) as Hcap1.
      simpl in Hus1, Hcap1.
      destruct (IH _ Hinv1) as (s' & ev & Hloop & Hl' & Hdel & Hgone & Hus
                                & Hmin).
      { rewrite Hl1. simpl in Hlen. lia. }
      rewrite Hl1 in Hl'.
      rewrite Hlru in Hnd. apply NoDup_cons in Hnd as [Hnr Hndr].
      assert (∀ l, (∀ b, b ∈ l → b ∈ rest) →
                total_charge (delete old (heap s)) l = total_charge (heap s) l)
        as Htc.
      { intros l Hsub. apply total_charge_ext. intros b Hb.
        unfold charge_of. rewrite lookup_delete_ne; [done|].
        intros ->. apply Hnr. by apply Hsub. }
      exists s', (old :: ev). split; [done|].
      split; [by rewrite Hl'|]. split.
      { rewrite Hdel, Hd1, Hh1, <-app_assoc. f_equal.
        rewrite (calls_of_cons _ _ _ _ He). simpl. f_equal.
        apply calls_of_ext. intros b Hb. rewrite lookup_delete_ne; [done|].
        intros ->. apply Hnr. rewrite Hl'. apply elem_of_app. by left. }
      split.
      { intros b [->|Hb]%elem_of_cons; [|by apply Hgone].
        destruct (decide (old ∈ ev)) as [Hin|Hout]; [by apply Hgone|].
        assert (heap s' !! old = heap (erased_state old e (set_table t s))
                                   !! old) as ->.
        { destruct (Insert_evict_inv cap held fuel _ Hinv1)
            as (s2 & ev2 & Hloop2 & _ & Hl2 & _ & _ & _ & Hfr2).
          { rewrite Hl1. simpl in Hlen. lia. }
          rewrite Hloop in Hloop2. injection Hloop2 as <-.
          rewrite Hl1, Hl' in Hl2. apply app_inv_tail in Hl2 as <-.
          by apply Hfr2. }
        rewrite Hh1. by rewrite lookup_delete_eq. }
      split.
      { rewrite Hus, Hus1, Hh1, wrap64_sub_l. simpl.
        rewrite (charge_of_lookup _ _ _ He).
        rewrite Htc.
        - f_equal. lia.
        - intros b Hb. rewrite Hl'. apply elem_of_app. by left. }
      intros p x q Hp. destruct p as [|y p]; simpl in Hp.
      * simpl. rewrite Z.sub_0_r.
        rewrite wrap64_small by apply (inv_usage_range _ _ _ _ Hinv). done.
      * injection Hp as <- Hp.
        pose proof (Hmin p x q Hp) as Hm.
        rewrite Hcap1, Hus1, Hh1, wrap64_sub_l in Hm. simpl.
        rewrite (charge_of_lookup _ _ _ He).
        rewrite Htc in Hm.
        -- replace (usage_ s - (charge e + total_charge (heap s) p))
             with (usage_ s - charge e - total_charge (heap s) p) by lia.
           done.
        -- intros b Hb. rewrite Hl', Hp. apply elem_of_app. left.
           apply elem_of_app. by left.
Qed.

Lemma filter_ext_in {A} (P Q : A → Prop) `{!∀ x, Decision (P x)}
    `{!∀ x, Decision (Q x)} (l : list A) :
  (∀ x, x ∈ l → (P x ↔ Q x)) → filter P l = filter Q l.
Proof.
  induction l as [|a l IH]; intros Hpq; [done|].
  assert (filter P l = filter Q l) as Hl.
  { apply IH. intros x Hx. apply Hpq. by right. }
  pose proof (Hpq a ltac:(left)) as Ha.
  destruct (decide (P a)) as [Hp|Hp].
  - rewrite !filter_cons_True by tauto. by rewrite Hl.
  - rewrite !filter_cons_False by tauto. done.
Qed.

Lemma filter_all {A} (P : A → Prop) `{!∀ x, Decision (P x)} (l : list A) :
  (∀ x, x ∈ l → P x) → filter P l = l.
Proof.
  induction l as [|a l IH]; intros Hp; [done|].
  rewrite filter_cons_True by (apply Hp; left).
  rewrite IH; [done|]. intros x Hx. apply Hp. by right.
Qed.

Lemma filter_none {A} (P : A → Prop) `{!∀ x, Decision (P x)} (l : list A) :
  (∀ x, x ∈ l → ¬ P x) → filter P l = [].
Proof.
  induction l as [|a l IH]; intros Hp; [done|].
  rewrite filter_cons_False by (apply Hp; left).
  apply IH. intros x Hx. apply Hp. by right.
Qed.

Lemma filter_eq_NoDup (l : list addr) o :
  NoDup l → filter (λ x, x = o) l = if decide (o ∈ l) then [o] else [].
Proof.
  induction l as [|a l IH]; intros Hnd.
  - rewrite decide_False; [done|]. by intros ?%elem_of_nil.
  - apply NoDup_cons in Hnd as [Ha Hnd].
    destruct (decide (a = o)) as [->|Hne].
    + rewrite filter_cons_True by done.
      rewrite (IH Hnd), decide_False by done.
      rewrite decide_True; [done|by left].
    + rewrite filter_cons_False by done. rewrite (IH Hnd).
      destruct (decide (o ∈ l)) as [Hin|Hout].
      * rewrite decide_True; [done|by right].
      * rewrite decide_False; [done|].
        intros [->|?]%elem_of_cons; done.
Qed.

(** The table links exactly the entries of the two lists. *)
Lemma inv_table_lists cap s held :
  inv None cap s held → entries (table_ s) ≡ₚ lru_ s ++ in_use_ s.
Proof.
  intros Hinv. destruct (inv_cached_lists _ _ _ _ Hinv) as [Hnd Hiff].
  apply NoDup_Permutation.
  - eapply wf_table_NoDup, (inv_table _ _ _ _ Hinv).
  - done.
  - intros a. rewrite Hiff, <-(inv_entries _ _ _ _ Hinv a).
    split; [by left|]. by intros [?|?].
Qed.

Lemma erased_state_deleted s a e :
  deleted (erased_state a e s) =
  deleted s ++ (if refs e =? 1 then [call_of a e] else []).
Proof.
  unfold erased_state. destruct (refs e =? 1); simpl; [done|].
  by rewrite app_nil_r.
Qed.

(** [Insert] up to its eviction loop, in a shard that caches: the new entry
    is linked, and the cached entry with the same key and hash, if there is
    one, has been taken out. *)
Lemma Insert_linked cap s held k h v c d :
  inv None cap s held → is_uint32 h → is_size_t c →
  elems_ (table_ s) < 2 ^ 31 → 0 < cap →
  ∃ s1 t old,
    HT_Insert (heap (added k h v c d true s)) (table_ s) (brk s) =
      Some (t, old) ∧
    FinishErase old (set_table t (added k h v c d true s)) =
      Some (s1, bool_decide (old ≠ None)) ∧
    inv None cap s1 (brk s :: held) ∧
    lru_ s1 = filter (λ x, kh (heap s) x ≠ Some (k, h)) (lru_ s) ∧
    in_use_ s1 =
      filter (λ x, kh (heap s) x ≠ Some (k, h)) (in_use_ s) ++ [brk s] ∧
    deleted s1 =
      deleted s ++
      calls_of (heap s) (filter (λ x, kh (heap s) x = Some (k, h)) (lru_ s)) ∧
    usage_ s1 =
      wrap64 (usage_ s + c -
              total_charge (heap s)
                (filter (λ x, kh (heap s) x = Some (k, h))
                        (lru_ s ++ in_use_ s))) ∧
    capacity_ s1 = capacity_ s ∧
    (∀ b, b ≠ brk s →
       (b ∈ lru_ s ++ in_use_ s → kh (heap s) b ≠ Some (k, h)) →
       heap s1 !! b = heap s !! b) ∧
    heap s1 !! brk s = Some (new_handle k h v c d true).
Proof.
  intros Hinv Hh Hc Hlt Hcap.
  pose proof (inv_added cap s held k h v c d true Hinv Hh Hc
                ltac:(done)) as Hinv1. simpl in Hinv1.
  destruct (inv_fresh _ _ _ _ Hinv) as (Hfresh & Hnh & Hnt & Hnl & Hnu & _).
  pose proof (inv_table_lists _ _ _ Hinv) as Hperm.
  destruct (inv_cached_lists _ _ _ _ Hinv) as [Hndl _].
  pose proof (inv_nodup_lru _ _ _ _ Hinv) as Hndlru.
  assert (heap (added k h v c d true s) !! brk s =
          Some (new_handle k h v c d true)) as Hr.
  { simpl. apply lookup_insert_eq. }
  assert (∀ b, b ≠ brk s →
            heap (added k h v c d true s) !! b = heap s !! b) as Hfr.
  { intros b Hb. simpl. by rewrite lookup_insert_ne. }
  assert (∀ b, b ≠ brk s →
            kh (heap (added k h v c d true s)) b = kh (heap s) b) as Hkh.
  { intros b Hb. unfold kh. by rewrite Hfr. }
  assert (kh (heap (added k h v c d true s)) (brk s) = Some (k, h)) as Hkn.
  { unfold kh. by rewrite Hr. }
  assert (table_ (added k h v c d true s) = table_ s) as Htab by done.
  destruct (HT_Insert_spec (heap (added k h v c d true s))
              (table_ (added k h v c d true s)) (brk s) _
              (inv_table _ _ _ _ Hinv1) Hr
              (inv_pending _ _ _ _ Hinv1 _ eq_refl)
              ltac:(by rewrite Htab))
    as (t & old & Heq & _ & Hspec).
  destruct (inv_link _ _ _ _ _ _ Hinv1 ltac:(by rewrite Htab) Heq)
    as (Hinv2 & Hent & Hold).
  rewrite Htab in Heq, Hspec.
  assert (∀ b, b ∈ lru_ s ++ in_use_ s → b ≠ brk s) as Hnb.
  { intros b [Hb|Hb]%elem_of_app ->; done. }
  destruct old as [o|].
  - destruct Hold as [Hoe Hko].
    destruct Hspec as (_ & _ & _ & rest & Hp & _).
    assert (o ∈ entries (table_ s)) as Hoin by (rewrite Hp; left).
    assert (kh (heap s) o = Some (k, h)) as Hks.
    { rewrite <-Hkh by done. congruence. }
    destruct (proj1 (inv_entries _ _ _ _ Hinv2 o) (or_intror eq_refl))
      as (eo & Heo & Hico). simpl in Heo.
    destruct (inv_refs _ _ _ _ Hinv1 o eo Heo) as [Hro Hro1].
    pose proof (inv_held_bound _ _ _ _ Hinv1 o) as Hhb.
    assert (heap s !! o = Some eo) as Heo'.
    { rewrite <-Hfr by done. done. }
    assert (∀ x, x ∈ lru_ s ++ in_use_ s →
              (kh (heap s) x = Some (k, h) ↔ x = o)) as Huniq.
    { intros x Hx. split; [|by intros ->].
      intros Hkx. apply (wf_table_unique (heap s) (table_ s)).
      - apply (inv_table _ _ _ _ Hinv).
      - by rewrite Hperm.
      - done.
      - congruence. }
    assert (o ∈ lru_ s ++ in_use_ s) as Hol by (by rewrite <-Hperm).
    assert (filter (λ x, kh (heap s) x = Some (k, h)) (lru_ s ++ in_use_ s)
            = [o]) as Hsame.
    { rewrite (filter_ext_in _ (λ x, x = o)) by done.
      rewrite filter_eq_NoDup by done. by rewrite decide_True. }
    exists (erased_state o eo (set_table t (added k h v c d true s))), t,
           (Some o).
    split; [done|]. split.
    { rewrite (FinishErase_eq _ o eo) by (try done; rewrite Hico in Hro; lia).
      done. }
    split; [by apply inv_erased|]. split.
    { rewrite erased_state_lru. simpl. apply filter_ext_in. intros x Hx.
      pose proof (Huniq x ltac:(apply elem_of_app; by left)). tauto. }
    split.
    { rewrite erased_state_in_use. simpl. rewrite filter_app.
      rewrite (filter_cons_True _ (brk s)) by done. rewrite filter_nil.
      f_equal. apply filter_ext_in. intros x Hx.
      pose proof (Huniq x ltac:(apply elem_of_app; by right)). tauto. }
    split.
    { rewrite erased_state_deleted. simpl. f_equal.
      rewrite (filter_ext_in _ (λ x, x = o)).
      2:{ intros x Hx. apply Huniq. apply elem_of_app. by left. }
      rewrite filter_eq_NoDup by done.
      destruct (decide (o ∈ lru_ s)) as [Hin|Hout].
      - apply (inv_lru _ _ _ _ Hinv) in Hin as (e' & He' & _ & Hone).
        rewrite Heo' in He'. injection He' as <-.
        rewrite Hone, (calls_of_cons _ _ _ _ Heo'). done.
      - assert ((refs eo =? 1) = false) as ->; [|done].
        apply Z.eqb_neq. intros Hone. apply Hout.
        apply (inv_lru _ _ _ _ Hinv). by exists eo. }
    split.
    { rewrite erased_state_usage. simpl. rewrite Hsame.
      unfold total_charge. simpl. rewrite (charge_of_lookup _ _ _ Heo').
      rewrite wrap64_sub_l. f_equal. lia. }
    split; [by rewrite erased_state_capacity|]. split.
    { intros b Hb Hdiff. rewrite erased_state_frame; [by apply Hfr|].
      intros ->. by apply Hdiff. }
    rewrite erased_state_frame by done. done.
  - destruct Hspec as (Hno & _).
    assert (∀ x, x ∈ lru_ s ++ in_use_ s → kh (heap s) x ≠ Some (k, h))
      as Hdiff.
    { intros x Hx. rewrite <-Hkh by (by apply Hnb). rewrite <-Hkn.
      apply Hno. by rewrite Hperm. }
    exists (set_table t (added k h v c d true s)), t, None.
    split; [done|]. split; [done|]. split; [done|]. split.
    { simpl. symmetry. apply filter_all. intros x Hx. apply Hdiff.
      apply elem_of_app. by left. }
    split.
    { simpl. f_equal. symmetry. apply filter_all. intros x Hx. apply Hdiff.
      apply elem_of_app. by right. }
    split.
    { simpl. rewrite filter_none; [by rewrite app_nil_r|].
      intros x Hx. apply Hdiff. apply elem_of_app. by left. }
    split.
    { simpl. rewrite filter_none by (intros x Hx Hk; by apply (Hdiff x)).
      simpl. f_equal. lia. }
    split; [done|]. split; [|done].
    intros b Hb _. by apply Hfr.
Qed.

(** The whole of [Insert] in a shard that caches. *)
Lemma Insert_effect cap s held k h v c d :
  inv None cap s held → is_uint32 h → is_size_t c →
  elems_ (table_ s) < 2 ^ 31 → 0 < cap →
  ∃ s' evicted,
    Insert k h v c d s = Some (s', brk s) ∧
    inv None cap s' (brk s :: held) ∧
    filter (λ x, kh (heap s) x ≠ Some (k, h)) (lru_ s) = evicted ++ lru_ s' ∧
    in_use_ s' =
      filter (λ x, kh (heap s) x ≠ Some (k, h)) (in_use_ s) ++ [brk s] ∧
    deleted s' =
      deleted s ++
      calls_of (heap s) (filter (λ x, kh (heap s) x = Some (k, h)) (lru_ s)) ++
      calls_of (heap s) evicted ∧
    (∀ b, b ∈ evicted → heap s' !! b = None) ∧
    (∀ b, b ≠ brk s → b ∉ evicted →
       (b ∈ lru_ s ++ in_use_ s → kh (heap s) b ≠ Some (k, h)) →
       heap s' !! b = heap s !! b) ∧
    heap s' !! brk s = Some (new_handle k h v c d true) ∧
    usage_ s' =
      wrap64 (usage_ s + c -
              total_charge (heap s)
                (filter (λ x, kh (heap s) x = Some (k, h))
                        (lru_ s ++ in_use_ s)) -
              total_charge (heap s) evicted) ∧
    (∀ p x q, evicted = p ++ x :: q →
       cap < wrap64 (usage_ s' + total_charge (heap s) (x :: q))) ∧
    (usage_ s' <= cap ∨ lru_ s' = []).
Proof.
  intros Hinv Hh Hc Hlt Hcap.
  destruct (inv_cap _ _ _ _ Hinv) as [Hcapeq _].
  destruct (inv_fresh _ _ _ _ Hinv) as (_ & _ & _ & Hnl & _ & _).
  destruct (Insert_linked cap s held k h v c d Hinv Hh Hc Hlt Hcap)
    as (s1 & t & old & Hins & Hfin & Hinv1 & Hl1 & Hu1 & Hd1 & Hus1 & Hc1
        & Hfr1 & Hn1).
  assert (length (lru_ s1) <= length (concat (list_ (table_ s1))))%nat
    as Hfuel.
  { pose proof (inv_lru_length _ _ _ _ Hinv1). unfold entries in *. lia. }
  destruct (Insert_evict_order cap (brk s :: held) _ s1 Hinv1 Hfuel)
    as (s' & ev & Hloop & Hl & Hdel & Hgone & Hus & Hmin).
  destruct (Insert_evict_inv cap (brk s :: held) _ s1 Hinv1 Hfuel)
    as (s2 & ev2 & Hloop2 & Hinv' & Hl2 & Hu' & Hfit & _ & Hfr').
  rewrite Hloop in Hloop2. injection Hloop2 as <-.
  rewrite Hl in Hl2. apply app_inv_tail in Hl2 as <-.
  assert (Insert k h v c d s = Some (s', brk s)) as HI.
  { rewrite Insert_unfold, Hcapeq.
    assert ((0 <? cap) = true) as -> by (by apply Z.ltb_lt).
    rewrite Hins. simpl. rewrite Hfin. simpl. by rewrite Hloop. }
  assert (∀ b, b ∈ ev →
            b ∈ lru_ s ∧ kh (heap s) b ≠ Some (k, h) ∧ b ≠ brk s) as Hev.
  { intros b Hb.
    assert (b ∈ lru_ s1) as Hb1 by (rewrite Hl; apply elem_of_app; by left).
    rewrite Hl1 in Hb1. apply list_elem_of_filter in Hb1 as [Hd Hin].
    split; [done|]. split; [done|]. by intros ->. }
  assert (∀ b, b ∈ ev → heap s1 !! b = heap s !! b) as Hsame.
  { intros b Hb. destruct (Hev b Hb) as (Hin & Hd & Hne).
    by apply Hfr1. }
  assert (∀ l, (∀ b, b ∈ l → b ∈ ev) →
            total_charge (heap s1) l = total_charge (heap s) l) as Htc.
  { intros l Hsub. apply total_charge_ext. intros b Hb.
    unfold charge_of. rewrite Hsame; [done|]. by apply Hsub. }
  exists s', ev. split; [done|]. split; [done|].
  split; [by rewrite <-Hl1|]. split; [by rewrite Hu', Hu1|]. split.
  { rewrite Hdel, Hd1, <-app_assoc. do 2 f_equal.
    by apply calls_of_ext. }
  split; [done|]. split.
  { intros b Hb Hnev Hd. rewrite Hfr' by done. by apply Hfr1. }
  split.
  { rewrite Hfr'; [done|]. intros Hin. by destruct (Hev _ Hin) as (_ & _ & ?). }
  split.
  { rewrite Hus, Hus1, wrap64_sub_l, Htc by done. done. }
  split; [|by rewrite (proj1 (inv_cap _ _ _ _ Hinv')) in Hfit].
  intros p x q Hp.
  pose proof (Hmin p x q Hp) as Hm. rewrite Hc1, Hcapeq in Hm.
  rewrite Htc in Hm.
  2:{ intros b Hb. rewrite Hp. apply elem_of_app. by left. }
  rewrite Hus. rewrite (Htc ev) by done.
  rewrite wrap64_add_l. rewrite Hp at 1. rewrite total_charge_app.
  replace (usage_ s1 -
           (total_charge (heap s) p + total_charge (heap s) (x :: q)) +
           total_charge (heap s) (x :: q))
    with (usage_ s1 - total_charge (heap s) p) by lia.
  done.
Qed.



(** * Pinned entries stay *)

Lemma resident_pinned cap s held b k h v :
  inv None cap s held → resident s b k h v → b ∈ held →
  0 < cap ∧ b ∈ in_use_ s ∧ (b ∉ lru_ s) ∧ kh (heap s) b = Some (k, h).
Proof.
  intros Hinv (r & Hr & Hic & Hk & Hh & Hv) Hb.
  destruct (inv_cap _ _ _ _ Hinv) as [_ [Hc0 _]].
  assert (0 < cap) as Hcap.
  { destruct (decide (cap = 0)) as [->|]; [|lia].
    rewrite (inv_disabled _ _ _ _ Hinv eq_refl b r Hr) in Hic. done. }
  assert (b ∈ in_use_ s) as Hin.
  { apply (inv_in_use _ _ _ _ Hinv). exists r.
    destruct (inv_refs _ _ _ _ Hinv b r Hr) as [Hrf _]. rewrite Hic in Hrf.
    apply holds_pos in Hb. split; [done|]. split; [done|lia]. }
  split; [done|]. split; [done|]. split.
  - intros Hl. by apply (inv_lru_not_in_use _ _ _ _ _ Hinv Hl).
  - unfold kh. rewrite Hr. simpl. by rewrite Hk, Hh.
Qed.

(** One call that is calm for a pinned entry leaves it in the cache and
    leaves the client its handle. *)
Lemma step_calm_pinned cap s held ev s' held' b k h v :
  inv None cap s held → step s held ev s' held' → calm k h b ev →
  b ∈ held → resident s b k h v →
  resident s' b k h v ∧ b ∈ held'.
Proof.
  intros Hinv Hstep Hcalm Hb Hres.
  destruct (resident_pinned _ _ _ _ _ _ _ Hinv Hres Hb)
    as (Hcap & Hin & Hnl & Hkh).
  destruct Hstep as [s held k' h' v' c d s' e Hh Hc Hlt HI
                    |s held k' h' s' e Hh Hbd Hl
                    |s held k' h' s' Hh Hl
                    |s held a s' Ha Hr
                    |s held k' h' s' Hh He
                    |s held s' Hp]; simpl in Hcalm.
  - split; [|by right].
    destruct (Insert_effect cap s held k' h' v' c d Hinv Hh Hc Hlt Hcap)
      as (s2 & evd & HI2 & _ & Hl2 & _ & _ & _ & Hfr & _).
    rewrite HI in HI2. injection HI2 as <- ->.
    destruct Hres as (r & Hr & Hrest). exists r. split; [|done].
    rewrite Hfr; [done| | |].
    + intros ->. destruct (inv_fresh _ _ _ _ Hinv) as (Hf & _).
      rewrite Hf in Hr. done.
    + intros Hbe.
      assert (b ∈ filter (λ x, kh (heap s) x ≠ Some (k', h')) (lru_ s))
        as Hx by (rewrite Hl2; apply elem_of_app; by left).
      apply list_elem_of_filter in Hx as [_ Hx]. done.
    + intros _. rewrite Hkh. congruence.
  - split; [|by right].
    apply (step_quiet_resident cap s held (EvLookup k' h' (Some e)) s'
             (e :: held) b k h v Hinv); [by apply step_lookup_hit|done|done].
  - split; [|done].
    apply (step_quiet_resident cap s held (EvLookup k' h' None) s'
             held b k h v Hinv); [by apply step_lookup_miss|done|done].
  - split.
    + apply (step_quiet_resident cap s held (EvRelease a) s'
               (remove_one a held) b k h v Hinv);
        [by apply step_release|done|done].
    + clear -Hb Hcalm. induction held as [|x l IH]; [done|]. simpl.
      destruct (decide (x = a)) as [->|Hne].
      * apply elem_of_cons in Hb as [->|Hb]; done.
      * apply elem_of_cons in Hb as [->|Hb]; [by left|].
        right. by apply IH.
  - split; [|done].
    apply (step_quiet_resident cap s held (EvErase k' h') s'
             held b k h v Hinv); [by apply step_erase|done|done].
  - split; [|done].
    destruct (Prune_inv _ _ _ Hinv) as (s2 & Hp2 & _ & _ & _ & _ & Hfr & _).
    rewrite Hp in Hp2. injection Hp2 as <-.
    destruct Hres as (r & Hr & Hrest). exists r. split; [|done].
    by rewrite Hfr.
Qed.

Lemma steps_calm_pinned cap s held evs s' held' b k h v :
  steps s held evs s' held' →
  ∀ tr, reachable cap tr s held → Forall (calm k h b) evs →
  b ∈ held → resident s b k h v →
  resident s' b k h v ∧ b ∈ held' ∧ ∃ tr', reachable cap tr' s' held'.
Proof.
  induction 1 as [s held|s held ev s1 held1 evs s2 held2 Hstep Hsteps IH];
    intros tr Hreach Hcalm Hb Hres.
  - split; [done|]. split; [done|]. by exists tr.
  - apply Forall_cons in Hcalm as [Hc Hcalm].
    pose proof (reachable_inv _ _ _ _ Hreach) as [Hinv _].
    destruct (step_calm_pinned _ _ _ _ _ _ _ _ _ _ Hinv Hstep Hc Hb Hres)
      as [Hres1 Hb1].
    apply (IH (ev :: tr)); [|done|done|done].
    by eapply reach_step.
Qed.



(** * Erase of a cached key, and the last release *)

(** X12.  In a run in which the clients have never held more than 2^32 - 2
    handles on one entry at a time, erasing the key of a cached entry takes
    the entry out of the cache at once, whether or not clients hold handles on
    it: it is unlinked from the table and from its list, the usage drops by
    its charge, and all other records are untouched.  If no client holds a
    handle on it the deleter is called and the record freed right away;
    otherwise the record stays allocated, marked as no longer in the cache and
    with one reference less, and no deleter is called yet. *)
Theorem erase_removes_entry cap tr s held a e :
  run cap tr s held → refs_fit tr →
  heap s !! a = Some e → in_cache e = true →
  ∃ s',
    Erase (key e) (hash e) s = Some s' ∧
    (a ∉ entries (table_ s')) ∧
    (∀ b, b ≠ a → (b ∈ entries (table_ s') ↔ b ∈ entries (table_ s))) ∧
    lru_ s' = filter (λ x, x ≠ a) (lru_ s) ∧
    in_use_ s' = filter (λ x, x ≠ a) (in_use_ s) ∧
    usage_ s' = wrap64 (usage_ s - charge e) ∧
    (∀ b, b ≠ a → heap s' !! b = heap s !! b) ∧
    if decide (a ∈ held) then
      heap s' !! a = Some (set_refs (refs e - 1) (set_in_cache false e)) ∧
      deleted s' = deleted s
    else
      heap s' !! a = None ∧ deleted s' = deleted s ++ [call_of a e].
Proof.
  intros Hrun Hfit He Hic.
  destruct (reachable_inv _ _ _ _ (run_fit_reachable _ _ _ _ Hrun Hfit))
    as [Hinv _].
  pose proof (inv_table _ _ _ _ Hinv) as Hwf.
  assert (a ∈ entries (table_ s)) as Hain.
  { destruct (proj2 (inv_entries _ _ _ _ Hinv a)) as [?|?]; [by exists e|done..]. }
  assert (kh (heap s) a = Some (key e, hash e)) as Hkh.
  { unfold kh. by rewrite He. }
  destruct (Erase_inv _ _ _ (key e) (hash e) Hinv)
    as (s' & Her & Hinv' & [[_ Hno]|(a0 & e0 & t & He0 & Hic0 & Hk0 & Hh0 & Hrm
                                     & ->)]).
  { by destruct (Hno a Hain). }
  destruct (inv_unlink _ _ _ _ _ _ _ Hinv Hrm) as (_ & Hkh0 & Hperm & _).
  assert (a0 = a) as ->.
  { apply (wf_table_unique (heap s) (table_ s)); [done| |done|congruence].
    rewrite Hperm. by left. }
  rewrite He in He0. injection He0 as <-.
  pose proof (wf_table_NoDup _ _ Hwf) as Hnd. rewrite Hperm in Hnd.
  apply NoDup_cons in Hnd as [Hna Hnd].
  exists (erased_state a e (set_table t s)). split; [done|].
  rewrite erased_state_table. simpl. split; [done|]. split.
  { intros b Hb. rewrite Hperm, elem_of_cons. split; [by right|].
    by intros [?|?]. }
  rewrite erased_state_lru, erased_state_in_use, erased_state_usage. simpl.
  do 3 (split; [done|]). split.
  { intros b Hb. by rewrite erased_state_frame. }
  destruct (inv_refs _ _ _ _ Hinv a e He) as [Hr _]. rewrite Hic in Hr.
  rewrite erased_state_deleted. unfold erased_state.
  destruct (decide (a ∈ held)) as [Hh|Hh].
  - apply holds_pos in Hh.
    assert ((refs e =? 1) = false) as -> by (apply Z.eqb_neq; lia).
    simpl. rewrite lookup_insert_eq, app_nil_r. done.
  - apply holds_zero in Hh.
    assert ((refs e =? 1) = true) as -> by (apply Z.eqb_eq; lia).
    simpl. by rewrite lookup_delete_eq.
Qed.

Lemma erase_removes_entry_witness :
  run 10 [EvInsert "a" 7 100 6 0%nat 0%nat] sample_a [0%nat] ∧
  refs_fit [EvInsert "a" 7 100 6 0%nat 0%nat] ∧
  heap sample_a !! 0%nat = Some (new_handle "a" 7 100 6 0%nat true) ∧
  ∃ s',
    Erase "a" 7 sample_a = Some s' ∧
    (0%nat ∉ entries (table_ s')) ∧
    (∀ b, b ≠ 0%nat →
       (b ∈ entries (table_ s') ↔ b ∈ entries (table_ sample_a))) ∧
    lru_ s' = filter (λ x, x ≠ 0%nat) (lru_ sample_a) ∧
    in_use_ s' = filter (λ x, x ≠ 0%nat) (in_use_ sample_a) ∧
    usage_ s' = wrap64 (usage_ sample_a - 6) ∧
    (∀ b, b ≠ 0%nat → heap s' !! b = heap sample_a !! b) ∧
    if decide (0%nat ∈ [0%nat]) then
      heap s' !! 0%nat =
        Some (set_refs (2 - 1)
                (set_in_cache false (new_handle "a" 7 100 6 0%nat true))) ∧
      deleted s' = deleted sample_a
    else
      heap s' !! 0%nat = None ∧
      deleted s' =
        deleted sample_a ++
        [call_of 0%nat (new_handle "a" 7 100 6 0%nat true)].
Proof.
  assert (heap sample_a !! 0%nat =
          Some (new_handle "a" 7 100 6 0%nat true)) as He
    by (vm_compute; reflexivity).
  split; [exact (reachable_run _ _ _ _ reachable_sample_a)|].
  split; [exact (reachable_fit _ _ _ _ reachable_sample_a)|].
  split; [exact He|].
  apply (erase_removes_entry 10 _ sample_a [0%nat] 0%nat
           (new_handle "a" 7 100 6 0%nat true)
           (reachable_run _ _ _ _ reachable_sample_a)
           (reachable_fit _ _ _ _ reachable_sample_a) He eq_refl).
Defined.

(** X13.  In a run in which the clients have never held more than 2^32 - 2
    handles on one entry at a time, an entry that is no longer in the cache
    (erased, displaced or never cached) lives exactly as long as clients hold
    handles on it: releasing a handle on it when it is the last one calls the
    deleter on the entry's key and value and frees the record; releasing one
    of several only decrements the count, calls no deleter and leaves the
    record allocated.  The lists, the table and the usage are untouched either
    way. *)
Theorem last_release_deletes cap tr s held a e :
  run cap tr s held → refs_fit tr → a ∈ held →
  heap s !! a = Some e → in_cache e = false →
  refs e = holds held a ∧
  if decide (holds held a = 1) then
    Release a s =
    Some (set_heap (delete a (heap s))
            (set_deleted (deleted s ++ [call_of a e]) s))
  else
    Release a s = Some (store a (set_refs (refs e - 1) e) s).
Proof.
  intros Hrun Hfit Ha He Hic.
  destruct (reachable_inv _ _ _ _ (run_fit_reachable _ _ _ _ Hrun Hfit))
    as [Hinv _].
  destruct (inv_refs _ _ _ _ Hinv a e He) as [Hr H1].
  pose proof (inv_held_bound _ _ _ _ Hinv a) as Hb.
  rewrite Hic in Hr. split; [lia|].
  unfold Release, Unref. rewrite He. simpl.
  assert ((0 <? refs e) = true) as -> by (apply Z.ltb_lt; lia). simpl.
  rewrite wrap32_small by lia. rewrite Hic. simpl.
  destruct (decide (holds held a = 1)) as [Hone|Hmore].
  - assert ((refs e - 1 =? 0) = true) as -> by (apply Z.eqb_eq; lia).
    done.
  - assert ((refs e - 1 =? 0) = false) as -> by (apply Z.eqb_neq; lia).
    done.
Qed.

Lemma last_release_deletes_witness :
  run 10 [EvErase "a" 7; EvInsert "a" 7 100 6 0%nat 0%nat]
    sample_a_erased [0%nat] ∧
  refs_fit [EvErase "a" 7; EvInsert "a" 7 100 6 0%nat 0%nat] ∧
  0%nat ∈ [0%nat] ∧
  heap sample_a_erased !! 0%nat =
    Some (set_refs 1 (set_in_cache false (new_handle "a" 7 100 6 0%nat true))) ∧
  refs (set_refs 1 (set_in_cache false (new_handle "a" 7 100 6 0%nat true))) =
    holds [0%nat] 0%nat ∧
  if decide (holds [0%nat] 0%nat = 1) then
    Release 0%nat sample_a_erased =
    Some (set_heap (delete 0%nat (heap sample_a_erased))
            (set_deleted
               (deleted sample_a_erased ++
                [call_of 0%nat
                   (set_refs 1
                      (set_in_cache false
                         (new_handle "a" 7 100 6 0%nat true)))])
               sample_a_erased))
  else
    Release 0%nat sample_a_erased =
    Some (store 0%nat
            (set_refs (1 - 1)
               (set_refs 1
                  (set_in_cache false (new_handle "a" 7 100 6 0%nat true))))
            sample_a_erased).
Proof.
  assert (0%nat ∈ [0%nat]) as Hin by left.
  assert (heap sample_a_erased !! 0%nat =
          Some (set_refs 1 (set_in_cache false
                              (new_handle "a" 7 100 6 0%nat true)))) as He
    by (vm_compute; reflexivity).
  split; [exact (reachable_run _ _ _ _ reachable_sample_a_erased)|].
  split; [exact (reachable_fit _ _ _ _ reachable_sample_a_erased)|].
  split; [exact Hin|]. split; [exact He|].
  apply (last_release_deletes 10 _ sample_a_erased [0%nat] 0%nat _
           (reachable_run _ _ _ _ reachable_sample_a_erased)
           (reachable_fit _ _ _ _ reachable_sample_a_erased) Hin He).
  reflexivity.
Defined.

(** * The destructor *)

Lemma destroy_loop_spec : ∀ l s,
  NoDup l →
  (∀ a, a ∈ l → ∃ e, heap s !! a = Some e ∧ in_cache e = true ∧ refs e = 1) →
  ∃ s', destroy_loop l s = Some s' ∧
        (∀ b, heap s' !! b = if decide (b ∈ l) then None else heap s !! b) ∧
        deleted s' = deleted s ++ calls_of (heap s) l.
Proof.
  induction l as [|a l IH]; intros s Hnd Hall.
  - exists s. split; [done|]. split; [done|]. simpl. by rewrite app_nil_r.
  - apply NoDup_cons in Hnd as [Ha Hnd].
    destruct (Hall a ltac:(left)) as (e & He & Hic & Hone).
    set (s2 := set_heap (delete a (heap s))
                 (set_deleted (deleted s ++ [call_of a e]) s)).
    assert (∀ b, b ≠ a → heap s2 !! b = heap s !! b) as Hfr.
    { intros b Hb. simpl. by rewrite lookup_delete_ne. }
    destruct (IH s2 Hnd) as (s' & Hloop & Hheap & Hdel).
    { intros b Hb. rewrite Hfr by (by intros ->). apply Hall. by right. }
    exists s'. split.
    { simpl. rewrite He. simpl. rewrite Hic. simpl. rewrite Hone. simpl.
      unfold Unref. simpl. rewrite lookup_insert_eq. simpl. rewrite Hone.
      simpl. rewrite delete_insert_eq. exact Hloop. }
    split.
    { intros b. rewrite Hheap. destruct (decide (b = a)) as [->|Hne].
      - rewrite decide_False by done. rewrite decide_True by (by left).
        unfold s2. simpl. by rewrite lookup_delete_eq.
      - destruct (decide (b ∈ l)) as [Hin|Hout].
        + rewrite decide_True; [done|by right].
        + rewrite decide_False; [by apply Hfr|].
          by intros [?|?]%elem_of_cons. }
    rewrite Hdel. simpl deleted. rewrite <-app_assoc. f_equal.
    rewrite (calls_of_cons _ _ _ _ He). simpl. f_equal.
    apply calls_of_ext. intros b Hb. rewrite lookup_delete_ne; [done|].
    by intros ->.
Qed.

Lemma calls_for_calls_of mem l a :
  NoDup l →
  calls_for a (calls_of mem l) =
  match mem !! a with
  | Some e => if decide (a ∈ l) then [call_of a e] else []
  | None => []
  end.
Proof.
  induction l as [|x l IH]; intros Hnd.
  - assert (calls_for a (calls_of mem []) = []) as -> by done.
    destruct (mem !! a); [|done].
    destruct (decide (a ∈ [])) as [H|_]; [by apply elem_of_nil in H|done].
  - apply NoDup_cons in Hnd as [Hx Hnd]. rewrite calls_of_unfold.
    destruct (decide (x = a)) as [->|Hne].
    + destruct (mem !! a) as [e|] eqn:He.
      * unfold calls_for. rewrite filter_cons_True by done.
        fold (calls_for a (calls_of mem l)). rewrite (IH Hnd).
        rewrite decide_False by done. rewrite decide_True; [done|by left].
      * rewrite (IH Hnd). done.
    + assert (calls_for a (match mem !! x with
                           | Some e => call_of x e :: calls_of mem l
                           | None => calls_of mem l
                           end) = calls_for a (calls_of mem l)) as ->.
      { destruct (mem !! x) as [ex|]; [|done].
        unfold calls_for. by rewrite filter_cons_False. }
      rewrite (IH Hnd). destruct (mem !! a) as [e|]; [|done].
      destruct (decide (a ∈ l)) as [Hin|Hout].
      * rewrite decide_True; [done|by right].
      * rewrite decide_False; [done|]. by intros [?|?]%elem_of_cons.
Qed.

(** The destructor of a shard none of whose cached entries is pinned. *)
Lemma destroy_spec cap s held :
  inv None cap s held → in_use_ s = [] →
  ∃ s', LRUCache_destroy s = Some s' ∧
        (∀ b, heap s' !! b =
              if decide (b ∈ lru_ s) then None else heap s !! b) ∧
        deleted s' = deleted s ++ calls_of (heap s) (lru_ s).
Proof.
  intros Hinv Hnil.
  destruct (destroy_loop_spec (lru_ s) s (inv_nodup_lru _ _ _ _ Hinv))
    as (s' & Hloop & Hheap & Hdel).
  { intros a Ha. by apply (inv_lru _ _ _ _ Hinv). }
  exists s'. split; [|done].
  unfold LRUCache_destroy. rewrite bool_decide_eq_true_2 by done. done.
Qed.

(** X14.  Destroying a shard on which no handle is outstanding frees
    everything.  In a reachable state in which the clients hold no handle,
    the assertions of [~LRUCache] pass; it calls the deleter of every entry
    of the LRU list, oldest first, and frees it; afterwards no record is
    allocated, and every entry that was ever inserted into the shard has had
    its deleter called exactly once, with the key and value it was inserted
    with. *)
Theorem destructor_frees_everything cap tr s :
  reachable cap tr s [] →
  ∃ s',
    LRUCache_destroy s = Some s' ∧
    heap s' = ∅ ∧
    deleted s' = deleted s ++ calls_of (heap s) (lru_ s) ∧
    ∀ k h v c d a, EvInsert k h v c d a ∈ tr →
      calls_for a (deleted s') =
      [{| dc_entry := a; dc_deleter := d; dc_key := k; dc_value := v |}].
Proof.
  intros Hreach. pose proof (reachable_inv _ _ _ _ Hreach) as [Hinv Hlog].
  assert (∀ a e, heap s !! a = Some e → a ∈ lru_ s) as Hall.
  { intros a e He. destruct (inv_refs _ _ _ _ Hinv a e He) as [Hr H1].
    rewrite holds_nil in Hr. apply (inv_lru _ _ _ _ Hinv). exists e.
    destruct (in_cache e); [done|lia]. }
  assert (in_use_ s = []) as Hnil.
  { destruct (in_use_ s) as [|a l] eqn:Hu; [done|].
    assert (a ∈ in_use_ s) as Ha by (rewrite Hu; left).
    pose proof Ha as Ha'.
    apply (inv_in_use _ _ _ _ Hinv) in Ha as (e & He & _).
    exfalso. eapply inv_lru_not_in_use; [done| |done]. by eapply Hall. }
  destruct (destroy_spec _ _ _ Hinv Hnil) as (s' & Hd & Hheap & Hdel).
  exists s'. split; [done|]. split.
  { apply map_eq. intros b. rewrite Hheap, lookup_empty.
    destruct (decide (b ∈ lru_ s)) as [|Hout]; [done|].
    destruct (heap s !! b) as [e|] eqn:He; [|done].
    destruct Hout. by eapply Hall. }
  split; [done|].
  intros k h v c d a Hin.
  pose proof (log_entry _ _ Hlog k h v c d a Hin) as Hent.
  rewrite Hdel. unfold calls_for. rewrite filter_app.
  fold (calls_for a (deleted s)).
  fold (calls_for a (calls_of (heap s) (lru_ s))).
  rewrite calls_for_calls_of by apply (inv_nodup_lru _ _ _ _ Hinv).
  destruct (heap s !! a) as [e|] eqn:He.
  - destruct Hent as (<- & <- & <- & <- & <- & ->).
    rewrite decide_True by (by eapply Hall). done.
  - rewrite Hent. done.
Qed.

Lemma destructor_frees_everything_witness :
  ∃ s',
    LRUCache_destroy sample_a_released = Some s' ∧
    heap s' = ∅ ∧
    deleted s' =
      deleted sample_a_released ++
      calls_of (heap sample_a_released) (lru_ sample_a_released) ∧
    ∀ k h v c d a,
      EvInsert k h v c d a ∈
        [EvRelease 0%nat; EvInsert "a" 7 100 6 0%nat 0%nat] →
      calls_for a (deleted s') =
      [{| dc_entry := a; dc_deleter := d; dc_key := k; dc_value := v |}].
Proof.
  apply (destructor_frees_everything 10
           [EvRelease 0%nat; EvInsert "a" 7 100 6 0%nat 0%nat]
           sample_a_released).
  eapply reach_step; [apply reachable_sample_a|].
  apply (step_release sample_a [0%nat] 0%nat sample_a_released);
    [by left|vm_compute; reflexivity].
Defined.

(** X15.  In a state reached by a run in which the clients have never held
    more than 2^32 - 2 handles on one entry at a time, the assertion at the
    head of [~LRUCache] fails exactly when some client still holds a handle on
    an entry that is in the cache.  Handles on entries that were erased or
    displaced do not trip it: the destructor then returns, and the records
    left allocated are exactly those the clients still hold. *)
Theorem destructor_needs_release cap tr s held :
  run cap tr s held → refs_fit tr →
  (LRUCache_destroy s = None ↔
   ∃ a e, a ∈ held ∧ heap s !! a = Some e ∧ in_cache e = true) ∧
  (∀ s', LRUCache_destroy s = Some s' →
         ∀ a, is_Some (heap s' !! a) ↔ a ∈ held).
Proof.
  intros Hrun Hfit.
  destruct (reachable_inv _ _ _ _ (run_fit_reachable _ _ _ _ Hrun Hfit))
    as [Hinv _].
  assert (in_use_ s = [] ∨
          ∃ a e, a ∈ held ∧ heap s !! a = Some e ∧ in_cache e = true)
    as Hcases.
  { destruct (in_use_ s) as [|a l] eqn:Hu; [by left|]. right.
    assert (a ∈ in_use_ s) as Ha by (rewrite Hu; left).
    apply (inv_in_use _ _ _ _ Hinv) in Ha as (e & He & Hic & Htwo).
    exists a, e. split; [|done].
    destruct (inv_refs _ _ _ _ Hinv a e He) as [Hr _]. rewrite Hic in Hr.
    apply holds_pos. lia. }
  assert ((∃ a e, a ∈ held ∧ heap s !! a = Some e ∧ in_cache e = true) →
          in_use_ s ≠ []) as Hpin.
  { intros (a & e & Ha & He & Hic) Hnil.
    assert (a ∈ in_use_ s) as Hin; [|rewrite Hnil in Hin; by apply elem_of_nil in Hin].
    apply (inv_in_use _ _ _ _ Hinv). exists e.
    destruct (inv_refs _ _ _ _ Hinv a e He) as [Hr _]. rewrite Hic in Hr.
    apply holds_pos in Ha. split; [done|]. split; [done|lia]. }
  split.
  - split.
    + intros Hnone. destruct Hcases as [Hnil|?]; [|done].
      destruct (destroy_spec _ _ _ Hinv Hnil) as (s' & Hd & _).
      rewrite Hd in Hnone. done.
    + intros Hp. unfold LRUCache_destroy.
      rewrite bool_decide_eq_false_2 by (by apply Hpin). done.
  - intros s' Hd a.
    destruct Hcases as [Hnil|Hp].
    2:{ unfold LRUCache_destroy in Hd.
        rewrite bool_decide_eq_false_2 in Hd by (by apply Hpin). done. }
    destruct (destroy_spec _ _ _ Hinv Hnil) as (s2 & Hd2 & Hheap & _).
    rewrite Hd in Hd2. injection Hd2 as <-. rewrite Hheap.
    destruct (decide (a ∈ lru_ s)) as [Hl|Hl].
    + split; [by intros [? ?]|]. intros Ha.
      apply (inv_lru _ _ _ _ Hinv) in Hl as (e & He & Hic & Hone).
      destruct (inv_refs _ _ _ _ Hinv a e He) as [Hr _]. rewrite Hic in Hr.
      apply holds_pos in Ha. lia.
    + split; [|apply (inv_held _ _ _ _ Hinv)].
      intros [e He]. destruct (inv_refs _ _ _ _ Hinv a e He) as [Hr H1].
      destruct (in_cache e) eqn:Hic.
      * destruct (decide (refs e = 1)) as [Hone|Hmore].
        -- destruct Hl. apply (inv_lru _ _ _ _ Hinv). by exists e.
        -- apply holds_pos. lia.
      * apply holds_pos. lia.
Qed.

Lemma destructor_needs_release_witness :
  run 10 [EvInsert "a" 7 100 6 0%nat 0%nat] sample_a [0%nat] ∧
  refs_fit [EvInsert "a" 7 100 6 0%nat 0%nat] ∧
  (LRUCache_destroy sample_a = None ↔
   ∃ a e, a ∈ [0%nat] ∧ heap sample_a !! a = Some e ∧ in_cache e = true) ∧
  (∀ s', LRUCache_destroy sample_a = Some s' →
         ∀ a, is_Some (heap s' !! a) ↔ a ∈ [0%nat]).
Proof.
  split; [exact (reachable_run _ _ _ _ reachable_sample_a)|].
  split; [exact (reachable_fit _ _ _ _ reachable_sample_a)|].
  apply (destructor_needs_release 10 _ sample_a [0%nat]
           (reachable_run _ _ _ _ reachable_sample_a)
           (reachable_fit _ _ _ _ reachable_sample_a)).
Defined.

(** * No call of a well-behaved client goes wrong *)

(** X16.  In every state reached by a run in which the clients have never held
    more than 2^32 - 2 handles on one entry at a time, every public method
    returns: no assertion of cache.cc fails, no freed record is read and every
    loop ends.  A lookup, an erase and a prune can always be called; a release
    and [Value] on any handle that is held; an insert with arguments of their
    C++ types while the table holds fewer than 2^31 entries, and the handle it
    returns is a fresh one. *)
Theorem calls_never_fail cap tr s held :
  run cap tr s held → refs_fit tr →
  (∀ k h, ∃ s' r, Lookup k h s = Some (s', r)) ∧
  (∀ k h, ∃ s', Erase k h s = Some s') ∧
  (∃ s', Prune s = Some s') ∧
  (∀ a, a ∈ held → ∃ s' v, Release a s = Some s' ∧ Value a s = Some v) ∧
  (∀ k h v c d, is_uint32 h → is_size_t c → elems_ (table_ s) < 2 ^ 31 →
     ∃ s', Insert k h v c d s = Some (s', brk s) ∧
           heap s !! brk s = None ∧ brk s ∉ held).
Proof.
  intros Hrun Hfit.
  destruct (reachable_inv _ _ _ _ (run_fit_reachable _ _ _ _ Hrun Hfit))
    as [Hinv _].
  split.
  { intros k h. destruct (Lookup_result _ _ _ _ k h Hinv) as (s' & r & Hl & _).
    by exists s', r. }
  split.
  { intros k h. destruct (Erase_inv _ _ _ k h Hinv) as (s' & He & _).
    by exists s'. }
  split.
  { destruct (Prune_inv _ _ _ Hinv) as (s' & Hp & _). by exists s'. }
  split.
  { intros a Ha. destruct (Release_inv _ _ _ _ Hinv Ha) as (s' & Hr & _).
    destruct (inv_held _ _ _ _ Hinv a Ha) as [e He].
    exists s', (value e). split; [done|]. unfold Value. by rewrite He. }
  intros k h v c d Hh Hc Hlt.
  destruct (Insert_inv _ _ _ k h v c d Hinv Hh Hc Hlt) as (s' & X & HI & _).
  destruct (inv_fresh _ _ _ _ Hinv) as (Hf & Hnh & _).
  by exists s'.
Qed.

Lemma calls_never_fail_witness :
  run 10 [EvErase "a" 7; EvInsert "a" 7 100 6 0%nat 0%nat]
    sample_a_erased [0%nat] ∧
  refs_fit [EvErase "a" 7; EvInsert "a" 7 100 6 0%nat 0%nat] ∧
  (∀ k h, ∃ s' r, Lookup k h sample_a_erased = Some (s', r)) ∧
  (∀ k h, ∃ s', Erase k h sample_a_erased = Some s') ∧
  (∃ s', Prune sample_a_erased = Some s') ∧
  (∀ a, a ∈ [0%nat] →
     ∃ s' v, Release a sample_a_erased = Some s' ∧
             Value a sample_a_erased = Some v) ∧
  (∀ k h v c d, is_uint32 h → is_size_t c →
     elems_ (table_ sample_a_erased) < 2 ^ 31 →
     ∃ s', Insert k h v c d sample_a_erased =
             Some (s', brk sample_a_erased) ∧
           heap sample_a_erased !! brk sample_a_erased = None ∧
           brk sample_a_erased ∉ [0%nat]).
Proof.
  split; [exact (reachable_run _ _ _ _ reachable_sample_a_erased)|].
  split; [exact (reachable_fit _ _ _ _ reachable_sample_a_erased)|].
  apply (calls_never_fail 10 _ sample_a_erased [0%nat]
           (reachable_run _ _ _ _ reachable_sample_a_erased)
           (reachable_fit _ _ _ _ reachable_sample_a_erased)).
Defined.

(** * The sharded cache: shard selection, capacities and ids *)

Lemma Shard_div h : is_uint32 h → Z.of_nat (Shard h) = h / 2 ^ 28.
Proof.
  intros [H0 _]. unfold Shard, kNumShardBits.
  rewrite Z.shiftr_div_pow2 by lia.
  rewrite Z2Nat.id; [done|]. apply Z.div_pos; lia.
Qed.

Lemma Shard_lt h : is_uint32 h → (Shard h < 16)%nat.
Proof.
  intros Hh. pose proof (Shard_div h Hh) as Hd. destruct Hh as [H0 H1].
  assert (h / 2 ^ 28 < 16); [|lia].
  apply Z.div_lt_upper_bound; lia.
Qed.

Lemma LRUCache_new_eq : LRUCache_new = Some (fresh_shard 0).
Proof. vm_compute. reflexivity. Qed.

Lemma NewLRUCache_eq capacity :
  NewLRUCache capacity =
  Some {| shard_ := replicate 16 (fresh_shard (per_shard capacity));
          last_id_ := 0; proc_heap := ∅; proc_brk := 0%nat;
          proc_deleted := [] |}.
Proof.
  unfold NewLRUCache, ShardedLRUCache_new. rewrite LRUCache_new_eq. simpl.
  do 2 f_equal.
Qed.

(** X17.  Shard selection never indexes outside the array: for every 32-bit
    hash, [Shard] is the value of the top four bits, below [kNumShards], and
    a cache built by [NewLRUCache] has a shard at that index, an empty one of
    the per-shard capacity. *)
Theorem shard_index_in_bounds capacity c h :
  NewLRUCache capacity = Some c → is_uint32 h →
  Z.of_nat (Shard h) = h / 2 ^ 28 ∧
  (Shard h < Z.to_nat kNumShards)%nat ∧
  length (shard_ c) = Z.to_nat kNumShards ∧
  shard_ c !! Shard h = Some (fresh_shard (per_shard capacity)).
Proof.
  intros Hnew Hh. rewrite NewLRUCache_eq in Hnew.
  assert (shard_ c = replicate 16 (fresh_shard (per_shard capacity))) as ->.
  { apply (inj Some) in Hnew. by rewrite <-Hnew. }
  pose proof (Shard_lt h Hh) as Hlt.
  split; [by apply Shard_div|]. split; [exact Hlt|].
  split; [apply length_replicate|].
  by apply lookup_replicate_2.
Qed.

Lemma shard_index_in_bounds_witness :
  is_uint32 (2 ^ 32 - 1) ∧
  Z.of_nat (Shard (2 ^ 32 - 1)) = (2 ^ 32 - 1) / 2 ^ 28 ∧
  (Shard (2 ^ 32 - 1) < Z.to_nat kNumShards)%nat ∧
  length (shard_ (default {| shard_ := []; last_id_ := 0; proc_heap := ∅;
                             proc_brk := 0%nat; proc_deleted := [] |}
                    (NewLRUCache 1000))) = Z.to_nat kNumShards ∧
  shard_ (default {| shard_ := []; last_id_ := 0; proc_heap := ∅;
                     proc_brk := 0%nat; proc_deleted := [] |}
            (NewLRUCache 1000)) !! Shard (2 ^ 32 - 1) =
    Some (fresh_shard (per_shard 1000)).
Proof.
  assert (is_uint32 (2 ^ 32 - 1)) as Hh by (unfold is_uint32; lia).
  split; [exact Hh|].
  apply (shard_index_in_bounds 1000 _ (2 ^ 32 - 1)); [|exact Hh].
  rewrite NewLRUCache_eq. reflexivity.
Defined.

(** X18.  The capacity each shard gets is the total capacity divided by
    [kNumShards], rounded up, provided the sum [capacity + 15] fits in a
    [size_t]: the shards together then hold at least the capacity asked for
    and less than 16 more, and a shard capacity of 0 (caching off) arises
    only from a total of 0.  For the fifteen largest values of [size_t] the
    sum wraps around and every shard gets capacity 0. *)
Theorem per_shard_capacity capacity :
  is_size_t capacity →
  (capacity <= 2 ^ 64 - 16 →
     capacity <= 16 * per_shard capacity < capacity + 16 ∧
     (per_shard capacity = 0 ↔ capacity = 0)) ∧
  (2 ^ 64 - 16 < capacity → per_shard capacity = 0).
Proof.
  intros [H0 H1]. unfold per_shard, kNumShards, kNumShardBits.
  change (Z.shiftl 1 4) with 16. change (16 - 1) with 15. split.
  - intros Hle. rewrite wrap64_small by lia.
    pose proof (Z.div_mod (capacity + 15) 16 ltac:(lia)) as Hdm.
    pose proof (Z.mod_pos_bound (capacity + 15) 16 ltac:(lia)) as Hm.
    split; [lia|]. split; intros Hz; [lia|].
    subst. done.
  - intros Hbig. unfold wrap64.
    assert ((capacity + 15) mod 2 ^ 64 = capacity + 15 - 2 ^ 64) as ->.
    { symmetry. apply Z.mod_unique with (q := 1); lia. }
    apply Z.div_small. lia.
Qed.

Lemma per_shard_capacity_witness :
  is_size_t (2 ^ 64 - 1) ∧
  (2 ^ 64 - 1 <= 2 ^ 64 - 16 →
     2 ^ 64 - 1 <= 16 * per_shard (2 ^ 64 - 1) < 2 ^ 64 - 1 + 16 ∧
     (per_shard (2 ^ 64 - 1) = 0 ↔ 2 ^ 64 - 1 = 0)) ∧
  (2 ^ 64 - 16 < 2 ^ 64 - 1 → per_shard (2 ^ 64 - 1) = 0).
Proof.
  split; [exact size_t_max|].
  apply (per_shard_capacity (2 ^ 64 - 1) size_t_max).
Defined.

Lemma NewId_times_spec n : ∀ c,
  last_id_ c + Z.of_nat n < 2 ^ 64 → 0 <= last_id_ c →
  snd (NewId_times n c) =
    (λ i : nat, last_id_ c + 1 + Z.of_nat i) <$> seq 0 n ∧
  last_id_ (fst (NewId_times n c)) = last_id_ c + Z.of_nat n ∧
  shard_ (fst (NewId_times n c)) = shard_ c ∧
  proc_heap (fst (NewId_times n c)) = proc_heap c ∧
  proc_deleted (fst (NewId_times n c)) = proc_deleted c.
Proof.
  induction n as [|n IH]; intros c Hlt H0.
  - simpl. split; [done|]. split; [lia|]. done.
  - set (c1 := {| shard_ := shard_ c; last_id_ := last_id_ c + 1;
                  proc_heap := proc_heap c; proc_brk := proc_brk c;
                  proc_deleted := proc_deleted c |}).
    assert (NewId c = (c1, last_id_ c + 1)) as Hid.
    { unfold NewId. rewrite wrap64_small by lia. done. }
    change (NewId_times (S n) c)
      with (let '(c1, id) := NewId c in
            let '(c2, ids) := NewId_times n c1 in (c2, id :: ids)).
    rewrite Hid. specialize (IH c1).
    destruct (NewId_times n c1) as [c2 ids]. cbn [fst snd] in *.
    destruct IH as (Hids & Hlast & Hsh & Hhp & Hdl);
      [simpl; lia|simpl; lia|].
    simpl in Hids, Hlast, Hsh, Hhp, Hdl.
    split.
    { rewrite Hids. cbn [seq fmap list_fmap]. f_equal; [lia|].
      rewrite <-fmap_S_seq, <-list_fmap_compose.
      apply list_fmap_ext. intros i x _. simpl. lia. }
    split; [lia|]. done.
Qed.

(** X19.  [NewId] hands out 1, 2, 3, ... : on a cache whose counter is at 0,
    as [NewLRUCache] leaves it, the ids returned by [n] calls in a row are
    the numbers 1 to [n], as long as [n] is below 2^64; in particular they
    are pairwise different and never 0.  The calls change the counter only,
    not the shards or the entries. *)
Theorem new_ids_distinct n c :
  last_id_ c = 0 → Z.of_nat n < 2 ^ 64 →
  snd (NewId_times n c) = (λ i : nat, Z.of_nat (S i)) <$> seq 0 n ∧
  NoDup (snd (NewId_times n c)) ∧
  (0 ∉ snd (NewId_times n c)) ∧
  shard_ (fst (NewId_times n c)) = shard_ c ∧
  proc_heap (fst (NewId_times n c)) = proc_heap c ∧
  proc_deleted (fst (NewId_times n c)) = proc_deleted c.
Proof.
  intros Hz Hn.
  destruct (NewId_times_spec n c) as (Hids & _ & Hsh & Hhp & Hdl); [lia..|].
  assert (snd (NewId_times n c) = (λ i : nat, Z.of_nat (S i)) <$> seq 0 n)
    as Heq.
  { rewrite Hids. apply list_fmap_ext. intros i x _. simpl. lia. }
  split; [done|]. rewrite Heq. split.
  { apply NoDup_fmap_2; [|apply NoDup_seq]. intros i j Hij. lia. }
  split; [|done].
  intros (i & Hi & _)%list_elem_of_fmap. lia.
Qed.

Lemma new_ids_distinct_witness :
  snd (NewId_times 3
         {| shard_ := []; last_id_ := 0; proc_heap := ∅; proc_brk := 0%nat;
            proc_deleted := [] |}) = [1; 2; 3] ∧
  NoDup (snd (NewId_times 3
                {| shard_ := []; last_id_ := 0; proc_heap := ∅;
                   proc_brk := 0%nat; proc_deleted := [] |})).
Proof.
  destruct (new_ids_distinct 3
              {| shard_ := []; last_id_ := 0; proc_heap := ∅;
                 proc_brk := 0%nat; proc_deleted := [] |}
              eq_refl ltac:(simpl; lia)) as (H1 & H2 & _).
  split; [exact H1|exact H2].
Defined.

(** * Methods of a shard are local

    A method that returns on a heap returns the same on every larger heap,
    and leaves the additional records alone. *)

Lemma FindPointer_walk_mono mem mem' k h : ∀ chain j,
  mem ⊆ mem' →
  FindPointer_walk mem k h chain = Some j →
  FindPointer_walk mem' k h chain = Some j.
Proof.
  induction chain as [|p rest IH]; intros j Hsub Hw; [done|].
  simpl in *. destruct (mem !! p) as [e|] eqn:He; simpl in Hw; [|done].
  rewrite (lookup_weaken _ _ _ _ He Hsub). simpl.
  destruct (negb (hash e =? h) || negb (bool_decide (k = key e))); [|done].
  destruct (FindPointer_walk mem k h rest) as [j'|] eqn:Hj; [|done].
  by rewrite (IH j' Hsub eq_refl).
Qed.

Lemma FindPointer_mono mem mem' t k h x :
  mem ⊆ mem' → FindPointer mem t k h = Some x →
  FindPointer mem' t k h = Some x.
Proof.
  intros Hsub. unfold FindPointer.
  destruct (list_ t !! bucket h (length_ t)) as [chain|]; simpl; [|done].
  destruct (FindPointer_walk mem k h chain) as [j|] eqn:Hj; simpl; [|done].
  by rewrite (FindPointer_walk_mono _ _ _ _ _ _ Hsub Hj).
Qed.

Lemma HT_Lookup_mono mem mem' t k h x :
  mem ⊆ mem' → HT_Lookup mem t k h = Some x →
  HT_Lookup mem' t k h = Some x.
Proof.
  intros Hsub. unfold HT_Lookup.
  destruct (FindPointer mem t k h) as [[i j]|] eqn:Hf; simpl; [|done].
  by rewrite (FindPointer_mono _ _ _ _ _ _ Hsub Hf).
Qed.

Lemma HT_Remove_mono mem mem' t k h x :
  mem ⊆ mem' → HT_Remove mem t k h = Some x →
  HT_Remove mem' t k h = Some x.
Proof.
  intros Hsub. unfold HT_Remove.
  destruct (FindPointer mem t k h) as [[i j]|] eqn:Hf; simpl; [|done].
  by rewrite (FindPointer_mono _ _ _ _ _ _ Hsub Hf).
Qed.

Lemma Resize_move_None mem nl l :
  foldl (Resize_move mem nl) None l = None.
Proof. induction l as [|a l IH]; [done|]. simpl. exact IH. Qed.

Lemma Resize_move_mono mem mem' nl : ∀ l acc x,
  mem ⊆ mem' →
  foldl (Resize_move mem nl) acc l = Some x →
  foldl (Resize_move mem' nl) acc l = Some x.
Proof.
  induction l as [|a l IH]; intros acc x Hsub Hf; [done|].
  simpl in *.
  destruct (Resize_move mem nl acc a) as [y|] eqn:Hy.
  2:{ by rewrite Resize_move_None in Hf. }
  assert (Resize_move mem' nl acc a = Some y) as ->; [|by apply IH].
  unfold Resize_move in *. destruct acc as [[new_list count]|]; [|done].
  simpl in *. destruct (mem !! a) as [e|] eqn:He; [|done].
  by rewrite (lookup_weaken _ _ _ _ He Hsub).
Qed.

Lemma Resize_mono mem mem' t x :
  mem ⊆ mem' → Resize mem t = Some x → Resize mem' t = Some x.
Proof.
  intros Hsub. unfold Resize.
  destruct (Resize_grow 32 4 (elems_ t)) as [nl|]; simpl; [|done].
  destruct (foldl (Resize_move mem nl) _ _) as [y|] eqn:Hy; simpl; [|done].
  by rewrite (Resize_move_mono _ _ _ _ _ _ Hsub Hy).
Qed.

Lemma HT_Insert_mono mem mem' t e x :
  mem ⊆ mem' → HT_Insert mem t e = Some x → HT_Insert mem' t e = Some x.
Proof.
  intros Hsub. unfold HT_Insert.
  destruct (mem !! e) as [r|] eqn:Hr; simpl; [|done].
  rewrite (lookup_weaken _ _ _ _ Hr Hsub). simpl.
  destruct (FindPointer mem t (key r) (hash r)) as [[i j]|] eqn:Hf; simpl;
    [|done].
  rewrite (FindPointer_mono _ _ _ _ _ _ Hsub Hf). simpl.
  destruct (list_ t !! i) as [chain|]; simpl; [|done].
  destruct (chain !! j); [done|].
  destruct (length_ t <? wrap32 (elems_ t + 1)); [|done].
  destruct (Resize mem _) as [t''|] eqn:Hrs; simpl; [|done].
  by rewrite (Resize_mono _ _ _ _ Hsub Hrs).
Qed.

Lemma graft_lookup F s e x :
  heap s !! e = Some x → heap (graft F s) !! e = Some x.
Proof. intros He. simpl. by apply lookup_union_Some_l. Qed.

Lemma graft_store F e x s : store e x (graft F s) = graft F (store e x s).
Proof. unfold graft, store. simpl. by rewrite insert_union_l. Qed.

Lemma graft_free F e s d :
  F !! e = None →
  set_heap (delete e (heap (graft F s))) (set_deleted d (graft F s)) =
  graft F (set_heap (delete e (heap s)) (set_deleted d s)).
Proof.
  intros He. unfold graft. simpl. by rewrite delete_union, (delete_id F).
Qed.

Lemma disjoint_store F e x y s :
  heap s ##ₘ F → heap s !! e = Some y → heap (store e x s) ##ₘ F.
Proof.
  intros Hd He. simpl. apply map_disjoint_insert_l_2; [|done].
  by eapply map_disjoint_Some_l.
Qed.

Lemma Ref_frame F e s s' :
  Ref e s = Some s' → heap s ##ₘ F →
  Ref e (graft F s) = Some (graft F s') ∧ heap s' ##ₘ F.
Proof.
  unfold Ref. intros Hr Hd.
  destruct (heap s !! e) as [h|] eqn:He; simpl in Hr; [|done].
  rewrite (graft_lookup F s e h He). simpl. injection Hr as <-. split.
  - f_equal. destruct ((refs h =? 1) && in_cache h).
    + by rewrite <-graft_store.
    + by rewrite <-graft_store.
  - destruct ((refs h =? 1) && in_cache h);
      by eapply (disjoint_store F e _ h).
Qed.

Lemma Unref_frame F e s s' :
  Unref e s = Some s' → heap s ##ₘ F →
  Unref e (graft F s) = Some (graft F s') ∧ heap s' ##ₘ F.
Proof.
  unfold Unref. intros Hr Hd.
  destruct (heap s !! e) as [h|] eqn:He; simpl in Hr; [|done].
  rewrite (graft_lookup F s e h He). simpl.
  destruct (0 <? refs h); simpl in *; [|done].
  destruct (wrap32 (refs h - 1) =? 0).
  - destruct (negb (in_cache h)); simpl in *; [|done].
    injection Hr as <-. split.
    + f_equal. apply graft_free. by eapply map_disjoint_Some_l.
    + simpl. by apply map_disjoint_delete_l.
  - destruct (in_cache h && (wrap32 (refs h - 1) =? 1)).
    + injection Hr as <-. split.
      * f_equal. by rewrite graft_store.
      * by eapply (disjoint_store F e _ h).
    + injection Hr as <-. split.
      * f_equal. by rewrite graft_store.
      * by eapply (disjoint_store F e _ h).
Qed.

Lemma FinishErase_frame F r s s' b :
  FinishErase r s = Some (s', b) → heap s ##ₘ F →
  FinishErase r (graft F s) = Some (graft F s', b) ∧ heap s' ##ₘ F.
Proof.
  unfold FinishErase. intros Hr Hd. destruct r as [e|].
  2:{ injection Hr as <- <-. done. }
  destruct (heap s !! e) as [h|] eqn:He; simpl in Hr; [|done].
  rewrite (graft_lookup F s e h He). simpl.
  destruct (in_cache h); simpl in *; [|done].
  set (s3 := set_usage (wrap64 (usage_ s - charge h))
               (store e (set_in_cache false h) (LRU_Remove e s))) in *.
  destruct (Unref e s3) as [s4|] eqn:Hu; simpl in Hr; [|done].
  injection Hr as <- <-.
  destruct (Unref_frame F e s3 s4 Hu) as [Hu' Hd'].
  { by eapply (disjoint_store F e _ h). }
  split; [|done].
  assert (set_usage (wrap64 (usage_ s - charge h))
            (store e (set_in_cache false h) (LRU_Remove e (graft F s))) =
          graft F s3) as ->.
  { unfold s3. unfold graft, store. simpl. by rewrite insert_union_l. }
  by rewrite Hu'.
Qed.

Lemma Lookup_frame F k h s s' r :
  Lookup k h s = Some (s', r) → heap s ##ₘ F →
  Lookup k h (graft F s) = Some (graft F s', r) ∧ heap s' ##ₘ F.
Proof.
  unfold Lookup. intros Hl Hd.
  destruct (HT_Lookup (heap s) (table_ s) k h) as [e|] eqn:He; simpl in Hl;
    [|done].
  assert (HT_Lookup (heap (graft F s)) (table_ (graft F s)) k h = Some e)
    as ->.
  { eapply HT_Lookup_mono; [|done]. apply map_union_subseteq_l. }
  simpl. destruct e as [a|].
  - destruct (Ref a s) as [s1|] eqn:Hr; simpl in Hl; [|done].
    injection Hl as <- <-.
    destruct (Ref_frame F a s s1 Hr Hd) as [-> Hd']. done.
  - injection Hl as <- <-. done.
Qed.

Lemma Release_frame F a s s' :
  Release a s = Some s' → heap s ##ₘ F →
  Release a (graft F s) = Some (graft F s') ∧ heap s' ##ₘ F.
Proof. apply Unref_frame. Qed.

Lemma Erase_frame F k h s s' :
  Erase k h s = Some s' → heap s ##ₘ F →
  Erase k h (graft F s) = Some (graft F s') ∧ heap s' ##ₘ F.
Proof.
  unfold Erase. intros He Hd.
  destruct (HT_Remove (heap s) (table_ s) k h) as [[t r]|] eqn:Hrm;
    simpl in He; [|done].
  assert (HT_Remove (heap (graft F s)) (table_ (graft F s)) k h =
          Some (t, r)) as ->.
  { eapply HT_Remove_mono; [|done]. apply map_union_subseteq_l. }
  simpl.
  destruct (FinishErase r (set_table t s)) as [[s1 b]|] eqn:Hf;
    simpl in He; [|done].
  injection He as <-.
  destruct (FinishErase_frame F r (set_table t s) s1 b Hf Hd) as [Hf' Hd'].
  change (set_table t (graft F s)) with (graft F (set_table t s)).
  by rewrite Hf'.
Qed.

Lemma evict_oldest_frame F old s s' :
  evict_oldest old s = Some s' → heap s ##ₘ F →
  evict_oldest old (graft F s) = Some (graft F s') ∧ heap s' ##ₘ F.
Proof.
  unfold evict_oldest. intros He Hd.
  destruct (heap s !! old) as [h|] eqn:Hh; simpl in He; [|done].
  rewrite (graft_lookup F s old h Hh). simpl.
  destruct (refs h =? 1); simpl in *; [|done].
  destruct (HT_Remove (heap s) (table_ s) (key h) (hash h)) as [[t r]|]
    eqn:Hrm; simpl in He; [|done].
  assert (HT_Remove (heap s ∪ F) (table_ s) (key h) (hash h) = Some (t, r))
    as ->.
  { eapply HT_Remove_mono; [|done]. apply map_union_subseteq_l. }
  simpl.
  destruct (FinishErase r (set_table t s)) as [[s1 b]|] eqn:Hf;
    simpl in He; [|done].
  destruct (FinishErase_frame F r (set_table t s) s1 b Hf Hd) as [Hf' Hd'].
  change (set_table t (graft F s)) with (graft F (set_table t s)).
  rewrite Hf'. simpl. destruct b; simpl in *; [|done].
  injection He as <-. done.
Qed.

Lemma Insert_evict_frame F fuel : ∀ s s',
  Insert_evict fuel s = Some s' → heap s ##ₘ F →
  Insert_evict fuel (graft F s) = Some (graft F s') ∧ heap s' ##ₘ F.
Proof.
  induction fuel as [|fuel IH]; intros s s' Hi Hd; simpl in *.
  - destruct (capacity_ s <? usage_ s); [|by injection Hi as <-].
    destruct (lru_ s); [by injection Hi as <-|done].
  - destruct (capacity_ s <? usage_ s); [|by injection Hi as <-].
    destruct (lru_ s) as [|old rest]; [by injection Hi as <-|].
    destruct (evict_oldest old s) as [s1|] eqn:He; simpl in Hi; [|done].
    destruct (evict_oldest_frame F old s s1 He Hd) as [He' Hd1].
    rewrite He'. simpl. by apply IH.
Qed.

Lemma Prune_loop_frame F fuel : ∀ s s',
  Prune_loop fuel s = Some s' → heap s ##ₘ F →
  Prune_loop fuel (graft F s) = Some (graft F s') ∧ heap s' ##ₘ F.
Proof.
  induction fuel as [|fuel IH]; intros s s' Hi Hd; simpl in *.
  - destruct (lru_ s); [by injection Hi as <-|done].
  - destruct (lru_ s) as [|old rest]; [by injection Hi as <-|].
    destruct (evict_oldest old s) as [s1|] eqn:He; simpl in Hi; [|done].
    destruct (evict_oldest_frame F old s s1 He Hd) as [He' Hd1].
    rewrite He'. simpl. by apply IH.
Qed.

Lemma Prune_frame F s s' :
  Prune s = Some s' → heap s ##ₘ F →
  Prune (graft F s) = Some (graft F s') ∧ heap s' ##ₘ F.
Proof. apply Prune_loop_frame. Qed.

Lemma Insert_frame F k h v c d s s' e :
  Insert k h v c d s = Some (s', e) → heap s ##ₘ F → F !! brk s = None →
  Insert k h v c d (graft F s) = Some (graft F s', e) ∧ heap s' ##ₘ F.
Proof.
  rewrite !Insert_unfold. intros Hi Hd Hfresh.
  assert (∀ cached, added k h v c d cached (graft F s) =
                    graft F (added k h v c d cached s)) as Hadd.
  { intros cached. unfold added, graft, store. simpl.
    by rewrite insert_union_l. }
  assert (∀ cached, heap (added k h v c d cached s) ##ₘ F) as Hdadd.
  { intros cached. simpl. by apply map_disjoint_insert_l_2. }
  change (capacity_ (graft F s)) with (capacity_ s).
  change (table_ (graft F s)) with (table_ s).
  change (brk (graft F s)) with (brk s).
  destruct (0 <? capacity_ s).
  - rewrite Hadd.
    destruct (HT_Insert (heap (added k h v c d true s)) (table_ s) (brk s))
      as [[t old]|] eqn:Hins; simpl in Hi; [|done].
    assert (HT_Insert (heap (graft F (added k h v c d true s))) (table_ s)
              (brk s) = Some (t, old)) as ->.
    { eapply HT_Insert_mono; [|done]. apply map_union_subseteq_l. }
    simpl.
    destruct (FinishErase old (set_table t (added k h v c d true s)))
      as [[s1 b]|] eqn:Hf; simpl in Hi; [|done].
    destruct (FinishErase_frame F old _ s1 b Hf (Hdadd true)) as [Hf' Hd1].
    change (set_table t (graft F (added k h v c d true s)))
      with (graft F (set_table t (added k h v c d true s))).
    rewrite Hf'. simpl.
    destruct (Insert_evict _ s1) as [s2|] eqn:He; simpl in Hi; [|done].
    injection Hi as <- <-.
    destruct (Insert_evict_frame F _ s1 s2 He Hd1) as [He' Hd2].
    change (table_ (graft F s1)) with (table_ s1). by rewrite He'.
  - rewrite Hadd. simpl in *.
    destruct (Insert_evict _ (added k h v c d false s)) as [s2|] eqn:He;
      simpl in Hi; [|done].
    injection Hi as <- <-.
    destruct (Insert_evict_frame F _ _ s2 He (Hdadd false)) as [He' Hd2].
    change (table_ (graft F (added k h v c d false s)))
      with (table_ (added k h v c d false s)).
    by rewrite He'.
Qed.

(** * The invariant of the sharded cache *)

Lemma own_lookup i H a e :
  own i H !! a = Some e ↔ H !! a = Some e ∧ Shard (hash e) = i.
Proof. unfold own. by rewrite map_lookup_filter_Some. Qed.

Lemma others_lookup i H a e :
  others i H !! a = Some e ↔ H !! a = Some e ∧ Shard (hash e) ≠ i.
Proof. unfold others. by rewrite map_lookup_filter_Some. Qed.

Lemma own_union_others i H : own i H ∪ others i H = H.
Proof. apply (map_filter_union_complement _ H). Qed.

Lemma own_others_disjoint i H : own i H ##ₘ others i H.
Proof. apply (map_disjoint_filter_complement _ H). Qed.

Lemma attach_graft i c s :
  attach c s = graft (others i (proc_heap c)) (view i c s).
Proof.
  unfold attach, graft, view. simpl. by rewrite own_union_others.
Qed.

Lemma pure_view i c s : pure i (view i c s).
Proof. intros a e He. simpl in He. by apply own_lookup in He as [_ ?]. Qed.

Lemma own_id i s : pure i s → own i (heap s) = heap s.
Proof.
  intros Hp. apply map_eq. intros a. apply option_eq. intros e.
  rewrite own_lookup. split; [by intros [? _]|].
  intros He. split; [done|]. by eapply Hp.
Qed.

Lemma own_others_same i H : own i (others i H) = ∅.
Proof.
  apply map_eq. intros a. apply option_eq. intros e.
  rewrite own_lookup, others_lookup, lookup_empty. split; [|done].
  by intros [[_ ?] ?].
Qed.

Lemma own_ne i j s : j ≠ i → pure i s → own j (heap s) = ∅.
Proof.
  intros Hne Hp. apply map_eq. intros a. apply option_eq. intros e.
  rewrite own_lookup, lookup_empty. split; [|done].
  intros [He Hs]. rewrite (Hp a e He) in Hs. done.
Qed.

Lemma own_others_ne i j H : j ≠ i → own j (others i H) = own j H.
Proof.
  intros Hne. apply map_eq. intros a. apply option_eq. intros e.
  rewrite !own_lookup, others_lookup. split.
  - by intros [[? _] ?].
  - intros [? Hs]. split; [|done]. split; [done|]. by rewrite Hs.
Qed.

Lemma own_union i H1 H2 :
  H1 ##ₘ H2 → own i (H1 ∪ H2) = own i H1 ∪ own i H2.
Proof. apply map_filter_union. Qed.

(** The invariant of a shard does not depend on the deleter log, and holds
    for every larger value of the allocator's next address. *)
Lemma inv_brk_mono p cap s held b d :
  inv p cap s held → (brk s <= b)%nat →
  inv p cap (set_deleted d (set_brk b s)) held.
Proof.
  intros Hinv Hb. destruct_inv Hinv.
  split; try done.
  intros a Ha. simpl. specialize (inv_brk a Ha). lia.
Qed.

Lemma evolves_pure X s s' i : evolves X s s' → pure i s → pure i s'.
Proof.
  intros Hev Hp a e' He'.
  destruct (heap s !! a) as [e|] eqn:He.
  - pose proof (ev_keep _ _ _ Hev a e He) as Hk. rewrite He' in Hk.
    destruct Hk as [(_ & _ & _ & _ & Hh) _]. rewrite Hh. by eapply Hp.
  - rewrite (ev_alloc _ _ _ Hev a He) in He'. done.
Qed.

Lemma added_pure i s k h v c d cached :
  pure i s → Shard h = i → pure i (added k h v c d cached s).
Proof.
  intros Hp Hs a e. simpl. destruct (decide (a = brk s)) as [->|Hne].
  - rewrite lookup_insert_eq. intros [= <-]. done.
  - rewrite lookup_insert_ne by done. apply Hp.
Qed.

Lemma view_eta i c v F :
  pure i v → heap v ##ₘ F → own i F = ∅ →
  view i {| shard_ := <[i := detach (graft F v)]> (shard_ c);
            last_id_ := last_id_ c; proc_heap := heap v ∪ F;
            proc_brk := brk v; proc_deleted := deleted v |}
       (detach (graft F v)) = v.
Proof.
  intros Hp Hd Hf. unfold view, attach, detach, graft. simpl.
  rewrite own_union by done. rewrite Hf, (own_id _ _ Hp), (right_id ∅ _).
  by destruct v.
Qed.

(** A method that keeps the invariant of shard [i], run through the array
    of shards, keeps the invariant of the sharded cache and leaves the other
    shards and their records as they are. *)
Lemma on_shard_preserves {A} cap c bags i s bag
    (f : LRUCache → option (LRUCache * A)) v' r bag' :
  sinv cap c bags →
  shard_ c !! i = Some s → bags !! i = Some bag →
  f (view i c s) = Some (v', r) →
  (∀ F, heap (view i c s) ##ₘ F → F !! brk (view i c s) = None →
        f (graft F (view i c s)) = Some (graft F v', r) ∧ heap v' ##ₘ F) →
  inv None cap v' bag' → pure i v' → (proc_brk c <= brk v')%nat →
  ∃ c' s',
    on_shard i f c = Some (c', r) ∧
    shard_ c' !! i = Some s' ∧ view i c' s' = v' ∧
    (∀ j, j ≠ i → shard_ c' !! j = shard_ c !! j) ∧
    proc_heap c' = heap v' ∪ others i (proc_heap c) ∧
    heap v' ##ₘ others i (proc_heap c) ∧
    last_id_ c' = last_id_ c ∧
    sinv cap c' (<[i := bag']> bags).
Proof.
  intros Hs Hsi Hbi Hf Hframe Hinv' Hp Hbrk.
  destruct Hs as [Hlen Hblen Hok Hhash Hsbrk].
  set (F := others i (proc_heap c)).
  assert (i < 16)%nat as Hi.
  { rewrite <-Hlen. by eapply lookup_lt_Some. }
  destruct (Hframe F) as [Hf' Hd'].
  { simpl. apply own_others_disjoint. }
  { simpl. destruct (F !! proc_brk c) as [e|] eqn:He; [|done].
    apply others_lookup in He as [He _].
    pose proof (Hsbrk (proc_brk c) ltac:(by eexists)). lia. }
  set (c' := {| shard_ := <[i := detach (graft F v')]> (shard_ c);
                last_id_ := last_id_ c; proc_heap := heap v' ∪ F;
                proc_brk := brk v'; proc_deleted := deleted v' |}).
  assert (view i c' (detach (graft F v')) = v') as Hview.
  { apply view_eta; [done|done|apply own_others_same]. }
  exists c', (detach (graft F v')). split.
  { unfold on_shard. rewrite Hsi. cbn [mbind option_bind].
    rewrite (attach_graft i c s). fold F. rewrite Hf'. done. }
  split.
  { simpl. apply list_lookup_insert_eq. by rewrite Hlen. }
  split; [done|]. split.
  { intros j Hj. simpl. by rewrite list_lookup_insert_ne. }
  split; [done|]. split; [done|]. split; [done|].
  split.
  - simpl. by rewrite length_insert.
  - by rewrite length_insert.
  - intros j Hj. destruct (decide (j = i)) as [->|Hne].
    + exists (detach (graft F v')), bag'. split.
      { simpl. apply list_lookup_insert_eq. by rewrite Hlen. }
      split; [apply list_lookup_insert_eq; by rewrite Hblen|].
      by rewrite Hview.
    + destruct (Hok j Hj) as (sj & bj & Hsj & Hbj & Hinvj).
      exists sj, bj. split.
      { simpl. by rewrite list_lookup_insert_ne. }
      split; [by rewrite list_lookup_insert_ne|].
      assert (view j c' sj =
              set_deleted (deleted v') (set_brk (brk v') (view j c sj)))
        as ->.
      { assert (own j (proc_heap c') = own j (proc_heap c)) as Hown.
        { simpl. rewrite own_union by done.
          rewrite (own_ne i j v' Hne Hp), (left_id ∅ _).
          by apply own_others_ne. }
        unfold view. rewrite Hown. reflexivity. }
      apply inv_brk_mono; [done|]. simpl. lia.
  - intros a e. simpl. rewrite lookup_union_Some by done.
    intros [He|He].
    + by apply (inv_fields _ _ _ _ Hinv' a e).
    + apply others_lookup in He as [He _]. by eapply Hhash.
  - intros a [e He]. simpl in *. apply lookup_union_Some in He; [|done].
    destruct He as [He|He].
    + apply (inv_brk _ _ _ _ Hinv'). by eexists.
    + apply others_lookup in He as [He _].
      pose proof (Hsbrk a ltac:(by eexists)). lia.
Qed.

(** ** Bags of handles *)

Lemma remove_one_perm a (l : list addr) : a ∈ l → l ≡ₚ a :: remove_one a l.
Proof.
  induction l as [|x l IH]; [by intros ?%elem_of_nil|].
  intros Hin. simpl. destruct (decide (x = a)) as [->|Hne]; [done|].
  apply elem_of_cons in Hin as [->|Hin]; [done|].
  rewrite (IH Hin) at 1. apply Permutation_swap.
Qed.

Lemma concat_insert_cons (bags : list (list addr)) i bag e :
  bags !! i = Some bag →
  concat (<[i := e :: bag]> bags) ≡ₚ e :: concat bags.
Proof.
  intros Hi. rewrite (concat_insert _ _ _ _ Hi), (concat_split _ _ _ Hi).
  simpl. symmetry. apply Permutation_middle.
Qed.

Lemma concat_insert_remove (bags : list (list addr)) i bag a :
  bags !! i = Some bag → a ∈ bag →
  concat bags ≡ₚ a :: concat (<[i := remove_one a bag]> bags).
Proof.
  intros Hi Ha. rewrite (concat_insert _ _ _ _ Hi), (concat_split _ _ _ Hi).
  rewrite (remove_one_perm a bag Ha) at 1. simpl.
  symmetry. apply Permutation_middle.
Qed.

Lemma holds_perm (l l' : list addr) a : l ≡ₚ l' → holds l a = holds l' a.
Proof. intros Hp. unfold holds. by rewrite Hp. Qed.

Lemma holds_app (l l' : list addr) a :
  holds (l ++ l') a = holds l a + holds l' a.
Proof. unfold holds. rewrite filter_app, length_app. lia. Qed.

Lemma holds_bag (bags : list (list addr)) i bag a :
  bags !! i = Some bag → holds bag a <= holds (concat bags) a.
Proof.
  intros Hi. rewrite (concat_split _ _ _ Hi), !holds_app.
  pose proof (holds_nonneg (concat (take i bags)) a).
  pose proof (holds_nonneg (concat (drop (S i) bags)) a). lia.
Qed.

Lemma elem_of_bags (bags : list (list addr)) a :
  a ∈ concat bags → ∃ i bag, bags !! i = Some bag ∧ a ∈ bag.
Proof.
  intros (bag & Ha & Hb)%elem_of_concat.
  apply list_elem_of_lookup in Hb as [i Hi]. by exists i, bag.
Qed.

(** ** One call on one shard *)

Lemma step_keeps cap s held ev s' held' i :
  inv None cap s held → step s held ev s' held' →
  pure i s → (∀ k h v c d e, ev = EvInsert k h v c d e → Shard h = i) →
  inv None cap s' held' ∧ pure i s' ∧ (brk s <= brk s')%nat.
Proof.
  intros Hinv Hstep Hp Hins.
  destruct Hstep as
    [s held k h v c d s' e Hh Hc Hlt Hop
    |s held k h s' e Hh Hb Hop
    |s held k h s' Hh Hop
    |s held a s' Hin Hop
    |s held k h s' Hh Hop
    |s held s' Hop].
  - destruct (Insert_inv cap s held k h v c d Hinv Hh Hc Hlt)
      as (s2 & X & Heq & Hinv2 & _ & Hevo & _).
    rewrite Hop in Heq. injection Heq as <- ->. split; [done|]. split.
    + eapply evolves_pure; [done|]. apply added_pure; [done|].
      by eapply Hins.
    + rewrite (ev_brk _ _ _ Hevo). simpl. lia.
  - destruct (Lookup_hit_inv _ _ _ _ _ _ _ Hinv Hop Hb)
      as (Hinv' & Hevo & _).
    split; [done|]. split; [by eapply evolves_pure|].
    rewrite (ev_brk _ _ _ Hevo). lia.
  - apply Lookup_miss_same in Hop as ->. done.
  - destruct (Release_inv _ _ _ _ Hinv Hin) as (s2 & Heq & Hinv' & Hevo & _).
    rewrite Hop in Heq. injection Heq as <-.
    split; [done|]. split; [by eapply evolves_pure|].
    rewrite (ev_brk _ _ _ Hevo). lia.
  - destruct (Erase_inv _ _ _ k h Hinv) as (s2 & Heq & Hinv' & Hcase).
    rewrite Hop in Heq. injection Heq as <-. split; [done|].
    destruct Hcase as [[-> _]|(a & e & t & He & Hic & _ & _ & _ & ->)];
      [done|].
    assert (evolves ([] ++ [a]) s (erased_state a e (set_table t s)))
      as Hevo.
    { eapply evolves_trans; [apply (evolves_set_table t)|].
      by apply evolves_erased. }
    split; [by eapply evolves_pure|].
    rewrite (ev_brk _ _ _ Hevo). lia.
  - destruct (Prune_inv _ _ _ Hinv) as (s2 & Heq & Hinv' & _ & _ & Hevo & _).
    rewrite Hop in Heq. injection Heq as <-.
    split; [done|]. split; [by eapply evolves_pure|].
    rewrite (ev_brk _ _ _ Hevo). lia.
Qed.

Lemma on_shard_local {A} cap c bags i s bag
    (f : LRUCache → option (LRUCache * A)) v' r bag' c0 r0 :
  sinv cap c bags →
  shard_ c !! i = Some s → bags !! i = Some bag →
  f (view i c s) = Some (v', r) →
  (∀ F, heap (view i c s) ##ₘ F → F !! brk (view i c s) = None →
        f (graft F (view i c s)) = Some (graft F v', r) ∧ heap v' ##ₘ F) →
  inv None cap v' bag' → pure i v' → (proc_brk c <= brk v')%nat →
  on_shard i f c = Some (c0, r0) →
  r0 = r ∧
  ∃ s', shard_ c0 !! i = Some s' ∧ view i c0 s' = v' ∧
        (∀ j, j ≠ i → shard_ c0 !! j = shard_ c !! j ∧
                      own j (proc_heap c0) = own j (proc_heap c)) ∧
        last_id_ c0 = last_id_ c ∧
        sinv cap c0 (<[i := bag']> bags).
Proof.
  intros Hs Hsi Hbi Hf Hframe Hinv' Hp Hbrk Hon.
  destruct (on_shard_preserves cap c bags i s bag f v' r bag' Hs Hsi Hbi Hf
              Hframe Hinv' Hp Hbrk)
    as (c' & s' & Hon' & Hsi' & Hview & Hoth & Hheap & Hdisj & Hid & Hs').
  rewrite Hon in Hon'. injection Hon' as <- <-. split; [done|].
  exists s'. split; [done|]. split; [done|]. split; [|done].
  intros j Hj. split; [by apply Hoth|].
  rewrite Hheap, own_union by done.
  rewrite (own_ne i j v' Hj Hp), (left_id ∅ _). by apply own_others_ne.
Qed.

Lemma on_shard_result {A} cap c bags i s
    (f : LRUCache → option (LRUCache * A)) v' r c0 r0 :
  sinv cap c bags → shard_ c !! i = Some s →
  f (view i c s) = Some (v', r) →
  (∀ F, heap (view i c s) ##ₘ F → F !! brk (view i c s) = None →
        f (graft F (view i c s)) = Some (graft F v', r) ∧ heap v' ##ₘ F) →
  on_shard i f c = Some (c0, r0) → r0 = r.
Proof.
  intros Hs Hsi Hf Hframe Hon.
  destruct (Hframe (others i (proc_heap c))) as [Hf' _].
  { simpl. apply own_others_disjoint. }
  { simpl. destruct (others i (proc_heap c) !! proc_brk c) as [e|] eqn:He;
      [|done].
    apply others_lookup in He as [He _].
    pose proof (sinv_brk _ _ _ Hs (proc_brk c) ltac:(by eexists)). lia. }
  unfold on_shard in Hon. rewrite Hsi in Hon. cbn [mbind option_bind] in Hon.
  rewrite (attach_graft i c s), Hf' in Hon. by injection Hon as _ <-.
Qed.

Lemma on_shard_unit_local cap c bags i s bag
    (f : LRUCache → option LRUCache) v' bag' c0 :
  sinv cap c bags →
  shard_ c !! i = Some s → bags !! i = Some bag →
  f (view i c s) = Some v' →
  (∀ F, heap (view i c s) ##ₘ F →
        f (graft F (view i c s)) = Some (graft F v') ∧ heap v' ##ₘ F) →
  inv None cap v' bag' → pure i v' → (proc_brk c <= brk v')%nat →
  on_shard_ i f c = Some c0 →
  ∃ s', shard_ c0 !! i = Some s' ∧ view i c0 s' = v' ∧
        (∀ j, j ≠ i → shard_ c0 !! j = shard_ c !! j ∧
                      own j (proc_heap c0) = own j (proc_heap c)) ∧
        last_id_ c0 = last_id_ c ∧
        sinv cap c0 (<[i := bag']> bags).
Proof.
  intros Hs Hsi Hbi Hf Hframe Hinv' Hp Hbrk Hon.
  unfold on_shard_ in Hon.
  destruct (on_shard i (λ s0, (λ s1, (s1, ())) <$> f s0) c)
    as [[c1 []]|] eqn:Hon1; simpl in Hon; [|done].
  injection Hon as <-.
  destruct (on_shard_local cap c bags i s bag
              (λ s0, (λ s1, (s1, ())) <$> f s0) v' () bag' c1 ()
              Hs Hsi Hbi) as (_ & Hres); [| | | | |done|done].
  - by rewrite Hf.
  - intros F Hd _. destruct (Hframe F Hd) as [-> Hd']. done.
  - done.
  - done.
  - done.
Qed.

Lemma on_shard_unit_defined cap c bags i s
    (f : LRUCache → option LRUCache) v' :
  sinv cap c bags → shard_ c !! i = Some s →
  f (view i c s) = Some v' →
  (∀ F, heap (view i c s) ##ₘ F →
        f (graft F (view i c s)) = Some (graft F v') ∧ heap v' ##ₘ F) →
  is_Some (on_shard_ i f c).
Proof.
  intros Hs Hsi Hf Hframe.
  destruct (Hframe (others i (proc_heap c))) as [Hf' _].
  { simpl. apply own_others_disjoint. }
  unfold on_shard_, on_shard. rewrite Hsi. cbn [mbind option_bind].
  rewrite (attach_graft i c s), Hf'. by eexists.
Qed.

Section Sharded.
Variable HashSlice : string → Z.
Hypothesis HashSlice_uint32 : ∀ key, is_uint32 (HashSlice key).

(** Every call on the sharded cache other than [Prune] is one call on one
    shard, seen with its own records; the other shards and their records
    are not touched. *)
Lemma sharded_step_local cap c bags held ev c' held' :
  sinv cap c bags → held ≡ₚ concat bags →
  sharded_step HashSlice c held ev c' held' → ev ≠ SvPrune →
  ∃ i s s' bag bag',
    shard_ c !! i = Some s ∧ bags !! i = Some bag ∧
    inv None cap (view i c s) bag ∧
    step (view i c s) bag (local_event HashSlice ev) (view i c' s') bag' ∧
    shard_ c' !! i = Some s' ∧
    (∀ j, j ≠ i → shard_ c' !! j = shard_ c !! j ∧
                  own j (proc_heap c') = own j (proc_heap c)) ∧
    last_id_ c' = last_id_ c ∧
    sinv cap c' (<[i := bag']> bags) ∧
    held' ≡ₚ concat (<[i := bag']> bags) ∧
    target HashSlice c ev = Some i.
Proof.
  intros Hs Hheld Hstep Hnp.
  destruct Hstep as
    [c held key v ch d c' e Hch Hbound Hop
    |c held key c' e Hb Hop
    |c held key c' Hop
    |c held a c' Hin Hop
    |c held key c' Hop
    |c held c' Hop]; [| | | | |done].
  - set (i := Shard (HashSlice key)) in *.
    pose proof (Shard_lt _ (HashSlice_uint32 key)) as Hi.
    destruct (sinv_ok _ _ _ Hs i Hi) as (s & bag & Hsi & Hbi & Hinv).
    assert (elems_ (table_ (view i c s)) < 2 ^ 31) as Hlt.
    { simpl. by apply Hbound. }
    destruct (Insert_inv cap (view i c s) bag key (HashSlice key) v ch d
                Hinv (HashSlice_uint32 key) Hch Hlt) as (v' & X & HI & _).
    assert (step (view i c s) bag
              (EvInsert key (HashSlice key) v ch d (brk (view i c s)))
              v' (brk (view i c s) :: bag)) as Hst.
    { by apply step_insert. }
    destruct (step_keeps _ _ _ _ _ _ i Hinv Hst (pure_view i c s))
      as (Hinv' & Hp' & Hb').
    { intros ? ? ? ? ? ? [= _ <- _ _ _ _]. done. }
    unfold Sharded_Insert in Hop.
    destruct (on_shard_local cap c bags i s bag _ v' _
                (brk (view i c s) :: bag) c' e Hs Hsi Hbi HI)
      as (-> & s' & Hsi' & Hview & Hoth & Hid & Hs');
      [|done|done|done|done|].
    { intros F Hd Hf. by apply Insert_frame. }
    exists i, s, s', bag, (brk (view i c s) :: bag). rewrite Hview.
    do 8 (split; [done|]). split; [|done].
    rewrite concat_insert_cons by done. by rewrite Hheld.
  - set (i := Shard (HashSlice key)) in *.
    pose proof (Shard_lt _ (HashSlice_uint32 key)) as Hi.
    destruct (sinv_ok _ _ _ Hs i Hi) as (s & bag & Hsi & Hbi & Hinv).
    destruct (Lookup_result _ _ _ _ key (HashSlice key) Hinv)
      as (v' & r & Hl & _).
    unfold Sharded_Lookup in Hop.
    assert (Some e = r) as <-.
    { eapply (on_shard_result cap c bags i s); [done|done|exact Hl| |done].
      intros F Hd _. by apply Lookup_frame. }
    assert (holds bag e < 2 ^ 32 - 2) as Hb'.
    { pose proof (holds_bag bags i bag e Hbi).
      rewrite (holds_perm _ _ e Hheld) in Hb. lia. }
    assert (step (view i c s) bag (EvLookup key (HashSlice key) (Some e))
              v' (e :: bag)) as Hst.
    { by apply step_lookup_hit. }
    destruct (step_keeps _ _ _ _ _ _ i Hinv Hst (pure_view i c s))
      as (Hinv' & Hp' & Hbk); [done|].
    destruct (on_shard_local cap c bags i s bag _ v' _ (e :: bag) c' (Some e)
                Hs Hsi Hbi Hl)
      as (_ & s' & Hsi' & Hview & Hoth & Hid & Hs');
      [|done|done|done|done|].
    { intros F Hd _. by apply Lookup_frame. }
    exists i, s, s', bag, (e :: bag). rewrite Hview.
    do 8 (split; [done|]). split; [|done].
    rewrite concat_insert_cons by done. by rewrite Hheld.
  - set (i := Shard (HashSlice key)) in *.
    pose proof (Shard_lt _ (HashSlice_uint32 key)) as Hi.
    destruct (sinv_ok _ _ _ Hs i Hi) as (s & bag & Hsi & Hbi & Hinv).
    destruct (Lookup_result _ _ _ _ key (HashSlice key) Hinv)
      as (v' & r & Hl & _).
    unfold Sharded_Lookup in Hop.
    assert (None = r) as <-.
    { eapply (on_shard_result cap c bags i s); [done|done|exact Hl| |done].
      intros F Hd _. by apply Lookup_frame. }
    assert (step (view i c s) bag (EvLookup key (HashSlice key) None)
              v' bag) as Hst.
    { by apply step_lookup_miss. }
    destruct (step_keeps _ _ _ _ _ _ i Hinv Hst (pure_view i c s))
      as (Hinv' & Hp' & Hbk); [done|].
    destruct (on_shard_local cap c bags i s bag _ v' _ bag c' None
                Hs Hsi Hbi Hl)
      as (_ & s' & Hsi' & Hview & Hoth & Hid & Hs');
      [|done|done|done|done|].
    { intros F Hd _. by apply Lookup_frame. }
    exists i, s, s', bag, bag. rewrite Hview.
    do 8 (split; [done|]). split; [|done].
    rewrite list_insert_id by done. done.
  - assert (a ∈ concat bags) as Ha by (by rewrite <-Hheld).
    apply elem_of_bags in Ha as (i & bag & Hbi & Ha).
    assert (i < 16)%nat as Hi.
    { rewrite <-(sinv_bags _ _ _ Hs). by eapply lookup_lt_Some. }
    destruct (sinv_ok _ _ _ Hs i Hi) as (s & bag0 & Hsi & Hbi0 & Hinv).
    rewrite Hbi in Hbi0. injection Hbi0 as <-.
    destruct (inv_held _ _ _ _ Hinv a Ha) as [e He]. simpl in He.
    apply own_lookup in He as [He Hsh].
    unfold Sharded_Release in Hop. rewrite He in Hop. simpl in Hop.
    rewrite Hsh in Hop.
    destruct (Release_inv _ _ _ _ Hinv Ha) as (v' & Hr & _).
    assert (step (view i c s) bag (EvRelease a) v' (remove_one a bag))
      as Hst.
    { by apply step_release. }
    destruct (step_keeps _ _ _ _ _ _ i Hinv Hst (pure_view i c s))
      as (Hinv' & Hp' & Hbk); [done|].
    destruct (on_shard_unit_local cap c bags i s bag _ v' (remove_one a bag)
                c' Hs Hsi Hbi Hr)
      as (s' & Hsi' & Hview & Hoth & Hid & Hs'); [|done|done|done|done|].
    { intros F Hd. by apply Release_frame. }
    exists i, s, s', bag, (remove_one a bag). rewrite Hview.
    do 8 (split; [done|]). split; [|by simpl; rewrite He; simpl; rewrite Hsh].
    apply (Permutation_cons_inv (a := a)).
    rewrite <-concat_insert_remove by done.
    rewrite <-Hheld. symmetry. by apply remove_one_perm.
  - set (i := Shard (HashSlice key)) in *.
    pose proof (Shard_lt _ (HashSlice_uint32 key)) as Hi.
    destruct (sinv_ok _ _ _ Hs i Hi) as (s & bag & Hsi & Hbi & Hinv).
    destruct (Erase_inv _ _ _ key (HashSlice key) Hinv) as (v' & He & _).
    assert (step (view i c s) bag (EvErase key (HashSlice key)) v' bag)
      as Hst.
    { by apply step_erase. }
    destruct (step_keeps _ _ _ _ _ _ i Hinv Hst (pure_view i c s))
      as (Hinv' & Hp' & Hbk); [done|].
    unfold Sharded_Erase in Hop.
    destruct (on_shard_unit_local cap c bags i s bag _ v' bag c'
                Hs Hsi Hbi He)
      as (s' & Hsi' & Hview & Hoth & Hid & Hs'); [|done|done|done|done|].
    { intros F Hd. by apply Erase_frame. }
    exists i, s, s', bag, bag. rewrite Hview.
    do 8 (split; [done|]). split; [|done].
    rewrite list_insert_id by done. done.
Qed.

Lemma heap_by_own (H H' : gmap addr LRUHandle) a :
  (∀ j, own j H' !! a = own j H !! a) → H' !! a = H !! a.
Proof.
  intros Hown. destruct (H !! a) as [e|] eqn:He.
  - assert (own (Shard (hash e)) H !! a = Some e) as Ho
      by (by apply own_lookup).
    rewrite <-Hown in Ho. by apply own_lookup in Ho as [? _].
  - destruct (H' !! a) as [e'|] eqn:He'; [|done].
    assert (own (Shard (hash e')) H' !! a = Some e') as Ho
      by (by apply own_lookup).
    rewrite Hown in Ho. apply own_lookup in Ho as [Ho _]. congruence.
Qed.

(** The loop of [ShardedLRUCache::Prune] after [n] rounds. *)
Lemma sharded_prune_upto cap bags c n :
  (n <= 16)%nat → sinv cap c bags →
  ∃ c',
    foldl (λ acc s, c' ← acc; on_shard_ s Prune c') (Some c) (seq 0 n) =
      Some c' ∧
    sinv cap c' bags ∧ last_id_ c' = last_id_ c ∧
    (∀ j s', (j < n)%nat → shard_ c' !! j = Some s' → lru_ s' = []) ∧
    (∀ j s', shard_ c' !! j = Some s' →
       ∃ s, shard_ c !! j = Some s ∧ in_use_ s' = in_use_ s ∧
            capacity_ s' = capacity_ s) ∧
    (∀ j, (n <= j)%nat → shard_ c' !! j = shard_ c !! j) ∧
    (∀ a, (∀ j s, (j < n)%nat → shard_ c !! j = Some s → a ∉ lru_ s) →
          proc_heap c' !! a = proc_heap c !! a) ∧
    (∀ a j s, shard_ c !! j = Some s → (j < n)%nat → a ∈ lru_ s →
              proc_heap c' !! a = None) ∧
    proc_deleted c' =
      proc_deleted c ++
      concat ((λ s, calls_of (proc_heap c) (lru_ s)) <$> take n (shard_ c)).
Proof.
  intros Hn Hs. induction n as [|n IH].
  - exists c. split; [done|]. split; [done|]. split; [done|].
    split; [intros; lia|]. split; [intros j s' ?; by exists s'|].
    split; [done|]. split; [done|]. split; [intros; lia|].
    rewrite take_0. simpl. by rewrite app_nil_r.
  - destruct IH as (c1 & Hloop & Hs1 & Hid1 & Hlru1 & Huse1 & Hrest1 & Hfr1
                    & Hgone1 & Hdel1); [lia|].
    rewrite seq_S, foldl_app, Hloop. simpl.
    destruct (sinv_ok _ _ _ Hs1 n ltac:(lia)) as (s & bag & Hsn & Hbn & Hinv).
    destruct (Prune_inv _ _ _ Hinv)
      as (v' & Hp & Hinv' & Hl' & Hu' & Hevo & Hfr & Hgone & Hdel).
    assert (pure n v') as Hpure.
    { eapply evolves_pure; [done|apply pure_view]. }
    destruct (on_shard_unit_defined cap c1 bags n s Prune v' Hs1 Hsn Hp)
      as [c2 Hon].
    { intros F Hd. by apply Prune_frame. }
    destruct (on_shard_unit_local cap c1 bags n s bag Prune v' bag c2
                Hs1 Hsn Hbn Hp)
      as (s' & Hsn' & Hview & Hoth & Hid2 & Hs2); [|done|done| |done|].
    { intros F Hd. by apply Prune_frame. }
    { rewrite (ev_brk _ _ _ Hevo). simpl. lia. }
    rewrite list_insert_id in Hs2 by done.
    assert (lru_ s' = lru_ v' ∧ in_use_ s' = in_use_ v' ∧
            capacity_ s' = capacity_ v') as (Hls & Hus & Hcs).
    { by rewrite <-Hview. }
    assert (shard_ c1 !! n = shard_ c !! n) as Hsame by (apply Hrest1; lia).
    exists c2. split; [done|]. split; [done|]. split; [congruence|]. split.
    { intros j sj Hj Hsj. destruct (decide (j = n)) as [->|Hne].
      - rewrite Hsn' in Hsj. injection Hsj as <-. congruence.
      - rewrite (proj1 (Hoth j Hne)) in Hsj. apply (Hlru1 j sj); [lia|done]. }
    split.
    { intros j sj Hsj. destruct (decide (j = n)) as [->|Hne].
      - rewrite Hsn' in Hsj. injection Hsj as <-. exists s.
        split; [congruence|]. split; [by rewrite Hus, Hu'|].
        rewrite Hcs, (ev_cap _ _ _ Hevo). done.
      - rewrite (proj1 (Hoth j Hne)) in Hsj. by apply Huse1. }
    split.
    { intros j Hj. rewrite (proj1 (Hoth j ltac:(lia))). apply Hrest1. lia. }
    split.
    { intros a Ha.
      rewrite <-(Hfr1 a) by (intros j sj Hj Hsj; apply (Ha j sj); [lia|done]).
      apply heap_by_own. intros j.
      destruct (decide (j = n)) as [->|Hne];
        [|by rewrite (proj2 (Hoth j Hne))].
      assert (own n (proc_heap c2) = heap v') as ->.
      { by rewrite <-Hview. }
      rewrite Hfr; [done|]. simpl. apply (Ha n); [lia|congruence]. }
    split; [|shelve].
    intros a j sj Hsj Hj Ha.
    destruct (decide (j = n)) as [->|Hne].
    + rewrite <-Hsame, Hsn in Hsj. injection Hsj as <-.
      destruct (proc_heap c2 !! a) as [e|] eqn:He; [|done].
      assert (heap v' !! a = None) as Hnone by (by apply Hgone).
      destruct (decide (Shard (hash e) = n)) as [Hsh|Hsh].
      * assert (own n (proc_heap c2) !! a = Some e) as Ho
          by (by apply own_lookup).
        assert (own n (proc_heap c2) = heap v') as Hv
          by (by rewrite <-Hview).
        rewrite Hv, Hnone in Ho. done.
      * assert (own (Shard (hash e)) (proc_heap c2) !! a = Some e) as Ho
          by (by apply own_lookup).
        rewrite (proj2 (Hoth _ Hsh)) in Ho. apply own_lookup in Ho as [Ho _].
        assert (a ∈ lru_ (view n c1 s)) as Hal by done.
        apply (inv_lru _ _ _ _ Hinv) in Hal as (e1 & He1 & _).
        simpl in He1. apply own_lookup in He1 as [He1 Hs1'].
        rewrite Ho in He1. injection He1 as <-. done.
    + assert (proc_heap c1 !! a = None) as Hn1.
      { apply (Hgone1 a j sj); [done|lia|done]. }
      destruct (proc_heap c2 !! a) as [e|] eqn:He; [|done].
      destruct (decide (Shard (hash e) = n)) as [Hsh|Hsh].
      * assert (own n (proc_heap c2) !! a = Some e) as Ho
          by (by apply own_lookup).
        assert (own n (proc_heap c2) = heap v') as Hv
          by (by rewrite <-Hview).
        rewrite Hv in Ho.
        destruct (heap (view n c1 s) !! a) as [e0|] eqn:He0.
        -- simpl in He0. apply own_lookup in He0 as [He0 _]. congruence.
        -- rewrite (ev_alloc _ _ _ Hevo a He0) in Ho. done.
      * assert (own (Shard (hash e)) (proc_heap c2) !! a = Some e) as Ho
          by (by apply own_lookup).
        rewrite (proj2 (Hoth _ Hsh)) in Ho. apply own_lookup in Ho as [Ho _].
        congruence.
    Unshelve.
    assert (proc_deleted c2 = deleted v') as -> by (by rewrite <-Hview).
    rewrite Hdel. change (deleted (view n c1 s)) with (proc_deleted c1).
    rewrite Hdel1, <-app_assoc. f_equal.
    rewrite Hsame in Hsn. rewrite (take_S_r _ _ _ Hsn), fmap_app, concat_app.
    f_equal.
    change (concat ((λ s0, calls_of (proc_heap c) (lru_ s0)) <$> [s]))
      with (calls_of (proc_heap c) (lru_ s) ++ []).
    rewrite app_nil_r. apply calls_of_ext. intros b Hb.
    pose proof Hb as Hal.
    apply (inv_lru _ _ _ _ Hinv) in Hal as (e1 & He1 & _).
    rewrite He1. change (own n (proc_heap c1) !! b = Some e1) in He1.
    apply own_lookup in He1 as [He1 _]. rewrite <-He1. apply Hfr1.
    intros j sj Hj Hsj Hbj.
    rewrite (Hgone1 b j sj Hsj Hj Hbj) in He1. done.
Qed.

Lemma sharded_step_sinv cap c bags held ev c' held' :
  sinv cap c bags → held ≡ₚ concat bags →
  sharded_step HashSlice c held ev c' held' →
  ∃ bags', sinv cap c' bags' ∧ held' ≡ₚ concat bags'.
Proof.
  intros Hs Hheld Hstep.
  assert (ev = SvPrune ∨ ev ≠ SvPrune) as [->|Hne].
  { destruct ev; (by left) || (by right). }
  - inversion Hstep as [| | | | |c0 held0 c0' Hop]; subst.
    unfold Sharded_Prune in Hop.
    change (Z.to_nat kNumShards) with 16%nat in Hop.
    destruct (sharded_prune_upto cap bags c 16 ltac:(lia) Hs)
      as (c1 & Hloop & Hs1 & _).
    rewrite Hop in Hloop. injection Hloop as <-. by exists bags.
  - destruct (sharded_step_local cap c bags held ev c' held' Hs Hheld Hstep
                Hne)
      as (i & s & s' & bag & bag' & _ & _ & _ & _ & _ & _ & _ & Hs' & Hh' & _).
    by exists (<[i := bag']> bags).
Qed.

Lemma per_shard_size_t capacity : is_size_t (per_shard capacity).
Proof.
  unfold per_shard, kNumShards, kNumShardBits.
  change (Z.shiftl 1 4) with 16.
  destruct (wrap64_range (capacity + (16 - 1))) as [H0 H1]. split.
  - apply Z.div_pos; lia.
  - apply Z.div_lt_upper_bound; lia.
Qed.

Lemma sinv_new capacity c :
  NewLRUCache capacity = Some c →
  sinv (per_shard capacity) c (replicate 16 []) ∧ last_id_ c = 0.
Proof.
  intros Hnew. rewrite NewLRUCache_eq in Hnew. apply (inj Some) in Hnew.
  subst c. split; [|done]. split.
  - apply length_replicate.
  - apply length_replicate.
  - intros i Hi. exists (fresh_shard (per_shard capacity)), [].
    split; [by apply lookup_replicate_2|].
    split; [by apply lookup_replicate_2|].
    assert (view i {| shard_ := replicate 16 (fresh_shard (per_shard capacity));
                      last_id_ := 0; proc_heap := ∅; proc_brk := 0%nat;
                      proc_deleted := [] |}
              (fresh_shard (per_shard capacity)) =
            fresh_shard (per_shard capacity)) as ->.
    { unfold view, attach, own. simpl. by rewrite map_filter_empty. }
    apply inv_new; [apply per_shard_size_t|apply NewShard_eq].
  - intros a e He. simpl in He. by rewrite lookup_empty in He.
  - intros a [e He]. simpl in He. by rewrite lookup_empty in He.
Qed.

Lemma sharded_reachable_sinv capacity c held :
  sharded_reachable HashSlice capacity c held →
  ∃ bags, sinv (per_shard capacity) c bags ∧ held ≡ₚ concat bags.
Proof.
  induction 1 as [c Hcap Hnew|c held ev c' held' _ (bags & Hs & Hh) Hstep].
  - exists (replicate 16 []). split; [by apply sinv_new|].
    by rewrite concat_replicate_nil.
  - by eapply sharded_step_sinv.
Qed.

Lemma ssteps_reachable capacity c held evs c' held' :
  sharded_steps HashSlice c held evs c' held' →
  sharded_reachable HashSlice capacity c held →
  sharded_reachable HashSlice capacity c' held'.
Proof.
  induction 1 as [c held|c held ev c1 held1 evs c2 held2 Hstep _ IH];
    intros Hreach; [done|].
  apply IH. by eapply sreach_step.
Qed.

(** An entry of shard [i] that is in the cache stays there through every
    call that is quiet for its key, whichever shard the call goes to. *)
Lemma sharded_step_resident cap c bags held ev c' held' i s e key v :
  sinv cap c bags → held ≡ₚ concat bags →
  sharded_step HashSlice c held ev c' held' → squiet key ev →
  shard_ c !! i = Some s →
  resident (view i c s) e key (HashSlice key) v →
  ∃ s', shard_ c' !! i = Some s' ∧
        resident (view i c' s') e key (HashSlice key) v.
Proof.
  intros Hs Hheld Hstep Hq Hsi Hres.
  assert (ev ≠ SvPrune) as Hnp by (by intros ->).
  destruct (sharded_step_local cap c bags held ev c' held' Hs Hheld Hstep
              Hnp)
    as (i0 & s0 & s0' & bag & bag' & Hs0 & Hb0 & Hinv & Hst & Hs0' & Hoth & _).
  destruct (decide (i = i0)) as [->|Hne].
  - rewrite Hsi in Hs0. injection Hs0 as <-. exists s0'. split; [done|].
    eapply step_quiet_resident; [exact Hinv|exact Hst| |done].
    destruct ev; simpl in *; try done. intros [= ? _]. done.
  - destruct (Hoth i Hne) as [Hsame Hown]. exists s.
    split; [congruence|].
    destruct Hres as (r & Hr & Hrest). exists r. split; [|done].
    simpl in *. by rewrite Hown.
Qed.

Lemma sharded_steps_resident cap c held evs c' held' i e key v :
  sharded_steps HashSlice c held evs c' held' →
  ∀ bags s, sinv cap c bags → held ≡ₚ concat bags →
  Forall (squiet key) evs →
  shard_ c !! i = Some s →
  resident (view i c s) e key (HashSlice key) v →
  ∃ s', shard_ c' !! i = Some s' ∧
        resident (view i c' s') e key (HashSlice key) v.
Proof.
  induction 1 as [c held|c held ev c1 held1 evs c2 held2 Hstep _ IH];
    intros bags s Hs Hheld Hq Hsi Hres.
  - by exists s.
  - apply Forall_cons in Hq as [Hq1 Hq].
    destruct (sharded_step_resident cap c bags held ev c1 held1 i s e key v
                Hs Hheld Hstep Hq1 Hsi Hres) as (s1 & Hs1 & Hres1).
    destruct (sharded_step_sinv cap c bags held ev c1 held1 Hs Hheld Hstep)
      as (bags1 & Hsinv1 & Hheld1).
    by eapply (IH bags1 s1).
Qed.

End Sharded.

(** * The sharded cache *)

Lemma sample_hash_uint32 key : is_uint32 (sample_hash key).
Proof.
  unfold sample_hash, is_uint32.
  pose proof (Z.mod_pos_bound (Z.of_nat (String.length key)) 16 ltac:(lia)).
  lia.
Qed.

Lemma size_t_160 : is_size_t 160.
Proof. unfold is_size_t. lia. Qed.

Lemma sharded_reachable_fresh :
  sharded_reachable sample_hash 160 sharded_fresh [].
Proof. apply sreach_new; [apply size_t_160|]. vm_compute. reflexivity. Qed.

Lemma sharded_reachable_a :
  sharded_reachable sample_hash 160 sharded_a [0%nat].
Proof.
  eapply sreach_step; [apply sharded_reachable_fresh|].
  apply (sstep_insert sample_hash sharded_fresh [] "a" 100 6 0%nat
           sharded_a 0%nat).
  - apply size_t_6.
  - intros s Hs. vm_compute in Hs. injection Hs as <-. by vm_compute.
  - vm_compute. reflexivity.
Qed.

Lemma sharded_step_bb :
  sharded_step sample_hash sharded_a [0%nat] (SvInsert "bb" 200 6 0%nat 1%nat)
    sharded_a_bb [1%nat; 0%nat].
Proof.
  apply (sstep_insert sample_hash sharded_a [0%nat] "bb" 200 6 0%nat
           sharded_a_bb 1%nat).
  - apply size_t_6.
  - intros s Hs. vm_compute in Hs. injection Hs as <-. by vm_compute.
  - vm_compute. reflexivity.
Qed.

Lemma sharded_reachable_a_bb :
  sharded_reachable sample_hash 160 sharded_a_bb [1%nat; 0%nat].
Proof.
  eapply sreach_step; [apply sharded_reachable_a|apply sharded_step_bb].
Qed.

(** X20.  Calls on different shards do not interfere.  Every call on the
    sharded cache other than [Prune] goes to one shard: the one selected by
    the hash of the key, or, for a release, by the hash stored in the
    handle's record.  The members of every other shard, every record whose
    hash selects another shard, and the id counter are exactly as before:
    an insert can evict entries of its own shard only. *)
Theorem other_shards_untouched HashSlice capacity c held ev c' held' :
  (∀ key, is_uint32 (HashSlice key)) →
  sharded_reachable HashSlice capacity c held →
  sharded_step HashSlice c held ev c' held' → ev ≠ SvPrune →
  ∃ i, target HashSlice c ev = Some i ∧ (i < Z.to_nat kNumShards)%nat ∧
       last_id_ c' = last_id_ c ∧
       ∀ j, j ≠ i →
         shard_ c' !! j = shard_ c !! j ∧
         ∀ a e, Shard (hash e) = j →
                (proc_heap c' !! a = Some e ↔ proc_heap c !! a = Some e).
Proof.
  intros Hhash Hreach Hstep Hnp.
  destruct (sharded_reachable_sinv HashSlice Hhash capacity c held Hreach)
    as (bags & Hs & Hheld).
  destruct (sharded_step_local HashSlice Hhash _ c bags held ev c' held'
              Hs Hheld Hstep Hnp)
    as (i & s & s' & bag & bag' & Hsi & _ & _ & _ & _ & Hoth & Hid & _ & _
        & Ht).
  exists i. split; [done|]. split.
  { change (Z.to_nat kNumShards) with 16%nat.
    rewrite <-(sinv_len _ _ _ Hs). by eapply lookup_lt_Some. }
  split; [done|]. intros j Hj. destruct (Hoth j Hj) as [Hsame Hown].
  split; [done|]. intros a e Hsh.
  pose proof (own_lookup j (proc_heap c') a e) as H1.
  pose proof (own_lookup j (proc_heap c) a e) as H2.
  rewrite Hown in H1. tauto.
Qed.

Lemma other_shards_untouched_witness :
  (∀ key, is_uint32 (sample_hash key)) ∧
  sharded_step sample_hash sharded_a [0%nat] (SvInsert "bb" 200 6 0%nat 1%nat)
    sharded_a_bb [1%nat; 0%nat] ∧
  ∃ i, target sample_hash sharded_a (SvInsert "bb" 200 6 0%nat 1%nat) =
         Some i ∧
       (i < Z.to_nat kNumShards)%nat ∧
       last_id_ sharded_a_bb = last_id_ sharded_a ∧
       ∀ j, j ≠ i →
         shard_ sharded_a_bb !! j = shard_ sharded_a !! j ∧
         ∀ a e, Shard (hash e) = j →
                (proc_heap sharded_a_bb !! a = Some e ↔
                 proc_heap sharded_a !! a = Some e).
Proof.
  split; [exact sample_hash_uint32|]. split; [exact sharded_step_bb|].
  apply (other_shards_untouched sample_hash 160 sharded_a [0%nat] _
           sharded_a_bb [1%nat; 0%nat] sample_hash_uint32
           sharded_reachable_a sharded_step_bb).
  discriminate.
Defined.

Lemma on_shard_defined {A} cap c bags i s
    (f : LRUCache → option (LRUCache * A)) v' r :
  sinv cap c bags → shard_ c !! i = Some s →
  f (view i c s) = Some (v', r) →
  (∀ F, heap (view i c s) ##ₘ F → F !! brk (view i c s) = None →
        f (graft F (view i c s)) = Some (graft F v', r) ∧ heap v' ##ₘ F) →
  ∃ c', on_shard i f c = Some (c', r) ∧
        proc_heap c' = heap v' ∪ others i (proc_heap c) ∧
        proc_brk c' = brk v'.
Proof.
  intros Hs Hsi Hf Hframe.
  destruct (Hframe (others i (proc_heap c))) as [Hf' _].
  { simpl. apply own_others_disjoint. }
  { simpl. destruct (others i (proc_heap c) !! proc_brk c) as [e|] eqn:He;
      [|done].
    apply others_lookup in He as [He _].
    pose proof (sinv_brk _ _ _ Hs (proc_brk c) ltac:(by eexists)). lia. }
  unfold on_shard. rewrite Hsi. cbn [mbind option_bind].
  rewrite (attach_graft i c s), Hf'. by eexists.
Qed.

(** X21.  Insert, then lookup, on the sharded cache.  When every shard has a
    positive capacity, an entry inserted under a key is found again under
    that key, with its value, after any further lookups, releases and erases
    of other keys, whichever shards those calls go to: the lookup hashes the
    key as the insert did and so asks the shard that holds the entry. *)
Theorem sharded_lookup_after_insert HashSlice capacity c held key v ch d
    c1 e evs c2 held2 :
  (∀ key, is_uint32 (HashSlice key)) →
  sharded_reachable HashSlice capacity c held →
  0 < per_shard capacity →
  is_size_t ch →
  (∀ s, shard_ c !! Shard (HashSlice key) = Some s →
        elems_ (table_ s) < 2 ^ 31) →
  Sharded_Insert HashSlice key v ch d c = Some (c1, e) →
  sharded_steps HashSlice c1 (e :: held) evs c2 held2 →
  Forall (squiet key) evs →
  ∃ c3, Sharded_Lookup HashSlice key c2 = Some (c3, Some e) ∧
        Sharded_Value e c3 = Some v.
Proof.
  intros Hhash Hreach Hcap Hch Hbound HI Hsteps Hq.
  set (cap := per_shard capacity) in *.
  destruct (sharded_reachable_sinv HashSlice Hhash capacity c held Hreach)
    as (bags & Hs & Hheld).
  assert (sharded_step HashSlice c held (SvInsert key v ch d e) c1
            (e :: held)) as Hstep by (by apply sstep_insert).
  destruct (sharded_step_local HashSlice Hhash cap c bags held _ c1 _
              Hs Hheld Hstep ltac:(done))
    as (i & s & s1 & bag & bag1 & Hsi & Hbi & Hinv & Hst & Hs1 & _ & _
        & Hsinv1 & Hheld1 & Ht).
  simpl in Ht. injection Ht as <-. simpl in Hst.
  assert (resident (view (Shard (HashSlice key)) c1 s1) e key
            (HashSlice key) v) as Hres.
  { inversion Hst as [? ? ? ? ? ? ? ? ? Hh' Hc' Hlt' HIl| | | | |]; subst.
    destruct (Insert_inv cap _ bag key (HashSlice key) v ch d Hinv Hh' Hc'
                Hlt') as (v2 & X & Heq & _ & _ & _ & _ & Hnew & _).
    rewrite HIl in Heq. injection Heq as <- ->.
    eexists. split; [exact Hnew|]. simpl.
    rewrite bool_decide_eq_true_2 by done. done. }
  destruct (sharded_steps_resident HashSlice Hhash cap c1 (e :: held) evs
              c2 held2 _ e key v Hsteps _ s1 Hsinv1 Hheld1 Hq Hs1 Hres)
    as (s2 & Hs2 & Hres2).
  assert (sharded_reachable HashSlice capacity c2 held2) as Hreach2.
  { eapply ssteps_reachable; [done|]. by eapply sreach_step. }
  destruct (sharded_reachable_sinv HashSlice Hhash capacity c2 held2 Hreach2)
    as (bags2 & Hsinv2 & _).
  destruct (sinv_ok _ _ _ Hsinv2 (Shard (HashSlice key))
              (Shard_lt _ (Hhash key)))
    as (s2' & bag2 & Hs2' & _ & Hinv2).
  rewrite Hs2 in Hs2'. injection Hs2' as <-.
  destruct Hres2 as (r & Hr & Hic & Hk & Hh & Hv).
  destruct (Lookup_finds _ _ _ _ _ Hinv2 Hr Hic) as (v3 & Hl & Hval).
  rewrite Hk, Hh in Hl.
  destruct (on_shard_defined cap c2 bags2 _ s2 _ v3 (Some e) Hsinv2 Hs2 Hl)
    as (c3 & Hon & Hheap & _).
  { intros F Hd _. by apply Lookup_frame. }
  exists c3. split; [done|].
  unfold Value in Hval. unfold Sharded_Value. rewrite Hheap.
  destruct (heap v3 !! e) as [r3|] eqn:Hr3; [|done].
  rewrite (lookup_union_Some_l _ _ _ _ Hr3). by rewrite Hval, Hv.
Qed.

Lemma sharded_lookup_after_insert_witness :
  0 < per_shard 160 ∧
  is_size_t 6 ∧
  (∀ s, shard_ sharded_fresh !! Shard (sample_hash "a") = Some s →
        elems_ (table_ s) < 2 ^ 31) ∧
  Sharded_Insert sample_hash "a" 100 6 0%nat sharded_fresh =
    Some (sharded_a, 0%nat) ∧
  sharded_steps sample_hash sharded_a [0%nat]
    [SvLookup "bb" None; SvErase "bb"]
    sharded_a [0%nat] ∧
  Forall (squiet "a") [SvLookup "bb" None; SvErase "bb"] ∧
  ∃ c3, Sharded_Lookup sample_hash "a" sharded_a = Some (c3, Some 0%nat) ∧
        Sharded_Value 0%nat c3 = Some 100.
Proof.
  assert (0 < per_shard 160) as H1 by (by vm_compute).
  assert (∀ s, shard_ sharded_fresh !! Shard (sample_hash "a") = Some s →
               elems_ (table_ s) < 2 ^ 31) as H3.
  { intros s Hs. vm_compute in Hs. injection Hs as <-. by vm_compute. }
  assert (Sharded_Insert sample_hash "a" 100 6 0%nat sharded_fresh =
          Some (sharded_a, 0%nat)) as H4 by (vm_compute; reflexivity).
  assert (sharded_steps sample_hash sharded_a [0%nat]
            [SvLookup "bb" None; SvErase "bb"] sharded_a [0%nat]) as H5.
  { eapply ssteps_cons.
    - apply sstep_lookup_miss. vm_compute. reflexivity.
    - eapply ssteps_cons; [|apply ssteps_nil].
      apply sstep_erase. vm_compute. reflexivity. }
  assert (Forall (squiet "a") [SvLookup "bb" None; SvErase "bb"]) as H6.
  { repeat constructor. simpl. discriminate. }
  split; [exact H1|]. split; [exact size_t_6|]. split; [exact H3|].
  split; [exact H4|]. split; [exact H5|]. split; [exact H6|].
  apply (sharded_lookup_after_insert sample_hash 160 sharded_fresh [] "a" 100
           6 0%nat sharded_a 0%nat _ sharded_a [0%nat] sample_hash_uint32
           sharded_reachable_fresh H1 size_t_6 H3 H4 H5 H6).
Defined.

(** * The sharded cache: whole-cache methods *)

(** ** Runs in which the reference counts do not wrap *)

Lemma sharded_run_handles HashSlice capacity tr c held :
  sharded_run HashSlice capacity tr c held → held = shandles tr.
Proof.
  induction 1 as [c Hcap Hc|tr c held ev c' held' _ IH Hcall]; [done|].
  destruct Hcall as [c held ev c' held' Hstep|c held key c' e Hl].
  - destruct Hstep; by rewrite IH.
  - by rewrite IH.
Qed.

Lemma srefs_fit_tail ev tr : srefs_fit (ev :: tr) → srefs_fit tr.
Proof. intros Hfit tr' Hsuf. apply Hfit. by apply suffix_cons_r. Qed.

Lemma sharded_run_fit_reachable HashSlice capacity tr c held :
  sharded_run HashSlice capacity tr c held → srefs_fit tr →
  sharded_reachable HashSlice capacity c held.
Proof.
  induction 1 as [c Hcap Hc|tr c held ev c' held' Hrun IH Hcall]; intros Hfit.
  - by apply sreach_new.
  - pose proof (IH (srefs_fit_tail _ _ Hfit)) as Hreach.
    destruct Hcall as [c held ev c' held' Hstep|c held key c' e Hl].
    + by eapply sreach_step.
    + eapply sreach_step; [done|]. apply sstep_lookup_hit; [|done].
      assert (holds (shandles (SvLookup key (Some e) :: tr)) e <= 2 ^ 32 - 2)
        as Hb by (apply Hfit; by exists []).
      rewrite (sharded_run_handles _ _ _ _ _ Hrun).
      change (shandles (SvLookup key (Some e) :: tr)) with (e :: shandles tr)
        in Hb.
      rewrite holds_cons_eq in Hb. lia.
Qed.

Lemma length_remove_one a (l : list addr) :
  (length (remove_one a l) <= length l)%nat.
Proof.
  induction l as [|x l IH]; [done|]. simpl.
  destruct (decide (x = a)); simpl; lia.
Qed.

Lemma length_shandles tr : (length (shandles tr) <= length tr)%nat.
Proof.
  induction tr as [|ev tr IH]; [done|].
  destruct ev as [key v ch d e|key [e|]|a|key|]; simpl; try lia.
  pose proof (length_remove_one a (shandles tr)). lia.
Qed.

(** A trace of at most 2^32 - 2 calls cannot wrap a count. *)
Lemma srefs_fit_short tr :
  Z.of_nat (length tr) <= 2 ^ 32 - 2 → srefs_fit tr.
Proof.
  intros Hlen tr' [pre ->] a.
  rewrite length_app in Hlen.
  pose proof (length_shandles tr') as Hle.
  unfold holds.
  pose proof (length_filter (λ x, x = a) (shandles tr')) as Hf.
  lia.
Qed.

Lemma sharded_run_a_bb :
  sharded_run sample_hash 160
    [SvInsert "bb" 200 6 0%nat 1%nat; SvInsert "a" 100 6 0%nat 0%nat]
    sharded_a_bb [1%nat; 0%nat].
Proof.
  eapply srun_call; [|apply scall_step, sharded_step_bb].
  eapply srun_call.
  { apply srun_new; [apply size_t_160|]. vm_compute. reflexivity. }
  apply scall_step.
  apply (sstep_insert sample_hash sharded_fresh [] "a" 100 6 0%nat
           sharded_a 0%nat).
  - apply size_t_6.
  - intros s Hs. vm_compute in Hs. injection Hs as <-. by vm_compute.
  - vm_compute. reflexivity.
Qed.

Lemma srefs_fit_a_bb :
  srefs_fit [SvInsert "bb" 200 6 0%nat 1%nat; SvInsert "a" 100 6 0%nat 0%nat].
Proof. apply srefs_fit_short. simpl. lia. Qed.

Lemma sinv_shard cap c bags j s :
  sinv cap c bags → shard_ c !! j = Some s →
  ∃ bag, bags !! j = Some bag ∧ inv None cap (view j c s) bag.
Proof.
  intros Hs Hj.
  assert (j < 16)%nat as Hlt.
  { rewrite <-(sinv_len _ _ _ Hs). by eapply lookup_lt_Some. }
  destruct (sinv_ok _ _ _ Hs j Hlt) as (s' & bag & Hs' & Hb & Hinv).
  rewrite Hj in Hs'. injection Hs' as <-. by exists bag.
Qed.

(** An entry on the LRU list of shard [j] is a record of that shard. *)
Lemma sinv_lru_owner cap c bags j s a :
  sinv cap c bags → shard_ c !! j = Some s → a ∈ lru_ s →
  ∃ e, proc_heap c !! a = Some e ∧ Shard (hash e) = j ∧
       in_cache e = true ∧ refs e = 1.
Proof.
  intros Hs Hj Ha. destruct (sinv_shard _ _ _ _ _ Hs Hj) as (bag & _ & Hinv).
  assert (a ∈ lru_ (view j c s)) as Hal by done.
  apply (inv_lru _ _ _ _ Hinv) in Hal as (e & He & Hic & Hr).
  change (own j (proc_heap c) !! a = Some e) in He.
  apply own_lookup in He as [He Hsh]. by exists e.
Qed.

(** A handle a client holds is a record of the shard its hash selects, and
    is counted in the bag of that shard. *)
Lemma sinv_held_owner cap c bags held a :
  sinv cap c bags → held ≡ₚ concat bags → a ∈ held →
  ∃ e s bag, proc_heap c !! a = Some e ∧
             shard_ c !! Shard (hash e) = Some s ∧
             bags !! Shard (hash e) = Some bag ∧ a ∈ bag ∧
             inv None cap (view (Shard (hash e)) c s) bag.
Proof.
  intros Hs Hheld Ha. rewrite Hheld in Ha.
  apply elem_of_bags in Ha as (i & bag & Hbi & Ha).
  assert (i < 16)%nat as Hlt.
  { rewrite <-(sinv_bags _ _ _ Hs). by eapply lookup_lt_Some. }
  destruct (sinv_ok _ _ _ Hs i Hlt) as (s & bag' & Hsi & Hbi' & Hinv).
  rewrite Hbi in Hbi'. injection Hbi' as <-.
  destruct (inv_held _ _ _ _ Hinv a Ha) as [e He].
  change (own i (proc_heap c) !! a = Some e) in He.
  apply own_lookup in He as [He Hsh]. subst i. by exists e, s, bag.
Qed.

Lemma sinv_held_not_lru cap c bags held a j s :
  sinv cap c bags → held ≡ₚ concat bags → a ∈ held →
  shard_ c !! j = Some s → a ∉ lru_ s.
Proof.
  intros Hs Hheld Ha Hj Hl.
  destruct (sinv_lru_owner _ _ _ _ _ _ Hs Hj Hl) as (e & He & Hsh & Hic & Hr).
  destruct (sinv_held_owner _ _ _ _ _ Hs Hheld Ha)
    as (e' & s' & bag & He' & Hs' & Hb & Hab & Hinv).
  rewrite He in He'. injection He' as <-.
  assert (heap (view (Shard (hash e)) c s') !! a = Some e) as Hv.
  { change (own (Shard (hash e)) (proc_heap c) !! a = Some e).
    by apply own_lookup. }
  destruct (inv_refs _ _ _ _ Hinv a e Hv) as [Hrefs _].
  rewrite Hic in Hrefs. apply holds_pos in Hab. lia.
Qed.

(** ** [ShardedLRUCache::Prune] *)

Lemma Sharded_Prune_spec cap c bags :
  sinv cap c bags →
  ∃ c', Sharded_Prune c = Some c' ∧
        sinv cap c' bags ∧ last_id_ c' = last_id_ c ∧
        (∀ j s', shard_ c' !! j = Some s' →
           lru_ s' = [] ∧
           ∃ s, shard_ c !! j = Some s ∧ in_use_ s' = in_use_ s ∧
                capacity_ s' = capacity_ s) ∧
        (∀ a, (∀ j s, shard_ c !! j = Some s → a ∉ lru_ s) →
              proc_heap c' !! a = proc_heap c !! a) ∧
        (∀ a j s, shard_ c !! j = Some s → a ∈ lru_ s →
                  proc_heap c' !! a = None) ∧
        proc_deleted c' =
          proc_deleted c ++
          concat ((λ s, calls_of (proc_heap c) (lru_ s)) <$> shard_ c).
Proof.
  intros Hs.
  destruct (sharded_prune_upto cap bags c 16 ltac:(lia) Hs)
    as (c' & Hloop & Hs' & Hid & Hlru & Huse & _ & Hfr & Hgone & Hdel).
  exists c'. split; [exact Hloop|]. split; [done|]. split; [done|]. split.
  { intros j s' Hj. split; [|by apply Huse].
    apply (Hlru j s'); [|done].
    rewrite <-(sinv_len _ _ _ Hs'). by eapply lookup_lt_Some. }
  split.
  { intros a Ha. apply Hfr. intros j s _. apply Ha. }
  split.
  { intros a j s Hj Ha. apply (Hgone a j s Hj); [|done].
    rewrite <-(sinv_len _ _ _ Hs). by eapply lookup_lt_Some. }
  rewrite Hdel. rewrite take_ge; [done|]. rewrite (sinv_len _ _ _ Hs). lia.
Qed.

Lemma sharded_step_release_0 :
  sharded_step sample_hash sharded_a_bb [1%nat; 0%nat] (SvRelease 0%nat)
    sharded_one_pinned [1%nat].
Proof.
  apply (sstep_release sample_hash sharded_a_bb [1%nat; 0%nat] 0%nat
           sharded_one_pinned).
  - set_solver.
  - vm_compute. reflexivity.
Qed.

Lemma sharded_reachable_one_pinned :
  sharded_reachable sample_hash 160 sharded_one_pinned [1%nat].
Proof.
  eapply sreach_step;
    [apply sharded_reachable_a_bb|apply sharded_step_release_0].
Qed.

Lemma sharded_run_one_pinned :
  sharded_run sample_hash 160
    [SvRelease 0%nat; SvInsert "bb" 200 6 0%nat 1%nat;
     SvInsert "a" 100 6 0%nat 0%nat]
    sharded_one_pinned [1%nat].
Proof.
  eapply srun_call; [apply sharded_run_a_bb|].
  apply scall_step, sharded_step_release_0.
Qed.

Lemma srefs_fit_one_pinned :
  srefs_fit [SvRelease 0%nat; SvInsert "bb" 200 6 0%nat 1%nat;
             SvInsert "a" 100 6 0%nat 0%nat].
Proof. apply srefs_fit_short. simpl. lia. Qed.

Lemma sharded_reachable_unpinned :
  sharded_reachable sample_hash 160 sharded_unpinned [].
Proof.
  eapply sreach_step; [apply sharded_reachable_one_pinned|].
  apply (sstep_release sample_hash sharded_one_pinned [1%nat] 1%nat
           sharded_unpinned).
  - set_solver.
  - vm_compute. reflexivity.
Qed.

(** X22.  [ShardedLRUCache::Prune] empties the LRU list of every shard.  In
    every state reached by a run in which the clients have never held more
    than 2^32 - 2 handles on one entry at a time, the call returns;
    afterwards no shard has an entry on its LRU list, the in-use lists and
    capacities are as before, every entry that was on an LRU list has been
    freed and its deleter called, shard 0 first and within a shard the
    oldest entry first, and every other record, in particular every handle
    a client holds, is untouched.  The id counter does not change. *)
Theorem sharded_prune_frees_unpinned HashSlice capacity tr c held :
  (∀ key, is_uint32 (HashSlice key)) →
  sharded_run HashSlice capacity tr c held → srefs_fit tr →
  ∃ c', Sharded_Prune c = Some c' ∧
        sharded_run HashSlice capacity (SvPrune :: tr) c' held ∧
        last_id_ c' = last_id_ c ∧
        (∀ j s', shard_ c' !! j = Some s' →
           lru_ s' = [] ∧
           ∃ s, shard_ c !! j = Some s ∧ in_use_ s' = in_use_ s ∧
                capacity_ s' = capacity_ s) ∧
        (∀ a j s, shard_ c !! j = Some s → a ∈ lru_ s →
                  is_Some (proc_heap c !! a) ∧ proc_heap c' !! a = None) ∧
        (∀ a, (∀ j s, shard_ c !! j = Some s → a ∉ lru_ s) →
              proc_heap c' !! a = proc_heap c !! a) ∧
        (∀ a, a ∈ held → proc_heap c' !! a = proc_heap c !! a) ∧
        proc_deleted c' =
          proc_deleted c ++
          concat ((λ s, calls_of (proc_heap c) (lru_ s)) <$> shard_ c).
Proof.
  intros Hhash Hrun Hfit.
  pose proof (sharded_run_fit_reachable _ _ _ _ _ Hrun Hfit) as Hreach.
  destruct (sharded_reachable_sinv HashSlice Hhash capacity c held Hreach)
    as (bags & Hs & Hheld).
  destruct (Sharded_Prune_spec _ _ _ Hs)
    as (c' & Hp & _ & Hid & Hlists & Hfr & Hgone & Hdel).
  exists c'. split; [done|]. split.
  { eapply srun_call; [done|]. by apply scall_step, sstep_prune. }
  split; [done|]. split; [done|]. split.
  { intros a j s Hj Ha. split; [|by eapply Hgone].
    destruct (sinv_lru_owner _ _ _ _ _ _ Hs Hj Ha) as (e & He & _).
    by exists e. }
  split; [done|]. split; [|done].
  intros a Ha. apply Hfr. intros j s Hj.
  by eapply sinv_held_not_lru.
Qed.

Lemma sharded_prune_frees_unpinned_witness :
  (∀ key, is_uint32 (sample_hash key)) ∧
  sharded_run sample_hash 160
    [SvRelease 0%nat; SvInsert "bb" 200 6 0%nat 1%nat;
     SvInsert "a" 100 6 0%nat 0%nat]
    sharded_one_pinned [1%nat] ∧
  srefs_fit [SvRelease 0%nat; SvInsert "bb" 200 6 0%nat 1%nat;
             SvInsert "a" 100 6 0%nat 0%nat] ∧
  ∃ c', Sharded_Prune sharded_one_pinned = Some c' ∧
        sharded_run sample_hash 160
          [SvPrune; SvRelease 0%nat; SvInsert "bb" 200 6 0%nat 1%nat;
           SvInsert "a" 100 6 0%nat 0%nat] c' [1%nat] ∧
        last_id_ c' = last_id_ sharded_one_pinned ∧
        (∀ j s', shard_ c' !! j = Some s' →
           lru_ s' = [] ∧
           ∃ s, shard_ sharded_one_pinned !! j = Some s ∧
                in_use_ s' = in_use_ s ∧ capacity_ s' = capacity_ s) ∧
        (∀ a j s, shard_ sharded_one_pinned !! j = Some s → a ∈ lru_ s →
                  is_Some (proc_heap sharded_one_pinned !! a) ∧
                  proc_heap c' !! a = None) ∧
        (∀ a, (∀ j s, shard_ sharded_one_pinned !! j = Some s →
                      a ∉ lru_ s) →
              proc_heap c' !! a = proc_heap sharded_one_pinned !! a) ∧
        (∀ a, a ∈ [1%nat] →
              proc_heap c' !! a = proc_heap sharded_one_pinned !! a) ∧
        proc_deleted c' =
          proc_deleted sharded_one_pinned ++
          concat ((λ s, calls_of (proc_heap sharded_one_pinned) (lru_ s)) <$>
                  shard_ sharded_one_pinned).
Proof.
  split; [exact sample_hash_uint32|].
  split; [exact sharded_run_one_pinned|].
  split; [exact srefs_fit_one_pinned|].
  apply (sharded_prune_frees_unpinned sample_hash 160 _ sharded_one_pinned
           [1%nat] sample_hash_uint32 sharded_run_one_pinned
           srefs_fit_one_pinned).
Defined.

(** ** [ShardedLRUCache::TotalCharge] *)

Lemma sum_usage_app l l' : sum_usage (l ++ l') = sum_usage l + sum_usage l'.
Proof. induction l as [|s l IH]; simpl; [done|]. rewrite IH. lia. Qed.

(** The loop of [TotalCharge] after [n] rounds. *)
Lemma Sharded_TotalCharge_upto c n :
  (n <= length (shard_ c))%nat →
  foldl (λ acc s, total ← acc; sh ← shard_ c !! s;
                  Some (wrap64 (total + TotalCharge (attach c sh))))
        (Some 0) (seq 0 n) =
  Some (wrap64 (sum_usage (take n (shard_ c)))).
Proof.
  induction n as [|n IH]; intros Hn; [done|].
  rewrite seq_S, foldl_app, IH by lia.
  destruct (lookup_lt_is_Some_2 (shard_ c) n ltac:(lia)) as [s Hs].
  rewrite (take_S_r _ _ _ Hs), sum_usage_app.
  cbn [foldl mbind option_bind plus]. rewrite Hs. cbn [mbind option_bind].
  f_equal. rewrite wrap64_add_l. f_equal.
  change (TotalCharge (attach c s)) with (usage_ s).
  unfold sum_usage. simpl. lia.
Qed.

Lemma total_charge_concat mem (ls : list (list addr)) :
  total_charge mem (concat ls) =
  foldr (λ l acc, total_charge mem l + acc) 0 ls.
Proof.
  induction ls as [|l ls IH]; [done|].
  change (concat (l :: ls)) with (l ++ concat ls).
  rewrite total_charge_app, IH. done.
Qed.

Lemma wrap64_add_r x y : wrap64 (x + wrap64 y) = wrap64 (x + y).
Proof. unfold wrap64. by rewrite Zplus_mod_idemp_r. Qed.

Lemma sinv_usage cap c bags j s :
  sinv cap c bags → shard_ c !! j = Some s →
  usage_ s = wrap64 (total_charge (proc_heap c) (lru_ s ++ in_use_ s)).
Proof.
  intros Hs Hj. destruct (sinv_shard _ _ _ _ _ Hs Hj) as (bag & _ & Hinv).
  pose proof (inv_usage _ _ _ _ Hinv) as Hu.
  change (usage_ s =
          wrap64 (total_charge (own j (proc_heap c)) (lru_ s ++ in_use_ s)))
    in Hu.
  rewrite Hu. f_equal. apply total_charge_ext. intros a Ha.
  assert (∃ e, own j (proc_heap c) !! a = Some e) as [e He].
  { apply elem_of_app in Ha as [Ha|Ha].
    - assert (a ∈ lru_ (view j c s)) as Hal by done.
      apply (inv_lru _ _ _ _ Hinv) in Hal as (e & He & _). by exists e.
    - assert (a ∈ in_use_ (view j c s)) as Hal by done.
      apply (inv_in_use _ _ _ _ Hinv) in Hal as (e & He & _). by exists e. }
  rewrite (charge_of_Some _ _ _ He).
  apply own_lookup in He as [He _]. by rewrite (charge_of_Some _ _ _ He).
Qed.

Lemma Sharded_TotalCharge_spec cap c bags :
  sinv cap c bags →
  Sharded_TotalCharge c =
  Some (wrap64 (total_charge (proc_heap c) (all_cached c))).
Proof.
  intros Hs. unfold Sharded_TotalCharge.
  change (Z.to_nat kNumShards) with 16%nat.
  rewrite Sharded_TotalCharge_upto by (rewrite (sinv_len _ _ _ Hs); lia).
  rewrite take_ge by (rewrite (sinv_len _ _ _ Hs); lia).
  f_equal. unfold all_cached. rewrite total_charge_concat.
  assert (∀ l, (∀ j s, l !! j = Some s → ∃ j', shard_ c !! j' = Some s) →
            wrap64 (sum_usage l) =
            wrap64 (foldr (λ l0 acc, total_charge (proc_heap c) l0 + acc) 0
                      ((λ s, lru_ s ++ in_use_ s) <$> l))) as Hgen.
  { induction l as [|s l IH]; intros Hl; [done|].
    destruct (Hl 0%nat s eq_refl) as [j Hj].
    rewrite fmap_cons. cbn [foldr sum_usage].
    fold (sum_usage l).
    rewrite <-wrap64_add_r, IH by (intros i s' Hi; by apply (Hl (S i) s')).
    rewrite wrap64_add_r, (sinv_usage _ _ _ _ _ Hs Hj), wrap64_add_l.
    done. }
  apply Hgen. intros j s Hj. by exists j.
Qed.

(** X23.  [ShardedLRUCache::TotalCharge] returns the sum of the charges of
    the entries in the cache.  In every reachable state the loop over the
    shards returns the sum, taken in [size_t], of the charges of all
    entries on the LRU and in-use lists of all shards; entries that were
    erased or evicted but are still held by a client do not count. *)
Theorem sharded_total_charge HashSlice capacity c held :
  (∀ key, is_uint32 (HashSlice key)) →
  sharded_reachable HashSlice capacity c held →
  Sharded_TotalCharge c =
    Some (wrap64 (total_charge (proc_heap c) (all_cached c))) ∧
  (∀ a, a ∈ all_cached c ↔
        ∃ e, proc_heap c !! a = Some e ∧ in_cache e = true).
Proof.
  intros Hhash Hreach.
  destruct (sharded_reachable_sinv HashSlice Hhash capacity c held Hreach)
    as (bags & Hs & Hheld).
  split; [by eapply Sharded_TotalCharge_spec|].
  intros a. unfold all_cached. rewrite elem_of_concat. split.
  - intros (l & Ha & Hl). apply list_elem_of_fmap in Hl as (s & -> & Hin).
    apply list_elem_of_lookup in Hin as [j Hj].
    destruct (sinv_shard _ _ _ _ _ Hs Hj) as (bag & _ & Hinv).
    assert (∃ e, own j (proc_heap c) !! a = Some e ∧ in_cache e = true)
      as (e & He & Hic).
    { apply elem_of_app in Ha as [Ha|Ha].
      - assert (a ∈ lru_ (view j c s)) as Hal by done.
        apply (inv_lru _ _ _ _ Hinv) in Hal as (e & He & ? & _). by exists e.
      - assert (a ∈ in_use_ (view j c s)) as Hal by done.
        apply (inv_in_use _ _ _ _ Hinv) in Hal as (e & He & ? & _).
        by exists e. }
    apply own_lookup in He as [He _]. by exists e.
  - intros (e & He & Hic).
    assert (is_uint32 (hash e)) as Hh by (by eapply sinv_hash).
    destruct (sinv_ok _ _ _ Hs (Shard (hash e)) (Shard_lt _ Hh))
      as (s & bag & Hsj & _ & Hinv).
    exists (lru_ s ++ in_use_ s). split; last first.
    + apply list_elem_of_fmap. exists s. split; [done|].
      by eapply list_elem_of_lookup_2.
    + assert (heap (view (Shard (hash e)) c s) !! a = Some e) as Hv.
      { change (own (Shard (hash e)) (proc_heap c) !! a = Some e).
        by apply own_lookup. }
      destruct (inv_refs _ _ _ _ Hinv a e Hv) as [Hr Hr1].
      apply elem_of_app. destruct (decide (refs e = 1)) as [H1|H1].
      * left. apply (inv_lru _ _ _ _ Hinv a). by exists e.
      * right. apply (inv_in_use _ _ _ _ Hinv a). exists e.
        split; [done|]. split; [done|]. lia.
Qed.

Lemma sharded_total_charge_witness :
  (∀ key, is_uint32 (sample_hash key)) ∧
  sharded_reachable sample_hash 160 sharded_a_bb [1%nat; 0%nat] ∧
  Sharded_TotalCharge sharded_a_bb =
    Some (wrap64 (total_charge (proc_heap sharded_a_bb)
                    (all_cached sharded_a_bb))) ∧
  (∀ a, a ∈ all_cached sharded_a_bb ↔
        ∃ e, proc_heap sharded_a_bb !! a = Some e ∧ in_cache e = true).
Proof.
  split; [exact sample_hash_uint32|].
  split; [exact sharded_reachable_a_bb|].
  apply (sharded_total_charge sample_hash 160 sharded_a_bb [1%nat; 0%nat]
           sample_hash_uint32 sharded_reachable_a_bb).
Defined.

(** ** Every call on the sharded cache returns *)

Lemma Sharded_Lookup_defined HashSlice cap c bags key :
  (∀ key, is_uint32 (HashSlice key)) → sinv cap c bags →
  ∃ c' r, Sharded_Lookup HashSlice key c = Some (c', r).
Proof.
  intros Hhash Hs.
  destruct (sinv_ok _ _ _ Hs (Shard (HashSlice key)) (Shard_lt _ (Hhash key)))
    as (s & bag & Hsi & _ & Hinv).
  destruct (Lookup_result _ _ _ _ key (HashSlice key) Hinv)
    as (v' & r & Hl & _).
  destruct (on_shard_defined cap c bags _ s _ v' r Hs Hsi Hl)
    as (c' & Hon & _).
  { intros F Hd _. by apply Lookup_frame. }
  by exists c', r.
Qed.

Lemma Sharded_Erase_defined HashSlice cap c bags key :
  (∀ key, is_uint32 (HashSlice key)) → sinv cap c bags →
  ∃ c', Sharded_Erase HashSlice key c = Some c'.
Proof.
  intros Hhash Hs.
  destruct (sinv_ok _ _ _ Hs (Shard (HashSlice key)) (Shard_lt _ (Hhash key)))
    as (s & bag & Hsi & _ & Hinv).
  destruct (Erase_inv _ _ _ key (HashSlice key) Hinv) as (v' & He & _).
  destruct (on_shard_unit_defined cap c bags _ s
              (Erase key (HashSlice key)) v' Hs Hsi He) as [c' Hon].
  { intros F Hd. by apply Erase_frame. }
  by exists c'.
Qed.

Lemma Sharded_Release_defined cap c bags held a :
  sinv cap c bags → held ≡ₚ concat bags → a ∈ held →
  ∃ c' e, Sharded_Release a c = Some c' ∧ proc_heap c !! a = Some e.
Proof.
  intros Hs Hheld Ha.
  destruct (sinv_held_owner _ _ _ _ _ Hs Hheld Ha)
    as (e & s & bag & He & Hsi & Hbi & Hab & Hinv).
  destruct (Release_inv _ _ _ _ Hinv Hab) as (v' & Hr & _).
  destruct (on_shard_unit_defined cap c bags _ s (Release a) v' Hs Hsi Hr)
    as [c' Hon].
  { intros F Hd. by apply Release_frame. }
  exists c', e. split; [|done].
  unfold Sharded_Release. rewrite He. exact Hon.
Qed.

Lemma Sharded_Insert_defined HashSlice cap c bags held key v ch d :
  (∀ key, is_uint32 (HashSlice key)) →
  sinv cap c bags → held ≡ₚ concat bags → is_size_t ch →
  (∀ s, shard_ c !! Shard (HashSlice key) = Some s →
        elems_ (table_ s) < 2 ^ 31) →
  ∃ c', Sharded_Insert HashSlice key v ch d c = Some (c', proc_brk c) ∧
        proc_heap c !! proc_brk c = None ∧ proc_brk c ∉ held.
Proof.
  intros Hhash Hs Hheld Hch Hbound.
  destruct (sinv_ok _ _ _ Hs (Shard (HashSlice key)) (Shard_lt _ (Hhash key)))
    as (s & bag & Hsi & _ & Hinv).
  destruct (Insert_inv _ _ _ key (HashSlice key) v ch d Hinv (Hhash key) Hch
              (Hbound s Hsi)) as (v' & X & HI & _).
  destruct (on_shard_defined cap c bags _ s _ v' _ Hs Hsi HI)
    as (c' & Hon & _).
  { intros F Hd Hf. by apply Insert_frame. }
  assert (proc_heap c !! proc_brk c = None) as Hfresh.
  { destruct (proc_heap c !! proc_brk c) as [e|] eqn:He; [|done].
    pose proof (sinv_brk _ _ _ Hs (proc_brk c) ltac:(by eexists)). lia. }
  exists c'. split; [exact Hon|]. split; [done|].
  intros Hin.
  destruct (sinv_held_owner _ _ _ _ _ Hs Hheld Hin) as (e & _ & _ & He & _).
  congruence.
Qed.

(** X24.  In every state of the sharded cache reached by a run in which the
    clients have never held more than 2^32 - 2 handles on one entry at a time,
    every public method returns: the shard index computed from the hash is
    always in range, no assertion of a shard fails and no freed record is
    read.  [Lookup], [Erase], [Prune] and [TotalCharge] can always be called;
    [Release] and [Value] on every handle a client holds, [Release] finding
    the shard through the hash stored in the handle; [Insert] with a charge
    that is a [size_t] while the table of the target shard has fewer than 2^31
    entries, returning a handle that is not in use. *)
Theorem sharded_methods_return HashSlice capacity tr c held :
  (∀ key, is_uint32 (HashSlice key)) →
  sharded_run HashSlice capacity tr c held → srefs_fit tr →
  (∀ key, ∃ c' r, Sharded_Lookup HashSlice key c = Some (c', r)) ∧
  (∀ key, ∃ c', Sharded_Erase HashSlice key c = Some c') ∧
  (∃ c', Sharded_Prune c = Some c') ∧
  (∃ total, Sharded_TotalCharge c = Some total) ∧
  (∀ a, a ∈ held →
        ∃ c' v, Sharded_Release a c = Some c' ∧ Sharded_Value a c = Some v) ∧
  (∀ key v ch d, is_size_t ch →
     (∀ s, shard_ c !! Shard (HashSlice key) = Some s →
           elems_ (table_ s) < 2 ^ 31) →
     ∃ c' e, Sharded_Insert HashSlice key v ch d c = Some (c', e) ∧
             proc_heap c !! e = None ∧ e ∉ held).
Proof.
  intros Hhash Hrun Hfit.
  pose proof (sharded_run_fit_reachable _ _ _ _ _ Hrun Hfit) as Hreach.
  destruct (sharded_reachable_sinv HashSlice Hhash capacity c held Hreach)
    as (bags & Hs & Hheld).
  split; [intros key; by eapply Sharded_Lookup_defined|].
  split; [intros key; by eapply Sharded_Erase_defined|].
  split.
  { destruct (Sharded_Prune_spec _ _ _ Hs) as (c' & Hp & _). by exists c'. }
  split.
  { eexists. by eapply Sharded_TotalCharge_spec. }
  split.
  { intros a Ha.
    destruct (Sharded_Release_defined _ _ _ _ _ Hs Hheld Ha)
      as (c' & e & Hr & He).
    exists c', (value e). split; [done|]. unfold Sharded_Value.
    by rewrite He. }
  intros key v ch d Hch Hbound.
  destruct (Sharded_Insert_defined HashSlice _ _ _ _ key v ch d Hhash Hs Hheld
              Hch Hbound) as (c' & HI & Hfresh & Hnh).
  by exists c', (proc_brk c).
Qed.

Lemma sharded_methods_return_witness :
  (∀ key, is_uint32 (sample_hash key)) ∧
  sharded_run sample_hash 160
    [SvRelease 0%nat; SvInsert "bb" 200 6 0%nat 1%nat;
     SvInsert "a" 100 6 0%nat 0%nat]
    sharded_one_pinned [1%nat] ∧
  srefs_fit [SvRelease 0%nat; SvInsert "bb" 200 6 0%nat 1%nat;
             SvInsert "a" 100 6 0%nat 0%nat] ∧
  (∀ key, ∃ c' r, Sharded_Lookup sample_hash key sharded_one_pinned =
                  Some (c', r)) ∧
  (∀ key, ∃ c', Sharded_Erase sample_hash key sharded_one_pinned = Some c') ∧
  (∃ c', Sharded_Prune sharded_one_pinned = Some c') ∧
  (∃ total, Sharded_TotalCharge sharded_one_pinned = Some total) ∧
  (∀ a, a ∈ [1%nat] →
        ∃ c' v, Sharded_Release a sharded_one_pinned = Some c' ∧
                Sharded_Value a sharded_one_pinned = Some v) ∧
  (∀ key v ch d, is_size_t ch →
     (∀ s, shard_ sharded_one_pinned !! Shard (sample_hash key) = Some s →
           elems_ (table_ s) < 2 ^ 31) →
     ∃ c' e, Sharded_Insert sample_hash key v ch d sharded_one_pinned =
               Some (c', e) ∧
             proc_heap sharded_one_pinned !! e = None ∧ e ∉ [1%nat]).
Proof.
  split; [exact sample_hash_uint32|].
  split; [exact sharded_run_one_pinned|].
  split; [exact srefs_fit_one_pinned|].
  apply (sharded_methods_return sample_hash 160 _ sharded_one_pinned [1%nat]
           sample_hash_uint32 sharded_run_one_pinned srefs_fit_one_pinned).
Defined.

(** ** [ShardedLRUCache::~ShardedLRUCache] *)

Lemma destroy_loop_frame F : ∀ l s s',
  destroy_loop l s = Some s' → heap s ##ₘ F →
  destroy_loop l (graft F s) = Some (graft F s') ∧ heap s' ##ₘ F.
Proof.
  induction l as [|e rest IH]; intros s s' Hl Hd; simpl in *.
  - by injection Hl as <-.
  - destruct (heap s !! e) as [h|] eqn:He; simpl in Hl; [|done].
    rewrite (lookup_union_Some_l _ _ _ _ He). simpl.
    destruct (in_cache h); simpl in *; [|done].
    destruct (refs h =? 1); simpl in *; [|done].
    destruct (Unref e (store e (set_in_cache false h) s)) as [s2|] eqn:Hu;
      simpl in Hl; [|done].
    assert (heap (store e (set_in_cache false h) s) ##ₘ F) as Hd1
      by (by eapply disjoint_store).
    destruct (Unref_frame F e _ s2 Hu Hd1) as [Hu' Hd2].
    change (set_heap (<[e:=set_in_cache false h]> (heap s ∪ F)) (graft F s))
      with (store e (set_in_cache false h) (graft F s)).
    rewrite graft_store, Hu'. simpl. by apply IH.
Qed.

Lemma LRUCache_destroy_frame F s s' :
  LRUCache_destroy s = Some s' → heap s ##ₘ F →
  LRUCache_destroy (graft F s) = Some (graft F s') ∧ heap s' ##ₘ F.
Proof.
  unfold LRUCache_destroy. intros Hl Hd.
  change (in_use_ (graft F s)) with (in_use_ s).
  change (lru_ (graft F s)) with (lru_ s).
  destruct (bool_decide (in_use_ s = [])); simpl in *; [|done].
  by apply destroy_loop_frame.
Qed.

Lemma Unref_brk e s s' : Unref e s = Some s' → brk s' = brk s.
Proof.
  unfold Unref. intros Hu.
  destruct (heap s !! e) as [h|]; simpl in Hu; [|done].
  destruct (0 <? refs h); simpl in Hu; [|done].
  destruct (wrap32 (refs h - 1) =? 0).
  - destruct (negb (in_cache h)); simpl in Hu; [|done]. by injection Hu as <-.
  - destruct (in_cache h && (wrap32 (refs h - 1) =? 1));
      by injection Hu as <-.
Qed.

Lemma destroy_loop_brk : ∀ l s s',
  destroy_loop l s = Some s' → brk s' = brk s.
Proof.
  induction l as [|e rest IH]; intros s s' Hl; simpl in Hl.
  - by injection Hl as <-.
  - destruct (heap s !! e) as [h|]; simpl in Hl; [|done].
    destruct (in_cache h); simpl in Hl; [|done].
    destruct (refs h =? 1); simpl in Hl; [|done].
    destruct (Unref e (store e (set_in_cache false h) s)) as [s2|] eqn:Hu;
      simpl in Hl; [|done].
    rewrite (IH _ _ Hl). by rewrite (Unref_brk _ _ _ Hu).
Qed.

Lemma LRUCache_destroy_brk s s' :
  LRUCache_destroy s = Some s' → brk s' = brk s.
Proof.
  unfold LRUCache_destroy. intros Hl.
  destruct (bool_decide (in_use_ s = [])); simpl in Hl; [|done].
  by eapply destroy_loop_brk.
Qed.

Lemma on_shard_unit_eq i (f : LRUCache → option LRUCache) c s v' :
  shard_ c !! i = Some s → f (view i c s) = Some v' →
  (∀ F, heap (view i c s) ##ₘ F →
        f (graft F (view i c s)) = Some (graft F v') ∧ heap v' ##ₘ F) →
  ∃ c', on_shard_ i f c = Some c' ∧
        (∀ j, j ≠ i → shard_ c' !! j = shard_ c !! j) ∧
        proc_heap c' = heap v' ∪ others i (proc_heap c) ∧
        proc_brk c' = brk v' ∧ proc_deleted c' = deleted v'.
Proof.
  intros Hsi Hf Hframe.
  destruct (Hframe (others i (proc_heap c))) as [Hf' _].
  { simpl. apply own_others_disjoint. }
  unfold on_shard_, on_shard. rewrite Hsi. cbn [mbind option_bind].
  rewrite (attach_graft i c s), Hf'. eexists. split; [reflexivity|].
  split; [|done]. intros j Hj. cbn [shard_]. by apply list_lookup_insert_ne.
Qed.

(** With no handle outstanding every record of a shard is on its LRU
    list. *)
Lemma inv_unheld cap s :
  inv None cap s [] →
  in_use_ s = [] ∧ ∀ a e, heap s !! a = Some e → a ∈ lru_ s.
Proof.
  intros Hinv. split.
  - destruct (in_use_ s) as [|b r] eqn:Hu; [done|].
    assert (b ∈ in_use_ s) as Hb by (rewrite Hu; by left).
    apply (inv_in_use _ _ _ _ Hinv) in Hb as (e & He & Hic & Hr).
    destruct (inv_refs _ _ _ _ Hinv b e He) as [Hrefs _].
    rewrite Hic, holds_nil in Hrefs. lia.
  - intros a e He. destruct (inv_refs _ _ _ _ Hinv a e He) as [Hrefs H1].
    rewrite holds_nil in Hrefs. apply (inv_lru _ _ _ _ Hinv a). exists e.
    destruct (in_cache e); [|lia]. split; [done|]. split; [done|]. lia.
Qed.

Lemma calls_for_app a l l' :
  calls_for a (l ++ l') = calls_for a l ++ calls_for a l'.
Proof. unfold calls_for. apply filter_app. Qed.

(** The loop of the destructor over a list of shards none of which has a
    handle outstanding: the records of these shards are freed, each after
    one call of its deleter. *)
Lemma sharded_destroy_list cap : ∀ l c,
  NoDup l →
  (∀ j, j ∈ l →
        ∃ s, shard_ c !! j = Some s ∧ inv None cap (view j c s) []) →
  ∃ c',
    foldl (λ acc s, c' ← acc; on_shard_ s LRUCache_destroy c') (Some c) l =
      Some c' ∧
    (∀ a e, proc_heap c' !! a = Some e ↔
            proc_heap c !! a = Some e ∧ Shard (hash e) ∉ l) ∧
    (∀ a, calls_for a (proc_deleted c') =
          calls_for a (proc_deleted c) ++
          match proc_heap c !! a with
          | Some e => if decide (Shard (hash e) ∈ l) then [call_of a e] else []
          | None => []
          end).
Proof.
  induction l as [|j l IH]; intros c Hnd Hall.
  - exists c. split; [done|]. split.
    + intros a e. split; [intros ?; split; [done|apply not_elem_of_nil]|].
      by intros [? _].
    + intros a. destruct (proc_heap c !! a) as [e|]; [|by rewrite app_nil_r].
      rewrite decide_False by apply not_elem_of_nil. by rewrite app_nil_r.
  - apply NoDup_cons in Hnd as [Hj Hnd].
    destruct (Hall j ltac:(left)) as (s & Hsj & Hinv).
    destruct (inv_unheld _ _ Hinv) as [Hnil Hlru].
    destruct (destroy_spec _ _ _ Hinv Hnil) as (v' & Hd & Hheap & Hdel).
    assert (heap v' = ∅) as Hempty.
    { apply map_eq. intros b. rewrite Hheap, lookup_empty.
      destruct (decide (b ∈ lru_ (view j c s))) as [Hin|Hout]; [done|].
      destruct (heap (view j c s) !! b) as [e|] eqn:He; [|done].
      destruct Hout. by eapply Hlru. }
    pose proof (LRUCache_destroy_brk _ _ Hd) as Hbrk.
    destruct (on_shard_unit_eq j LRUCache_destroy c s v' Hsj Hd)
      as (c1 & Hon & Hsh1 & Hheap1 & Hbrk1 & Hdel1).
    { intros F HF. by apply LRUCache_destroy_frame. }
    rewrite Hempty, (left_id ∅ _) in Hheap1.
    destruct (IH c1 Hnd) as (c' & Hloop & Hheap' & Hcalls').
    { intros j' Hj'. assert (j' ≠ j) as Hne by (by intros ->).
      destruct (Hall j' ltac:(by right)) as (s' & Hs' & Hinv').
      exists s'. split; [by rewrite Hsh1|].
      assert (view j' c1 s' =
              set_deleted (proc_deleted c1)
                (set_brk (proc_brk c1) (view j' c s'))) as ->.
      { unfold view, attach. rewrite Hheap1, (own_others_ne j j') by done.
        reflexivity. }
      apply inv_brk_mono; [done|]. rewrite Hbrk1, Hbrk. done. }
    exists c'. split.
    { cbn [foldl]. cbn [mbind option_bind]. rewrite Hon. exact Hloop. }
    split.
    { intros a e. rewrite Hheap', Hheap1, others_lookup, not_elem_of_cons.
      tauto. }
    intros a. rewrite Hcalls', Hdel1, Hdel, calls_for_app, <-app_assoc.
    f_equal.
    rewrite (calls_for_calls_of _ _ a (inv_nodup_lru _ _ _ _ Hinv)).
    rewrite Hheap1.
    change (heap (view j c s)) with (own j (proc_heap c)).
    destruct (proc_heap c !! a) as [e|] eqn:He.
    + destruct (decide (Shard (hash e) = j)) as [Hs|Hs].
      * assert (own j (proc_heap c) !! a = Some e) as Ho
          by (by apply own_lookup).
        rewrite Ho. rewrite decide_True by (by eapply Hlru).
        assert (others j (proc_heap c) !! a = None) as ->.
        { destruct (others j (proc_heap c) !! a) as [e'|] eqn:He'; [|done].
          apply others_lookup in He' as [He' Hne]. congruence. }
        rewrite decide_True by (rewrite Hs; by left). done.
      * assert (own j (proc_heap c) !! a = None) as ->.
        { destruct (own j (proc_heap c) !! a) as [e'|] eqn:He'; [|done].
          apply own_lookup in He' as [He' Hne]. congruence. }
        assert (others j (proc_heap c) !! a = Some e) as ->
          by (by apply others_lookup).
        destruct (decide (Shard (hash e) ∈ l)) as [Hin|Hout].
        -- rewrite decide_True by (by right). done.
        -- rewrite decide_False; [done|]. by intros [?|?]%elem_of_cons.
    + assert (own j (proc_heap c) !! a = None) as ->.
      { destruct (own j (proc_heap c) !! a) as [e'|] eqn:He'; [|done].
        apply own_lookup in He' as [He' Hne]. congruence. }
      assert (others j (proc_heap c) !! a = None) as ->.
      { destruct (others j (proc_heap c) !! a) as [e'|] eqn:He'; [|done].
        apply others_lookup in He' as [He' Hne]. congruence. }
      done.
Qed.

Lemma elem_of_shards (j : nat) :
  j ∈ reverse (seq 0 (Z.to_nat kNumShards)) ↔ (j < 16)%nat.
Proof.
  change (Z.to_nat kNumShards) with 16%nat.
  rewrite elem_of_reverse, elem_of_seq. lia.
Qed.

Lemma bags_empty (bags : list (list addr)) i bag :
  [] ≡ₚ concat bags → bags !! i = Some bag → bag = [].
Proof.
  intros Hp Hi. destruct bag as [|a bag]; [done|].
  assert (a ∈ concat bags) as Ha.
  { apply elem_of_concat. exists (a :: bag). split; [by left|].
    by eapply list_elem_of_lookup_2. }
  rewrite <-Hp in Ha. by apply elem_of_nil in Ha.
Qed.

(** X25.  Destroying a sharded cache on which no handle is outstanding
    frees everything.  In a reachable state in which the clients hold no
    handle the destructors of all sixteen shards pass their assertions;
    afterwards no record is allocated, the deleter of every entry that was
    still in the cache has been called exactly once more, with the entry's
    key and value, and no deleter has been called for anything else. *)
Theorem sharded_destroy_frees_all HashSlice capacity c :
  (∀ key, is_uint32 (HashSlice key)) →
  sharded_reachable HashSlice capacity c [] →
  ∃ c', ShardedLRUCache_destroy c = Some c' ∧
        proc_heap c' = ∅ ∧
        (∀ a e, proc_heap c !! a = Some e →
                calls_for a (proc_deleted c') =
                calls_for a (proc_deleted c) ++ [call_of a e]) ∧
        (∀ a, proc_heap c !! a = None →
              calls_for a (proc_deleted c') = calls_for a (proc_deleted c)).
Proof.
  intros Hhash Hreach.
  destruct (sharded_reachable_sinv HashSlice Hhash capacity c [] Hreach)
    as (bags & Hs & Hheld).
  destruct (sharded_destroy_list (per_shard capacity)
              (reverse (seq 0 (Z.to_nat kNumShards))) c)
    as (c' & Hloop & Hheap & Hcalls).
  { rewrite reverse_Permutation. apply NoDup_seq. }
  { intros j Hj%elem_of_shards.
    destruct (sinv_ok _ _ _ Hs j Hj) as (s & bag & Hsj & Hbj & Hinv).
    rewrite (bags_empty _ _ _ Hheld Hbj) in Hinv. by exists s. }
  assert (∀ a e, proc_heap c !! a = Some e →
                 Shard (hash e) ∈ reverse (seq 0 (Z.to_nat kNumShards)))
    as Hin.
  { intros a e He. apply elem_of_shards, Shard_lt. by eapply sinv_hash. }
  exists c'. split; [exact Hloop|]. split.
  { apply map_eq. intros a. rewrite lookup_empty.
    destruct (proc_heap c' !! a) as [e|] eqn:He; [|done].
    apply Hheap in He as [He Hout]. destruct Hout. by eapply Hin. }
  split.
  - intros a e He. rewrite Hcalls, He.
    rewrite decide_True by (by eapply Hin). done.
  - intros a He. by rewrite Hcalls, He, app_nil_r.
Qed.

Lemma sharded_destroy_frees_all_witness :
  (∀ key, is_uint32 (sample_hash key)) ∧
  sharded_reachable sample_hash 160 sharded_unpinned [] ∧
  ∃ c', ShardedLRUCache_destroy sharded_unpinned = Some c' ∧
        proc_heap c' = ∅ ∧
        (∀ a e, proc_heap sharded_unpinned !! a = Some e →
                calls_for a (proc_deleted c') =
                calls_for a (proc_deleted sharded_unpinned) ++
                [call_of a e]) ∧
        (∀ a, proc_heap sharded_unpinned !! a = None →
              calls_for a (proc_deleted c') =
              calls_for a (proc_deleted sharded_unpinned)).
Proof.
  split; [exact sample_hash_uint32|].
  split; [exact sharded_reachable_unpinned|].
  apply (sharded_destroy_frees_all sample_hash 160 sharded_unpinned
           sample_hash_uint32 sharded_reachable_unpinned).
Defined.

Lemma foldl_destroy_None l :
  foldl (λ acc s, c' ← acc; on_shard_ s LRUCache_destroy c') None l = None.
Proof. induction l as [|j l IH]; [done|]. exact IH. Qed.

Lemma on_shard_unit_others i (f : LRUCache → option LRUCache) c c' j :
  on_shard_ i f c = Some c' → j ≠ i → shard_ c' !! j = shard_ c !! j.
Proof.
  unfold on_shard_, on_shard. intros Hon Hj.
  destruct (shard_ c !! i) as [s|]; cbn [mbind option_bind] in Hon; [|done].
  destruct (f (attach c s)) as [s'|]; [|done].
  injection Hon as <-. cbn [shard_]. by apply list_lookup_insert_ne.
Qed.

(** The destructor of a shard with a pinned entry stops at its first
    assertion, whichever shards were destroyed before. *)
Lemma sharded_destroy_pinned : ∀ l c j s,
  j ∈ l → shard_ c !! j = Some s → in_use_ s ≠ [] →
  foldl (λ acc s, c' ← acc; on_shard_ s LRUCache_destroy c') (Some c) l =
    None.
Proof.
  induction l as [|i l IH]; intros c j s Hj Hs Hu.
  - by apply elem_of_nil in Hj.
  - cbn [foldl]. cbn [mbind option_bind].
    destruct (on_shard_ i LRUCache_destroy c) as [c1|] eqn:Hon;
      [|apply foldl_destroy_None].
    destruct (decide (j = i)) as [->|Hne].
    + exfalso. unfold on_shard_, on_shard in Hon. rewrite Hs in Hon.
      cbn [mbind option_bind] in Hon. unfold LRUCache_destroy in Hon.
      change (in_use_ (attach c s)) with (in_use_ s) in Hon.
      rewrite bool_decide_eq_false_2 in Hon by done. done.
    + apply (IH c1 j s).
      * by apply elem_of_cons in Hj as [?|?].
      * by rewrite (on_shard_unit_others _ _ _ _ _ Hon Hne).
      * done.
Qed.

(** X26.  In a state reached by a run in which the clients have never held
    more than 2^32 - 2 handles on one entry at a time, the sharded cache
    must not be destroyed while a client holds a handle on an entry that is
    in the cache: the assertion at the head of the destructor of that
    entry's shard fails. *)
Theorem sharded_destroy_while_pinned HashSlice capacity tr c held a e :
  (∀ key, is_uint32 (HashSlice key)) →
  sharded_run HashSlice capacity tr c held → srefs_fit tr →
  a ∈ held → proc_heap c !! a = Some e → in_cache e = true →
  ShardedLRUCache_destroy c = None.
Proof.
  intros Hhash Hrun Hfit Ha He Hic.
  pose proof (sharded_run_fit_reachable _ _ _ _ _ Hrun Hfit) as Hreach.
  destruct (sharded_reachable_sinv HashSlice Hhash capacity c held Hreach)
    as (bags & Hs & Hheld).
  destruct (sinv_held_owner _ _ _ _ _ Hs Hheld Ha)
    as (e' & s & bag & He' & Hsi & Hbi & Hab & Hinv).
  rewrite He in He'. injection He' as <-.
  assert (heap (view (Shard (hash e)) c s) !! a = Some e) as Hv.
  { change (own (Shard (hash e)) (proc_heap c) !! a = Some e).
    by apply own_lookup. }
  destruct (inv_refs _ _ _ _ Hinv a e Hv) as [Hrefs _].
  rewrite Hic in Hrefs. apply holds_pos in Hab.
  assert (a ∈ in_use_ (view (Shard (hash e)) c s)) as Hin.
  { apply (inv_in_use _ _ _ _ Hinv a). exists e. split; [done|].
    split; [done|]. lia. }
  apply (sharded_destroy_pinned _ c (Shard (hash e)) s).
  - apply elem_of_shards, Shard_lt. by eapply sinv_hash.
  - done.
  - intros Hnil. change (a ∈ in_use_ s) in Hin. rewrite Hnil in Hin.
    by apply elem_of_nil in Hin.
Qed.

Lemma sharded_destroy_while_pinned_witness :
  (∀ key, is_uint32 (sample_hash key)) ∧
  sharded_run sample_hash 160
    [SvInsert "bb" 200 6 0%nat 1%nat; SvInsert "a" 100 6 0%nat 0%nat]
    sharded_a_bb [1%nat; 0%nat] ∧
  srefs_fit [SvInsert "bb" 200 6 0%nat 1%nat;
             SvInsert "a" 100 6 0%nat 0%nat] ∧
  1%nat ∈ [1%nat; 0%nat] ∧
  proc_heap sharded_a_bb !! 1%nat =
    Some (set_refs 2 (new_handle "bb" (sample_hash "bb") 200 6 0%nat true)) ∧
  ShardedLRUCache_destroy sharded_a_bb = None.
Proof.
  assert (1%nat ∈ [1%nat; 0%nat]) as H1 by (by left).
  assert (proc_heap sharded_a_bb !! 1%nat =
          Some (set_refs 2 (new_handle "bb" (sample_hash "bb") 200 6 0%nat
                              true))) as H2 by (vm_compute; reflexivity).
  split; [exact sample_hash_uint32|].
  split; [exact sharded_run_a_bb|]. split; [exact srefs_fit_a_bb|].
  split; [exact H1|]. split; [exact H2|].
  apply (sharded_destroy_while_pinned sample_hash 160 _ sharded_a_bb
           [1%nat; 0%nat] 1%nat _ sample_hash_uint32 sharded_run_a_bb
           srefs_fit_a_bb H1 H2).
  reflexivity.
Defined.

(** * The pointer code and the sequences

    The methods of a shard are modelled on the sequences of entries that the
    two circular lists and the hash chains thread.  The theorems below relate
    the assignments to [next], [prev] and [next_hash] that the code makes to
    the sequence operations of the model. *)

Lemma threads_sample_lru :
  threads lru_head sample_links (lru_ sample_a_b_pinned).
Proof. vm_compute. split; [repeat constructor; set_solver|done]. Qed.

Lemma threads_sample_in_use :
  threads in_use_head sample_links (in_use_ sample_a_b_pinned).
Proof. vm_compute. split; [repeat constructor; set_solver|done]. Qed.

Lemma sample_lists_apart a :
  a ∈ lru_ sample_a_b_pinned → a ∉ in_use_ sample_a_b_pinned.
Proof.
  change (lru_ sample_a_b_pinned) with [0%nat].
  change (in_use_ sample_a_b_pinned) with [1%nat]. set_solver.
Qed.

(** X27.  [LRU_Remove] on the link fields.  When the two circular lists
    thread the sequences [lru_] and [in_use_] of the model and [e] is on
    one of them, the two assignments of [LRU_Remove(e)] leave lists that
    thread the sequences of the model after [LRU_Remove]: [e] is gone from
    its list, the order of the remaining entries is kept, and the other
    list is as before. *)
Theorem lru_remove_on_links L s e :
  threads lru_head L (lru_ s) → threads in_use_head L (in_use_ s) →
  (∀ a, a ∈ lru_ s → a ∉ in_use_ s) →
  e ∈ lru_ s ++ in_use_ s →
  threads lru_head (LRU_Remove_links (at_entry e) L) (lru_ (LRU_Remove e s)) ∧
  threads in_use_head (LRU_Remove_links (at_entry e) L)
    (in_use_ (LRU_Remove e s)).
Proof.
  intros Hl Hu Hdisj He.
  change (lru_ (LRU_Remove e s)) with (filter (λ x, x ≠ e) (lru_ s)).
  change (in_use_ (LRU_Remove e s)) with (filter (λ x, x ≠ e) (in_use_ s)).
  apply elem_of_app in He as [He|He].
  - assert (e ∉ in_use_ s) as Hn by (by apply Hdisj).
    rewrite (filter_ne_id (in_use_ s) e Hn). split.
    + by apply threads_LRU_Remove.
    + apply (threads_LRU_Remove_frame in_use_head lru_head L (in_use_ s)
               (lru_ s) e); [done|done|done| |done].
      intros a Ha Ha'. by apply (Hdisj a).
  - assert (e ∉ lru_ s) as Hn by (intros Hin; by apply (Hdisj e)).
    rewrite (filter_ne_id (lru_ s) e Hn). split.
    + by apply (threads_LRU_Remove_frame lru_head in_use_head L (lru_ s)
                  (in_use_ s) e).
    + by apply threads_LRU_Remove.
Qed.

Lemma lru_remove_on_links_witness :
  threads lru_head sample_links (lru_ sample_a_b_pinned) ∧
  threads in_use_head sample_links (in_use_ sample_a_b_pinned) ∧
  0%nat ∈ lru_ sample_a_b_pinned ++ in_use_ sample_a_b_pinned ∧
  threads lru_head (LRU_Remove_links (at_entry 0%nat) sample_links)
    (lru_ (LRU_Remove 0%nat sample_a_b_pinned)) ∧
  threads in_use_head (LRU_Remove_links (at_entry 0%nat) sample_links)
    (in_use_ (LRU_Remove 0%nat sample_a_b_pinned)).
Proof.
  assert (0%nat ∈ lru_ sample_a_b_pinned ++ in_use_ sample_a_b_pinned) as H
    by (by left).
  split; [exact threads_sample_lru|]. split; [exact threads_sample_in_use|].
  split; [exact H|].
  exact (lru_remove_on_links sample_links sample_a_b_pinned 0%nat
           threads_sample_lru threads_sample_in_use sample_lists_apart H).
Defined.

(** X28.  [LRU_Append] on the link fields.  When the two circular lists
    thread the sequences of the model and [e] is on neither, the four
    assignments of [LRU_Append(list, e)] leave lists that thread the
    sequences of the model after [LRU_Append]: [e] is the newest entry of
    [*list], reached as [list->prev], the entries before it keep their
    order, and the other list is as before. *)
Theorem lru_append_on_links L s h e :
  threads lru_head L (lru_ s) → threads in_use_head L (in_use_ s) →
  (∀ a, a ∈ lru_ s → a ∉ in_use_ s) →
  e ∉ lru_ s → e ∉ in_use_ s →
  threads lru_head (LRU_Append_links (at_head h) (at_entry e) L)
    (lru_ (LRU_Append h e s)) ∧
  threads in_use_head (LRU_Append_links (at_head h) (at_entry e) L)
    (in_use_ (LRU_Append h e s)) ∧
  prev (LRU_Append_links (at_head h) (at_entry e) L) (at_head h) = at_entry e.
Proof.
  intros Hl Hu Hdisj Hel Heu.
  assert (∀ a, a ∈ in_use_ s → a ∉ lru_ s) as Hdisj'.
  { intros a Ha Ha'. by apply (Hdisj a). }
  destruct h.
  - change (lru_ (LRU_Append lru_head e s)) with (lru_ s ++ [e]).
    change (in_use_ (LRU_Append lru_head e s)) with (in_use_ s).
    pose proof (threads_LRU_Append lru_head L (lru_ s) e Hl Hel) as Hnew.
    split; [done|]. split.
    + by apply (threads_LRU_Append_frame in_use_head lru_head L (in_use_ s)
                  (lru_ s) e).
    + destruct (threads_oldest _ _ _ Hnew) as [_ Hp].
      by rewrite last_snoc in Hp.
  - change (lru_ (LRU_Append in_use_head e s)) with (lru_ s).
    change (in_use_ (LRU_Append in_use_head e s)) with (in_use_ s ++ [e]).
    pose proof (threads_LRU_Append in_use_head L (in_use_ s) e Hu Heu)
      as Hnew.
    split.
    + by apply (threads_LRU_Append_frame lru_head in_use_head L (lru_ s)
                  (in_use_ s) e).
    + split; [done|]. destruct (threads_oldest _ _ _ Hnew) as [_ Hp].
      by rewrite last_snoc in Hp.
Qed.

Lemma lru_append_on_links_witness :
  threads lru_head sample_links (lru_ sample_a_b_pinned) ∧
  threads in_use_head sample_links (in_use_ sample_a_b_pinned) ∧
  (2%nat ∉ lru_ sample_a_b_pinned) ∧ (2%nat ∉ in_use_ sample_a_b_pinned) ∧
  threads lru_head
    (LRU_Append_links (at_head in_use_head) (at_entry 2%nat) sample_links)
    (lru_ (LRU_Append in_use_head 2%nat sample_a_b_pinned)) ∧
  threads in_use_head
    (LRU_Append_links (at_head in_use_head) (at_entry 2%nat) sample_links)
    (in_use_ (LRU_Append in_use_head 2%nat sample_a_b_pinned)) ∧
  prev (LRU_Append_links (at_head in_use_head) (at_entry 2%nat) sample_links)
    (at_head in_use_head) = at_entry 2%nat.
Proof.
  assert (2%nat ∉ lru_ sample_a_b_pinned) as H1.
  { change (lru_ sample_a_b_pinned) with [0%nat]. set_solver. }
  assert (2%nat ∉ in_use_ sample_a_b_pinned) as H2.
  { change (in_use_ sample_a_b_pinned) with [1%nat]. set_solver. }
  split; [exact threads_sample_lru|]. split; [exact threads_sample_in_use|].
  split; [exact H1|]. split; [exact H2|].
  exact (lru_append_on_links sample_links sample_a_b_pinned in_use_head 2%nat
           threads_sample_lru threads_sample_in_use sample_lists_apart H1 H2).
Defined.

Lemma hash_chain_sample :
  hash_chain sample_bucket (bucket_head sample_bucket) [0%nat].
Proof. done. Qed.

Lemma NoDup_sample_chain : NoDup [0%nat].
Proof. repeat constructor. set_solver. Qed.

(** X29.  [HandleTable::Insert] on the link fields of a bucket.  When the
    [next_hash] pointers of a bucket thread the chain of the model, the loop
    of [FindPointer] ends within as many rounds as the chain has entries, at
    the slot whose position the model computes; what the slot points to is
    the entry the model finds there, or [nullptr] past the end; and after
    the two assignments of [Insert] the pointers thread the chain of the
    model: [h] in place of the entry found, or appended at the end. *)
Theorem bucket_insert_on_links mem B chain k hh h j :
  hash_chain B (bucket_head B) chain → NoDup chain → h ∉ chain →
  FindPointer_walk mem k hh chain = Some j →
  ∃ p, FindPointer_links (length chain) (mismatch_of mem k hh) slot_head B =
         Some p ∧
       deref p B = chain !! j ∧
       hash_chain (HT_Insert_links p h B)
         (bucket_head (HT_Insert_links p h B))
         (take j chain ++ h :: drop (S j) chain).
Proof.
  intros Hc Hnd Hh Hw.
  pose proof (FindPointer_walk_le _ _ _ _ _ Hw) as Hle.
  exists (slot_at chain j). split; [by apply FindPointer_links_walk|].
  split; [by apply deref_slot_at|].
  by apply hash_chain_HT_Insert.
Qed.

Lemma bucket_insert_on_links_witness :
  hash_chain sample_bucket (bucket_head sample_bucket) [0%nat] ∧
  NoDup [0%nat] ∧ (1%nat ∉ [0%nat]) ∧
  FindPointer_walk sample_mem "a" 7 [0%nat] = Some 0%nat ∧
  ∃ p, FindPointer_links (length [0%nat]) (mismatch_of sample_mem "a" 7)
         slot_head sample_bucket = Some p ∧
       deref p sample_bucket = [0%nat] !! 0%nat ∧
       hash_chain (HT_Insert_links p 1%nat sample_bucket)
         (bucket_head (HT_Insert_links p 1%nat sample_bucket))
         (take 0 [0%nat] ++ 1%nat :: drop 1 [0%nat]).
Proof.
  assert (1%nat ∉ [0%nat]) as H1 by set_solver.
  assert (FindPointer_walk sample_mem "a" 7 [0%nat] = Some 0%nat) as H2
    by (vm_compute; reflexivity).
  split; [exact hash_chain_sample|]. split; [exact NoDup_sample_chain|].
  split; [exact H1|]. split; [exact H2|].
  exact (bucket_insert_on_links sample_mem sample_bucket [0%nat] "a" 7 1%nat
           0%nat hash_chain_sample NoDup_sample_chain H1 H2).
Defined.

Lemma delete_past_end {A} (l : list A) : ∀ j : nat,
  (length l <= j)%nat → delete j l = l.
Proof.
  induction l as [|a l IH]; intros j Hj; [by destruct j|].
  destruct j as [|j]; simpl in Hj; [lia|].
  change (delete (S j) (a :: l)) with (a :: delete j l).
  rewrite IH; [done|lia].
Qed.

(** X30.  [HandleTable::Remove] on the link fields of a bucket.  When the
    [next_hash] pointers of a bucket thread the chain of the model,
    [FindPointer] ends at the slot whose position the model computes, and
    after [*ptr = result->next_hash] the pointers thread the chain without
    the entry found; when no entry matches nothing is assigned and the
    chain is as before. *)
Theorem bucket_remove_on_links mem B chain k hh j :
  hash_chain B (bucket_head B) chain → NoDup chain →
  FindPointer_walk mem k hh chain = Some j →
  ∃ p, FindPointer_links (length chain) (mismatch_of mem k hh) slot_head B =
         Some p ∧
       deref p B = chain !! j ∧
       hash_chain (HT_Remove_links p B) (bucket_head (HT_Remove_links p B))
         (delete j chain) ∧
       (chain !! j = None → HT_Remove_links p B = B ∧ delete j chain = chain).
Proof.
  intros Hc Hnd Hw.
  pose proof (FindPointer_walk_le _ _ _ _ _ Hw) as Hle.
  pose proof (deref_slot_at B chain j Hc Hle) as Hd.
  assert (chain !! j = None →
          HT_Remove_links (slot_at chain j) B = B ∧ delete j chain = chain)
    as Hnone.
  { intros Hn. split.
    - unfold HT_Remove_links. by rewrite Hd, Hn.
    - apply delete_past_end. by apply lookup_ge_None. }
  exists (slot_at chain j). split; [by apply FindPointer_links_walk|].
  split; [done|]. split; [|done].
  destruct (chain !! j) as [a|] eqn:Ha.
  - apply hash_chain_HT_Remove; [done|done|]. by eapply lookup_lt_Some.
  - destruct (Hnone eq_refl) as [-> ->]. done.
Qed.

Lemma bucket_remove_on_links_witness :
  hash_chain sample_bucket (bucket_head sample_bucket) [0%nat] ∧
  NoDup [0%nat] ∧
  FindPointer_walk sample_mem "a" 7 [0%nat] = Some 0%nat ∧
  ∃ p, FindPointer_links (length [0%nat]) (mismatch_of sample_mem "a" 7)
         slot_head sample_bucket = Some p ∧
       deref p sample_bucket = [0%nat] !! 0%nat ∧
       hash_chain (HT_Remove_links p sample_bucket)
         (bucket_head (HT_Remove_links p sample_bucket))
         (delete 0%nat [0%nat]) ∧
       ([0%nat] !! 0%nat = None →
        HT_Remove_links p sample_bucket = sample_bucket ∧
        delete 0%nat [0%nat] = [0%nat]).
Proof.
  assert (FindPointer_walk sample_mem "a" 7 [0%nat] = Some 0%nat) as H2
    by (vm_compute; reflexivity).
  split; [exact hash_chain_sample|]. split; [exact NoDup_sample_chain|].
  split; [exact H2|].
  exact (bucket_remove_on_links sample_mem sample_bucket [0%nat] "a" 7
           0%nat hash_chain_sample NoDup_sample_chain H2).
Defined.
